(** * StyleForge token engine: colour conversion, CSS variable extraction,
      shadow decomposition and token categorisation.

    Shallow embedding of [src/core/colorUtils.ts] and [src/core/parser.ts].

    Modelling conventions.
    - A JavaScript string is a list of 8-bit characters ([str]).  Case
      mapping and white space are the ASCII ones; [\s], [\d] and [\w] are the
      ASCII classes.
    - Regular expressions are run by a backtracking matcher ([rmatch]) with
      the priorities of ECMAScript: alternatives left to right, greedy and
      lazy repetition, an iteration that consumes nothing is refused.
    - A JavaScript number is abstracted by the class [JsNum].  The instance
      [floatNum] is IEEE-754 binary64 ([PrimFloat.float]); [Math.cos],
      [Math.sin] and [Math.pow], which ECMAScript leaves
      implementation-approximated, are parameters of that instance.  The
      instance [realNum] reads the same code over the real numbers extended
      with NaN.
    - A function that can raise returns in [exc].
    - The loop of [categorizeTokens] is run with its state: the token set
      and the three variables that the typography rule declares with [var],
      which belong to the function and are not reset by a turn.
    - An [async] function is cut at its [await]s: a call is suspended
      there, other calls and other steps may run, and the call resumes with
      what the awaited promise settled to. *)

From stdpp Require Import gmap strings.
From Stdlib Require Import ZArith Lia Bool List Ascii.
From Stdlib Require String.
From Stdlib Require Import PrimFloat SpecFloat FloatOps FloatAxioms.
From Stdlib Require Import Reals Lra.
Import ListNotations.

Local Open Scope string_scope.
Local Open Scope nat_scope.
Local Open Scope list_scope.

(* ===================================================================== *)
(** ** Strings *)
(* ===================================================================== *)

Definition str := list ascii.

Definition js (s : string) : str := String.list_ascii_of_string s.

Module Str.

Definition code (c : ascii) : nat := nat_of_ascii c.

Definition between (lo hi : nat) (c : ascii) : bool :=
  Nat.leb lo (code c) && Nat.leb (code c) hi.

Definition isDigit (c : ascii) : bool := between 48 57 c.
Definition isUpper (c : ascii) : bool := between 65 90 c.
Definition isLower (c : ascii) : bool := between 97 122 c.
Definition isSpace (c : ascii) : bool :=
  between 9 13 c || Nat.eqb (code c) 32.
Definition isWord (c : ascii) : bool :=
  isDigit c || isUpper c || isLower c || Nat.eqb (code c) 95.
Definition isChar (a c : ascii) : bool := Ascii.eqb a c.

Definition eqb (a b : str) : bool :=
  if list_eq_dec ascii_dec a b then true else false.

Definition lowerChar (c : ascii) : ascii :=
  if isUpper c then ascii_of_nat (code c + 32) else c.

Definition toLowerCase (s : str) : str := map lowerChar s.

Fixpoint trimStart (s : str) : str :=
  match s with
  | c :: t => if isSpace c then trimStart t else s
  | [] => []
  end.

Definition trimEnd (s : str) : str := rev (trimStart (rev s)).

Definition trim (s : str) : str := trimEnd (trimStart s).

Fixpoint startsWith (p s : str) : bool :=
  match p, s with
  | [], _ => true
  | a :: p', b :: s' => Ascii.eqb a b && startsWith p' s'
  | _ :: _, [] => false
  end.

Definition endsWith (p s : str) : bool := startsWith (rev p) (rev s).

Fixpoint includes (p s : str) : bool :=
  startsWith p s ||
  match s with
  | [] => false
  | _ :: t => includes p t
  end.

(** [s.replace(p, by)] with a string pattern: the first occurrence only. *)
Fixpoint replace (p by_ s : str) : str :=
  if startsWith p s then by_ ++ skipn (length p) s
  else match s with
       | [] => []
       | c :: t => c :: replace p by_ t
       end.

(** [s.split(c)] for a one-character separator. *)
Fixpoint split (sep : ascii) (s : str) : list str :=
  match s with
  | [] => [[]]
  | c :: t =>
      if Ascii.eqb sep c then [] :: split sep t
      else match split sep t with
           | w :: ws => (c :: w) :: ws
           | [] => [[c]]
           end
  end.

(** [s.slice(i, j)] for [0 <= i <= j]. *)
Definition slice (i j : nat) (s : str) : str := firstn (j - i) (skipn i s).

(** [s[i]], the empty string standing for [undefined] is never needed: the
    callers index below the length. *)
Definition at_ (i : nat) (s : str) : str := firstn 1 (skipn i s).

End Str.

(* ===================================================================== *)
(** ** Regular expressions *)
(* ===================================================================== *)

Module Re.

Inductive regex : Type :=
| Eps
| Cls (p : ascii -> bool)
| Cat (r1 r2 : regex)
| Or (r1 r2 : regex)
| Rep (greedy : bool) (r : regex)
| Grp (i : nat) (r : regex)
| Bol
| Eol.

(** Derived forms. *)
Definition chr (c : ascii) : regex := Cls (Str.isChar c).
Fixpoint lit (s : str) : regex :=
  match s with
  | [] => Eps
  | c :: t => Cat (chr c) (lit t)
  end.
Definition star (r : regex) : regex := Rep true r.
Definition lazy (r : regex) : regex := Rep false r.
Definition plus (r : regex) : regex := Cat r (Rep true r).
Definition opt (r : regex) : regex := Or r Eps.

Fixpoint seq (rs : list regex) : regex :=
  match rs with
  | [] => Eps
  | [r] => r
  | r :: rs' => Cat r (seq rs')
  end.

(** Character classes of the source patterns. *)
Definition ws : regex := Cls Str.isSpace.
Definition any (c : ascii) : bool := true.
Definition digitDot (c : ascii) : bool := Str.isDigit c || Str.isChar "." c.
Definition wordDash (c : ascii) : bool := Str.isWord c || Str.isChar "-" c.
Definition noneOf (x : ascii) (c : ascii) : bool := negb (Str.isChar x c).

(** Matcher state: offset in the subject, what is left of it, the groups. *)
Record mstate : Type := MState {
  pos : nat;
  rest : str;
  caps : list (option str)
}.

Definition advance (st : mstate) : mstate :=
  MState (S (pos st)) (tl (rest st)) (caps st).

Fixpoint setNth {A} (i : nat) (x : A) (d : A) (l : list A) : list A :=
  match i, l with
  | O, [] => [x]
  | O, _ :: t => x :: t
  | S i', [] => d :: setNth i' x d []
  | S i', y :: t => y :: setNth i' x d t
  end.

Definition capture (i : nat) (st0 st1 : mstate) : mstate :=
  MState (pos st1) (rest st1)
    (setNth i (Some (firstn (pos st1 - pos st0) (rest st0))) None (caps st1)).

Section Matcher.
Context {A : Type}.

(** The iterations of a repetition whose body is matched by [step]: an
    iteration that consumes nothing is refused, so [fuel], the number of
    characters left when the repetition is entered, is never exhausted. *)
Fixpoint repeatLoop (step : (mstate -> option A) -> mstate -> option A)
    (greedy : bool) (k : mstate -> option A) (fuel : nat) (st : mstate)
    {struct fuel} : option A :=
  match fuel with
  | O => k st
  | S fuel' =>
      let more (st' : mstate) :=
        if Nat.ltb (length (rest st')) (length (rest st))
        then repeatLoop step greedy k fuel' st' else None in
      if greedy then
        match step more st with
        | Some x => Some x
        | None => k st
        end
      else
        match k st with
        | Some x => Some x
        | None => step more st
        end
  end.

Fixpoint rmatch (r : regex) (k : mstate -> option A) (st : mstate)
  : option A :=
  match r with
  | Eps => k st
  | Cls p =>
      match rest st with
      | c :: _ => if p c then k (advance st) else None
      | [] => None
      end
  | Cat r1 r2 => rmatch r1 (rmatch r2 k) st
  | Or r1 r2 =>
      match rmatch r1 k st with
      | Some x => Some x
      | None => rmatch r2 k st
      end
  | Rep greedy r1 => repeatLoop (rmatch r1) greedy k (length (rest st)) st
  | Grp i r1 => rmatch r1 (fun st' => k (capture i st st')) st
  | Bol => if Nat.eqb (pos st) 0 then k st else None
  | Eol => match rest st with [] => k st | _ :: _ => None end
  end.
End Matcher.

(** A successful match: where it starts and ends, and the groups
    ([groups !! i] is [match[i]], [None] for a group that took no part). *)
Record rmatched : Type := Matched {
  index : nat;
  stop : nat;
  groups : list (option str)
}.

Definition group (i : nat) (m : rmatched) : option str :=
  nth i (groups m) None.

(** [match[i]] where a string is expected: ToString of the group. *)
Definition text (i : nat) (m : rmatched) : str :=
  match group i m with
  | Some s => s
  | None => js "undefined"
  end.

(** [if (match[i])]: the group took part and is not empty. *)
Definition present (i : nat) (m : rmatched) : bool :=
  match group i m with
  | Some (_ :: _) => true
  | _ => false
  end.

(** The match anchored at the current position. *)
Definition matchHere (r : regex) (st : mstate) : option rmatched :=
  rmatch r (fun st' =>
    Some (Matched (pos st) (pos st')
            (setNth 0 (Some (firstn (pos st' - pos st) (rest st))) None
               (caps st')))) st.

(** The leftmost match at or after the current position. *)
Fixpoint searchFrom (r : regex) (fuel : nat) (st : mstate)
  : option rmatched :=
  match matchHere r st with
  | Some m => Some m
  | None =>
      match fuel, rest st with
      | S fuel', _ :: _ =>
          searchFrom r fuel' (MState (S (pos st)) (tl (rest st)) [])
      | _, _ => None
      end
  end.

(** [s.match(r)] and [r.exec(s)] for a pattern without the [g] flag. *)
Definition exec (r : regex) (s : str) : option rmatched :=
  searchFrom r (length s) (MState 0 s []).

(** [r.exec(s)] for a [g] pattern whose [lastIndex] is [from]. *)
Definition execAt (r : regex) (from : nat) (s : str) : option rmatched :=
  searchFrom r (length s - from) (MState from (skipn from s) []).

(** The matches a [while ((m = r.exec(s)) !== null)] loop sees.  An empty
    match would leave [lastIndex] unchanged and loop for ever; it ends the
    enumeration here. *)
Fixpoint execAll (r : regex) (fuel from : nat) (s : str) : list rmatched :=
  match fuel with
  | O => []
  | S fuel' =>
      match execAt r from s with
      | Some m =>
          if Nat.ltb (index m) (stop m)
          then m :: execAll r fuel' (stop m) s
          else [m]
      | None => []
      end
  end.

(** [s.replace(r, by)] without the [g] flag. *)
Definition replace (r : regex) (by_ : str) (s : str) : str :=
  match exec r s with
  | Some m => firstn (index m) s ++ by_ ++ skipn (stop m) s
  | None => s
  end.

(** [s.replace(r, by)] with the [g] flag: after an empty match the scan
    resumes one character further. *)
Fixpoint replaceAllFrom (r : regex) (by_ : str) (fuel from : nat) (s : str)
  : str :=
  match fuel with
  | O => skipn from s
  | S fuel' =>
      match execAt r from s with
      | Some m =>
          if Nat.ltb (index m) (stop m) then
            firstn (index m - from) (skipn from s) ++ by_ ++
            replaceAllFrom r by_ fuel' (stop m) s
          else
            firstn (index m - from) (skipn from s) ++ by_ ++
            firstn 1 (skipn (index m) s) ++
            replaceAllFrom r by_ fuel' (S (index m)) s
      | None => skipn from s
      end
  end.

Definition replaceAll (r : regex) (by_ : str) (s : str) : str :=
  replaceAllFrom r by_ (S (length s)) 0 s.

(** [s.split(r)] (ECMAScript, RegExp.prototype[Symbol.split]): [p] is where
    the current piece starts, [q] the position tried. *)
Fixpoint splitFrom (r : regex) (fuel p q : nat) (s : str) : list str :=
  match fuel with
  | O => [skipn p s]
  | S fuel' =>
      if Nat.leb (length s) q then [skipn p s]
      else
        match matchHere r (MState q (skipn q s) []) with
        | None => splitFrom r fuel' p (S q) s
        | Some m =>
            let e := Nat.min (stop m) (length s) in
            if Nat.eqb e p then splitFrom r fuel' p (S q) s
            else firstn (q - p) (skipn p s) :: splitFrom r fuel' e e s
        end
  end.

Definition split (r : regex) (s : str) : list str :=
  match s with
  | [] =>
      match matchHere r (MState 0 [] []) with
      | Some _ => []
      | None => [[]]
      end
  | _ :: _ => splitFrom r (S (length s)) 0 0 s
  end.

End Re.


(* ===================================================================== *)
(** ** Numbers *)
(* ===================================================================== *)

(** A decimal numeral: [(-1)^neg * mant * 10^dexp]. *)
Record decimal : Type := Dec { dneg : bool; dmant : Z; dexp : Z }.

Module DecimalSyntax.

Definition ofUint (u : Decimal.uint) : Z := Z.of_N (N.of_uint u).

Definition ofSigned (i : Decimal.signed_int) (f : Decimal.uint) (e : Z)
  : decimal :=
  let k := Z.of_nat (Decimal.nb_digits f) in
  match i with
  | Decimal.Pos u => Dec false (ofUint u * 10 ^ k + ofUint f) (e - k)
  | Decimal.Neg u => Dec true (ofUint u * 10 ^ k + ofUint f) (e - k)
  end.

Definition parse (n : Number.number) : option decimal :=
  match n with
  | Number.Decimal (Decimal.Decimal i f) => Some (ofSigned i f 0)
  | Number.Decimal (Decimal.DecimalExp i f e) =>
      Some (ofSigned i f (Z.of_int e))
  | Number.Hexadecimal _ => None
  end.

Definition print (d : decimal) : option Number.number := None.

End DecimalSyntax.

Declare Scope dec_scope.
Delimit Scope dec_scope with dec.
Number Notation decimal DecimalSyntax.parse DecimalSyntax.print : dec_scope.

(** The operations of a JavaScript number that the sources use. *)
Class JsNum (num : Type) : Type := {
  lit : decimal -> num;
  NaN : num;
  Infinity : num;
  neg : num -> num;
  add : num -> num -> num;
  sub : num -> num -> num;
  mul : num -> num -> num;
  div : num -> num -> num;
  rem : num -> num -> num;
  lt : num -> num -> bool;
  le : num -> num -> bool;
  eq : num -> num -> bool;
  isNaN : num -> bool;
  Math_abs : num -> num;
  Math_max : num -> num -> num;
  Math_min : num -> num -> num;
  Math_cos : num -> num;
  Math_sin : num -> num;
  Math_pow : num -> num -> num;
  Math_PI : num
}.

Arguments lit {num _} _%_dec.

Declare Scope num_scope.
Delimit Scope num_scope with num.
Infix "+" := add : num_scope.
Infix "-" := sub : num_scope.
Infix "*" := mul : num_scope.
Infix "/" := div : num_scope.
Infix "mod" := rem : num_scope.
Infix "<" := lt : num_scope.
Infix "<=" := le : num_scope.
Notation "a > b" := (lt b a) : num_scope.
Notation "a === b" := (eq a b) (at level 70) : num_scope.
Notation "a !== b" := (negb (eq a b)) (at level 70) : num_scope.

Section NumberParsing.
Context {num : Type} {N : JsNum num}.

(** ToBoolean on a number: [0], [-0] and [NaN] are falsy. *)
Definition truthy (x : num) : bool := negb (isNaN x || eq x (lit 0)).

Definition digitValue (c : ascii) : Z := Z.of_nat (Str.code c - 48).

Fixpoint digitsValue (acc : Z) (ds : str) : Z :=
  match ds with
  | [] => acc
  | c :: t => digitsValue (10 * acc + digitValue c)%Z t
  end.

Fixpoint spanDigits (s : str) : str * str :=
  match s with
  | c :: t =>
      if Str.isDigit c then let (ds, r) := spanDigits t in (c :: ds, r)
      else ([], s)
  | [] => ([], [])
  end.

Definition takeSign (s : str) : bool * str :=
  match s with
  | "-"%char :: t => (true, t)
  | "+"%char :: t => (false, t)
  | _ => (false, s)
  end.

(** The exponent part [e[+-]ddd], when it is there and well formed. *)
Definition exponentPart (s : str) : Z :=
  match s with
  | c :: t =>
      if Str.isChar "e" c || Str.isChar "E" c then
        let (sg, t') := takeSign t in
        let (ds, _) := spanDigits t' in
        match ds with
        | [] => 0%Z
        | _ :: _ => if sg then (- digitsValue 0 ds)%Z else digitsValue 0 ds
        end
      else 0%Z
  | [] => 0%Z
  end.

(** [parseFloat(s)]: the longest prefix of the trimmed string that is a
    StrDecimalLiteral. *)
Definition parseFloat (s : str) : num :=
  let (sg, t) := takeSign (Str.trimStart s) in
  if Str.startsWith (js "Infinity") t then
    (if sg then neg Infinity else Infinity)
  else
    let (ip, t1) := spanDigits t in
    let (fp, t2) :=
      match t1 with
      | "."%char :: t1' => spanDigits t1'
      | _ => ([], t1)
      end in
    match ip ++ fp with
    | [] => NaN
    | ds =>
        lit (Dec sg (digitsValue 0 ds)
               (exponentPart t2 - Z.of_nat (length fp)))
    end.

Definition hexValue (c : ascii) : option Z :=
  if Str.isDigit c then Some (Z.of_nat (Str.code c - 48))
  else if Str.between 97 102 c then Some (Z.of_nat (Str.code c - 87))
  else if Str.between 65 70 c then Some (Z.of_nat (Str.code c - 55))
  else None.

Fixpoint hexDigits (acc : option Z) (s : str) : option Z :=
  match s with
  | c :: t =>
      match hexValue c with
      | Some d =>
          hexDigits (Some (16 * match acc with Some a => a | None => 0 end
                           + d)%Z) t
      | None => acc
      end
  | [] => acc
  end.

(** [parseInt(s, 16)]. *)
Definition parseInt16 (s : str) : num :=
  let (sg, t) := takeSign (Str.trimStart s) in
  let t' :=
    if Str.startsWith (js "0x") t || Str.startsWith (js "0X") t
    then skipn 2 t else t in
  match hexDigits None t' with
  | Some n => lit (Dec sg n 0)
  | None => NaN
  end.
End NumberParsing.

(** *** IEEE-754 binary64 *)

Module F64.

Definition ofSF (x : spec_float) : float := SF2Prim x.

(** The binary64 number nearest to a decimal numeral, ties to even. *)
Definition ofDecimal (d : decimal) : float :=
  match dmant d with
  | Z0 => if dneg d then neg_zero else zero
  | Zneg _ => nan
  | Zpos m =>
      match dexp d with
      | Zneg k =>
          ofSF (SFdiv prec emax (S754_finite (dneg d) m 0)
                  (S754_finite false (Pos.pow 10 k) 0))
      | e =>
          ofSF (binary_normalize prec emax
                  (if dneg d then - (Zpos m * 10 ^ e) else Zpos m * 10 ^ e)
                  0 (dneg d))
      end
  end%Z.

Arguments ofDecimal _%_dec.

(** [x % y]: the remainder of the truncating division, computed exactly. *)
Definition fmod (x y : float) : float :=
  match Prim2SF x, Prim2SF y with
  | S754_nan, _ | _, S754_nan => nan
  | S754_infinity _, _ => nan
  | _, S754_zero _ => nan
  | _, S754_infinity _ => x
  | S754_zero _, _ => x
  | S754_finite sx mx ex, S754_finite _ my ey =>
      let e := Z.min ex ey in
      let a := (Zpos mx * 2 ^ (ex - e))%Z in
      let b := (Zpos my * 2 ^ (ey - e))%Z in
      let r := Z.rem a b in
      ofSF (binary_normalize prec emax (if sx then - r else r)%Z e sx)
  end.

Definition max (x y : float) : float :=
  if is_nan x || is_nan y then nan
  else if PrimFloat.ltb x y then y
  else if PrimFloat.ltb y x then x
  else if get_sign x then y else x.

Definition min (x y : float) : float :=
  if is_nan x || is_nan y then nan
  else if PrimFloat.ltb x y then x
  else if PrimFloat.ltb y x then y
  else if get_sign x then x else y.

(** Number::toString(x) in radix 10 (ECMAScript 6.1.6.1.20): the shortest
    digit string that reads back as [x], the closest one when several do. *)
Definition digitChar (d : Z) : ascii := ascii_of_nat (48 + Z.to_nat d).

Fixpoint digitsFuel (fuel : nat) (n : Z) (acc : str) : str :=
  match fuel with
  | O => acc
  | S fuel' =>
      if (n <? 10)%Z then digitChar n :: acc
      else digitsFuel fuel' (n / 10)%Z (digitChar (n mod 10)%Z :: acc)
  end.

Definition digitsOfZ (n : Z) : str :=
  digitsFuel (S (Z.to_nat (Z.log2 n))) n [].

Definition pow2 (e : Z) : Z := (2 ^ Z.max e 0)%Z.
Definition pow10 (e : Z) : Z := (10 ^ Z.max e 0)%Z.

(** [10^n <= m * 2^e]. *)
Definition geP10 (m e n : Z) : bool :=
  (pow2 (- e) * pow10 n <=? m * pow2 e * pow10 (- n))%Z.

Fixpoint adjustUp (fuel : nat) (m e n : Z) : Z :=
  match fuel with
  | O => n
  | S fuel' => if geP10 m e n then adjustUp fuel' m e (n + 1)%Z else n
  end.

Fixpoint adjustDown (fuel : nat) (m e n : Z) : Z :=
  match fuel with
  | O => n
  | S fuel' =>
      if geP10 m e (n - 1)%Z then n else adjustDown fuel' m e (n - 1)%Z
  end.

(** The [n] with [10^(n-1) <= m * 2^e < 10^n]. *)
Definition decimalExponent (m e : Z) : Z :=
  let guess := ((Z.log2 m + e) * 30103 / 100000)%Z in
  adjustDown 4 m e (adjustUp 4 m e guess).

(** The two [k]-digit integers around [m * 2^e * 10^(k-n)], nearest first. *)
Definition candidates (m e n k : Z) : list Z :=
  let a := (m * pow2 e * pow10 (k - n))%Z in
  let b := (pow2 (- e) * pow10 (n - k))%Z in
  let q := (a / b)%Z in
  let r := (a mod b)%Z in
  match (2 * r ?= b)%Z with
  | Lt => [q; q + 1]
  | Gt => [q + 1; q]
  | Eq => if Z.even q then [q; q + 1] else [q + 1; q]
  end%Z.

(** A candidate [s] written as digits and the position of the point. *)
Definition normalise (s n k : Z) : Z * Z :=
  if (s =? 10 ^ k)%Z then (10 ^ (k - 1), n + 1)%Z else (s, n).

Definition readsBack (x : float) (s n k : Z) : bool :=
  let (s', n') := normalise s n k in
  (0 <? s')%Z && PrimFloat.eqb (ofDecimal (Dec false s' (n' - k))) x.

Fixpoint shortest (fuel : nat) (x : float) (m e n k : Z) : Z * Z * Z :=
  match fuel with
  | O => (m, n, k)
  | S fuel' =>
      match List.filter (fun s => readsBack x s n k) (candidates m e n k) with
      | s :: _ => let (s', n') := normalise s n k in (s', n', k)
      | [] => shortest fuel' x m e n (k + 1)%Z
      end
  end.

Definition zeros (n : Z) : str := repeat "0"%char (Z.to_nat n).

Definition layout (ds : str) (n k : Z) : str :=
  if ((k <=? n) && (n <=? 21))%Z then ds ++ zeros (n - k)
  else if ((0 <? n) && (n <=? 21))%Z then
    firstn (Z.to_nat n) ds ++ "."%char :: skipn (Z.to_nat n) ds
  else if ((-6 <? n) && (n <=? 0))%Z then
    "0"%char :: "."%char :: zeros (- n) ++ ds
  else
    let ex := (n - 1)%Z in
    let tail := "e"%char :: (if (ex <? 0)%Z then "-"%char else "+"%char)
                :: digitsOfZ (Z.abs ex) in
    match ds with
    | [d] => d :: tail
    | d :: ds' => d :: "."%char :: ds' ++ tail
    | [] => tail
    end.

Definition toString (x : float) : str :=
  match Prim2SF x with
  | S754_nan => js "NaN"
  | S754_zero _ => js "0"
  | S754_infinity s => if s then js "-Infinity" else js "Infinity"
  | S754_finite s m e =>
      let '(d, n, k) :=
        shortest 17 (PrimFloat.abs x) (Zpos m) e
          (decimalExponent (Zpos m) e) 1 in
      (if s then ["-"%char] else []) ++ layout (digitsOfZ d) n k
  end.

End F64.

(** The binary64 instance, given the host's [Math.cos], [Math.sin] and
    [Math.pow]. *)
Definition floatNum (cosf sinf : float -> float)
    (powf : float -> float -> float) : JsNum float := {|
  lit := F64.ofDecimal;
  NaN := nan;
  Infinity := infinity;
  neg := PrimFloat.opp;
  add := PrimFloat.add;
  sub := PrimFloat.sub;
  mul := PrimFloat.mul;
  div := PrimFloat.div;
  rem := F64.fmod;
  lt := PrimFloat.ltb;
  le := PrimFloat.leb;
  eq := PrimFloat.eqb;
  isNaN := PrimFloat.is_nan;
  Math_abs := PrimFloat.abs;
  Math_max := F64.max;
  Math_min := F64.min;
  Math_cos := cosf;
  Math_sin := sinf;
  Math_pow := powf;
  Math_PI := F64.ofDecimal 3.141592653589793
|}.


(** *** Real numbers with NaN

    The arithmetic of the sources read over the reals: no rounding, [None]
    for NaN, and every operation without a finite real result (a division
    by zero, an infinity, a power of a negative base) gives NaN too. *)

Module Real.

Definition num : Type := option R.

Definition ofDecimal (d : decimal) : num :=
  let m := if dneg d then (- dmant d)%Z else dmant d in
  Some match dexp d with
       | Zneg k => Q2R (QArith_base.Qmake m (Pos.pow 10 k))
       | e => IZR (m * 10 ^ e)
       end.

Definition lift1 (f : R -> R) (x : num) : num :=
  match x with
  | Some u => Some (f u)
  | None => None
  end.

Definition lift2 (f : R -> R -> R) (x y : num) : num :=
  match x, y with
  | Some u, Some v => Some (f u v)
  | _, _ => None
  end.

Definition test2 (f : R -> R -> bool) (x y : num) : bool :=
  match x, y with
  | Some u, Some v => f u v
  | _, _ => false
  end.

Definition ltb (u v : R) : bool := if Rlt_dec u v then true else false.
Definition leb (u v : R) : bool := if Rle_dec u v then true else false.
Definition eqb (u v : R) : bool := if Req_dec_T u v then true else false.

Definition div (x y : num) : num :=
  match x, y with
  | Some u, Some v => if eqb v 0 then None else Some (u / v)%R
  | _, _ => None
  end.

(** Rounding towards zero. *)
Definition trunc (q : R) : Z :=
  if Rle_dec 0 q then Int_part q else (- Int_part (- q))%Z.

Definition rem (x y : num) : num :=
  match x, y with
  | Some u, Some v =>
      if eqb v 0 then None else Some (u - v * IZR (trunc (u / v)))%R
  | _, _ => None
  end.

Definition pow (x y : num) : num :=
  match x, y with
  | Some u, Some v =>
      if eqb v 0 then Some 1%R
      else if ltb 0 u then Some (Rpower u v)
      else if eqb u 0 && ltb 0 v then Some 0%R
      else None
  | _, _ => None
  end.

Definition isNaN (x : num) : bool :=
  match x with
  | Some _ => false
  | None => true
  end.

End Real.

Definition realNum : JsNum Real.num := {|
  lit := Real.ofDecimal;
  NaN := None;
  Infinity := None;
  neg := Real.lift1 Ropp;
  add := Real.lift2 Rplus;
  sub := Real.lift2 Rminus;
  mul := Real.lift2 Rmult;
  div := Real.div;
  rem := Real.rem;
  lt := Real.test2 Real.ltb;
  le := Real.test2 Real.leb;
  eq := Real.test2 Real.eqb;
  isNaN := Real.isNaN;
  Math_abs := Real.lift1 Rabs;
  Math_max := Real.lift2 Rmax;
  Math_min := Real.lift2 Rmin;
  Math_cos := Real.lift1 cos;
  Math_sin := Real.lift1 sin;
  Math_pow := Real.pow;
  Math_PI := Some PI
|}.

(* ===================================================================== *)
(** ** Exceptions *)
(* ===================================================================== *)

Inductive error : Type := TypeError.

Inductive exc (A : Type) : Type :=
| Ok (x : A)
| Throw (e : error).

Arguments Ok {A} x.
Arguments Throw {A} e.

Definition bind {A B} (m : exc A) (f : A -> exc B) : exc B :=
  match m with
  | Ok x => f x
  | Throw e => Throw e
  end.

Notation "'try!' x ':=' m 'in' k" := (bind m (fun x => k))
  (at level 10, x name, m at level 100, k at level 200).

(* ===================================================================== *)
(** ** colorUtils.ts *)
(* ===================================================================== *)

Record FigmaColor (num : Type) : Type := RGBA {
  red : num;
  green : num;
  blue : num;
  alpha : num
}.

Arguments RGBA {num} _ _ _ _.
Arguments red {num} _.
Arguments green {num} _.
Arguments blue {num} _.
Arguments alpha {num} _.

(** What reading a property of an object literal can find: a property of
    its own, one inherited from [Object.prototype], or nothing. *)
Inductive property : Type :=
| Own (s : str)
| Inherited
| Absent.

Definition objectPrototypeKeys : list str :=
  map js ["constructor"; "__proto__"; "hasOwnProperty"; "isPrototypeOf";
          "propertyIsEnumerable"; "toLocaleString"; "toString"; "valueOf";
          "__defineGetter__"; "__defineSetter__"; "__lookupGetter__";
          "__lookupSetter__"]%string.

Fixpoint ownProperty (o : list (str * str)) (k : str) : option str :=
  match o with
  | [] => None
  | (k', v) :: o' => if Str.eqb k' k then Some v else ownProperty o' k
  end.

(** [o[k]] for an object literal [o]. *)
Definition getProperty (o : list (str * str)) (k : str) : property :=
  match ownProperty o k with
  | Some v => Own v
  | None =>
      if existsb (Str.eqb k) objectPrototypeKeys then Inherited else Absent
  end.

Module Pattern.
Import Re.

Definition num : regex := plus (Cls digitDot).
Definition pct : regex := opt (chr "%").

(** [/oklch\(\s*([\d.]+)%?\s+([\d.]+)\s+([\d.]+)\s*(?:\/\s*([\d.]+%?))?\s*\)/] *)
Definition oklch : regex :=
  seq [lit (js "oklch("); star ws; Grp 1 num; pct; plus ws; Grp 2 num;
       plus ws; Grp 3 num; star ws;
       opt (seq [chr "/"; star ws; Grp 4 (Cat num pct)]);
       star ws; chr ")"].

Definition commaOrSpace (c : ascii) : bool :=
  Str.isChar "," c || Str.isSpace c.
Definition commaOrSlash (c : ascii) : bool :=
  Str.isChar "," c || Str.isChar "/" c.
Definition digitDotPct (c : ascii) : bool :=
  Str.isDigit c || Str.isChar "." c || Str.isChar "%" c.

(** [/hsla?\(\s*([\d.]+)\s*[,\s]\s*([\d.]+)%?\s*[,\s]\s*([\d.]+)%?\s*(?:[,/]\s*([\d.]+%?))?\s*\)/] *)
Definition hsl : regex :=
  seq [lit (js "hsl"); opt (chr "a"); chr "("; star ws; Grp 1 num; star ws;
       Cls commaOrSpace; star ws; Grp 2 num; pct; star ws;
       Cls commaOrSpace; star ws; Grp 3 num; pct; star ws;
       opt (seq [Cls commaOrSlash; star ws; Grp 4 (Cat num pct)]);
       star ws; chr ")"].

(** [/rgba?\(\s*([\d.]+)\s*,?\s*([\d.]+)\s*,?\s*([\d.]+)\s*(?:[,/]\s*([\d.%]+))?\s*\)/] *)
Definition rgb : regex :=
  seq [lit (js "rgb"); opt (chr "a"); chr "("; star ws; Grp 1 num; star ws;
       opt (chr ","); star ws; Grp 2 num; star ws;
       opt (chr ","); star ws; Grp 3 num; star ws;
       opt (seq [Cls commaOrSlash; star ws; Grp 4 (plus (Cls digitDotPct))]);
       star ws; chr ")"].

(** [/^(-?[\d.]+)(rem|px|em)?$/] *)
Definition dimension : regex :=
  seq [Bol; Grp 1 (Cat (opt (chr "-")) num);
       opt (Grp 2 (Or (lit (js "rem")) (Or (lit (js "px")) (lit (js "em")))));
       Eol].

End Pattern.

Section ColorUtils.
Context {num : Type} {N : JsNum num}.
Local Open Scope num_scope.

Definition clamp01 (n : num) : num := Math_max (lit 0) (Math_min (lit 1) n).

Definition linearToSrgb (c : num) : num :=
  if c <= lit 0.0031308 then lit 12.92 * c
  else lit 1.055 * Math_pow c (lit 1 / lit 2.4) - lit 0.055.

Definition oklchToRgba (L C H_ alpha : num) : FigmaColor num :=
  let hRad := (H_ * Math_PI) / lit 180 in
  let a_ := C * Math_cos hRad in
  let b_ := C * Math_sin hRad in
  let l_ := L + lit 0.3963377774 * a_ + lit 0.2158037573 * b_ in
  let m_ := L - lit 0.1055613458 * a_ - lit 0.0638541728 * b_ in
  let s_ := L - lit 0.0894841775 * a_ - lit 1.291485548 * b_ in
  let l := l_ * l_ * l_ in
  let m := m_ * m_ * m_ in
  let s := s_ * s_ * s_ in
  let r := lit 4.0767416621 * l - lit 3.3077115913 * m
           + lit 0.2309699292 * s in
  let g := lit (-1.2684380046) * l + lit 2.6097574011 * m
           - lit 0.3413193965 * s in
  let b := lit (-0.0041960863) * l - lit 0.7034186147 * m
           + lit 1.707614701 * s in
  let r := clamp01 (linearToSrgb r) in
  let g := clamp01 (linearToSrgb g) in
  let b := clamp01 (linearToSrgb b) in
  RGBA r g b alpha.

Definition hslToRgba (h s l alpha : num) : FigmaColor num :=
  let s := s / lit 100 in
  let l := l / lit 100 in
  let c := (lit 1 - Math_abs (lit 2 * l - lit 1)) * s in
  let x := c * (lit 1 - Math_abs (((h / lit 60) mod lit 2) - lit 1)) in
  let m := l - c / lit 2 in
  let '(r, g, b) :=
    if h < lit 60 then (c, x, lit 0)
    else if h < lit 120 then (x, c, lit 0)
    else if h < lit 180 then (lit 0, c, x)
    else if h < lit 240 then (lit 0, x, c)
    else if h < lit 300 then (x, lit 0, c)
    else (c, lit 0, x) in
  RGBA (clamp01 (r + m)) (clamp01 (g + m)) (clamp01 (b + m)) alpha.

Definition hexToRgba (hex : str) : FigmaColor num :=
  let hex := Str.replace (js "#") [] hex in
  let hex :=
    if Nat.eqb (length hex) 3 then
      Str.at_ 0 hex ++ Str.at_ 0 hex ++ Str.at_ 1 hex ++ Str.at_ 1 hex ++
      Str.at_ 2 hex ++ Str.at_ 2 hex
    else hex in
  let hex :=
    if Nat.eqb (length hex) 4 then
      Str.at_ 0 hex ++ Str.at_ 0 hex ++ Str.at_ 1 hex ++ Str.at_ 1 hex ++
      Str.at_ 2 hex ++ Str.at_ 2 hex ++ Str.at_ 3 hex ++ Str.at_ 3 hex
    else hex in
  let r := parseInt16 (Str.slice 0 2 hex) / lit 255 in
  let g := parseInt16 (Str.slice 2 4 hex) / lit 255 in
  let b := parseInt16 (Str.slice 4 6 hex) / lit 255 in
  let a := if Nat.eqb (length hex) 8
           then parseInt16 (Str.slice 6 8 hex) / lit 255 else lit 1 in
  RGBA r g b a.

(** The optional alpha group of the three functional notations. *)
Definition alphaOf (m : Re.rmatched) : num :=
  if Re.present 4 m then
    if Str.endsWith (js "%") (Re.text 4 m)
    then parseFloat (Re.text 4 m) / lit 100
    else parseFloat (Re.text 4 m)
  else lit 1.

Definition rgbStringToRgba (s : str) : option (FigmaColor num) :=
  match Re.exec Pattern.rgb s with
  | None => None
  | Some m =>
      let r := parseFloat (Re.text 1 m) / lit 255 in
      let g := parseFloat (Re.text 2 m) / lit 255 in
      let b := parseFloat (Re.text 3 m) / lit 255 in
      let a := alphaOf m in
      Some (RGBA (clamp01 r) (clamp01 g) (clamp01 b) (clamp01 a))
  end.

Definition named : list (str * str) :=
  [(js "black", js "#000000"); (js "white", js "#ffffff");
   (js "transparent", js "#00000000")].

Definition parseColorValue (value : str) : exc (option (FigmaColor num)) :=
  let v := Str.toLowerCase (Str.trim value) in
  match Re.exec Pattern.oklch v with
  | Some m =>
      let L := parseFloat (Re.text 1 m) in
      let L := if L > lit 1 then L / lit 100 else L in
      let C := parseFloat (Re.text 2 m) in
      let H_ := parseFloat (Re.text 3 m) in
      Ok (Some (oklchToRgba L C H_ (alphaOf m)))
  | None =>
  match Re.exec Pattern.hsl v with
  | Some m =>
      let h := parseFloat (Re.text 1 m) in
      let s := parseFloat (Re.text 2 m) in
      let l := parseFloat (Re.text 3 m) in
      Ok (Some (hslToRgba h s l (alphaOf m)))
  | None =>
  if Str.startsWith (js "rgb") v then Ok (rgbStringToRgba v)
  else if Str.startsWith (js "#") v then Ok (Some (hexToRgba v))
  else
    match getProperty named v with
    | Own hex => Ok (Some (hexToRgba hex))
    | Inherited => Throw TypeError
    | Absent => Ok None
    end
  end end.

Definition remToPx (rem_ : num) : num := rem_ * lit 16.

Definition parseDimension (value : str) : option num :=
  match Re.exec Pattern.dimension (Str.trim value) with
  | None => None
  | Some m =>
      let n := parseFloat (Re.text 1 m) in
      let unit := if Re.present 2 m then Re.text 2 m else js "px" in
      if Str.eqb unit (js "rem") || Str.eqb unit (js "em")
      then Some (remToPx n)
      else Some n
  end.

Definition colorsMatch (x y : FigmaColor num) (tolerance : num) : bool :=
  (Math_abs (red x - red y) < tolerance) &&
  (Math_abs (green x - green y) < tolerance) &&
  (Math_abs (blue x - blue y) < tolerance) &&
  (Math_abs (alpha x - alpha y) < tolerance).
End ColorUtils.

(* ===================================================================== *)
(** ** parser.ts *)
(* ===================================================================== *)

Module CSSVariable.
Record t : Type := make { name : str; rawValue : str }.
End CSSVariable.

Module ParsedColor.
Record t : Type := make {
  path : list str;
  figmaColor : FigmaColor float;
  rawValue : str
}.
End ParsedColor.

Module ParsedFloat.
Record t : Type := make { path : list str; value : float; rawValue : str }.
End ParsedFloat.

Inductive ShadowType : Type := DROP_SHADOW | INNER_SHADOW.

Module ShadowLayer.
Record t : Type := make {
  x : float;
  y : float;
  blur : float;
  spread : float;
  color : FigmaColor float;
  type : ShadowType
}.
End ShadowLayer.

Module ParsedShadow.
Record t : Type := make {
  name : str;
  shadows : list ShadowLayer.t;
  rawValue : str
}.
End ParsedShadow.

Module ParsedTypography.
Record t : Type := make {
  name : str;
  fontSize : float;
  lineHeight : option float;
  letterSpacing : option float;
  fontWeight : option float;
  rawValue : str
}.
End ParsedTypography.

Module ParsedFont.
Record t : Type := make { name : str; family : str; rawValue : str }.
End ParsedFont.

Record ParsedTokenSet : Type := TokenSet {
  colors : list ParsedColor.t;
  spacing : list ParsedFloat.t;
  radius : list ParsedFloat.t;
  shadows : list ParsedShadow.t;
  blur : list ParsedFloat.t;
  backdropBlur : list ParsedFloat.t;
  typography : list ParsedTypography.t;
  opacity : list ParsedFloat.t;
  fonts : list ParsedFont.t;
  breakpoints : list ParsedFloat.t;
  containers : list ParsedFloat.t;
  fontWeights : list ParsedFloat.t;
  tracking : list ParsedFloat.t;
  leading : list ParsedFloat.t;
  borderWidth : list ParsedFloat.t;
  maxWidth : list ParsedFloat.t;
  skew : list ParsedFloat.t
}.

(** [result.family.push(x)], one function per family. *)
(** The typography rule declares [lineHeight], [letterSpacing] and
    [fontWeight] with [var] inside the loop: the three variables belong to
    the function, a declaration without a value assigns nothing, and a turn
    of the loop finds in them what the last turn that assigned them left.
    They are [undefined] when [categorizeTokens] starts. *)
Module Hoisted.
Record t : Type := make {
  lineHeight : option float;
  letterSpacing : option float;
  fontWeight : option float
}.
Definition undefined : t := make None None None.
End Hoisted.

Module Push.
Definition colors x (s : ParsedTokenSet) :=
  let '(TokenSet a b c d e f g h i j k l m n o p q) := s in
  TokenSet (a ++ [x]) b c d e f g h i j k l m n o p q.
Definition spacing x (s : ParsedTokenSet) :=
  let '(TokenSet a b c d e f g h i j k l m n o p q) := s in
  TokenSet a (b ++ [x]) c d e f g h i j k l m n o p q.
Definition radius x (s : ParsedTokenSet) :=
  let '(TokenSet a b c d e f g h i j k l m n o p q) := s in
  TokenSet a b (c ++ [x]) d e f g h i j k l m n o p q.
Definition shadows x (s : ParsedTokenSet) :=
  let '(TokenSet a b c d e f g h i j k l m n o p q) := s in
  TokenSet a b c (d ++ [x]) e f g h i j k l m n o p q.
Definition blur x (s : ParsedTokenSet) :=
  let '(TokenSet a b c d e f g h i j k l m n o p q) := s in
  TokenSet a b c d (e ++ [x]) f g h i j k l m n o p q.
Definition backdropBlur x (s : ParsedTokenSet) :=
  let '(TokenSet a b c d e f g h i j k l m n o p q) := s in
  TokenSet a b c d e (f ++ [x]) g h i j k l m n o p q.
Definition typography x (s : ParsedTokenSet) :=
  let '(TokenSet a b c d e f g h i j k l m n o p q) := s in
  TokenSet a b c d e f (g ++ [x]) h i j k l m n o p q.
Definition opacity x (s : ParsedTokenSet) :=
  let '(TokenSet a b c d e f g h i j k l m n o p q) := s in
  TokenSet a b c d e f g (h ++ [x]) i j k l m n o p q.
Definition fonts x (s : ParsedTokenSet) :=
  let '(TokenSet a b c d e f g h i j k l m n o p q) := s in
  TokenSet a b c d e f g h (i ++ [x]) j k l m n o p q.
Definition breakpoints x (s : ParsedTokenSet) :=
  let '(TokenSet a b c d e f g h i j k l m n o p q) := s in
  TokenSet a b c d e f g h i (j ++ [x]) k l m n o p q.
Definition containers x (s : ParsedTokenSet) :=
  let '(TokenSet a b c d e f g h i j k l m n o p q) := s in
  TokenSet a b c d e f g h i j (k ++ [x]) l m n o p q.
Definition fontWeights x (s : ParsedTokenSet) :=
  let '(TokenSet a b c d e f g h i j k l m n o p q) := s in
  TokenSet a b c d e f g h i j k (l ++ [x]) m n o p q.
Definition tracking x (s : ParsedTokenSet) :=
  let '(TokenSet a b c d e f g h i j k l m n o p q) := s in
  TokenSet a b c d e f g h i j k l (m ++ [x]) n o p q.
Definition leading x (s : ParsedTokenSet) :=
  let '(TokenSet a b c d e f g h i j k l m n o p q) := s in
  TokenSet a b c d e f g h i j k l m (n ++ [x]) o p q.
Definition borderWidth x (s : ParsedTokenSet) :=
  let '(TokenSet a b c d e f g h i j k l m n o p q) := s in
  TokenSet a b c d e f g h i j k l m n (o ++ [x]) p q.
Definition maxWidth x (s : ParsedTokenSet) :=
  let '(TokenSet a b c d e f g h i j k l m n o p q) := s in
  TokenSet a b c d e f g h i j k l m n o (p ++ [x]) q.
Definition skew x (s : ParsedTokenSet) :=
  let '(TokenSet a b c d e f g h i j k l m n o p q) := s in
  TokenSet a b c d e f g h i j k l m n o p (q ++ [x]).
End Push.

(** [result.spacing = xs]. *)
Definition setSpacing (xs : list ParsedFloat.t) (s : ParsedTokenSet) :=
  let '(TokenSet a b c d e f g h i j k l m n o p q) := s in
  TokenSet a xs c d e f g h i j k l m n o p q.

Record ThemeTokens : Type := Theme {
  light : gmap str str;
  dark : gmap str str
}.

Module ParserPattern.
Import Re.

(** [/(--[\w-]+)\s*:\s*([^;]+)/g] *)
Definition declaration : regex :=
  seq [Grp 1 (Cat (lit (js "--")) (plus (Cls wordDash))); star ws; chr ":";
       star ws; Grp 2 (plus (Cls (noneOf ";")))].

(** [/@theme\s+[^{]*\{([\s\S]*?)\n\}/] *)
Definition theme : regex :=
  seq [lit (js "@theme"); plus ws; star (Cls (noneOf "{")); chr "{";
       Grp 1 (lazy (Cls any)); chr "010"; chr "}"].

(** [/:root\s*\{([\s\S]*?)\}/] *)
Definition root : regex :=
  seq [lit (js ":root"); star ws; chr "{"; Grp 1 (lazy (Cls any)); chr "}"].

(** [/\.dark\s*\{([\s\S]*?)\}/] *)
Definition darkBlock : regex :=
  seq [lit (js ".dark"); star ws; chr "{"; Grp 1 (lazy (Cls any)); chr "}"].

(** [/\s+/] *)
Definition spaces : regex := plus ws.

(** [/^--/] *)
Definition dashes : regex := Cat Bol (lit (js "--")).

(** [/^max-w(idth)?-/] *)
Definition maxW : regex :=
  seq [Bol; lit (js "max-w"); opt (Grp 1 (lit (js "idth"))); chr "-"].

(** [/^inset\s+/] *)
Definition inset : regex := seq [Bol; lit (js "inset"); plus ws].

(** [/((?:rgb|oklch|hsl)a?\([^)]+\))/] *)
Definition colorFn : regex :=
  Grp 1 (seq [Or (lit (js "rgb")) (Or (lit (js "oklch")) (lit (js "hsl")));
              opt (chr "a"); chr "("; plus (Cls (noneOf ")")); chr ")"]).

(** The class of the pattern that strips quotes: the single quote and the
    double quote (character 34). *)
Definition quote (c : ascii) : bool :=
  Str.isChar "'" c || Str.isChar "034" c.

(** [/calc\(\s*([\d.]+)\s*\/\s*([\d.]+)\s*\)/] *)
Definition calc : regex :=
  seq [lit (js "calc("); star ws; Grp 1 (plus (Cls digitDot)); star ws;
       chr "/"; star ws; Grp 2 (plus (Cls digitDot)); star ws; chr ")"].

(** [/\./g] *)
Definition dot : regex := chr ".".

End ParserPattern.

Definition extractCSSVariables (css : str) : list CSSVariable.t :=
  map (fun m =>
         CSSVariable.make
           (Str.trim (Re.text 1 m))
           (Re.replaceAll ParserPattern.spaces (js " ")
              (Str.trim (Re.text 2 m))))
      (Re.execAll ParserPattern.declaration (S (length css)) 0 css).

Definition parseThemeBlock (css : str) : list CSSVariable.t :=
  match Re.exec ParserPattern.theme css with
  | None => []
  | Some themeMatch => extractCSSVariables (Re.text 1 themeMatch)
  end.

(** [for (const v of vars) { o[v.name] = v.rawValue; }] *)
Definition assignAll (vars : list CSSVariable.t) (o : gmap str str)
  : gmap str str :=
  fold_left (fun o v => <[CSSVariable.name v := CSSVariable.rawValue v]> o)
    vars o.

Definition parseRootAndDark (css : str) : ThemeTokens :=
  let light :=
    match Re.exec ParserPattern.root css with
    | Some rootMatch => assignAll (extractCSSVariables (Re.text 1 rootMatch)) ∅
    | None => ∅
    end in
  let dark :=
    match Re.exec ParserPattern.darkBlock css with
    | Some darkMatch => assignAll (extractCSSVariables (Re.text 1 darkMatch)) ∅
    | None => ∅
    end in
  Theme light dark.

(** The loop of [splitShadowParts]: the characters still to read, then the
    three variables [parts], [depth] and [current]. *)
Fixpoint splitShadowLoop (value : str) (parts : list str) (depth : Z)
    (current : str) : list str * str :=
  match value with
  | [] => (parts, current)
  | char :: value' =>
      let depth := if Str.isChar "(" char then (depth + 1)%Z else depth in
      let depth := if Str.isChar ")" char then (depth - 1)%Z else depth in
      if Str.isChar "," char && (depth =? 0)%Z
      then splitShadowLoop value' (parts ++ [current]) depth []
      else splitShadowLoop value' parts depth (current ++ [char])
  end.

Definition nonEmpty (s : str) : bool :=
  match s with
  | [] => false
  | _ :: _ => true
  end.

Definition splitShadowParts (value : str) : list str :=
  let (parts, current) := splitShadowLoop value [] 0%Z [] in
  if nonEmpty (Str.trim current) then parts ++ [current] else parts.

Section Parser.
Variables (cosf sinf : float -> float) (powf : float -> float -> float).
#[local] Instance hostNum : JsNum float := floatNum cosf sinf powf.
Local Open Scope num_scope.

Definition evaluateCalc (value : str) : option float :=
  let plain :=
    let n := parseFloat value in
    if isNaN n then None else Some n in
  match Re.exec ParserPattern.calc value with
  | Some calcMatch =>
      let numerator := parseFloat (Re.text 1 calcMatch) in
      let denominator := parseFloat (Re.text 2 calcMatch) in
      if denominator !== lit 0 then Some (numerator / denominator)
      else plain
  | None => plain
  end.

Definition steps : list float :=
  map lit
    [0.5; 1; 1.5; 2; 2.5; 3; 3.5; 4; 5; 6; 7; 8; 9; 10;
     11; 12; 14; 16; 20; 24; 28; 32; 36; 40; 44; 48; 52; 56;
     60; 64; 72; 80; 96]%dec.

Definition generateSpacingScale (basePx : float) : list ParsedFloat.t :=
  map (fun step =>
         let safeName :=
           Re.replaceAll ParserPattern.dot (js "_") (F64.toString step) in
         ParsedFloat.make [safeName] (step * basePx)
           (F64.toString (step * basePx) ++ js "px"))
      steps.

(** [parseDimension(n) || 0] *)
Definition dimensionOrZero (n : str) : float :=
  match parseDimension n with
  | Some d => if truthy d then d else lit 0
  | None => lit 0
  end.

(** [nums[i] || 0] *)
Definition numAt (i : nat) (nums : list float) : float :=
  match nth_error nums i with
  | Some d => if truthy d then d else lit 0
  | None => lit 0
  end.

(** What is left of a layer once [inset] is stripped. *)
Definition shadowBody (trimmed : str) : str :=
  Re.replace ParserPattern.inset [] trimmed.

(** The colour token of a layer. *)
Definition shadowColorStr (shadow : str) : str :=
  match Re.exec ParserPattern.colorFn shadow with
  | Some colorMatch => Re.text 1 colorMatch
  | None => js "rgb(0 0 0 / 0.1)"
  end.

(** The fields of a layer once its colour is removed. *)
Definition shadowFields (shadow : str) : list str :=
  let withoutColor :=
    Str.trim (Str.replace (shadowColorStr shadow) [] shadow) in
  Re.split ParserPattern.spaces withoutColor.

(** The body of the loop of [parseShadowValue]: the layer of one part,
    [None] for a part that is skipped. *)
Definition parseShadowLayer (part : str) : exc (option ShadowLayer.t) :=
  let trimmed := Str.trim part in
  if negb (nonEmpty trimmed) then Ok None
  else
    let isInset := Str.startsWith (js "inset") trimmed in
    let shadow := shadowBody trimmed in
    let colorStr := shadowColorStr shadow in
    let nums := map dimensionOrZero (shadowFields shadow) in
    let x := numAt 0 nums in
    let y := numAt 1 nums in
    let blurVal := numAt 2 nums in
    let spread := numAt 3 nums in
    try! parsed := parseColorValue colorStr in
    let color :=
      match parsed with
      | Some c => c
      | None => RGBA (lit 0) (lit 0) (lit 0) (lit 0.1)
      end in
    Ok (Some (ShadowLayer.make x y blurVal spread color
                (if isInset then INNER_SHADOW else DROP_SHADOW))).

Fixpoint parseShadowParts (parts : list str) (layers : list ShadowLayer.t)
  : exc (list ShadowLayer.t) :=
  match parts with
  | [] => Ok layers
  | part :: parts' =>
      try! layer := parseShadowLayer part in
      match layer with
      | Some l => parseShadowParts parts' (layers ++ [l])
      | None => parseShadowParts parts' layers
      end
  end.

Definition parseShadowValue (value : str) : exc (list ShadowLayer.t) :=
  parseShadowParts (splitShadowParts value) [].

(** The four shadow rules share their body. *)
Definition pushShadow (shadowName : str) (v : CSSVariable.t)
    (result : ParsedTokenSet) : exc ParsedTokenSet :=
  try! layers := parseShadowValue (CSSVariable.rawValue v) in
  if Nat.ltb 0 (length layers)
  then Ok (Push.shadows
             (ParsedShadow.make shadowName layers (CSSVariable.rawValue v))
             result)
  else Ok result.

(** [push({ path, value: dim, rawValue })] when [dim !== null]. *)
Definition pushDimension
    (push : ParsedFloat.t -> ParsedTokenSet -> ParsedTokenSet)
    (path : list str) (v : CSSVariable.t) (result : ParsedTokenSet)
  : ParsedTokenSet :=
  match parseDimension (CSSVariable.rawValue v) with
  | Some dim =>
      push (ParsedFloat.make path dim (CSSVariable.rawValue v)) result
  | None => result
  end.

(** [push({ path, value: val, rawValue })] when [!isNaN(val)]. *)
Definition pushNumber
    (push : ParsedFloat.t -> ParsedTokenSet -> ParsedTokenSet)
    (path : list str) (v : CSSVariable.t) (result : ParsedTokenSet)
  : ParsedTokenSet :=
  let val := parseFloat (CSSVariable.rawValue v) in
  if negb (isNaN val)
  then push (ParsedFloat.make path val (CSSVariable.rawValue v)) result
  else result.

(** [parts = name.replace(prefix, '').split('-');
     if (name === bare) parts[0] = 'default';] *)
Definition partsOrDefault (bare : str) (name : str) : list str :=
  let parts := Str.split "-" (Str.replace (bare ++ js "-") [] name) in
  if Str.eqb name bare then Re.setNth 0 (js "default") [] parts else parts.

(** [vars.find(lv => lv.name === '--' + name + suffix)] *)
Definition sibling (vars : list CSSVariable.t) (name suffix : str)
  : option CSSVariable.t :=
  List.find
    (fun lv => Str.eqb (CSSVariable.name lv) (js "--" ++ name ++ suffix))
    vars.

(** The three variables after the statements of the typography rule:
    [if (lhVar) lineHeight = evaluateCalc(lhVar.rawValue);]
    [if (lsVar) { const val = parseDimension(lsVar.rawValue);
                  if (val !== null) letterSpacing = val; }]
    [if (fwVar) { const val = parseFloat(fwVar.rawValue);
                  if (!isNaN(val)) fontWeight = val; }] *)
Definition assignModifiers (vars : list CSSVariable.t) (name : str)
    (hoisted : Hoisted.t) : Hoisted.t :=
  let lineHeight :=
    match sibling vars name (js "--line-height") with
    | Some lhVar => evaluateCalc (CSSVariable.rawValue lhVar)
    | None => Hoisted.lineHeight hoisted
    end in
  let letterSpacing :=
    match sibling vars name (js "--letter-spacing") with
    | Some lsVar =>
        match parseDimension (CSSVariable.rawValue lsVar) with
        | Some val => Some val
        | None => Hoisted.letterSpacing hoisted
        end
    | None => Hoisted.letterSpacing hoisted
    end in
  let fontWeight :=
    match sibling vars name (js "--font-weight") with
    | Some fwVar =>
        let val := parseFloat (CSSVariable.rawValue fwVar) in
        if negb (isNaN val) then Some val else Hoisted.fontWeight hoisted
    | None => Hoisted.fontWeight hoisted
    end in
  Hoisted.make lineHeight letterSpacing fontWeight.

(** The token that is pushed reads the three variables. *)
Definition typographyOf (hoisted : Hoisted.t) (name : str)
    (v : CSSVariable.t) (dim : float) : ParsedTypography.t :=
  let sizeName := Str.replace (js "text-") [] name in
  ParsedTypography.make sizeName dim (Hoisted.lineHeight hoisted)
    (Hoisted.letterSpacing hoisted) (Hoisted.fontWeight hoisted)
    (CSSVariable.rawValue v).

(** One turn of the loop of [categorizeTokens].  The state of the loop is
    the token set [result] and the three hoisted variables. *)
Definition categorize (vars : list CSSVariable.t)
    (state : ParsedTokenSet * Hoisted.t) (v : CSSVariable.t)
  : exc (ParsedTokenSet * Hoisted.t) :=
  let (result, hoisted) := state in
  let name := Re.replace ParserPattern.dashes [] (CSSVariable.name v) in
  let raw := CSSVariable.rawValue v in
  if Str.startsWith (js "color-") name then
    let parts := Str.split "-" (Str.replace (js "color-") [] name) in
    try! color := parseColorValue raw in
    match color with
    | Some c => Ok (Push.colors (ParsedColor.make parts c raw) result, hoisted)
    | None => Ok (result, hoisted)
    end
  else if Str.eqb name (js "spacing") then
    Ok (pushDimension Push.spacing [js "base"] v result, hoisted)
  else if Str.startsWith (js "breakpoint-") name then
    Ok (pushDimension Push.breakpoints
          [Str.replace (js "breakpoint-") [] name] v result, hoisted)
  else if Str.startsWith (js "container-") name then
    Ok (pushDimension Push.containers
          [Str.replace (js "container-") [] name] v result, hoisted)
  else if Str.startsWith (js "max-w-") name
          || Str.startsWith (js "max-width-") name then
    Ok (pushDimension Push.maxWidth
          [Re.replace ParserPattern.maxW [] name] v result, hoisted)
  else if Str.startsWith (js "font-weight-") name then
    Ok (pushNumber Push.fontWeights
          [Str.replace (js "font-weight-") [] name] v result, hoisted)
  else if Str.startsWith (js "tracking-") name then
    Ok (pushDimension Push.tracking
          [Str.replace (js "tracking-") [] name] v result, hoisted)
  else if Str.startsWith (js "leading-") name then
    Ok (pushNumber Push.leading
          [Str.replace (js "leading-") [] name] v result, hoisted)
  else if Str.startsWith (js "radius") name then
    Ok (pushDimension Push.radius (partsOrDefault (js "radius") name)
          v result, hoisted)
  else if Str.startsWith (js "shadow-") name
          && negb (Str.startsWith (js "shadow-inner") name) then
    try! result' :=
      pushShadow (js "drop-shadow/" ++ Str.replace (js "shadow-") [] name)
        v result in
    Ok (result', hoisted)
  else if Str.startsWith (js "inset-shadow-") name then
    try! result' :=
      pushShadow
        (js "inset-shadow/" ++ Str.replace (js "inset-shadow-") [] name)
        v result in
    Ok (result', hoisted)
  else if Str.startsWith (js "drop-shadow-") name then
    try! result' :=
      pushShadow
        (js "drop-shadow/" ++ Str.replace (js "drop-shadow-") [] name)
        v result in
    Ok (result', hoisted)
  else if Str.startsWith (js "text-shadow-") name then
    try! result' :=
      pushShadow
        (js "text-shadow/" ++ Str.replace (js "text-shadow-") [] name)
        v result in
    Ok (result', hoisted)
  else if Str.startsWith (js "blur") name then
    Ok (pushDimension Push.blur (partsOrDefault (js "blur") name) v result,
        hoisted)
  else if Str.startsWith (js "backdrop-blur") name then
    Ok (pushDimension Push.backdropBlur
          (partsOrDefault (js "backdrop-blur") name) v result, hoisted)
  else if Str.startsWith (js "text-") name
          && negb (Str.includes (js "shadow") name) then
    if Str.endsWith (js "--line-height") name
       || Str.endsWith (js "--letter-spacing") name
       || Str.endsWith (js "--font-weight") name
    then Ok (result, hoisted)
    else
      match parseDimension raw with
      | Some dim =>
          let hoisted := assignModifiers vars name hoisted in
          Ok (Push.typography (typographyOf hoisted name v dim) result,
              hoisted)
      | None => Ok (result, hoisted)
      end
  else if Str.startsWith (js "font-") name
          && negb (Str.startsWith (js "font-weight-") name) then
    Ok (Push.fonts
          (ParsedFont.make
             (Str.replace (js "font-") [] name)
             (Re.replaceAll (Re.Cls ParserPattern.quote) []
                (Str.trim (hd [] (Str.split "," raw))))
             raw)
          result, hoisted)
  else
    (* the opacity rule has no [continue]: the next tests still run *)
    let result :=
      if Str.startsWith (js "opacity-") name then
        pushNumber Push.opacity
          (Str.split "-" (Str.replace (js "opacity-") [] name)) v result
      else result in
    if Str.startsWith (js "border-width-") name then
      Ok (pushDimension Push.borderWidth
            (Str.split "-" (Str.replace (js "border-width-") [] name))
            v result, hoisted)
    else if Str.startsWith (js "skew-") name then
      Ok (pushNumber Push.skew
            (Str.split "-" (Str.replace (js "skew-") [] name)) v result,
          hoisted)
    else Ok (result, hoisted).

(** [for (const v of vs) { ... }] *)
Fixpoint categorizeAll (vars vs : list CSSVariable.t)
    (state : ParsedTokenSet * Hoisted.t)
  : exc (ParsedTokenSet * Hoisted.t) :=
  match vs with
  | [] => Ok state
  | v :: vs' =>
      try! state' := categorize vars state v in
      categorizeAll vars vs' state'
  end.

Definition emptyTokenSet : ParsedTokenSet :=
  TokenSet [] [] [] [] [] [] [] [] [] [] [] [] [] [] [] [] [].

(** The state in which the loop starts. *)
Definition initial : ParsedTokenSet * Hoisted.t :=
  (emptyTokenSet, Hoisted.undefined).

Definition categorizeTokens (vars : list CSSVariable.t)
  : exc ParsedTokenSet :=
  try! state := categorizeAll vars vars initial in
  let result := fst state in
  match spacing result with
  | [base] =>
      Ok (setSpacing (generateSpacingScale (ParsedFloat.value base)) result)
  | _ => Ok result
  end.
End Parser.

(* ===================================================================== *)
(** ** Reference definitions, written from the specification *)
(* ===================================================================== *)

(** Splitting at top-level commas, as the specification words it: every
    character gets the parenthesis depth reached once it is read, and the
    text is cut at the commas whose depth is 0. *)
Module TopLevel.

Definition depthAfter (d : Z) (c : ascii) : Z :=
  if Str.isChar "(" c then (d + 1)%Z
  else if Str.isChar ")" c then (d - 1)%Z
  else d.

Fixpoint depths (d : Z) (s : str) : list (ascii * Z) :=
  match s with
  | [] => []
  | c :: t => (c, depthAfter d c) :: depths (depthAfter d c) t
  end.

Definition isSeparator (cd : ascii * Z) : bool :=
  Str.isChar "," (fst cd) && (snd cd =? 0)%Z.

Fixpoint cut (cs : list (ascii * Z)) : list str :=
  match cs with
  | [] => [[]]
  | cd :: t =>
      if isSeparator cd then [] :: cut t
      else match cut t with
           | w :: ws => (fst cd :: w) :: ws
           | [] => [[fst cd]]
           end
  end.

Definition pieces (s : str) : list str := cut (depths 0 s).

Definition separators (s : str) : nat :=
  length (List.filter isSeparator (depths 0 s)).

(** The pieces put back together with commas. *)
Fixpoint join (ps : list str) : str :=
  match ps with
  | [] => []
  | [p] => p
  | p :: ps' => p ++ ","%char :: join ps'
  end.

(** [cur] put in front of the first piece. *)
Definition prefixFirst (cur : str) (ps : list str) : list str :=
  match ps with
  | p :: ps' => (cur ++ p) :: ps'
  | [] => [cur]
  end.

(** The last piece is kept only if it is not blank. *)
Definition dropBlankLast (ps : list str) : list str :=
  if nonEmpty (Str.trim (last ps [])) then ps else removelast ps.

End TopLevel.


(* ===================================================================== *)
(** ** Sample inputs *)
(* ===================================================================== *)

Module Sample.

Definition var (name value : string) : CSSVariable.t :=
  CSSVariable.make (js name) (js value).

(** Stand-ins for the host's [Math.cos], [Math.sin] and [Math.pow], for the
    examples whose outcome does not depend on them. *)
Definition unary (x : float) : float := x.
Definition binary (x y : float) : float := x.


End Sample.

(** The spacing entries the specification expects from a list of variables:
    one for each variable named exactly [spacing] (once the leading [--] is
    removed) whose value is a dimension. *)
Section SpacingSpec.
Variables (cosf sinf : float -> float) (powf : float -> float -> float).
#[local] Existing Instance hostNum.

Definition spacingBase (v : CSSVariable.t) : list ParsedFloat.t :=
  if Str.eqb (Re.replace ParserPattern.dashes [] (CSSVariable.name v))
       (js "spacing")
  then match parseDimension (N := hostNum cosf sinf powf)
               (CSSVariable.rawValue v) with
       | Some dim =>
           [ParsedFloat.make [js "base"] dim (CSSVariable.rawValue v)]
       | None => []
       end
  else [].

Definition spacingBases (vars : list CSSVariable.t) : list ParsedFloat.t :=
  flat_map spacingBase vars.
End SpacingSpec.

(** The names of the 33 steps of the spacing scale. *)
Definition stepNames : list string :=
  ["0_5"; "1"; "1_5"; "2"; "2_5"; "3"; "3_5"; "4"; "5"; "6"; "7"; "8"; "9";
   "10"; "11"; "12"; "14"; "16"; "20"; "24"; "28"; "32"; "36"; "40"; "44";
   "48"; "52"; "56"; "60"; "64"; "72"; "80"; "96"]%string.

(** The naming invariant of the token set.  [Named] is what holds of every
    result; [FullyNamed] is the invariant as the specification states it. *)
Module Naming.

Definition floatFamilies (ts : ParsedTokenSet) : list (list ParsedFloat.t) :=
  [spacing ts; radius ts; blur ts; backdropBlur ts; opacity ts;
   breakpoints ts; containers ts; fontWeights ts; tracking ts; leading ts;
   borderWidth ts; maxWidth ts; skew ts].

Definition Named (ts : ParsedTokenSet) : Prop :=
  Forall (fun c => ParsedColor.path c <> []) (colors ts)
  /\ Forall (Forall (fun f => ParsedFloat.path f <> [])) (floatFamilies ts)
  /\ Forall (fun s => ParsedShadow.name s <> []) (shadows ts).

Definition fullPath (path : list str) : Prop :=
  path <> [] /\ ~ In [] path.

Definition FullyNamed (ts : ParsedTokenSet) : Prop :=
  Forall (fun c => fullPath (ParsedColor.path c)) (colors ts)
  /\ Forall (Forall (fun f => fullPath (ParsedFloat.path f)))
       (floatFamilies ts)
  /\ Forall (fun s => ParsedShadow.name s <> []) (shadows ts)
  /\ Forall (fun t => ParsedTypography.name t <> []) (typography ts)
  /\ Forall (fun f => ParsedFont.name f <> []) (fonts ts).

(** The families whose tokens are named by all that follows the prefix,
    in one piece. *)
Definition singleFamilies (ts : ParsedTokenSet) : list (list ParsedFloat.t) :=
  [breakpoints ts; containers ts; fontWeights ts; tracking ts; leading ts;
   maxWidth ts].

Definition SinglyNamed (ts : ParsedTokenSet) : Prop :=
  Forall (Forall (fun f => fullPath (ParsedFloat.path f)))
    (singleFamilies ts)
  /\ Forall (fun t => ParsedTypography.name t <> []) (typography ts)
  /\ Forall (fun f => ParsedFont.name f <> []) (fonts ts).

(** The name of a variable ends with a dash. *)
Definition dangling (name : str) : bool :=
  Str.endsWith (js "-") (Re.replace ParserPattern.dashes [] name).

(** No piece of the text between dashes is empty. *)
Definition whole (s : str) : Prop := ~ In [] (Str.split "-" s).

(** The name of a variable, past its leading [--], has an empty piece
    between two dashes, before the first one or behind the last one: it is
    empty, starts or ends with a dash, or has two dashes in a row. *)
Definition gapped (name : str) : bool :=
  existsb (Str.eqb [])
    (Str.split "-" (Re.replace ParserPattern.dashes [] name)).

End Naming.

(** The five colour syntaxes the specification documents, read on the
    trimmed lower-case value: [oklch()], [hsl()]/[hsla()], [rgb()]/[rgba()],
    [#] followed by 3, 4, 6 or 8 hexadecimal digits, and the three names. *)
Module Documented.

Definition isHexDigit (c : ascii) : bool :=
  Str.isDigit c || Str.between 97 102 c.

Definition isHexColor (v : str) : bool :=
  match v with
  | c :: digits =>
      Str.isChar "#" c
      && existsb (Nat.eqb (length digits)) [3; 4; 6; 8]
      && forallb isHexDigit digits
  | [] => false
  end.

Definition matches (r : Re.regex) (v : str) : bool :=
  match Re.exec r v with
  | Some _ => true
  | None => false
  end.

Definition isNamed (v : str) : bool :=
  existsb (Str.eqb v) (map js ["black"; "white"; "transparent"]%string).

Definition syntax (value : str) : bool :=
  let v := Str.toLowerCase (Str.trim value) in
  matches Pattern.oklch v || matches Pattern.hsl v || matches Pattern.rgb v
  || isHexColor v || isNamed v.

End Documented.

(** The words a pattern can match (anchors match the empty word; whether
    they may match depends on the position and is left to the matcher). *)
Inductive Lang : Re.regex -> str -> Prop :=
| LangEps : Lang Re.Eps []
| LangCls p c : p c = true -> Lang (Re.Cls p) [c]
| LangCat r1 r2 w1 w2 :
    Lang r1 w1 -> Lang r2 w2 -> Lang (Re.Cat r1 r2) (w1 ++ w2)
| LangOrL r1 r2 w : Lang r1 w -> Lang (Re.Or r1 r2) w
| LangOrR r1 r2 w : Lang r2 w -> Lang (Re.Or r1 r2) w
| LangRepNil g r : Lang (Re.Rep g r) []
| LangRepCons g r w1 w2 :
    Lang r w1 -> Lang (Re.Rep g r) w2 -> Lang (Re.Rep g r) (w1 ++ w2)
| LangGrp i r w : Lang r w -> Lang (Re.Grp i r) w
| LangBol : Lang Re.Bol []
| LangEol : Lang Re.Eol [].

(** The geometry of the layer a part gives, if it gives one. *)
Definition layerGeometry (l : exc (option ShadowLayer.t))
  : option (float * float * float * float) :=
  match l with
  | Ok (Some l) =>
      Some (ShadowLayer.x l, ShadowLayer.y l, ShadowLayer.blur l,
            ShadowLayer.spread l)
  | _ => None
  end.

(** [a] occurs in [s]. *)
Definition Substring (a s : str) : Prop :=
  exists pre post, s = pre ++ a ++ post.

(** The state reached from [st] once the word [w] is read and [t] is what
    is left. *)
Definition after (st : Re.mstate) (w t : str) : Re.mstate :=
  Re.MState (Re.pos st + length w) t (Re.caps st).

(** The text [t] does not start with a character of the class [p]. *)
Definition stopsClass (p : ascii -> bool) (t : str) : Prop :=
  match t with
  | [] => True
  | c :: _ => p c = false
  end.

(** A channel in the interval [0,1]. *)
Definition inUnit (x : float) : bool :=
  PrimFloat.leb 0 x && PrimFloat.leb x 1.

(** A channel that is NaN or in the interval [0,1]. *)
Definition unitOrNaN (x : float) : Prop :=
  PrimFloat.is_nan x = true \/ inUnit x = true.

(** The hexadecimal digits of a lower-case value. *)
Definition hexChars : list ascii := js "0123456789abcdef".

(** The channel two hexadecimal digits denote. *)
Definition hexChannel (cosf sinf : float -> float)
    (powf : float -> float -> float) (x y : ascii) : float :=
  PrimFloat.div (parseInt16 (N := hostNum cosf sinf powf) [x; y]) 255.

(** The alpha channel of the colour a value parses to, if it does. *)
Definition alphaOfResult (r : exc (option (FigmaColor float)))
  : option float :=
  match r with
  | Ok (Some c) => Some (alpha c)
  | _ => None
  end.

(** The conversion of [oklch(L C H)] as the specification documents it,
    over the real numbers: oklab, the non-linear LMS mix, the cubes, the
    linear-sRGB matrix, the sRGB transfer function and the clamp. *)
Module Pipeline.
Local Open Scope R_scope.

Definition oklab (L C H_ : R) : R * R * R :=
  (L, C * cos (H_ * PI / 180), C * sin (H_ * PI / 180)).

Definition lms (lab : R * R * R) : R * R * R :=
  let '(L, a, b) := lab in
  (L + 0.3963377774 * a + 0.2158037573 * b,
   L - 0.1055613458 * a - 0.0638541728 * b,
   L - 0.0894841775 * a - 1.291485548 * b).

Definition cube (x : R) : R := x * x * x.

Definition cubes (v : R * R * R) : R * R * R :=
  let '(l, m, s) := v in (cube l, cube m, cube s).

Definition linearSrgb (v : R * R * R) : R * R * R :=
  let '(l, m, s) := v in
  (4.0767416621 * l - 3.3077115913 * m + 0.2309699292 * s,
   -1.2684380046 * l + 2.6097574011 * m - 0.3413193965 * s,
   -0.0041960863 * l - 0.7034186147 * m + 1.707614701 * s).

Definition gamma (c : R) : R :=
  if Rle_dec c 0.0031308 then 12.92 * c
  else 1.055 * Rpower c (1 / 2.4) - 0.055.

Definition clamp (c : R) : R := Rmax 0 (Rmin 1 c).

Definition encode (v : R * R * R) : R * R * R :=
  let '(r, g, b) := v in
  (clamp (gamma r), clamp (gamma g), clamp (gamma b)).

Definition convert (L C H_ : R) : R * R * R :=
  encode (linearSrgb (cubes (lms (oklab L C H_)))).

End Pipeline.

(** A run of the matcher through a pattern: the position where it starts,
    the word it reads, the text left behind the word, and the groups before
    and after.  Unlike [Lang] it keeps what the anchors and the groups
    see. *)
Inductive Run :
  Re.regex -> nat -> str -> str -> list (option str) -> list (option str)
  -> Prop :=
| RunEps p t c : Run Re.Eps p [] t c c
| RunCls q p a t c : q a = true -> Run (Re.Cls q) p [a] t c c
| RunCat r1 r2 p w1 w2 t c c1 c2 :
    Run r1 p w1 (w2 ++ t) c c1 ->
    Run r2 (p + length w1) w2 t c1 c2 ->
    Run (Re.Cat r1 r2) p (w1 ++ w2) t c c2
| RunOrL r1 r2 p w t c c' : Run r1 p w t c c' -> Run (Re.Or r1 r2) p w t c c'
| RunOrR r1 r2 p w t c c' : Run r2 p w t c c' -> Run (Re.Or r1 r2) p w t c c'
| RunRepNil g r p t c : Run (Re.Rep g r) p [] t c c
| RunRepCons g r p w1 w2 t c c1 c2 :
    Run r p w1 (w2 ++ t) c c1 ->
    Run (Re.Rep g r) (p + length w1) w2 t c1 c2 ->
    Run (Re.Rep g r) p (w1 ++ w2) t c c2
| RunGrp i r p w t c c' :
    Run r p w t c c' ->
    Run (Re.Grp i r) p w t c (Re.setNth i (Some w) None c')
| RunBol t c : Run Re.Bol 0 [] t c c
| RunEol p c : Run Re.Eol p [] [] c c.

(** A [color-*] variable whose value, trimmed and in lower case, is the name
    of a member of [Object.prototype] that a lower-case string can name. *)
Definition raisingColor (v : CSSVariable.t) : Prop :=
  Str.startsWith (js "color-")
    (Re.replace ParserPattern.dashes [] (CSSVariable.name v)) = true
  /\ (Str.toLowerCase (Str.trim (CSSVariable.rawValue v)) = js "constructor"
      \/ Str.toLowerCase (Str.trim (CSSVariable.rawValue v))
         = js "__proto__").

(** The prefixes the rules of [categorizeTokens] test, in the order of the
    rules (the rule of [spacing] tests the whole name). *)
Definition tokenPrefixes : list str :=
  map js ["color-"; "breakpoint-"; "container-"; "max-w-"; "max-width-";
          "font-weight-"; "tracking-"; "leading-"; "radius"; "shadow-";
          "inset-shadow-"; "drop-shadow-"; "text-shadow-"; "blur";
          "backdrop-blur"; "text-"; "font-"; "opacity-"; "border-width-";
          "skew-"]%string.

(* ===================================================================== *)
(** ** tailwindAdapter.ts *)
(* ===================================================================== *)

Module Tailwind.

Definition setColors (xs : list ParsedColor.t) (s : ParsedTokenSet) :=
  let '(TokenSet a b c d e f g h i j k l m n o p q) := s in
  TokenSet xs b c d e f g h i j k l m n o p q.

Definition setOpacity (xs : list ParsedFloat.t) (s : ParsedTokenSet) :=
  let '(TokenSet a b c d e f g h i j k l m n o p q) := s in
  TokenSet a b c d e f g xs i j k l m n o p q.

(** [path[0] === key]: the first component of an empty path is
    [undefined], which is no string. *)
Definition headIs (key : str) (path : list str) : bool :=
  match path with
  | p0 :: _ => Str.eqb p0 key
  | [] => false
  end.

(** [{ path: [n.toString()], value: n, rawValue: n.toString() + suffix }] *)
Definition numbered (n : float) (suffix : str) : ParsedFloat.t :=
  ParsedFloat.make [F64.toString n] n (F64.toString n ++ suffix).

(** The 101 entries pushed by [for (let i = 0; i <= 100; i++)]. *)
Definition opacityDefaults : list ParsedFloat.t :=
  map (fun i => numbered (F64.ofDecimal (Dec false (Z.of_nat i) 0)) [])
      (List.seq 0 101).

Definition injectOpacity (tokens : ParsedTokenSet) : ParsedTokenSet :=
  if Nat.ltb (length (opacity tokens)) 101
  then setOpacity opacityDefaults tokens
  else tokens.

(** [if (!family.some(b => b.value === w)) family.push(...)] *)
Definition injectValue (get : ParsedTokenSet -> list ParsedFloat.t)
    (push : ParsedFloat.t -> ParsedTokenSet -> ParsedTokenSet)
    (suffix : str) (tokens : ParsedTokenSet) (w : float) : ParsedTokenSet :=
  if existsb (fun b => PrimFloat.eqb (ParsedFloat.value b) w) (get tokens)
  then tokens
  else push (numbered w suffix) tokens.

Definition borders : list float := [0; 1; 2; 4; 8]%float.
Definition skews : list float := [0; 1; 2; 3; 6; 12]%float.

Definition injectBorders (tokens : ParsedTokenSet) : ParsedTokenSet :=
  fold_left (injectValue borderWidth Push.borderWidth (js "px")) borders
    tokens.

Definition injectSkews (tokens : ParsedTokenSet) : ParsedTokenSet :=
  fold_left (injectValue skew Push.skew []) skews tokens.

(** [if (!family.some(t => t.path[0] === key)) family.push(...)] *)
Definition injectNamed (get : ParsedTokenSet -> list ParsedFloat.t)
    (push : ParsedFloat.t -> ParsedTokenSet -> ParsedTokenSet)
    (tokens : ParsedTokenSet) (entry : str * float) : ParsedTokenSet :=
  let (key, val) := entry in
  if existsb (fun t => headIs key (ParsedFloat.path t)) (get tokens)
  then tokens
  else push (ParsedFloat.make [key] val (F64.toString val)) tokens.

(** [Object.entries(weightMap)] *)
Definition weightMap : list (str * float) :=
  [(js "thin", 100); (js "extralight", 200); (js "light", 300);
   (js "normal", 400); (js "medium", 500); (js "semibold", 600);
   (js "bold", 700); (js "extrabold", 800); (js "black", 900)]%float.

(** [Object.entries(trackingMap)] *)
Definition trackingMap : list (str * float) :=
  [(js "tighter", F64.ofDecimal (-0.05)); (js "tight", F64.ofDecimal (-0.025));
   (js "normal", F64.ofDecimal 0); (js "wide", F64.ofDecimal 0.025);
   (js "wider", F64.ofDecimal 0.05); (js "widest", F64.ofDecimal 0.1)].

Definition injectFontWeights (tokens : ParsedTokenSet) : ParsedTokenSet :=
  fold_left (injectNamed fontWeights Push.fontWeights) weightMap tokens.

Definition injectTracking (tokens : ParsedTokenSet) : ParsedTokenSet :=
  fold_left (injectNamed tracking Push.tracking) trackingMap tokens.

(** [{ ...nt, path: ['zinc', ...nt.path.slice(1)] }] *)
Definition asZinc (nt : ParsedColor.t) : ParsedColor.t :=
  ParsedColor.make (js "zinc" :: skipn 1 (ParsedColor.path nt))
    (ParsedColor.figmaColor nt) (ParsedColor.rawValue nt).

Definition mapZincToNeutral (tokens : ParsedTokenSet) : ParsedTokenSet :=
  let neutralTokens :=
    List.filter (fun c => headIs (js "neutral") (ParsedColor.path c))
      (colors tokens) in
  if Nat.ltb 0 (length neutralTokens) then
    let kept :=
      List.filter (fun c => negb (headIs (js "zinc") (ParsedColor.path c)))
        (colors tokens) in
    setColors (kept ++ map asZinc neutralTokens) tokens
  else tokens.

Definition injectBaseColors (tokens : ParsedTokenSet) : ParsedTokenSet :=
  if existsb (fun c => headIs (js "base") (ParsedColor.path c))
       (colors tokens)
  then tokens
  else
    Push.colors
      (ParsedColor.make [js "base"; js "black"] (RGBA 0 0 0 1)%float
         (js "#000000"))
      (Push.colors
         (ParsedColor.make [js "base"; js "white"] (RGBA 1 1 1 1)%float
            (js "#FFFFFF"))
         tokens).

(** What is done to the token set once it is categorized, in the order of
    the source. *)
Definition injectDefaults (tokens : ParsedTokenSet) : ParsedTokenSet :=
  injectBaseColors
    (injectTracking
       (mapZincToNeutral
          (injectFontWeights
             (injectSkews (injectBorders (injectOpacity tokens)))))).

Section Adapter.
Variables (cosf sinf : float -> float) (powf : float -> float -> float).

(** The body of [fetchAndParse] once the text [css] of the theme file is
    fetched. *)
Definition fetchAndParse (css : str) : exc ParsedTokenSet :=
  let vars := parseThemeBlock css in
  let vars :=
    if Nat.eqb (length vars) 0 then extractCSSVariables css else vars in
  try! tokens := categorizeTokens cosf sinf powf vars in
  Ok (injectDefaults tokens).

End Adapter.

End Tailwind.

(** The two lower-case hexadecimal digits of a byte. *)
Definition hexDigit (d : nat) : ascii := nth d hexChars "0"%char.

Definition hexByte (n : nat) : str :=
  [hexDigit (n / 16); hexDigit (n mod 16)].

(* ===================================================================== *)
(** ** variableManager.ts: alias resolution *)
(* ===================================================================== *)

Module Figma.

Inductive VariableResolvedDataType : Type := BOOLEAN | COLOR | FLOAT | STRING.

(** [VariableValue = boolean | string | number | RGB | RGBA |
    VariableAlias] *)
Inductive VariableValue : Type :=
| VBoolean (b : bool)
| VString (s : str)
| VNumber (x : float)
| VRgb (r g b : float)
| VRgba (c : FigmaColor float)
| VAlias (id : str).

(** The [Variable] of the plugin API. *)
Record FigmaVariable : Type := MkVariable {
  id : str;
  name : str;
  variableCollectionId : str;
  resolvedType : VariableResolvedDataType;
  valuesByMode : gmap str VariableValue
}.

Definition isColorType (t : VariableResolvedDataType) : bool :=
  match t with COLOR => true | _ => false end.

Definition isFloatType (t : VariableResolvedDataType) : bool :=
  match t with FLOAT => true | _ => false end.

(** [val && typeof val === 'object' && 'r' in val], then [val as
    FigmaColor]: an [RGB] value has no [a], and [undefined - x] is NaN. *)
Definition asFigmaColor (val : option VariableValue)
  : option (FigmaColor float) :=
  match val with
  | Some (VRgba c) => Some c
  | Some (VRgb r g b) => Some (RGBA r g b nan)
  | _ => None
  end.

Section Resolution.
Variables (cosf sinf : float -> float) (powf : float -> float -> float).

(** The test of the loop of [resolveColorAlias]; the tolerance is the
    default of [colorsMatch]. *)
Definition colorAliasOf (color : FigmaColor float) (primitiveModeId : str)
    (pv : FigmaVariable) : bool :=
  if negb (isColorType (resolvedType pv)) then false
  else
    match asFigmaColor (valuesByMode pv !! primitiveModeId) with
    | Some val =>
        colorsMatch (N := hostNum cosf sinf powf) val color
          (F64.ofDecimal 0.005)
    | None => false
    end.

Definition resolveColorAlias (color : FigmaColor float)
    (primitiveVariables : list FigmaVariable) (primitiveModeId : str)
  : option FigmaVariable :=
  List.find (colorAliasOf color primitiveModeId) primitiveVariables.

(** The test of the loop of [resolveFloatAlias]. *)
Definition floatAliasOf (value : float) (primitiveModeId : str)
    (tolerance : float) (pv : FigmaVariable) : bool :=
  if negb (isFloatType (resolvedType pv)) then false
  else
    match valuesByMode pv !! primitiveModeId with
    | Some (VNumber val) =>
        PrimFloat.ltb (PrimFloat.abs (PrimFloat.sub val value)) tolerance
    | _ => false
    end.

Definition resolveFloatAlias (value : float)
    (primitiveVariables : list FigmaVariable) (primitiveModeId : str)
    (tolerance : float) : option FigmaVariable :=
  List.find (floatAliasOf value primitiveModeId tolerance)
    primitiveVariables.

End Resolution.

End Figma.

(** The decimal numeral of a byte, and what may stand between two channels
    of [rgb(...)]: a comma with blanks around it, or blanks alone. *)
Definition decDigit (n : nat) : ascii := Ascii.ascii_of_nat (48 + n).

Definition decByte (n : nat) : str :=
  if Nat.ltb n 10 then [decDigit n]
  else if Nat.ltb n 100 then [decDigit (n / 10); decDigit (n mod 10)]
  else [decDigit (n / 100); decDigit (n / 10 mod 10); decDigit (n mod 10)].

Definition separator (s : str) : Prop :=
  (exists s1 s2,
      s = s1 ++ ","%char :: s2
      /\ forallb Str.isSpace s1 = true /\ forallb Str.isSpace s2 = true)
  \/ (s <> [] /\ forallb Str.isSpace s = true).

(** The characters of a plain [rgb(...)] text: no capital, no [o], no [h]. *)
Definition plainChar (c : ascii) : bool :=
  negb (Str.isUpper c) && negb (Str.isChar "o" c) && negb (Str.isChar "h" c).

(* ===================================================================== *)
(** ** fetcher.ts *)
(* ===================================================================== *)

Module Fetcher.

(** What the code reads of a [Response] before it asks for the body. *)
Record Response : Type := MkResponse {
  ok : bool;
  status : float;
  statusText : str
}.

(** What [await fetch(url)] comes to: a response, or a rejection. *)
Inductive fetched : Type :=
| Answered (response : Response)
| Failed (reason : str).

(** What [await response.text()] comes to: the body, or a rejection. *)
Inductive read : Type :=
| Body (text : str)
| Lost (reason : str).

(** How the promise of a fetching function settles: with the text, or with
    the message of the error. *)
Inductive settled : Type :=
| Resolved (text : str)
| Rejected (message : str).

(** A call of a fetching function: suspended at one of its two [await]s,
    with the locals it needs when it resumes, or settled.  [failure] is the
    first part of the message of the error. *)
Inductive call : Type :=
| AwaitFetch (failure url : str)
| AwaitText (url : str)
| Settled (outcome : settled).

Definition buildRawUrl (owner repo path branch : str) : str :=
  js "https://raw.githubusercontent.com/" ++ owner ++ js "/" ++ repo
    ++ js "/" ++ branch ++ js "/" ++ path.

(** The part that [fetchRawFromGitHub] and [fetchRawUrl] share, from the
    call to the first [await]:
    [if (cache.has(url)) return cache.get(url)!;
     const response = await fetch(url);] *)
Definition enter (failure url : str) (cache : gmap str str) : call :=
  match cache !! url with
  | Some cachedText => Settled (Resolved cachedText)
  | None => AwaitFetch failure url
  end.

(** From the first [await] to the second:
    [if (!response.ok) throw new Error(...);
     const text = await response.text();] *)
Definition resumeFetch (failure url : str) (answer : fetched) : call :=
  match answer with
  | Failed reason => Settled (Rejected reason)
  | Answered response =>
      if negb (ok response)
      then Settled (Rejected (failure ++ js " (" ++ F64.toString (status response)
                                ++ js ": " ++ statusText response ++ js ")"))
      else AwaitText url
  end.

(** From the second [await] to the end:
    [cache.set(url, text); return text;] *)
Definition resumeText (url : str) (body : read) (cache : gmap str str)
  : call * gmap str str :=
  match body with
  | Lost reason => (Settled (Rejected reason), cache)
  | Body text => (Settled (Resolved text), <[url := text]> cache)
  end.

Definition fetchRawFromGitHub (owner repo path branch : str)
    (cache : gmap str str) : call :=
  let url := buildRawUrl owner repo path branch in
  enter
    (js "Failed to fetch " ++ path ++ js " from " ++ owner ++ js "/" ++ repo)
    url cache.

Definition fetchRawUrl (url : str) (cache : gmap str str) : call :=
  enter (js "Failed to fetch " ++ url) url cache.

Definition clearCache (cache : gmap str str) : gmap str str := ∅.

(** The module: its [cache], and the calls made so far, in the order in
    which they were made. *)
Record session : Type := Session {
  cache : gmap str str;
  calls : list call
}.

(** What can happen next: a function of the module is called, or the
    promise that a suspended call awaits settles and the call resumes. *)
Inductive event : Type :=
| CallRawFromGitHub (owner repo path branch : str)
| CallRawUrl (url : str)
| CallClearCache
| FetchSettles (i : nat) (answer : fetched)
| TextSettles (i : nat) (body : read).

Definition step (s : session) (e : event) : session :=
  match e with
  | CallRawFromGitHub owner repo path branch =>
      Session (cache s)
        (calls s ++ [fetchRawFromGitHub owner repo path branch (cache s)])
  | CallRawUrl url =>
      Session (cache s) (calls s ++ [fetchRawUrl url (cache s)])
  | CallClearCache => Session (clearCache (cache s)) (calls s)
  | FetchSettles i answer =>
      match calls s !! i with
      | Some (AwaitFetch failure url) =>
          Session (cache s)
            (<[i := resumeFetch failure url answer]> (calls s))
      | _ => s
      end
  | TextSettles i body =>
      match calls s !! i with
      | Some (AwaitText url) =>
          let (c, cache') := resumeText url body (cache s) in
          Session cache' (<[i := c]> (calls s))
      | _ => s
      end
  end.

Definition run (s : session) (es : list event) : session :=
  fold_left step es s.

(** The address a suspended call will store its text at. *)
Definition pending (c : call) : option str :=
  match c with
  | AwaitFetch _ url => Some url
  | AwaitText url => Some url
  | Settled _ => None
  end.

(** No call for the address is suspended. *)
Definition quiet (url : str) (s : session) : Prop :=
  Forall (fun c => pending c <> Some url) (calls s).

End Fetcher.

(* ===================================================================== *)
(** ** adapters/types.ts: the preview tree *)
(* ===================================================================== *)

Module Preview.

(** A label is a string; [None] is the [undefined] that [c.path[0]] is for
    an empty path. *)
Inductive PreviewNode : Type :=
| Node (label : option str) (count : nat)
       (children : option (list PreviewNode)).

Definition label (n : PreviewNode) : option str :=
  let '(Node l _ _) := n in l.
Definition count (n : PreviewNode) : nat :=
  let '(Node _ c _) := n in c.
Definition children (n : PreviewNode) : option (list PreviewNode) :=
  let '(Node _ _ k) := n in k.

(** [Map<string, number>]: the entries in the order of their insertion. *)
Definition keyEqb (a b : option str) : bool :=
  match a, b with
  | Some x, Some y => Str.eqb x y
  | None, None => true
  | _, _ => false
  end.

Fixpoint mapGet (k : option str) (m : list (option str * nat))
  : option nat :=
  match m with
  | [] => None
  | (k', v) :: m' => if keyEqb k' k then Some v else mapGet k m'
  end.

Fixpoint mapSet (k : option str) (v : nat) (m : list (option str * nat))
  : list (option str * nat) :=
  match m with
  | [] => [(k, v)]
  | (k', v') :: m' =>
      if keyEqb k' k then (k', v) :: m' else (k', v') :: mapSet k v m'
  end.

(** [groups.set(group, (groups.get(group) || 0) + 1)] *)
Definition countGroup (groups : list (option str * nat))
    (c : ParsedColor.t) : list (option str * nat) :=
  let group := hd_error (ParsedColor.path c) in
  mapSet group
    (match mapGet group groups with Some n => n | None => 0 end + 1)
    groups.

(** [if (family.length > 0) nodes.push({ label, count: family.length })] *)
Definition leaf {A} (name : string) (family : list A) : list PreviewNode :=
  if Nat.ltb 0 (length family)
  then [Node (Some (js name)) (length family) None]
  else [].

Definition buildPreviewTree (tokens : ParsedTokenSet) : list PreviewNode :=
  (if Nat.ltb 0 (length (colors tokens))
   then
     let groups := fold_left countGroup (colors tokens) [] in
     [Node (Some (js "Colors")) (length (colors tokens))
        (Some (map (fun entry => Node (fst entry) (snd entry) None) groups))]
   else [])
  ++ leaf "Spacing" (spacing tokens)
  ++ leaf "Radius" (radius tokens)
  ++ leaf "Shadows" (shadows tokens)
  ++ leaf "Blur" (blur tokens)
  ++ leaf "Typography" (typography tokens)
  ++ leaf "Opacity" (opacity tokens)
  ++ leaf "Breakpoints" (breakpoints tokens)
  ++ leaf "Containers" (containers tokens)
  ++ leaf "Font Weights" (fontWeights tokens)
  ++ leaf "Tracking" (tracking tokens)
  ++ leaf "Leading" (leading tokens)
  ++ leaf "Max Width" (maxWidth tokens).

(** The number of colours of a palette. *)
Definition inPalette (group : option str) (c : ParsedColor.t) : bool :=
  keyEqb (hd_error (ParsedColor.path c)) group.

Definition total (nodes : list PreviewNode) : nat :=
  fold_right (fun n acc => count n + acc) 0 nodes.

(** The counts of a map added up, and the count held for a key. *)
Definition weight (m : list (option str * nat)) : nat :=
  fold_right (fun e acc => snd e + acc) 0 m.

Definition held (k : option str) (m : list (option str * nat)) : nat :=
  match mapGet k m with Some n => n | None => 0 end.

End Preview.

(* ===================================================================== *)
(** ** jsonTokenParser.ts *)
(* ===================================================================== *)

Module JsonPattern.
Import Re.

(** [/^([\d.]+)px$/] *)
Definition px : regex := seq [Bol; Grp 1 Pattern.num; lit (js "px"); Eol].

(** [/^([\d.]+)rem$/] *)
Definition rem : regex := seq [Bol; Grp 1 Pattern.num; lit (js "rem"); Eol].

(** The two patterns differ by the unit. *)
Definition unitPattern (u : str) : regex :=
  seq [Bol; Grp 1 Pattern.num; lit u; Eol].

End JsonPattern.

Module JsonTokens.

(** The values of a token file.  An object is the list of its entries as
    [Object.entries] gives them. *)
Inductive Json : Type :=
| JNull
| JBool (b : bool)
| JNumber (x : float)
| JString (s : str)
| JArray (items : list Json)
| JObject (entries : list (str * Json)).

(** [value.key], [undefined] being [None]. *)
Fixpoint entryOf (key : str) (entries : list (str * Json)) : option Json :=
  match entries with
  | [] => None
  | (k, v) :: entries' => if Str.eqb k key then Some v else entryOf key entries'
  end.

Definition get (key : string) (value : Json) : option Json :=
  match value with
  | JObject entries => entryOf (js key) entries
  | _ => None
  end.

(** [typeof value === 'object' && value !== null && key in value], for the
    keys [size], [Light] and [Dark], which no array and no prototype has. *)
Definition has (key : string) (value : Json) : bool :=
  match get key value with
  | Some _ => true
  | None => false
  end.

(** ToBoolean. *)
Definition truthy (value : option Json) : bool :=
  match value with
  | None | Some JNull => false
  | Some (JBool b) => b
  | Some (JNumber x) => negb (PrimFloat.eqb x 0 || PrimFloat.is_nan x)
  | Some (JString s) => nonEmpty s
  | Some (JArray _) | Some (JObject _) => true
  end.

(** [key.indexOf(c)], [None] being -1. *)
Fixpoint indexOf (c : ascii) (key : str) : option nat :=
  match key with
  | [] => None
  | a :: key' =>
      if Ascii.eqb c a then Some 0
      else match indexOf c key' with
           | Some i => Some (S i)
           | None => None
           end
  end.

Definition stripPrefix (key : str) : str :=
  match indexOf "/" key with
  | Some slashIdx => skipn (slashIdx + 1) key
  | None => key
  end.

Record JsonThemeTokens : Type := ThemeTokens {
  light : gmap str Json;
  dark : gmap str Json
}.

(** [o[name] = value] on an object literal: the name [__proto__] reaches
    the setter of the prototype and makes no property. *)
Definition assign (name : str) (value : Json) (o : gmap str Json)
  : gmap str Json :=
  if Str.eqb name (js "__proto__") then o else <[name := value]> o.

(** The body of the loop of [parseJsonTokens]. *)
Definition parseJsonToken (stripCategoryPrefix : bool)
    (acc : JsonThemeTokens) (entry : str * Json) : JsonThemeTokens :=
  let (key, value) := entry in
  match value with
  | JString _ => acc
  | _ =>
      if has "size" value then acc
      else if has "Light" value || has "Dark" value then
        let tokenName := if stripCategoryPrefix then stripPrefix key else key in
        let light :=
          match get "Light" value with
          | Some v => if truthy (Some v) then assign tokenName v (light acc)
                      else light acc
          | None => light acc
          end in
        let dark :=
          match get "Dark" value with
          | Some v => if truthy (Some v) then assign tokenName v (dark acc)
                      else dark acc
          | None => dark acc
          end in
        ThemeTokens light dark
      else acc
  end.

Definition parseJsonTokens (data : list (str * Json))
    (stripCategoryPrefix : bool) : JsonThemeTokens :=
  fold_left (parseJsonToken stripCategoryPrefix) data (ThemeTokens ∅ ∅).

(** Where a token of a mode comes from. *)
Definition fromMode (mode : string) (stripCategoryPrefix : bool)
    (data : list (str * Json)) (tokenName : str) (v : Json) : Prop :=
  exists key value,
    In (key, value) data
    /\ tokenName = (if stripCategoryPrefix then stripPrefix key else key)
    /\ get mode value = Some v
    /\ truthy (Some v) = true
    /\ has "size" value = false
    /\ tokenName <> js "__proto__".

Section Floats.
Context {num : Type} {N : JsNum num}.
Local Open Scope num_scope.

Record JsonFloatToken : Type := FloatToken {
  name : str;
  lightValue : num;
  darkValue : num
}.

Definition parseDimensionValue (value : option Json) : option num :=
  match value with
  | Some (JString (c :: s)) =>
      let value := c :: s in
      match Re.exec JsonPattern.px value with
      | Some pxMatch => Some (parseFloat (Re.text 1 pxMatch))
      | None =>
          match Re.exec JsonPattern.rem value with
          | Some remMatch => Some (parseFloat (Re.text 1 remMatch) * lit 16)
          | None => None
          end
      end
  | _ => None
  end.

(** The body of the loop of [parseJsonFloatTokens]: the tokens pushed for
    one entry. *)
Definition parseJsonFloatToken (categoryPrefix : str) (entry : str * Json)
  : list JsonFloatToken :=
  let (key, value) := entry in
  if negb (Str.startsWith categoryPrefix key) then []
  else
    let name := Str.replace (categoryPrefix ++ js "/") [] key in
    if has "Light" value || has "Dark" value then
      let lightVal := parseDimensionValue (get "Light" value) in
      let darkVal := parseDimensionValue (get "Dark" value) in
      match lightVal, darkVal with
      | Some l, Some d => [FloatToken name l d]
      | Some l, None => [FloatToken name l l]
      | None, Some d => [FloatToken name d d]
      | None, None => []
      end
    else
      match value with
      | JString _ =>
          match parseDimensionValue (Some value) with
          | Some parsed => [FloatToken name parsed parsed]
          | None => []
          end
      | _ => []
      end.

Definition parseJsonFloatTokens (data : list (str * Json))
    (categoryPrefix : str) : list JsonFloatToken :=
  flat_map (parseJsonFloatToken categoryPrefix) data.

End Floats.

End JsonTokens.

(* ===================================================================== *)
(** ** adapters/registry.ts *)
(* ===================================================================== *)

Module Registry.

Inductive AdapterType : Type := primitives | theme.

(** The fields of a [LibraryAdapter] that are data; the registry reads
    [id] and [dependencies]. *)
Record LibraryAdapter : Type := MkAdapter {
  id : str;
  name : str;
  type : AdapterType;
  dependencies : list str;
  defaultCollectionName : str
}.

(** The variables [result] and [visited] that the inner function [resolve]
    closes over. *)
Record state : Type := State {
  result : list LibraryAdapter;
  visited : gset str
}.

Section Resolve.
(** The module-level map [adapters]. *)
Variable adapters : gmap str LibraryAdapter.

(** The inner function [resolve] of [getAdapterWithDeps] and of
    [resolveAdapters].  [fuel] bounds the depth of the recursion; [None]
    is its exhaustion only. *)
Fixpoint resolve (fuel : nat) (adapterId : str) (st : state)
  : option state :=
  match fuel with
  | O => None
  | S fuel' =>
      if bool_decide (adapterId ∈ visited st) then Some st
      else
        let st := State (result st) ({[adapterId]} ∪ visited st) in
        match adapters !! adapterId with
        | None => Some st
        | Some a =>
            match
              fold_left
                (fun acc depId =>
                   match acc with
                   | Some s => resolve fuel' depId s
                   | None => None
                   end)
                (dependencies a) (Some st)
            with
            | Some st' => Some (State (result st' ++ [a]) (visited st'))
            | None => None
            end
        end
  end.

(** [for (const id of ids) resolve(id)] *)
Definition resolveEach (fuel : nat) (ids : list str) (st : state)
  : option state :=
  fold_left
    (fun acc adapterId =>
       match acc with
       | Some s => resolve fuel adapterId s
       | None => None
       end)
    ids (Some st).

(** No chain of calls is longer than the number of the registered
    adapters, plus one. *)
Definition depth : nat := S (size (dom adapters)).

Definition resolveAdapters (ids : list str) : option (list LibraryAdapter) :=
  match resolveEach depth ids (State [] ∅) with
  | Some st => Some (result st)
  | None => None
  end.

Definition getAdapterWithDeps (adapterId : str)
  : option (list LibraryAdapter) :=
  match adapters !! adapterId with
  | None => Some []
  | Some _ =>
      match resolve depth adapterId (State [] ∅) with
      | Some st => Some (result st)
      | None => None
      end
  end.

(** [adapterId] needs [target]: a chain of dependencies of registered
    adapters leads from the one to the other. *)
Inductive needs : str -> str -> Prop :=
| needs_refl (x : str) : needs x x
| needs_step (x d z : str) (a : LibraryAdapter) :
    adapters !! x = Some a -> In d (dependencies a) -> needs d z ->
    needs x z.

(** Every adapter is registered under its [id], as the initial map and
    [registerAdapter] have it. *)
Definition keyed : Prop :=
  forall k a, adapters !! k = Some a -> id a = k.

(** The order of a result that comes after the identifiers [seen]: each
    adapter comes after its registered dependencies, except those that
    need it themselves. *)
Fixpoint orderedFrom (seen : list str) (l : list LibraryAdapter) : Prop :=
  match l with
  | [] => True
  | a :: l' =>
      (forall d, In d (dependencies a) -> is_Some (adapters !! d) ->
                 In d seen \/ needs d (id a))
      /\ orderedFrom (seen ++ [id a]) l'
  end.

(** What holds of the two variables between the calls of [resolve], [grey]
    being the identifiers whose call has not returned yet. *)
Record Inv (grey : list str) (st : state) : Prop := MkInv {
  inv_result : forall a, In a (result st) -> id a ∈ visited st;
  inv_nodup : NoDup (map id (result st));
  inv_registered : forall a, In a (result st) -> adapters !! id a = Some a;
  inv_visited :
    forall k, k ∈ visited st -> is_Some (adapters !! k) ->
              In k (map id (result st)) \/ In k grey;
  inv_closed :
    forall a d, In a (result st) -> In d (dependencies a) -> d ∈ visited st;
  inv_ordered : orderedFrom [] (result st)
}.

(** What calls for the identifiers [roots] add to the two variables. *)
Definition Extends (roots : list str) (st st' : state) : Prop :=
  exists new,
    result st' = result st ++ new
    /\ (forall b, In b new ->
          (exists r, In r roots /\ needs r (id b)) /\ id b ∉ visited st)
    /\ visited st ⊆ visited st'
    /\ (forall r, In r roots -> r ∈ visited st').

End Resolve.

(** [adapters.set(adapter.id, adapter)] *)
Definition registerAdapter (adapter : LibraryAdapter)
    (adapters : gmap str LibraryAdapter) : gmap str LibraryAdapter :=
  <[id adapter := adapter]> adapters.

End Registry.

(** Two token sets put together, family by family; the number of the
    tokens of a set; and what one variable brings to the result of
    [categorizeTokens]. *)
Definition appendSets (s t : ParsedTokenSet) : ParsedTokenSet :=
  TokenSet (colors s ++ colors t) (spacing s ++ spacing t)
    (radius s ++ radius t) (shadows s ++ shadows t) (blur s ++ blur t)
    (backdropBlur s ++ backdropBlur t) (typography s ++ typography t)
    (opacity s ++ opacity t) (fonts s ++ fonts t)
    (breakpoints s ++ breakpoints t) (containers s ++ containers t)
    (fontWeights s ++ fontWeights t) (tracking s ++ tracking t)
    (leading s ++ leading t) (borderWidth s ++ borderWidth t)
    (maxWidth s ++ maxWidth t) (skew s ++ skew t).

Definition tokenCount (s : ParsedTokenSet) : nat :=
  length (colors s) + length (spacing s) + length (radius s)
  + length (shadows s) + length (blur s) + length (backdropBlur s)
  + length (typography s) + length (opacity s) + length (fonts s)
  + length (breakpoints s) + length (containers s) + length (fontWeights s)
  + length (tracking s) + length (leading s) + length (borderWidth s)
  + length (maxWidth s) + length (skew s).

Section Contribution.
Variables (cosf sinf : float -> float) (powf : float -> float -> float).

(** What one turn of the loop adds to a token set, and the hoisted
    variables it leaves behind. *)
Definition contribution (vars : list CSSVariable.t) (hoisted : Hoisted.t)
    (v : CSSVariable.t) : ParsedTokenSet * Hoisted.t :=
  match categorize cosf sinf powf vars (emptyTokenSet, hoisted) v with
  | Ok state => state
  | Throw _ => (emptyTokenSet, hoisted)
  end.

(** The contributions of the variables, one after the other. *)
Fixpoint collected (vars vs : list CSSVariable.t) (hoisted : Hoisted.t)
  : ParsedTokenSet :=
  match vs with
  | [] => emptyTokenSet
  | v :: vs' =>
      let (c, hoisted') := contribution vars hoisted v in
      appendSets c (collected vars vs' hoisted')
  end.

End Contribution.

(** A declaration as [extractCSSVariables] returns it, and a style sheet
    that declares a list of them: [gap] stands before each declaration and
    [tail] after the last one. *)
Definition declared (d : CSSVariable.t) : Prop :=
  (exists w,
      CSSVariable.name d = js "--" ++ w /\ w <> []
      /\ forallb Re.wordDash w = true)
  /\ CSSVariable.rawValue d <> []
  /\ forallb (Re.noneOf ";") (CSSVariable.rawValue d) = true
  /\ stopsClass Str.isSpace (CSSVariable.rawValue d)
  /\ Re.replaceAll ParserPattern.spaces (js " ")
       (Str.trim (CSSVariable.rawValue d))
     = CSSVariable.rawValue d.

Definition renderDeclaration (gap : str) (d : CSSVariable.t) : str :=
  gap ++ CSSVariable.name d ++ js ": " ++ CSSVariable.rawValue d ++ js ";".

Definition renderDeclarations (gap : str) (ds : list CSSVariable.t) : str :=
  concat (map (renderDeclaration gap) ds).



(** The text of a shadow layer, as the specification words it: numeric
    dimension fields separated by white space, and a colour function. *)
Module LayerText.

(** The characters of a numeric dimension field: digits, sign, dot,
    percent sign and the letters of [px], [rem] and [em]. *)
Definition fieldChar (c : ascii) : bool :=
  Str.isDigit c || existsb (fun a => Str.isChar a c) (js ".-+%pxrem").

Definition fieldOrSpace (c : ascii) : bool := fieldChar c || Str.isSpace c.

Definition notSpace (c : ascii) : bool := negb (Str.isSpace c).

(** The fields of a text: its maximal runs of characters that are not
    white space. *)
Fixpoint words (s : str) : list str :=
  match s with
  | [] => []
  | c :: t =>
      if Str.isSpace c then words t
      else
        match t with
        | [] => [[c]]
        | d :: _ =>
            if Str.isSpace d then [c] :: words t
            else
              match words t with
              | w :: ws => (c :: w) :: ws
              | [] => [[c]]
              end
        end
  end.

Definition colorNames : list str :=
  map js ["rgb"; "rgba"; "oklch"; "oklcha"; "hsl"; "hsla"]%string.

(** The text starts with the name of a colour function. *)
Definition startsColor (s : str) : bool :=
  Str.startsWith (js "rgb") s || Str.startsWith (js "oklch") s
  || Str.startsWith (js "hsl") s.

(** A colour function without a closing parenthesis among its arguments. *)
Definition colorFunction (color : str) : Prop :=
  exists fn args,
    color = fn ++ js "(" ++ args ++ js ")"
    /\ In fn colorNames
    /\ args <> []
    /\ forallb (Re.noneOf ")") args = true.

(** What may stand before the layer: nothing, or the keyword [inset] and
    white space. *)
Definition leadingInset (lead rest : str) : Prop :=
  lead = []
  \/ exists sp,
       lead = js "inset" ++ sp /\ sp <> []
       /\ forallb Str.isSpace sp = true /\ stopsClass Str.isSpace rest.

(** The text [s] is the fields [ws] with white space between them, none
    before and none behind. *)
Inductive Spaced : list str -> str -> Prop :=
| Spaced_none : Spaced [] []
| Spaced_one (w : str) :
    w <> [] -> forallb notSpace w = true -> Spaced [w] w
| Spaced_more (w sp : str) (ws : list str) (s : str) :
    w <> [] -> forallb notSpace w = true ->
    sp <> [] -> forallb Str.isSpace sp = true ->
    ws <> [] -> Spaced ws s ->
    Spaced (w :: ws) (w ++ sp ++ s).

End LayerText.

(* ********************************************************************* *)
(** * Properties *)
(* ********************************************************************* *)

(* ===================================================================== *)
(** ** Strings: trimming and case folding *)
(* ===================================================================== *)

Module StrFacts.
Import Str.

Lemma lowerChar_idem (c : ascii) : lowerChar (lowerChar c) = lowerChar c.
Proof. destruct c as [[] [] [] [] [] [] [] []]; reflexivity. Qed.

Lemma isSpace_lowerChar (c : ascii) : isSpace (lowerChar c) = isSpace c.
Proof. destruct c as [[] [] [] [] [] [] [] []]; reflexivity. Qed.

Lemma toLowerCase_idem (s : str) :
  toLowerCase (toLowerCase s) = toLowerCase s.
Proof.
  unfold toLowerCase. rewrite map_map.
  apply map_ext. intro c. apply lowerChar_idem.
Qed.

Lemma trimStart_toLowerCase (s : str) :
  trimStart (toLowerCase s) = toLowerCase (trimStart s).
Proof.
  induction s as [|c s IH]; simpl; [reflexivity|].
  rewrite isSpace_lowerChar. destruct (isSpace c); [exact IH|reflexivity].
Qed.

Lemma trimEnd_toLowerCase (s : str) :
  trimEnd (toLowerCase s) = toLowerCase (trimEnd s).
Proof.
  unfold trimEnd, toLowerCase.
  rewrite <- map_rev. fold (toLowerCase (rev s)).
  rewrite trimStart_toLowerCase. unfold toLowerCase. now rewrite map_rev.
Qed.

Lemma trim_toLowerCase (s : str) :
  trim (toLowerCase s) = toLowerCase (trim s).
Proof.
  unfold trim. now rewrite trimStart_toLowerCase, trimEnd_toLowerCase.
Qed.

Lemma trimStart_idem (s : str) : trimStart (trimStart s) = trimStart s.
Proof.
  induction s as [|c s IH]; simpl; [reflexivity|].
  destruct (isSpace c) eqn:E; [exact IH|]. simpl. now rewrite E.
Qed.

Lemma trimStart_snoc (l : str) (c : ascii) :
  isSpace c = false -> trimStart (l ++ [c]) = trimStart l ++ [c].
Proof.
  intro Hc. induction l as [|d l IH]; simpl.
  - now rewrite Hc.
  - destruct (isSpace d); [exact IH|reflexivity].
Qed.

Lemma trimStart_length (s : str) : length (trimStart s) <= length s.
Proof.
  induction s as [|c s IH]; simpl; [lia|].
  destruct (isSpace c); simpl; lia.
Qed.

(** A string that [trimStart] leaves alone is empty or starts with a
    character that is not white space. *)
Lemma trimStart_fixed (s : str) :
  trimStart s = s ->
  s = [] \/ exists c t, s = c :: t /\ isSpace c = false.
Proof.
  destruct s as [|c t]; [now left|]. intro Hs. right. exists c, t.
  split; [reflexivity|]. simpl in Hs. destruct (isSpace c); [|reflexivity].
  pose proof (trimStart_length t) as Hl. rewrite Hs in Hl. simpl in Hl. lia.
Qed.

Lemma trimStart_trimEnd (s : str) :
  trimStart s = s -> trimStart (trimEnd s) = trimEnd s.
Proof.
  intro Hs. destruct (trimStart_fixed s Hs) as [->|(c & t & -> & Hc)].
  - reflexivity.
  - unfold trimEnd. simpl rev. rewrite trimStart_snoc by exact Hc.
    rewrite rev_app_distr. simpl. now rewrite Hc.
Qed.

Lemma trimEnd_idem (s : str) : trimEnd (trimEnd s) = trimEnd s.
Proof.
  unfold trimEnd. now rewrite rev_involutive, trimStart_idem.
Qed.

Lemma trim_idem (s : str) : trim (trim s) = trim s.
Proof.
  unfold trim.
  rewrite (trimStart_trimEnd (trimStart s)) by apply trimStart_idem.
  apply trimEnd_idem.
Qed.

(** Normalising twice is normalising once. *)
Lemma normalise_idem (s : str) :
  toLowerCase (trim (toLowerCase (trim s))) = toLowerCase (trim s).
Proof.
  now rewrite trim_toLowerCase, trim_idem, toLowerCase_idem.
Qed.

End StrFacts.

(** C10. For every number model and every input string [s],
    [parseColorValue(s)] is [parseColorValue(s.trim().toLowerCase())]: the
    outcome (a colour, [null] or an exception) does not depend on the case
    of the letters or on white space around the value.  The three inputs of
    the claim are instances. *)
Theorem parseColorValue_normalised :
  (forall (num : Type) (N : JsNum num) (s : str),
      parseColorValue s = parseColorValue (Str.toLowerCase (Str.trim s)))
  /\ Str.toLowerCase (Str.trim (js "  #FFF ")) = js "#fff"
  /\ Str.toLowerCase (Str.trim (js "OKLCH(0.5 0.1 200)"))
     = js "oklch(0.5 0.1 200)"
  /\ Str.toLowerCase (Str.trim (js "BLACK")) = js "black".
Proof.
  split; [|repeat split; reflexivity].
  intros num N s. unfold parseColorValue.
  now rewrite StrFacts.normalise_idem.
Qed.

(* ===================================================================== *)
(** ** Shadow lists are cut at top-level commas *)
(* ===================================================================== *)

Module TopLevelFacts.
Import TopLevel.

Lemma cut_nonempty (cs : list (ascii * Z)) : cut cs <> [].
Proof.
  destruct cs as [|cd t]; simpl; [discriminate|].
  destruct (isSeparator cd); [discriminate|].
  destruct (cut t); discriminate.
Qed.

(** The source updates [depth] with two successive tests. *)
Lemma depth_update (d : Z) (c : ascii) :
  (let d1 := if Str.isChar "(" c then (d + 1)%Z else d in
   if Str.isChar ")" c then (d1 - 1)%Z else d1) = depthAfter d c.
Proof.
  unfold depthAfter, Str.isChar.
  destruct (Ascii.eqb "(" c) eqn:E1; [|reflexivity].
  apply Ascii.eqb_eq in E1. subst c. reflexivity.
Qed.

Lemma loop_cut (s : str) : forall (parts : list str) (d : Z) (cur : str),
  splitShadowLoop s parts d cur =
  (parts ++ removelast (prefixFirst cur (cut (depths d s))),
   last (prefixFirst cur (cut (depths d s))) []).
Proof.
  induction s as [|c t IH]; intros parts d cur.
  - simpl. now rewrite !app_nil_r.
  - cbn [splitShadowLoop depths cut]. rewrite depth_update.
    change (Str.isChar "," c && (depthAfter d c =? 0)%Z)
      with (isSeparator (c, depthAfter d c)).
    destruct (isSeparator (c, depthAfter d c)) eqn:E.
    + rewrite IH. pose proof (cut_nonempty (depths (depthAfter d c) t)) as Hne.
      destruct (cut (depths (depthAfter d c) t)) as [|p ps] eqn:Ec;
        [contradiction|].
      cbn [prefixFirst app]. rewrite app_nil_r.
      change (removelast (cur :: p :: ps)) with (cur :: removelast (p :: ps)).
      change (last (cur :: p :: ps) []) with (last (p :: ps) []).
      now rewrite <- app_assoc.
    + rewrite IH. pose proof (cut_nonempty (depths (depthAfter d c) t)) as Hne.
      destruct (cut (depths (depthAfter d c) t)) as [|p ps] eqn:Ec;
        [contradiction|].
      cbn [prefixFirst fst]. now rewrite <- app_assoc.
Qed.

Lemma prefixFirst_nil (ps : list str) : ps <> [] -> prefixFirst [] ps = ps.
Proof. destruct ps; [contradiction|reflexivity]. Qed.

Lemma splitShadowParts_pieces (value : str) :
  splitShadowParts value = dropBlankLast (pieces value).
Proof.
  unfold splitShadowParts, dropBlankLast, pieces.
  rewrite loop_cut, prefixFirst_nil by apply cut_nonempty.
  cbn [app].
  destruct (nonEmpty (Str.trim (last (cut (depths 0 value)) [])));
    [|reflexivity].
  symmetry. apply app_removelast_last, cut_nonempty.
Qed.

Lemma join_cons (p : str) (ps : list str) :
  ps <> [] -> join (p :: ps) = p ++ ","%char :: join ps.
Proof. destruct ps; [contradiction|reflexivity]. Qed.

Lemma join_cut (cs : list (ascii * Z)) : join (cut cs) = map fst cs.
Proof.
  induction cs as [|[c d] t IH]; [reflexivity|].
  cbn [cut map fst]. destruct (isSeparator (c, d)) eqn:E.
  - rewrite join_cons by apply cut_nonempty. rewrite IH. cbn [app].
    unfold isSeparator, Str.isChar in E. cbn [fst] in E.
    apply andb_prop in E. destruct E as [E _].
    apply Ascii.eqb_eq in E. now subst c.
  - pose proof (cut_nonempty t) as Hne.
    destruct (cut t) as [|w ws] eqn:Ec; [contradiction|].
    destruct ws as [|w' ws'].
    + cbn [join] in *. now rewrite IH.
    + rewrite join_cons in * by discriminate. cbn [app]. now rewrite IH.
Qed.

Lemma map_fst_depths (s : str) : forall d, map fst (depths d s) = s.
Proof.
  induction s as [|c t IH]; intro d; [reflexivity|].
  cbn [depths map fst]. now rewrite IH.
Qed.

Lemma length_cut (cs : list (ascii * Z)) :
  length (cut cs) = S (length (List.filter isSeparator cs)).
Proof.
  induction cs as [|cd t IH]; [reflexivity|].
  cbn [cut List.filter]. destruct (isSeparator cd).
  - cbn [length]. now rewrite IH.
  - pose proof (cut_nonempty t) as Hne.
    destruct (cut t) as [|w ws]; [contradiction|]. exact IH.
Qed.

End TopLevelFacts.

(** C6. [splitShadowParts] cuts its input at exactly the commas read at
    parenthesis depth 0 (the depth goes up on an opening and down on a
    closing parenthesis): its result is the list of the top-level pieces of
    the input, without the last piece when that one is blank; the pieces put
    back together with commas are the input, and there is one more piece
    than there are top-level commas.  The two-layer value of the
    specification gives exactly two parts. *)
Theorem splitShadowParts_top_level_commas :
  (forall value : str,
      splitShadowParts value = TopLevel.dropBlankLast (TopLevel.pieces value)
      /\ TopLevel.join (TopLevel.pieces value) = value
      /\ length (TopLevel.pieces value) = S (TopLevel.separators value))
  /\ splitShadowParts
       (js "0 1px 2px rgb(0,0,0,0.1), inset 0 0 0 1px oklch(0.5 0.1 200)")
     = [js "0 1px 2px rgb(0,0,0,0.1)";
        js " inset 0 0 0 1px oklch(0.5 0.1 200)"].
Proof.
  split; [|vm_compute; reflexivity].
  intro value. split; [apply TopLevelFacts.splitShadowParts_pieces|].
  split.
  - unfold TopLevel.pieces.
    now rewrite TopLevelFacts.join_cut, TopLevelFacts.map_fst_depths.
  - apply TopLevelFacts.length_cut.
Qed.

(* ===================================================================== *)
(** ** Repeated declarations: the last one wins *)
(* ===================================================================== *)

Section LastWins.

Lemma Str_eqb_eq (a b : str) : Str.eqb a b = true <-> a = b.
Proof.
  unfold Str.eqb. destruct (list_eq_dec ascii_dec a b); split;
    intros; congruence.
Qed.

Lemma Str_eqb_neq (a b : str) : Str.eqb a b = false <-> a <> b.
Proof.
  unfold Str.eqb. destruct (list_eq_dec ascii_dec a b); split;
    intros; congruence.
Qed.





End LastWins.



(* ===================================================================== *)
(** ** The loop of [categorizeTokens] *)
(* ===================================================================== *)

(** Case analysis on one turn of the loop: every test of the chain is
    decided, the helpers are unfolded and the equation is inverted. *)
Ltac break_if H :=
  match type of H with
  | context [if ?c then _ else _] =>
      let E := fresh "E" in destruct c eqn:E
  end.

Ltac break_match H :=
  match type of H with
  | context [match ?c with _ => _ end] =>
      lazymatch c with
      | context [match _ with _ => _ end] => fail
      | _ => let E := fresh "E" in destruct c eqn:E
      end
  end.

Ltac categorize_cases H :=
  unfold categorize in H;
  repeat break_if H;
  unfold pushShadow, pushDimension, pushNumber, bind in H;
  repeat break_match H;
  try discriminate H;
  injection H; clear H; intros; subst.

Section Loop.
Variables (cosf sinf : float -> float) (powf : float -> float -> float).
#[local] Existing Instance hostNum.


Lemma startsWith_color_spacing (name : str) :
  Str.startsWith (js "color-") name = true ->
  Str.eqb name (js "spacing") = false.
Proof.
  intro H. apply Str_eqb_neq. intros ->. discriminate H.
Qed.

Lemma categorize_spacing (vars : list CSSVariable.t)
    (result result' : ParsedTokenSet) (h h' : Hoisted.t)
    (v : CSSVariable.t) :
  categorize cosf sinf powf vars (result, h) v = Ok (result', h') ->
  spacing result' = spacing result ++ spacingBase cosf sinf powf v.
Proof.
  intro H. destruct result. unfold spacingBase.
  categorize_cases H; cbn [spacing];
    try (rewrite startsWith_color_spacing by assumption);
    try match goal with
        | E : Str.eqb _ (js "spacing") = _ |- _ => rewrite E
        end;
    try match goal with
        | E : parseDimension _ = _ |- _ => rewrite E
        end;
    try (now rewrite app_nil_r); try reflexivity.
Qed.

Lemma categorizeAll_spacing (vars vs : list CSSVariable.t) :
  forall result result' h h',
    categorizeAll cosf sinf powf vars vs (result, h) = Ok (result', h') ->
    spacing result' = spacing result ++ spacingBases cosf sinf powf vs.
Proof.
  induction vs as [|v vs IH]; intros result result' h h' H.
  - cbn in H. injection H as <- <-. cbn. now rewrite app_nil_r.
  - cbn [categorizeAll] in H. unfold bind in H.
    destruct (categorize cosf sinf powf vars (result, h) v) as [[r1 h1]|e]
      eqn:E; [|discriminate].
    rewrite (IH _ _ _ _ H), (categorize_spacing _ _ _ _ _ _ E).
    unfold spacingBases. cbn [flat_map]. now rewrite app_assoc.
Qed.

End Loop.

(** C4. When the loop of [categorizeTokens] finds exactly one spacing entry
    [base] (one variable named exactly [spacing] whose value is a dimension),
    the spacing family that is returned is the 33-step table: the steps are
    0.5, 1, 1.5, 2, ..., 96, the value of each entry is the step times the
    value of [base], and its path is the decimal writing of the step with
    the dot replaced by an underscore.  When the base is 4, the entry of
    step 4 has value 16 and path ["4"]. *)
Theorem spacing_scale_synthesis
    (cosf sinf : float -> float) (powf : float -> float -> float)
    (vars : list CSSVariable.t) (ts : ParsedTokenSet) (base : ParsedFloat.t) :
  categorizeTokens cosf sinf powf vars = Ok ts ->
  spacingBases cosf sinf powf vars = [base] ->
  steps cosf sinf powf
  = [0.5; 1; 1.5; 2; 2.5; 3; 3.5; 4; 5; 6; 7; 8; 9; 10; 11; 12; 14; 16; 20;
     24; 28; 32; 36; 40; 44; 48; 52; 56; 60; 64; 72; 80; 96]%float
  /\ spacing ts = generateSpacingScale cosf sinf powf (ParsedFloat.value base)
  /\ map ParsedFloat.value (spacing ts)
     = map (fun step => PrimFloat.mul step (ParsedFloat.value base))
           (steps cosf sinf powf)
  /\ map ParsedFloat.path (spacing ts)
     = map (fun step =>
              [Re.replaceAll ParserPattern.dot (js "_") (F64.toString step)])
           (steps cosf sinf powf)
  /\ map ParsedFloat.path (spacing ts) = map (fun n => [js n]) stepNames
  /\ length (spacing ts) = 33
  /\ (ParsedFloat.value base = 4%float ->
      nth_error (spacing ts) 7
      = Some (ParsedFloat.make [js "4"] 16%float (js "16px"))).
Proof.
  intros Hts Hbase.
  split; [vm_compute; reflexivity|].
  unfold categorizeTokens, bind in Hts.
  destruct (categorizeAll cosf sinf powf vars vars initial)
    as [[result h]|e] eqn:Hall; [|discriminate].
  apply categorizeAll_spacing in Hall. rewrite Hbase in Hall.
  cbn [spacing emptyTokenSet app fst] in *. rewrite Hall in Hts.
  injection Hts as <-.
  assert (Hs : spacing
                 (setSpacing
                    (generateSpacingScale cosf sinf powf
                       (ParsedFloat.value base)) result)
               = generateSpacingScale cosf sinf powf (ParsedFloat.value base))
    by (destruct result; reflexivity).
  rewrite Hs. unfold generateSpacingScale.
  split; [reflexivity|].
  split; [rewrite map_map; reflexivity|].
  split; [rewrite map_map; reflexivity|].
  split; [rewrite map_map; vm_compute; reflexivity|].
  split; [rewrite length_map; reflexivity|].
  intros ->. vm_compute. reflexivity.
Qed.

Lemma spacing_scale_synthesis_witness :
  exists ts,
    categorizeTokens Sample.unary Sample.unary Sample.binary
      [Sample.var "--spacing" "4px"] = Ok ts
    /\ length (spacing ts) = 33
    /\ nth_error (spacing ts) 7
       = Some (ParsedFloat.make [js "4"] 16%float (js "16px")).
Proof.
  eexists. split; [vm_compute; reflexivity|].
  pose proof
    (spacing_scale_synthesis Sample.unary Sample.unary Sample.binary
       [Sample.var "--spacing" "4px"] _
       (ParsedFloat.make [js "base"] 4%float (js "4px"))
       ltac:(vm_compute; reflexivity) ltac:(vm_compute; reflexivity))
    as (_ & _ & _ & _ & _ & Hlen & Hfour).
  split; [exact Hlen|]. apply Hfour. reflexivity.
Defined.

(* ===================================================================== *)
(** ** Names of the tokens *)
(* ===================================================================== *)

Section NamingFacts.
Variables (cosf sinf : float -> float) (powf : float -> float -> float).
#[local] Existing Instance hostNum.
Import Naming.

Lemma split_nonempty (sep : ascii) (s : str) : Str.split sep s <> [].
Proof.
  destruct s as [|c t]; cbn [Str.split]; [discriminate|].
  destruct (Ascii.eqb sep c); [discriminate|].
  destruct (Str.split sep t); discriminate.
Qed.

Lemma setNth_nonempty {A} (i : nat) (x d : A) (l : list A) :
  Re.setNth i x d l <> [].
Proof. destruct i, l; discriminate. Qed.

Lemma partsOrDefault_nonempty (bare name : str) :
  partsOrDefault bare name <> [].
Proof.
  unfold partsOrDefault. destruct (Str.eqb name bare).
  - apply setNth_nonempty.
  - apply split_nonempty.
Qed.

Lemma Forall_snoc {A} (P : A -> Prop) (l : list A) (x : A) :
  Forall P l -> P x -> Forall P (l ++ [x]).
Proof. intros Hl Hx. apply Forall_app. split; [exact Hl|]. now constructor. Qed.

(** Closes the goals left by the case analysis of one turn. *)
Ltac named_step :=
  repeat match goal with
         | H : Forall _ (_ :: _) |- _ => inversion_clear H
         | H : Forall _ [] |- _ => clear H
         end;
  repeat split;
  repeat (apply Forall_cons);
  try apply Forall_nil;
  try assumption;
  apply Forall_snoc; try assumption;
  cbn [ParsedFloat.path ParsedColor.path ParsedShadow.name];
  first [ apply split_nonempty
        | apply partsOrDefault_nonempty
        | discriminate ].

Lemma categorize_named (vars : list CSSVariable.t)
    (result result' : ParsedTokenSet) (h h' : Hoisted.t)
    (v : CSSVariable.t) :
  categorize cosf sinf powf vars (result, h) v = Ok (result', h') ->
  Named result -> Named result'.
Proof.
  intros H (Hc & Hf & Hs). destruct result. unfold Named, floatFamilies in *.
  cbn [colors spacing radius shadows blur backdropBlur typography opacity
       fonts breakpoints containers fontWeights tracking leading borderWidth
       maxWidth skew] in *.
  categorize_cases H;
    cbn [colors spacing radius shadows blur backdropBlur typography opacity
         fonts breakpoints containers fontWeights tracking leading
         borderWidth maxWidth skew Push.colors Push.spacing Push.radius
         Push.shadows Push.blur Push.backdropBlur Push.typography
         Push.opacity Push.fonts Push.breakpoints Push.containers
         Push.fontWeights Push.tracking Push.leading Push.borderWidth
         Push.maxWidth Push.skew];
    solve [ repeat split; assumption | named_step ].
Qed.

Lemma categorizeAll_named (vars vs : list CSSVariable.t) :
  forall result result' h h',
    categorizeAll cosf sinf powf vars vs (result, h) = Ok (result', h') ->
    Named result -> Named result'.
Proof.
  induction vs as [|v vs IH]; intros result result' h h' H Hn.
  - cbn in H. now injection H as <- <-.
  - cbn [categorizeAll] in H. unfold bind in H.
    destruct (categorize cosf sinf powf vars (result, h) v) as [[r1 h1]|e]
      eqn:E; [|discriminate].
    eapply IH; [exact H|]. eapply categorize_named; eassumption.
Qed.

Lemma generateSpacingScale_named (basePx : float) :
  Forall (fun f => ParsedFloat.path f <> [])
    (generateSpacingScale cosf sinf powf basePx).
Proof.
  unfold generateSpacingScale. apply Forall_forall. intros f Hf.
  apply in_map_iff in Hf. destruct Hf as (step & Hf & _).
  rewrite <- Hf. cbn [ParsedFloat.path]. intro Hnil.
  exact (nil_cons (eq_sym Hnil)).
Qed.

Lemma emptyTokenSet_named : Named emptyTokenSet.
Proof.
  unfold Named, floatFamilies, emptyTokenSet.
  cbn [colors spacing radius shadows blur backdropBlur typography opacity
       fonts breakpoints containers fontWeights tracking leading borderWidth
       maxWidth skew].
  repeat split; repeat constructor.
Qed.

Lemma setSpacing_named (xs : list ParsedFloat.t) (ts : ParsedTokenSet) :
  Forall (fun f => ParsedFloat.path f <> []) xs ->
  Named ts -> Named (setSpacing xs ts).
Proof.
  intros Hxs (Hc & Hf & Hs). destruct ts. unfold Named, floatFamilies in *.
  cbn [colors spacing radius shadows blur backdropBlur typography opacity
       fonts breakpoints containers fontWeights tracking leading borderWidth
       maxWidth skew setSpacing] in *.
  split; [exact Hc|]. split; [|exact Hs].
  inversion_clear Hf. now constructor.
Qed.

Lemma categorizeTokens_named (vars : list CSSVariable.t)
    (ts : ParsedTokenSet) :
  categorizeTokens cosf sinf powf vars = Ok ts -> Named ts.
Proof.
  unfold categorizeTokens, bind. intro H.
  destruct (categorizeAll cosf sinf powf vars vars initial)
    as [[result h]|e] eqn:Hall; [|discriminate].
  assert (Hn : Named result)
    by (eapply categorizeAll_named; [exact Hall|apply emptyTokenSet_named]).
  cbn [fst] in H.
  destruct (spacing result) as [|base [|]]; injection H as <-;
    try exact Hn.
  apply setSpacing_named; [apply generateSpacingScale_named|exact Hn].
Qed.

End NamingFacts.

(* ===================================================================== *)
(** ** Values that are not colours *)
(* ===================================================================== *)

Section NotAColor.
Variables (cosf sinf : float -> float) (powf : float -> float -> float).
#[local] Existing Instance hostNum.

Lemma startsWith_split (p s : str) :
  Str.startsWith p s = true -> exists t, s = p ++ t.
Proof.
  revert s. induction p as [|a p IH]; intros s H.
  - now exists s.
  - destruct s as [|b s]; [discriminate|]. cbn in H.
    apply andb_prop in H. destruct H as [Hab Hp].
    apply Ascii.eqb_eq in Hab. subst b.
    destruct (IH s Hp) as [t ->]. now exists t.
Qed.

Lemma find_app {A} (f : A -> bool) (l1 l2 : list A) :
  List.find f (l1 ++ l2) =
  match List.find f l1 with
  | Some x => Some x
  | None => List.find f l2
  end.
Proof.
  induction l1 as [|x l1 IH]; [reflexivity|].
  cbn [app List.find]. now destruct (f x).
Qed.

(** Removing the leading dashes of a name that has them. *)
Lemma strip_dashes (s : str) :
  Re.replace ParserPattern.dashes [] ("-"%char :: "-"%char :: s) = s.
Proof. reflexivity. Qed.

(** A variable of the colour rule is not the modifier of a text size. *)
Lemma color_not_sibling (v : CSSVariable.t) (name suffix : str) :
  Str.startsWith (js "color-")
    (Re.replace ParserPattern.dashes [] (CSSVariable.name v)) = true ->
  Str.startsWith (js "text-") name = true ->
  Str.eqb (CSSVariable.name v) (js "--" ++ name ++ suffix) = false.
Proof.
  intros Hc Ht. apply Str_eqb_neq. intro Heq.
  destruct (startsWith_split _ _ Ht) as [t ->].
  rewrite Heq in Hc. cbn [js String.list_ascii_of_string app] in Hc.
  rewrite strip_dashes in Hc. discriminate Hc.
Qed.

Lemma sibling_without (pre post : list CSSVariable.t) (v : CSSVariable.t)
    (name suffix : str) :
  Str.startsWith (js "color-")
    (Re.replace ParserPattern.dashes [] (CSSVariable.name v)) = true ->
  Str.startsWith (js "text-") name = true ->
  sibling (pre ++ v :: post) name suffix = sibling (pre ++ post) name suffix.
Proof.
  intros Hc Ht. unfold sibling. rewrite !find_app. cbn [List.find].
  now rewrite (color_not_sibling v name suffix Hc Ht).
Qed.

(** One turn of the loop reads the whole list only to find the modifiers
    of a text size. *)
Lemma categorize_ext (vars1 vars2 : list CSSVariable.t)
    (state : ParsedTokenSet * Hoisted.t) (w : CSSVariable.t) :
  (forall name suffix,
      Str.startsWith (js "text-") name = true ->
      sibling vars1 name suffix = sibling vars2 name suffix) ->
  categorize cosf sinf powf vars1 state w
  = categorize cosf sinf powf vars2 state w.
Proof.
  intro Hs. destruct state as [result h]. unfold categorize.
  repeat match goal with
         | |- (if ?c then _ else _) = (if ?c then _ else _) =>
             let E := fresh "E" in
             destruct c eqn:E;
             try match goal with |- ?x = ?x => reflexivity end
         end.
  destruct (parseDimension (CSSVariable.rawValue w)); [|reflexivity].
  apply andb_prop in E14. destruct E14 as [Ht _].
  unfold assignModifiers. now rewrite !(Hs _ _ Ht).
Qed.

Lemma categorize_null_color (vars : list CSSVariable.t)
    (state : ParsedTokenSet * Hoisted.t) (v : CSSVariable.t) :
  Str.startsWith (js "color-")
    (Re.replace ParserPattern.dashes [] (CSSVariable.name v)) = true ->
  parseColorValue (N := hostNum cosf sinf powf) (CSSVariable.rawValue v)
  = Ok None ->
  categorize cosf sinf powf vars state v = Ok state.
Proof.
  intros Hc Hnull. destruct state as [result h]. unfold categorize.
  rewrite Hc, Hnull. reflexivity.
Qed.

Lemma categorizeAll_ext (vars1 vars2 vs : list CSSVariable.t) :
  (forall name suffix,
      Str.startsWith (js "text-") name = true ->
      sibling vars1 name suffix = sibling vars2 name suffix) ->
  forall result,
    categorizeAll cosf sinf powf vars1 vs result
    = categorizeAll cosf sinf powf vars2 vs result.
Proof.
  intro Hs. induction vs as [|w vs IH]; intro result; [reflexivity|].
  cbn [categorizeAll]. rewrite (categorize_ext vars1 vars2 result w Hs).
  unfold bind. destruct (categorize cosf sinf powf vars2 result w);
    [apply IH|reflexivity].
Qed.

Lemma categorizeAll_skip (vars pre post : list CSSVariable.t)
    (v : CSSVariable.t) :
  Str.startsWith (js "color-")
    (Re.replace ParserPattern.dashes [] (CSSVariable.name v)) = true ->
  parseColorValue (N := hostNum cosf sinf powf) (CSSVariable.rawValue v)
  = Ok None ->
  forall result,
    categorizeAll cosf sinf powf vars (pre ++ v :: post) result
    = categorizeAll cosf sinf powf vars (pre ++ post) result.
Proof.
  intros Hc Hnull. induction pre as [|w pre IH]; intro result.
  - cbn [app categorizeAll].
    now rewrite (categorize_null_color vars result v Hc Hnull).
  - cbn [app categorizeAll]. unfold bind.
    destruct (categorize cosf sinf powf vars result w);
      [apply IH|reflexivity].
Qed.

Lemma categorizeTokens_skip (pre post : list CSSVariable.t)
    (v : CSSVariable.t) :
  Str.startsWith (js "color-")
    (Re.replace ParserPattern.dashes [] (CSSVariable.name v)) = true ->
  parseColorValue (N := hostNum cosf sinf powf) (CSSVariable.rawValue v)
  = Ok None ->
  categorizeTokens cosf sinf powf (pre ++ v :: post)
  = categorizeTokens cosf sinf powf (pre ++ post).
Proof.
  intros Hc Hnull. unfold categorizeTokens.
  rewrite (categorizeAll_skip _ pre post v Hc Hnull).
  rewrite (categorizeAll_ext (pre ++ v :: post) (pre ++ post)); [reflexivity|].
  intros name suffix Ht. now apply sibling_without.
Qed.

End NotAColor.

(** A value that starts with [#] does not start with [rgb]. *)
Lemma hash_not_rgb (v : str) :
  Str.startsWith (js "#") v = true -> Str.startsWith (js "rgb") v = false.
Proof.
  intro H. destruct (startsWith_split _ _ H) as [t ->]. reflexivity.
Qed.

(** C3, as amended.  Write [v] for [value.trim().toLowerCase()].  When [v]
    matches neither the [oklch()] nor the [hsl()] pattern, does not start
    with [#], does not match the [rgb()] pattern if it starts with [rgb],
    and is neither one of the three names nor the name of a member of
    [Object.prototype], [parseColorValue(value)] returns [null] without
    raising.  When [v] starts with [#], a colour is returned whatever
    follows the [#].  When the categorizer meets a [color-*] variable whose
    value parses to [null], the turn of the loop leaves the token set as it
    is, and the outcome for the whole list is the outcome for the list
    without that variable: nothing is added and the other variables are
    still processed. *)
Theorem unmatched_color_is_skipped
    (cosf sinf : float -> float) (powf : float -> float -> float) :
  (forall (num : Type) (N : JsNum num) (value : str),
      let v := Str.toLowerCase (Str.trim value) in
      Re.exec Pattern.oklch v = None ->
      Re.exec Pattern.hsl v = None ->
      Str.startsWith (js "#") v = false ->
      (Str.startsWith (js "rgb") v = true -> Re.exec Pattern.rgb v = None) ->
      getProperty named v = Absent ->
      parseColorValue (N := N) value = Ok None)
  /\ (forall (num : Type) (N : JsNum num) (value : str),
         Str.startsWith (js "#") (Str.toLowerCase (Str.trim value)) = true ->
         exists c, parseColorValue (N := N) value = Ok (Some c))
  /\ (forall (pre post : list CSSVariable.t) (v : CSSVariable.t),
         Str.startsWith (js "color-")
           (Re.replace ParserPattern.dashes [] (CSSVariable.name v)) = true ->
         parseColorValue (N := hostNum cosf sinf powf)
           (CSSVariable.rawValue v) = Ok None ->
         (forall vars state,
             categorize cosf sinf powf vars state v = Ok state)
         /\ categorizeTokens cosf sinf powf (pre ++ v :: post)
            = categorizeTokens cosf sinf powf (pre ++ post)).
Proof.
  split; [|split].
  - intros num N value v Hoklch Hhsl Hhash Hrgb Hnamed.
    unfold parseColorValue. fold v. rewrite Hoklch, Hhsl, Hhash, Hnamed.
    destruct (Str.startsWith (js "rgb") v) eqn:E; [|reflexivity].
    unfold rgbStringToRgba. now rewrite (Hrgb eq_refl).
  - intros num N value Hhash. unfold parseColorValue.
    destruct (Re.exec Pattern.oklch _); [eexists; reflexivity|].
    destruct (Re.exec Pattern.hsl _); [eexists; reflexivity|].
    rewrite (hash_not_rgb _ Hhash), Hhash. eexists. reflexivity.
  - intros pre post v Hc Hnull. split.
    + intros vars state. now apply categorize_null_color.
    + now apply categorizeTokens_skip.
Qed.

Lemma unmatched_color_is_skipped_witness :
  parseColorValue (N := hostNum Sample.unary Sample.unary Sample.binary)
    (js "not-a-color") = Ok None
  /\ categorizeTokens Sample.unary Sample.unary Sample.binary
       ([Sample.var "--radius-sm" "4px"]
        ++ Sample.var "--color-bad" "not-a-color"
        :: [Sample.var "--color-red-500" "#f00"])
     = categorizeTokens Sample.unary Sample.unary Sample.binary
         ([Sample.var "--radius-sm" "4px"]
          ++ [Sample.var "--color-red-500" "#f00"]).
Proof.
  pose proof (unmatched_color_is_skipped
                Sample.unary Sample.unary Sample.binary) as (H1 & _ & H3).
  split.
  - apply H1; vm_compute; reflexivity.
  - apply (H3 [Sample.var "--radius-sm" "4px"]
              [Sample.var "--color-red-500" "#f00"]
              (Sample.var "--color-bad" "not-a-color"));
      vm_compute; reflexivity.
Defined.

(** C3 as stated fails: [#12345] is none of the documented syntaxes (five
    hexadecimal digits) and [parseColorValue] returns a colour for it. *)
Lemma five_digit_hex_counterexample :
  Documented.syntax (js "#12345") = false
  /\ parseColorValue (N := hostNum Sample.unary Sample.unary Sample.binary)
       (js "#12345")
     = Ok (Some (RGBA (18 / 255) (52 / 255) (5 / 255) 1))%float.
Proof. split; vm_compute; reflexivity. Qed.

(** The name of a member of [Object.prototype] is found in the table of
    named colours and [hexToRgba] is called on a value that is not a string:
    the call raises. *)
Lemma inherited_name_throws :
  parseColorValue (N := hostNum Sample.unary Sample.unary Sample.binary)
    (js "constructor") = Throw TypeError
  /\ categorizeTokens Sample.unary Sample.unary Sample.binary
       [Sample.var "--color-x" "constructor"; Sample.var "--radius" "4px"]
     = Throw TypeError.
Proof. split; vm_compute; reflexivity. Qed.

(* ===================================================================== *)
(** ** What a match of a pattern tells about the subject *)
(* ===================================================================== *)

Module ReFacts.
Import Re.

(** Closes the goals about the empty word. *)
Ltac here :=
  repeat split; cbn [length app];
  first [ assumption | lia | constructor ].

(** The matcher only succeeds through a word of the pattern: the word is
    read at the current position and the continuation takes over behind
    it. *)
Lemma rmatch_sound {A} (r : regex) :
  forall (k : mstate -> option A) (st : mstate) (x : A),
    rmatch r k st = Some x ->
    exists w st',
      Lang r w /\ rest st = w ++ rest st' /\ pos st' = pos st + length w
      /\ k st' = Some x.
Proof.
  induction r as [|p|r1 IH1 r2 IH2|r1 IH1 r2 IH2|g r1 IH1|i r1 IH1| |];
    intros k st x H; cbn [rmatch] in H.
  - exists [], st. here.
  - destruct (rest st) as [|c t] eqn:Hr; [discriminate|].
    destruct (p c) eqn:Hp; [|discriminate].
    exists [c], (advance st). cbn [advance rest pos]. rewrite Hr.
    split; [now constructor|here].
  - apply IH1 in H. destruct H as (w1 & st1 & L1 & R1 & P1 & H).
    apply IH2 in H. destruct H as (w2 & st2 & L2 & R2 & P2 & H).
    exists (w1 ++ w2), st2. repeat split.
    + now constructor.
    + now rewrite R1, R2, app_assoc.
    + rewrite length_app. lia.
    + exact H.
  - destruct (rmatch r1 k st) as [y|] eqn:E.
    + injection H as <-. apply IH1 in E.
      destruct E as (w & st' & L & R & P & K).
      exists w, st'. repeat split; try assumption. now apply LangOrL.
    + apply IH2 in H. destruct H as (w & st' & L & R & P & K).
      exists w, st'. repeat split; try assumption. now apply LangOrR.
  - revert H. generalize (length (rest st)) at 1. intro fuel.
    revert st x. induction fuel as [|fuel IHf]; intros st x H.
    + exists [], st. here.
    + assert (Hmore : forall y,
                 rmatch r1
                   (fun st' =>
                      if Nat.ltb (length (rest st')) (length (rest st))
                      then repeatLoop (rmatch r1) g k fuel st' else None) st
                 = Some y ->
                 exists w st',
                   Lang (Rep g r1) w /\ rest st = w ++ rest st'
                   /\ pos st' = pos st + length w /\ k st' = Some y).
      { intros y Hy. apply IH1 in Hy.
        destruct Hy as (w1 & st1 & L1 & R1 & P1 & Hy).
        destruct (Nat.ltb (length (rest st1)) (length (rest st)));
          [|discriminate].
        apply IHf in Hy. destruct Hy as (w2 & st2 & L2 & R2 & P2 & Hy).
        exists (w1 ++ w2), st2. repeat split.
        - now apply LangRepCons.
        - now rewrite R1, R2, app_assoc.
        - rewrite length_app. lia.
        - exact Hy. }
      assert (Hstop : forall y,
                 k st = Some y ->
                 exists w st',
                   Lang (Rep g r1) w /\ rest st = w ++ rest st'
                   /\ pos st' = pos st + length w /\ k st' = Some y).
      { intros y Hy. exists [], st. here. }
      cbn [repeatLoop] in H. cbv zeta in H. destruct g.
      * match type of H with
        | match ?m with _ => _ end = _ => destruct m as [y|] eqn:E
        end.
        -- injection H as <-. now apply Hmore.
        -- now apply Hstop.
      * destruct (k st) as [y|] eqn:E.
        -- injection H as <-. now apply Hstop.
        -- now apply Hmore.
  - apply IH1 in H. destruct H as (w & st' & L & R & P & K).
    exists w, (capture i st st'). cbn [capture rest pos].
    repeat split; try assumption. now constructor.
  - destruct (Nat.eqb (pos st) 0); [|discriminate].
    exists [], st. here.
  - destruct (rest st) eqn:Hr; [|discriminate].
    exists [], st. rewrite Hr. here.
Qed.

Lemma matchHere_sound (r : regex) (st : mstate) (m : rmatched) :
  matchHere r st = Some m ->
  exists w t, Lang r w /\ rest st = w ++ t /\ index m = pos st
              /\ stop m = pos st + length w.
Proof.
  unfold matchHere. intro H. apply rmatch_sound in H.
  destruct H as (w & st' & L & R & P & K). injection K as <-.
  exists w, (rest st'). cbn [index stop]. repeat split; assumption.
Qed.

Lemma searchFrom_sound (r : regex) (fuel : nat) :
  forall (st : mstate) (m : rmatched),
    searchFrom r fuel st = Some m ->
    exists pre w post, Lang r w /\ rest st = pre ++ w ++ post.
Proof.
  induction fuel as [|fuel IH]; intros st m H; cbn [searchFrom] in H.
  - destruct (matchHere r st) as [m'|] eqn:E.
    + apply matchHere_sound in E. destruct E as (w & t & L & R & _).
      exists [], w, t. now split.
    + destruct (rest st); discriminate.
  - destruct (matchHere r st) as [m'|] eqn:E.
    + apply matchHere_sound in E. destruct E as (w & t & L & R & _).
      exists [], w, t. now split.
    + destruct (rest st) as [|c t] eqn:Hr; [discriminate|].
      apply IH in H. cbn [rest tl] in H.
      destruct H as (pre & w & post & L & R).
      exists (c :: pre), w, post. split; [exact L|]. cbn. now rewrite R.
Qed.

Lemma exec_sound (r : regex) (s : str) (m : rmatched) :
  exec r s = Some m -> exists pre w post, Lang r w /\ s = pre ++ w ++ post.
Proof. unfold exec. intro H. now apply searchFrom_sound in H. Qed.

(** An anchored pattern matches at the start or not at all. *)
Lemma matchHere_anchored (r : regex) (st : mstate) :
  pos st <> 0 -> matchHere (Cat Bol r) st = None.
Proof.
  intro Hp. unfold matchHere. cbn [rmatch].
  destruct (Nat.eqb (pos st) 0) eqn:E; [|reflexivity].
  apply Nat.eqb_eq in E. contradiction.
Qed.

Lemma searchFrom_anchored (r : regex) (fuel : nat) :
  forall st, pos st <> 0 -> searchFrom (Cat Bol r) fuel st = None.
Proof.
  induction fuel as [|fuel IH]; intros st Hp; cbn [searchFrom];
    rewrite matchHere_anchored by exact Hp.
  - now destruct (rest st).
  - destruct (rest st); [reflexivity|]. apply IH. cbn. lia.
Qed.

Lemma exec_anchored (r : regex) (s : str) (m : rmatched) :
  exec (Cat Bol r) s = Some m -> index m = 0.
Proof.
  unfold exec. destruct (length s) as [|n]; cbn [searchFrom];
    destruct (matchHere (Cat Bol r) (MState 0 s [])) as [m'|] eqn:E.
  - intro H. injection H as <-. apply matchHere_sound in E.
    now destruct E as (_ & _ & _ & _ & I & _).
  - now destruct (rest (MState 0 s [])).
  - intro H. injection H as <-. apply matchHere_sound in E.
    now destruct E as (_ & _ & _ & _ & I & _).
  - cbn [rest]. destruct s; [discriminate|].
    now rewrite searchFrom_anchored by (cbn; lia).
Qed.

Lemma Lang_lit (s w : str) : Lang (lit s) w -> w = s.
Proof.
  revert w. induction s as [|c s IH]; intros w H; cbn [lit] in H.
  - now inversion H.
  - inversion H as [| |r1 r2 w1 w2 H1 H2| | | | | | |]; subst.
    inversion H1 as [|p c' Hc| | | | | | | |]; subst.
    apply Ascii.eqb_eq in Hc. subst c'. cbn. f_equal. now apply IH.
Qed.

End ReFacts.

(* ===================================================================== *)
(** ** Shadow layers *)
(* ===================================================================== *)

Section ShadowFacts.
Variables (cosf sinf : float -> float) (powf : float -> float -> float).
#[local] Existing Instance hostNum.

Lemma startsWith_app (p t : str) : Str.startsWith p (p ++ t) = true.
Proof.
  induction p as [|c p IH]; [reflexivity|].
  cbn. now rewrite Ascii.eqb_refl, IH.
Qed.

Lemma includes_Substring (p s : str) :
  Str.includes p s = true <-> Substring p s.
Proof.
  split.
  - induction s as [|c s IH]; cbn [Str.includes]; intro H.
    + rewrite orb_false_r in H. apply startsWith_split in H.
      destruct H as [t ->]. now exists [], t.
    + apply orb_prop in H. destruct H as [H|H].
      * apply startsWith_split in H. destruct H as [t ->]. now exists [], t.
      * destruct (IH H) as (pre & post & ->). now exists (c :: pre), post.
  - intros (pre & post & ->). induction pre as [|c pre IH].
    + cbn [app]. destruct (p ++ post) eqn:E; cbn [Str.includes];
        rewrite <- E, startsWith_app; reflexivity.
    + cbn [app Str.includes]. rewrite IH. apply orb_true_r.
Qed.

Lemma Substring_trans (a b c : str) :
  Substring a b -> Substring b c -> Substring a c.
Proof.
  intros (p1 & q1 & ->) (p2 & q2 & ->).
  exists (p2 ++ p1), (q1 ++ q2). now rewrite <- !app_assoc.
Qed.

Lemma trimStart_suffix (s : str) : exists pre, s = pre ++ Str.trimStart s.
Proof.
  induction s as [|c s (pre & IH)]; [now exists []|].
  cbn [Str.trimStart]. destruct (Str.isSpace c).
  - exists (c :: pre). cbn. now rewrite <- IH.
  - now exists [].
Qed.

Lemma trim_Substring (s : str) : Substring (Str.trim s) s.
Proof.
  unfold Str.trim, Str.trimEnd.
  destruct (trimStart_suffix s) as (pre & Hs).
  destruct (trimStart_suffix (rev (Str.trimStart s))) as (pre' & Hr).
  exists pre, (rev pre'). rewrite Hs at 1. f_equal.
  rewrite <- (rev_involutive (Str.trimStart s)) at 1.
  rewrite Hr at 1. now rewrite rev_app_distr.
Qed.

Lemma shadowBody_Substring (t : str) : Substring (shadowBody t) t.
Proof.
  unfold shadowBody, Re.replace.
  destruct (Re.exec ParserPattern.inset t) as [m|] eqn:E.
  - apply ReFacts.exec_anchored in E. rewrite E. cbn [firstn app].
    exists (firstn (Re.stop m) t), [].
    now rewrite app_nil_r, firstn_skipn.
  - exists [], []. now rewrite app_nil_r.
Qed.

(** A match of the colour pattern starts with one of the three names. *)
Lemma colorFn_names (shadow : str) (m : Re.rmatched) :
  Re.exec ParserPattern.colorFn shadow = Some m ->
  Str.includes (js "rgb") shadow = true
  \/ Str.includes (js "oklch") shadow = true
  \/ Str.includes (js "hsl") shadow = true.
Proof.
  intro H. apply ReFacts.exec_sound in H.
  destruct H as (pre & w & post & L & ->).
  inversion L as [| | | | | | |i r w' L'|  |]; subst.
  cbn [Re.seq] in L'.
  inversion L' as [| |r1 r2 w1 w2 L1 L2| | | | | | |]; subst.
  assert (Hw1 : w1 = js "rgb" \/ w1 = js "oklch" \/ w1 = js "hsl").
  { inversion L1 as [| | |r1 r2 w La|r1 r2 w Lb| | | | |]; subst.
    - left. now apply ReFacts.Lang_lit.
    - right. inversion Lb as [| | |r1 r2 w La|r1 r2 w Lc| | | | |]; subst.
      + left. now apply ReFacts.Lang_lit.
      + right. now apply ReFacts.Lang_lit. }
  assert (Hsub : Substring w1 (pre ++ (w1 ++ w2) ++ post)).
  { exists pre, (w2 ++ post). now rewrite <- app_assoc. }
  apply includes_Substring in Hsub.
  destruct Hw1 as [->|[->| ->]]; auto.
Qed.

Lemma includes_false_mono (p a s : str) :
  Substring a s -> Str.includes p s = false -> Str.includes p a = false.
Proof.
  intros Ha Hs. destruct (Str.includes p a) eqn:E; [|reflexivity].
  apply includes_Substring in E.
  assert (H : Str.includes p s = true)
    by (apply includes_Substring; eapply Substring_trans; eassumption).
  congruence.
Qed.

Lemma default_color :
  parseColorValue (N := hostNum cosf sinf powf) (js "rgb(0 0 0 / 0.1)")
  = Ok (Some (RGBA 0 0 0 (F64.ofDecimal 0.1)))%float.
Proof. vm_compute. reflexivity. Qed.

Lemma numAt_beyond (i : nat) (nums : list float) :
  length nums <= i -> numAt cosf sinf powf i nums = 0%float.
Proof.
  intro H. unfold numAt.
  now rewrite (proj2 (nth_error_None nums i) H).
Qed.

(** Without a colour function the layer gets the default colour. *)
Lemma default_color_of_layer (part : str) :
  nonEmpty (Str.trim part) = true ->
  Str.includes (js "rgb") part = false ->
  Str.includes (js "oklch") part = false ->
  Str.includes (js "hsl") part = false ->
  exists layer,
    parseShadowLayer cosf sinf powf part = Ok (Some layer)
    /\ ShadowLayer.color layer
       = RGBA 0%float 0%float 0%float (F64.ofDecimal 0.1).
Proof.
  intros Hne Hrgb Hoklch Hhsl. unfold parseShadowLayer.
  rewrite Hne. cbn [negb].
  assert (Hsub : Substring (shadowBody (Str.trim part)) part)
    by (eapply Substring_trans;
        [apply shadowBody_Substring|apply trim_Substring]).
  assert (Hcolor : shadowColorStr (shadowBody (Str.trim part))
                   = js "rgb(0 0 0 / 0.1)").
  { unfold shadowColorStr.
    destruct (Re.exec ParserPattern.colorFn (shadowBody (Str.trim part)))
      as [m|] eqn:E; [|reflexivity].
    apply colorFn_names in E.
    rewrite (includes_false_mono _ _ _ Hsub Hrgb),
            (includes_false_mono _ _ _ Hsub Hoklch),
            (includes_false_mono _ _ _ Hsub Hhsl) in E.
    now destruct E as [E|[E|E]]. }
  rewrite Hcolor, default_color. unfold bind. eexists.
  split; reflexivity.
Qed.

End ShadowFacts.

(* ===================================================================== *)
(** ** Typography *)
(* ===================================================================== *)

Section TypographyFacts.
Variables (cosf sinf : float -> float) (powf : float -> float -> float).
#[local] Existing Instance hostNum.











End TypographyFacts.

(* ===================================================================== *)
(** ** Running a pattern on a subject of a known shape *)
(* ===================================================================== *)

Module ReRun.
Import Re.

Lemma after_nil (st : mstate) : after st [] (rest st) = st.
Proof. destruct st. unfold after. cbn. now rewrite Nat.add_0_r. Qed.

Lemma after_advance (st : mstate) (c : ascii) (w t : str) :
  rest st = c :: w ++ t -> after (advance st) w t = after st (c :: w) t.
Proof.
  intro H. unfold after, advance. cbn [pos caps length]. f_equal. lia.
Qed.

(** A literal reads itself. *)
Lemma run_lit {A} (p : str) :
  forall (t : str) (k : mstate -> option A) (st : mstate),
    rest st = p ++ t -> rmatch (lit p) k st = k (after st p t).
Proof.
  induction p as [|c p IH]; intros t k st H; cbn [lit rmatch].
  - cbn [app] in H. now rewrite <- H, after_nil.
  - cbn [app] in H. unfold chr. cbn [rmatch]. rewrite H.
    unfold Str.isChar. rewrite Ascii.eqb_refl.
    rewrite (IH t k (advance st)) by (cbn [advance rest]; now rewrite H).
    now rewrite (after_advance st c p t H).
Qed.

Lemma repeatLoop_greedy {A}
    (step : (mstate -> option A) -> mstate -> option A)
    (k : mstate -> option A) (fuel : nat) (st : mstate) :
  repeatLoop step true k (S fuel) st =
  match step (fun st' =>
                if Nat.ltb (length (rest st')) (length (rest st))
                then repeatLoop step true k fuel st' else None) st with
  | Some x => Some x
  | None => k st
  end.
Proof. reflexivity. Qed.

Lemma rmatch_Cls {A} (p : ascii -> bool) (k : mstate -> option A)
    (st : mstate) :
  rmatch (Cls p) k st =
  match rest st with
  | c :: _ => if p c then k (advance st) else None
  | [] => None
  end.
Proof. reflexivity. Qed.

(** A greedy repetition of a class reads all the characters of the class
    that are there, when what follows matches behind them. *)
Lemma run_loop_class {A} (p : ascii -> bool) (w : str) :
  forall (t : str) (k : mstate -> option A) (fuel : nat) (st : mstate)
         (x : A),
    forallb p w = true -> stopsClass p t -> rest st = w ++ t ->
    length (rest st) <= fuel ->
    k (after st w t) = Some x ->
    repeatLoop (rmatch (Cls p)) true k fuel st = Some x.
Proof.
  induction w as [|c w IH]; intros t k fuel st x Hw Ht Hr Hf Hk.
  - cbn [app] in Hr. rewrite <- Hr, after_nil in Hk.
    destruct fuel as [|fuel]; [exact Hk|].
    rewrite repeatLoop_greedy, rmatch_Cls, Hr. destruct t as [|c t'].
    + exact Hk.
    + cbn in Ht. rewrite Ht. exact Hk.
  - cbn [app] in Hr. cbn [forallb] in Hw. apply andb_prop in Hw.
    destruct Hw as [Hc Hw].
    destruct fuel as [|fuel]; [rewrite Hr in Hf; cbn in Hf; lia|].
    rewrite repeatLoop_greedy, rmatch_Cls, Hr, Hc.
    assert (Hlt : Nat.ltb (length (rest (advance st))) (length (c :: w ++ t))
                  = true).
    { cbn [advance rest]. rewrite Hr. cbn [tl length].
      apply Nat.ltb_lt. lia. }
    rewrite Hlt.
    rewrite (IH t k fuel (advance st) x); try assumption; try reflexivity.
    + cbn [advance rest]. now rewrite Hr.
    + cbn [advance rest]. rewrite Hr in *. cbn [tl length] in *. lia.
    + now rewrite (after_advance st c w t Hr).
Qed.

Lemma run_star_class {A} (p : ascii -> bool) (w t : str)
    (k : mstate -> option A) (st : mstate) (x : A) :
  forallb p w = true -> stopsClass p t -> rest st = w ++ t ->
  k (after st w t) = Some x ->
  rmatch (star (Cls p)) k st = Some x.
Proof.
  intros Hw Ht Hr Hk. unfold star.
  change (rmatch (Rep true (Cls p)) k st)
    with (repeatLoop (rmatch (Cls p)) true k (length (rest st)) st).
  now apply (run_loop_class p w t).
Qed.

Lemma run_plus_class {A} (p : ascii -> bool) (w t : str)
    (k : mstate -> option A) (st : mstate) (x : A) :
  w <> [] -> forallb p w = true -> stopsClass p t -> rest st = w ++ t ->
  k (after st w t) = Some x ->
  rmatch (plus (Cls p)) k st = Some x.
Proof.
  intros Hne Hw Ht Hr Hk. destruct w as [|c w]; [contradiction|].
  cbn [forallb] in Hw. apply andb_prop in Hw. destruct Hw as [Hc Hw].
  unfold plus. cbn [app] in Hr.
  change (rmatch (Cat (Cls p) (Rep true (Cls p))) k st)
    with (rmatch (Cls p) (rmatch (Rep true (Cls p)) k) st).
  rewrite rmatch_Cls, Hr, Hc.
  change (rmatch (Rep true (Cls p)) k (advance st))
    with (repeatLoop (rmatch (Cls p)) true k
            (length (rest (advance st))) (advance st)).
  apply (run_loop_class p w t); try assumption.
  - cbn [advance rest]. now rewrite Hr.
  - lia.
  - now rewrite (after_advance st c w t Hr).
Qed.

End ReRun.

Module CalcShape.
Import Re.

Lemma rmatch_Cat {A} (r1 r2 : regex) (k : mstate -> option A) (st : mstate) :
  rmatch (Cat r1 r2) k st = rmatch r1 (rmatch r2 k) st.
Proof. reflexivity. Qed.

Lemma rmatch_Grp {A} (i : nat) (r : regex) (k : mstate -> option A)
    (st : mstate) :
  rmatch (Grp i r) k st = rmatch r (fun st' => k (capture i st st')) st.
Proof. reflexivity. Qed.

Lemma searchFrom_here (r : regex) (fuel : nat) (st : mstate)
    (m : rmatched) :
  matchHere r st = Some m -> searchFrom r fuel st = Some m.
Proof. intro H. destruct fuel; cbn [searchFrom]; now rewrite H. Qed.

Lemma digitDot_not_space (c : ascii) :
  digitDot c = true -> Str.isSpace c = false.
Proof.
  destruct c as [[] [] [] [] [] [] [] []]; vm_compute; intro H;
    first [reflexivity | discriminate H].
Qed.

Lemma stops_space (w t : str) :
  w <> [] -> forallb digitDot w = true -> stopsClass Str.isSpace (w ++ t).
Proof.
  intros Hne Hw. destruct w as [|c w]; [contradiction|].
  cbn in *. apply andb_prop in Hw. now apply digitDot_not_space.
Qed.

Lemma firstn_exact (w t : str) (n : nat) :
  n = length w -> firstn n (w ++ t) = w.
Proof.
  intros ->. rewrite firstn_app, Nat.sub_diag, firstn_all. cbn.
  apply app_nil_r.
Qed.


End CalcShape.

Section TypographyRule.
Variables (cosf sinf : float -> float) (powf : float -> float -> float).
#[local] Existing Instance hostNum.



End TypographyRule.




(* ===================================================================== *)
(** ** Channels in the unit interval *)
(* ===================================================================== *)

Module F64Facts.

Lemma SFcompare_antisym (a b : spec_float) (c : comparison) :
  SFcompare a b = Some c -> SFcompare b a = Some (CompOpp c).
Proof.
  destruct a as [sa|sa| |sa ma ea], b as [sb|sb| |sb mb eb];
    try destruct sa; try destruct sb; cbn [SFcompare];
    try discriminate; intro H; injection H as <-; try reflexivity;
    rewrite (Z.compare_antisym ea eb);
    destruct (ea ?= eb)%Z; cbn [CompOpp]; try reflexivity;
    pose proof (Pos.compare_cont_antisym ma mb Eq) as Ha;
    cbn [CompOpp] in Ha; now rewrite Ha.
Qed.

Lemma ltb_leb (x y : float) :
  PrimFloat.ltb x y = true -> PrimFloat.leb x y = true.
Proof.
  rewrite ltb_spec, leb_spec. unfold SFltb, SFleb.
  destruct (SFcompare (Prim2SF x) (Prim2SF y)) as [[]|]; congruence.
Qed.

Lemma not_nan_compare (x y : float) :
  PrimFloat.is_nan x = false -> PrimFloat.is_nan y = false ->
  exists c, SFcompare (Prim2SF x) (Prim2SF y) = Some c.
Proof.
  unfold PrimFloat.is_nan. rewrite !eqb_spec. unfold SFeqb.
  intros Hx Hy.
  destruct (Prim2SF x) as [sa|sa| |sa ma ea];
    destruct (Prim2SF y) as [sb|sb| |sb mb eb];
    cbn [SFcompare] in *; try discriminate; eexists; reflexivity.
Qed.

(** Two numbers, none of them below the other, compare as equal. *)
Lemma not_ltb_leb (x y : float) :
  PrimFloat.is_nan x = false -> PrimFloat.is_nan y = false ->
  PrimFloat.ltb x y = false -> PrimFloat.ltb y x = false ->
  PrimFloat.leb x y = true /\ PrimFloat.leb y x = true.
Proof.
  intros Hx Hy. destruct (not_nan_compare x y Hx Hy) as (c & Hc).
  pose proof (SFcompare_antisym _ _ _ Hc) as Hc'.
  rewrite !ltb_spec, !leb_spec. unfold SFltb, SFleb. rewrite Hc, Hc'.
  destruct c; cbn [CompOpp]; intros; split; congruence.
Qed.

Lemma min_one (n : float) :
  PrimFloat.is_nan n = false ->
  PrimFloat.is_nan (F64.min 1 n) = false
  /\ PrimFloat.leb (F64.min 1 n) 1 = true.
Proof.
  intro Hn. unfold F64.min. rewrite Hn.
  change (PrimFloat.is_nan 1) with false. cbn [orb].
  destruct (PrimFloat.ltb 1 n) eqn:E1; [split; reflexivity|].
  destruct (PrimFloat.ltb n 1) eqn:E2.
  - split; [exact Hn|now apply ltb_leb].
  - change (get_sign 1) with false. cbv iota. split; [exact Hn|].
    now apply (not_ltb_leb 1 n).
Qed.

Lemma max_zero (m : float) :
  PrimFloat.is_nan m = false -> PrimFloat.leb m 1 = true ->
  inUnit (F64.max 0 m) = true.
Proof.
  intros Hm Hle. unfold F64.max. rewrite Hm.
  change (PrimFloat.is_nan 0) with false. cbn [orb].
  destruct (PrimFloat.ltb 0 m) eqn:E1.
  - unfold inUnit. now rewrite (ltb_leb _ _ E1), Hle.
  - destruct (PrimFloat.ltb m 0) eqn:E2; [reflexivity|].
    change (get_sign 0) with false. reflexivity.
Qed.

Lemma max_nan_r (x : float) : F64.max x nan = nan.
Proof.
  unfold F64.max. change (PrimFloat.is_nan nan) with true.
  now rewrite orb_true_r.
Qed.

Lemma min_nan (x n : float) :
  PrimFloat.is_nan n = true -> F64.min x n = nan.
Proof. intro H. unfold F64.min. now rewrite H, orb_true_r. Qed.

End F64Facts.

Section UnitChannels.
Variables (cosf sinf : float -> float) (powf : float -> float -> float).
#[local] Existing Instance hostNum.

(** A clamped number is NaN or in [0,1]. *)
Lemma clamp01_unit (n : float) :
  unitOrNaN (clamp01 (N := hostNum cosf sinf powf) n).
Proof.
  unfold clamp01. cbn [Math_max Math_min lit hostNum floatNum].
  change (F64.ofDecimal 0) with 0%float.
  change (F64.ofDecimal 1) with 1%float.
  destruct (PrimFloat.is_nan n) eqn:Hn.
  - left. now rewrite (F64Facts.min_nan _ _ Hn), F64Facts.max_nan_r.
  - right. destruct (F64Facts.min_one n Hn) as (H1 & H2).
    now apply F64Facts.max_zero.
Qed.

End UnitChannels.

Section ColorChannels.
Variables (cosf sinf : float -> float) (powf : float -> float -> float).
#[local] Existing Instance hostNum.

Lemma inUnit_unitOrNaN (x : float) : inUnit x = true -> unitOrNaN x.
Proof. now right. Qed.

Lemma oklchToRgba_unit (L C H_ a : float) :
  let c := oklchToRgba (N := hostNum cosf sinf powf) L C H_ a in
  unitOrNaN (red c) /\ unitOrNaN (green c) /\ unitOrNaN (blue c).
Proof.
  unfold oklchToRgba. cbv zeta. cbn [red green blue].
  repeat split; apply (clamp01_unit cosf sinf powf).
Qed.

Lemma hslToRgba_unit (h s l a : float) :
  let c := hslToRgba (N := hostNum cosf sinf powf) h s l a in
  unitOrNaN (red c) /\ unitOrNaN (green c) /\ unitOrNaN (blue c).
Proof.
  unfold hslToRgba. cbv zeta.
  repeat match goal with
         | |- context [if ?b then _ else _] => destruct b
         end;
    cbn [red green blue]; repeat split; apply (clamp01_unit cosf sinf powf).
Qed.

Lemma rgbStringToRgba_unit (s : str) (c : FigmaColor float) :
  rgbStringToRgba (N := hostNum cosf sinf powf) s = Some c ->
  unitOrNaN (red c) /\ unitOrNaN (green c) /\ unitOrNaN (blue c)
  /\ unitOrNaN (alpha c).
Proof.
  unfold rgbStringToRgba. destruct (Re.exec Pattern.rgb s); [|discriminate].
  intro H. injection H as <-. cbn [red green blue alpha].
  repeat split; apply (clamp01_unit cosf sinf powf).
Qed.

Lemma named_unit (v hex : str) :
  getProperty named v = Own hex ->
  let c := hexToRgba (N := hostNum cosf sinf powf) hex in
  inUnit (red c) = true /\ inUnit (green c) = true
  /\ inUnit (blue c) = true /\ inUnit (alpha c) = true.
Proof.
  unfold getProperty, named. cbn [ownProperty].
  repeat match goal with
         | |- context [if ?b then _ else _] => destruct b
         end;
    intro H; try discriminate H; injection H as <-;
    vm_compute; repeat split; reflexivity.
Qed.

(** Every pair of hexadecimal digits denotes a channel in [0,1]. *)
Lemma hexPairs_checked :
  forallb
    (fun x =>
       forallb
         (fun y =>
            inUnit
              (PrimFloat.div
                 (parseInt16 (N := hostNum cosf sinf powf) [x; y]) 255))
         hexChars)
    hexChars = true.
Proof. vm_compute. reflexivity. Qed.

Lemma In_hexChars (c : ascii) :
  Documented.isHexDigit c = true -> In c hexChars.
Proof.
  destruct c as [[] [] [] [] [] [] [] []]; vm_compute; intro H;
    first [ discriminate H | tauto ].
Qed.

Lemma hexPair_unit (x y : ascii) :
  Documented.isHexDigit x = true -> Documented.isHexDigit y = true ->
  inUnit
    (PrimFloat.div (parseInt16 (N := hostNum cosf sinf powf) [x; y]) 255)
  = true.
Proof.
  intros Hx Hy. pose proof hexPairs_checked as H.
  rewrite forallb_forall in H. specialize (H x (In_hexChars x Hx)).
  rewrite forallb_forall in H. exact (H y (In_hexChars y Hy)).
Qed.

End ColorChannels.

Section HexColors.
Variables (cosf sinf : float -> float) (powf : float -> float -> float).
#[local] Existing Instance hostNum.

Lemma hexToRgba_3 (a b c : ascii) :
  hexToRgba (N := hostNum cosf sinf powf) ("#"%char :: [a; b; c])
  = RGBA (hexChannel cosf sinf powf a a) (hexChannel cosf sinf powf b b) (hexChannel cosf sinf powf c c) 1%float.
Proof. reflexivity. Qed.

Lemma hexToRgba_4 (a b c d : ascii) :
  hexToRgba (N := hostNum cosf sinf powf) ("#"%char :: [a; b; c; d])
  = RGBA (hexChannel cosf sinf powf a a) (hexChannel cosf sinf powf b b) (hexChannel cosf sinf powf c c) (hexChannel cosf sinf powf d d).
Proof. reflexivity. Qed.

Lemma hexToRgba_6 (a b c d e f : ascii) :
  hexToRgba (N := hostNum cosf sinf powf) ("#"%char :: [a; b; c; d; e; f])
  = RGBA (hexChannel cosf sinf powf a b) (hexChannel cosf sinf powf c d) (hexChannel cosf sinf powf e f) 1%float.
Proof. reflexivity. Qed.

Lemma hexToRgba_8 (a b c d e f g h : ascii) :
  hexToRgba (N := hostNum cosf sinf powf)
    ("#"%char :: [a; b; c; d; e; f; g; h])
  = RGBA (hexChannel cosf sinf powf a b) (hexChannel cosf sinf powf c d) (hexChannel cosf sinf powf e f) (hexChannel cosf sinf powf g h).
Proof. reflexivity. Qed.

Lemma hexToRgba_valid (v : str) :
  Documented.isHexColor v = true ->
  let c := hexToRgba (N := hostNum cosf sinf powf) v in
  inUnit (red c) = true /\ inUnit (green c) = true
  /\ inUnit (blue c) = true /\ inUnit (alpha c) = true.
Proof.
  destruct v as [|c0 digits]; [discriminate|].
  unfold Documented.isHexColor. intro H.
  apply andb_prop in H. destruct H as [H Hd].
  apply andb_prop in H. destruct H as [Hc Hl].
  apply Ascii.eqb_eq in Hc. subst c0.
  destruct digits as [|a [|b [|c [|d [|e [|f [|g [|h [|]]]]]]]]];
    try discriminate Hl; cbn [forallb] in Hd;
    repeat match goal with
           | H : _ && _ = true |- _ =>
               apply andb_prop in H; destruct H
           end;
    cbv zeta;
    rewrite ?hexToRgba_3, ?hexToRgba_4, ?hexToRgba_6, ?hexToRgba_8;
    cbn [red green blue alpha]; unfold hexChannel;
    repeat split; first [ reflexivity | now apply hexPair_unit ].
Qed.

End HexColors.

Lemma isHexColor_hash (v : str) :
  Documented.isHexColor v = true -> Str.startsWith (js "#") v = true.
Proof.
  destruct v as [|c0 digits]; [discriminate|].
  unfold Documented.isHexColor. intro H.
  apply andb_prop in H. destruct H as [H _].
  apply andb_prop in H. destruct H as [Hc _].
  apply Ascii.eqb_eq in Hc. now subst c0.
Qed.

(** C1, as amended.  Let [parseColorValue] return a colour for a value and
    write [v] for the trimmed lower-case value.  If [v] matches the
    [oklch()] or the [hsl()] pattern, or does not start with [#] (it is then
    read as [rgb()] or as a named colour), each of r, g and b is NaN or lies
    in [0,1].  If [v] is read as [rgb()] or as a named colour, its alpha is
    NaN or lies in [0,1] as well.  If [v] is [#] followed by 3, 4, 6 or 8
    hexadecimal digits, all four channels lie in [0,1].  (The alpha of
    [oklch()] and [hsl()] is not covered.) *)
Theorem color_channels_in_unit
    (cosf sinf : float -> float) (powf : float -> float -> float)
    (value : str) (c : FigmaColor float) :
  parseColorValue (N := hostNum cosf sinf powf) value = Ok (Some c) ->
  let v := Str.toLowerCase (Str.trim value) in
  ((Re.exec Pattern.oklch v <> None \/ Re.exec Pattern.hsl v <> None
    \/ Str.startsWith (js "#") v = false) ->
   unitOrNaN (red c) /\ unitOrNaN (green c) /\ unitOrNaN (blue c))
  /\ (Re.exec Pattern.oklch v = None -> Re.exec Pattern.hsl v = None ->
      Str.startsWith (js "#") v = false -> unitOrNaN (alpha c))
  /\ (Re.exec Pattern.oklch v = None -> Re.exec Pattern.hsl v = None ->
      Documented.isHexColor v = true ->
      inUnit (red c) = true /\ inUnit (green c) = true
      /\ inUnit (blue c) = true /\ inUnit (alpha c) = true).
Proof.
  intros H v. unfold parseColorValue in H. fold v in H.
  destruct (Re.exec Pattern.oklch v) as [m|] eqn:Eo.
  { injection H as <-. split; [|split; intros; discriminate].
    intros _. apply oklchToRgba_unit. }
  destruct (Re.exec Pattern.hsl v) as [m|] eqn:Eh.
  { injection H as <-. split; [|split; intros; discriminate].
    intros _. apply hslToRgba_unit. }
  destruct (Str.startsWith (js "rgb") v) eqn:Er.
  { injection H as H. apply rgbStringToRgba_unit in H.
    destruct H as (Hr & Hg & Hb & Ha).
    split; [now intros _|]. split; [now intros _ _ _|].
    intros _ _ Hx. apply isHexColor_hash, hash_not_rgb in Hx. congruence. }
  destruct (Str.startsWith (js "#") v) eqn:Ex.
  { injection H as <-. split; [|split].
    - intros [Ho|[Hh|Hn]]; congruence.
    - intros _ _ Hn. discriminate Hn.
    - intros _ _ Hx. now apply hexToRgba_valid. }
  destruct (getProperty named v) as [hex| |] eqn:En; try discriminate H.
  injection H as <-.
  destruct (named_unit cosf sinf powf v hex En) as (Hr & Hg & Hb & Ha).
  split; [|split].
  - intros _. repeat split; now apply inUnit_unitOrNaN.
  - intros _ _ _. now apply inUnit_unitOrNaN.
  - intros _ _ Hx. apply isHexColor_hash in Hx. congruence.
Qed.

Lemma color_channels_in_unit_witness :
  (unitOrNaN 1%float /\ unitOrNaN 0%float /\ unitOrNaN 0%float)
  /\ unitOrNaN (F64.ofDecimal 0.5)
  /\ inUnit (PrimFloat.div 128 255) = true.
Proof.
  pose proof (color_channels_in_unit Sample.unary Sample.unary Sample.binary
                (js "rgba(255, 0, 0, 50%)")
                (RGBA 1 0 0 (F64.ofDecimal 0.5))%float
                ltac:(vm_compute; reflexivity)) as (H1 & H2 & _).
  pose proof (color_channels_in_unit Sample.unary Sample.unary Sample.binary
                (js "#00000080")
                (RGBA 0 0 0 (PrimFloat.div 128 255))%float
                ltac:(vm_compute; reflexivity)) as (_ & _ & H3).
  split; [apply H1; right; right; vm_compute; reflexivity|].
  split; [apply H2; vm_compute; reflexivity|].
  apply H3; vm_compute; reflexivity.
Defined.

(** C1 as stated fails: for [#-5] the colour that is returned has a
    negative red channel and a green channel that is NaN. *)
Lemma channel_out_of_range_counterexample :
  exists c,
    parseColorValue (N := hostNum Sample.unary Sample.unary Sample.binary)
      (js "#-5") = Ok (Some c)
    /\ red c = PrimFloat.div (-5) 255
    /\ PrimFloat.ltb (red c) 0 = true
    /\ inUnit (red c) = false
    /\ PrimFloat.is_nan (green c) = true.
Proof.
  eexists. split; [vm_compute; reflexivity|].
  repeat split; vm_compute; reflexivity.
Qed.

(** The alpha of [oklch()] and [hsl()] is returned as it is written, that
    of [rgb()] is clamped. *)
Lemma alpha_clamped_for_rgb_only
    (cosf sinf : float -> float) (powf : float -> float -> float) :
  alphaOfResult
    (parseColorValue (N := hostNum cosf sinf powf)
       (js "oklch(0.5 0.1 200 / 1.5)")) = Some 1.5%float
  /\ alphaOfResult
       (parseColorValue (N := hostNum cosf sinf powf)
          (js "hsl(0 100% 50% / 150%)")) = Some 1.5%float
  /\ alphaOfResult
       (parseColorValue (N := hostNum cosf sinf powf)
          (js "rgb(255 0 0 / 1.5)")) = Some 1%float.
Proof. repeat split; vm_compute; reflexivity. Qed.

(* ===================================================================== *)
(** ** The reference red, over the reals *)
(* ===================================================================== *)

Module ReferenceRed.
Local Open Scope R_scope.

Lemma PI_bounds : 31415926 / 10000000 < PI < 31415927 / 10000000.
Proof.
  pose proof (PI_2_3_7_ineq 3) as [Hlo Hhi].
  unfold sum_f_R0, tg_alt, PI_2_3_7_tg, Ratan_seq in Hlo, Hhi.
  cbn [Nat.mul Nat.add pow INR] in Hlo, Hhi.
  split; lra.
Qed.

(** The hue of the reference red, in radians. *)
Lemma hue_bounds :
  5101597316 / 10000000000 <= 2923 / 100 * PI / 180
  <= 5101597479 / 10000000000.
Proof. pose proof PI_bounds. split; lra. Qed.

Lemma INR_fact (n : nat) (z : Z) :
  Z.of_nat (fact n) = z -> INR (fact n) = IZR z.
Proof. intros <-. apply INR_IZR_INZ. Qed.

Lemma pow_bounds (lo hi x : R) (n : nat) :
  0 <= lo -> lo <= x -> x <= hi -> lo ^ n <= x ^ n <= hi ^ n.
Proof. intros H0 Hl Hh. split; apply pow_incr; lra. Qed.

Lemma cos_hue_bounds :
  87266639 / 100000000 <= cos (2923 / 100 * PI / 180)
  <= 87266652 / 100000000.
Proof.
  pose proof PI_bounds as HPI. pose proof hue_bounds as Ha.
  set (a := 2923 / 100 * PI / 180) in *.
  destruct (cos_bound a 1) as [Hlo Hhi]; [lra|lra|].
  unfold cos_approx, cos_term, sum_f_R0 in Hlo, Hhi.
  cbn [Nat.mul Nat.add] in Hlo, Hhi.
  rewrite !(INR_fact 0 1), !(INR_fact 2 2), !(INR_fact 4 24),
    !(INR_fact 6 720) in Hlo, Hhi by reflexivity.
  rewrite !(INR_fact 8 40320) in Hhi by reflexivity.
  pose proof (pow_bounds (5101597316 / 10000000000)
                (5101597479 / 10000000000) a 2 ltac:(lra) (proj1 Ha) (proj2 Ha)).
  pose proof (pow_bounds (5101597316 / 10000000000)
                (5101597479 / 10000000000) a 4 ltac:(lra) (proj1 Ha) (proj2 Ha)).
  pose proof (pow_bounds (5101597316 / 10000000000)
                (5101597479 / 10000000000) a 6 ltac:(lra) (proj1 Ha) (proj2 Ha)).
  pose proof (pow_bounds (5101597316 / 10000000000)
                (5101597479 / 10000000000) a 8 ltac:(lra) (proj1 Ha) (proj2 Ha)).
  split; lra.
Qed.

Lemma sin_hue_bounds :
  48831663 / 100000000 <= sin (2923 / 100 * PI / 180)
  <= 48831667 / 100000000.
Proof.
  pose proof PI_bounds as HPI. pose proof hue_bounds as Ha.
  set (a := 2923 / 100 * PI / 180) in *.
  destruct (sin_bound a 1) as [Hlo Hhi]; [lra|lra|].
  unfold sin_approx, sin_term, sum_f_R0 in Hlo, Hhi.
  cbn [Nat.mul Nat.add] in Hlo, Hhi.
  rewrite !(INR_fact 1 1), !(INR_fact 3 6), !(INR_fact 5 120),
    !(INR_fact 7 5040) in Hlo, Hhi by reflexivity.
  rewrite !(INR_fact 9 362880) in Hhi by reflexivity.
  pose proof (pow_bounds (5101597316 / 10000000000)
                (5101597479 / 10000000000) a 1 ltac:(lra) (proj1 Ha) (proj2 Ha)).
  pose proof (pow_bounds (5101597316 / 10000000000)
                (5101597479 / 10000000000) a 3 ltac:(lra) (proj1 Ha) (proj2 Ha)).
  pose proof (pow_bounds (5101597316 / 10000000000)
                (5101597479 / 10000000000) a 5 ltac:(lra) (proj1 Ha) (proj2 Ha)).
  pose proof (pow_bounds (5101597316 / 10000000000)
                (5101597479 / 10000000000) a 7 ltac:(lra) (proj1 Ha) (proj2 Ha)).
  pose proof (pow_bounds (5101597316 / 10000000000)
                (5101597479 / 10000000000) a 9 ltac:(lra) (proj1 Ha) (proj2 Ha)).
  split; lra.
Qed.

End ReferenceRed.
Module RealFacts.
Local Open Scope R_scope.
#[local] Existing Instance realNum.

Ltac decimals :=
  cbv [lit NaN neg add sub mul div lt le eq Math_max Math_min Math_cos
       Math_sin Math_pow Math_PI realNum Real.ofDecimal Real.lift1
       Real.lift2 Real.test2 dneg dmant dexp];
  repeat match goal with
  | |- context [Pos.pow 10 ?k] =>
      let p := eval vm_compute in (Pos.pow 10 k) in
      change (Pos.pow 10 k) with p
  | |- context [IZR (?m * 10 ^ ?e)] =>
      let z := eval vm_compute in (m * 10 ^ e)%Z in
      change (m * 10 ^ e)%Z with z
  | |- context [IZR (- ?m)] =>
      let z := eval vm_compute in (- m)%Z in
      change (- m)%Z with z
  | |- context [QArith_base.Qmake (- ?m) _] =>
      let z := eval vm_compute in (- m)%Z in
      change (- m)%Z with z
  end.

Lemma div_some (u v : R) :
  v <> 0 -> Real.div (Some u) (Some v) = Some (u / v).
Proof.
  intros Hv. unfold Real.div, Real.eqb.
  destruct (Req_dec_T v 0) as [E | _]; [contradiction | reflexivity].
Qed.

Lemma clamp01_clamp (c : R) :
  clamp01 (N := realNum) (Some c) = Some (Pipeline.clamp c).
Proof. unfold clamp01. decimals. reflexivity. Qed.

Lemma linearToSrgb_gamma (c : R) :
  linearToSrgb (N := realNum) (Some c) = Some (Pipeline.gamma c).
Proof.
  unfold linearToSrgb, Pipeline.gamma. decimals.
  unfold Real.leb.
  destruct (Rle_dec c 0.0031308) as [Hc | Hc]; [reflexivity |].
  rewrite div_some by lra.
  unfold Real.pow, Real.eqb, Real.ltb.
  destruct (Req_dec_T (1 / 2.4) 0) as [E | _]; [lra |].
  destruct (Rlt_dec 0 c) as [_ | Hn]; [reflexivity | lra].
Qed.

Lemma hRad_some (H_ : R) :
  (Some H_ * Math_PI / lit 180)%num =
  Some (H_ * PI / 180).
Proof. decimals. now rewrite div_some by lra. Qed.

Lemma oklchToRgba_pipeline (L C H_ : R) (alpha : Real.num) :
  oklchToRgba (N := realNum) (Some L) (Some C) (Some H_) alpha =
  let '(r, g, b) := Pipeline.convert L C H_ in
  RGBA (Some r) (Some g) (Some b) alpha.
Proof.
  unfold oklchToRgba.
  unfold oklchToRgba. rewrite hRad_some.
  decimals.
  rewrite !linearToSrgb_gamma, !clamp01_clamp.
  reflexivity.
Qed.

End RealFacts.
Module ReferenceParse.
Local Open Scope R_scope.
#[local] Existing Instance realNum.

Lemma parseFloat_L : parseFloat (js "62.8") = Some 62.8.
Proof. reflexivity. Qed.

Lemma parseFloat_C : parseFloat (js "0.25") = Some 0.25.
Proof. reflexivity. Qed.

Lemma parseFloat_H : parseFloat (js "29.23") = Some 29.23.
Proof. reflexivity. Qed.

Lemma percentage : (Some 62.8 > lit 1)%num = true.
Proof.
  RealFacts.decimals. unfold Real.ltb.
  destruct (Rlt_dec 1 62.8) as [_ | Hn]; [reflexivity | lra].
Qed.

Lemma parse_reference :
  parseColorValue (js "oklch(62.8% 0.25 29.23)") =
  Ok (Some (oklchToRgba (Some (62.8 / 100)) (Some 0.25) (Some 29.23)
              (Some 1))).
Proof.
  unfold parseColorValue.
  match goal with
  | |- context [Re.exec ?p ?v] =>
      let e := eval vm_compute in (Re.exec p v) in
      assert (E : Re.exec p v = e) by (vm_compute; reflexivity);
      rewrite E; clear E
  end.
  repeat match goal with
  | |- context [Re.text 1 ?m] => change (Re.text 1 m) with (js "62.8")
  | |- context [Re.text 2 ?m] => change (Re.text 2 m) with (js "0.25")
  | |- context [Re.text 3 ?m] => change (Re.text 3 m) with (js "29.23")
  | |- context [alphaOf ?m] => change (alphaOf m) with (Some 1)
  end.
  rewrite parseFloat_L, parseFloat_C, parseFloat_H, percentage.
  RealFacts.decimals. now rewrite RealFacts.div_some by lra.
Qed.
End ReferenceParse.
Module ReferenceBounds.
Local Open Scope R_scope.
Import ReferenceRed.

Lemma rpower_bounds (x lo hi y y' : R) :
  0 < y -> 0 < y' -> 0 < lo -> lo <= x <= hi ->
  y ^ 12 <= lo ^ 5 -> hi ^ 5 <= y' ^ 12 ->
  y <= Rpower x (1 / 2.4) <= y'.
Proof.
  intros Hy Hy' Hlo [Hl Hh] Hy12 Hy'12.
  assert (Hx : 0 < x) by lra.
  assert (E : Rpower x (1 / 2.4) = Rpower (x ^ 5) (/ 12)).
  { rewrite <- (Rpower_pow 5 x) by lra. rewrite Rpower_mult.
    f_equal. simpl INR. lra. }
  assert (root : forall z, 0 < z -> Rpower (z ^ 12) (/ 12) = z).
  { intros z Hz. rewrite <- (Rpower_pow 12 z) by lra. rewrite Rpower_mult.
    replace (INR 12 * / 12) with 1 by (simpl INR; lra).
    now apply Rpower_1. }
  rewrite E. split.
  - apply Rle_trans with (Rpower (y ^ 12) (/ 12)).
    + rewrite root by lra. lra.
    + apply Rle_Rpower_l; [lra |]. split; [apply pow_lt; lra |].
      apply Rle_trans with (lo ^ 5); [exact Hy12 |].
      apply pow_incr; lra.
  - apply Rle_trans with (Rpower (y' ^ 12) (/ 12)).
    + apply Rle_Rpower_l; [lra |]. split; [apply pow_lt; lra |].
      apply Rle_trans with (hi ^ 5); [| exact Hy'12].
      apply pow_incr; lra.
    + rewrite root by lra. lra.
Qed.

Lemma cube_bounds (lo hi x : R) :
  0 <= lo -> lo <= x <= hi ->
  lo * lo * lo <= Pipeline.cube x <= hi * hi * hi.
Proof.
  intros H0 [Hl Hh]. unfold Pipeline.cube.
  destruct (pow_bounds lo hi x 3 H0 Hl Hh) as [A B].
  simpl pow in A, B. lra.
Qed.

Lemma clamp_id (c : R) : 0 <= c <= 1 -> Pipeline.clamp c = c.
Proof.
  intros [H0 H1]. unfold Pipeline.clamp.
  rewrite Rmin_right by exact H1. now apply Rmax_right.
Qed.

Lemma gamma_power (c : R) :
  0.0031308 < c -> Pipeline.gamma c = 1.055 * Rpower c (1 / 2.4) - 0.055.
Proof.
  intros Hc. unfold Pipeline.gamma.
  destruct (Rle_dec c 0.0031308) as [Hn | _]; [lra | reflexivity].
Qed.

Lemma encode_bounds (x lo hi y y' : R) :
  0.0031308 < lo -> lo <= x <= hi ->
  0.06 <= y -> 0 < y' <= 1 ->
  y ^ 12 <= lo ^ 5 -> hi ^ 5 <= y' ^ 12 ->
  1.055 * y - 0.055 <= Pipeline.clamp (Pipeline.gamma x)
    <= 1.055 * y' - 0.055.
Proof.
  intros Hlo Hx Hy Hy' H1 H2.
  destruct (rpower_bounds x lo hi y y') as [A B]; try assumption; try lra.
  rewrite gamma_power by lra.
  rewrite clamp_id by lra. lra.
Qed.

(** The channels of the reference red, to six decimal places. *)
Lemma reference_bounds :
  let '(r, g, b) := Pipeline.convert (62.8 / 100) 0.25 29.23 in
  0.988564 <= r <= 0.988566 /\
  0.091910 <= g <= 0.091913 /\
  0.060466 <= b <= 0.060469.
Proof.
  unfold Pipeline.convert, Pipeline.oklab, Pipeline.lms, Pipeline.cubes,
    Pipeline.linearSrgb, Pipeline.encode.
  replace (29.23 * PI / 180) with (2923 / 100 * PI / 180) by lra.
  pose proof cos_hue_bounds as Hc. pose proof sin_hue_bounds as Hs.
  set (ca := cos _) in *. set (sa := sin _) in *.
  set (l_ := 62.8 / 100 + 0.3963377774 * (0.25 * ca)
             + 0.2158037573 * (0.25 * sa)).
  set (m_ := 62.8 / 100 - 0.1055613458 * (0.25 * ca)
             - 0.0638541728 * (0.25 * sa)).
  set (s_ := 62.8 / 100 - 0.0894841775 * (0.25 * ca)
             - 1.291485548 * (0.25 * sa)).
  assert (Hl_ : 0.740812805 <= l_ <= 0.740812821) by (unfold l_; lra).
  assert (Hm_ : 0.597174772 <= m_ <= 0.597174777) by (unfold m_; lra).
  assert (Hs_ : 0.450814058 <= s_ <= 0.450814074) by (unfold s_; lra).
  clearbody l_ m_ s_. clear Hc Hs. clearbody ca sa.
  pose proof (cube_bounds 0.740812805 0.740812821 l_ ltac:(lra) Hl_) as Hl.
  pose proof (cube_bounds 0.597174772 0.597174777 m_ ltac:(lra) Hm_) as Hm.
  pose proof (cube_bounds 0.450814058 0.450814074 s_ ltac:(lra) Hs_) as Hs.
  set (l := Pipeline.cube l_) in *. set (m := Pipeline.cube m_) in *.
  set (s := Pipeline.cube s_) in *.
  clearbody l m s. clear Hl_ Hm_ Hs_.
  set (r := 4.0767416621 * l - 3.3077115913 * m + 0.2309699292 * s).
  set (g := -1.2684380046 * l + 2.6097574011 * m - 0.3413193965 * s).
  set (b := -0.0041960863 * l - 0.7034186147 * m + 1.707614701 * s).
  assert (Hr : 0.9741841 <= r <= 0.9741843) by (unfold r; lra).
  assert (Hg : 0.008813 <= g <= 0.0088132) by (unfold g; lra).
  assert (Hb : 0.0049442 <= b <= 0.0049443) by (unfold b; lra).
  clearbody r g b. clear Hl Hm Hs.
  pose proof (encode_bounds r 0.9741841 0.9741843 0.989161 0.989162 ltac:(lra) Hr
                ltac:(lra) ltac:(lra) ltac:(lra) ltac:(lra)).
  pose proof (encode_bounds g 0.008813 0.0088132 0.139252 0.139254 ltac:(lra) Hg
                ltac:(lra) ltac:(lra) ltac:(lra) ltac:(lra)).
  pose proof (encode_bounds b 0.0049442 0.0049443 0.109447 0.109449 ltac:(lra) Hb
                ltac:(lra) ltac:(lra) ltac:(lra) ltac:(lra)).
  repeat split; lra.
Qed.

End ReferenceBounds.

(** C2 (amended).  Over the real numbers, [parseColorValue] of
    "oklch(62.8% 0.25 29.23)" returns an opaque colour whose channels are
    the ones the documented pipeline computes (oklab through C cos and
    C sin of the hue, the non-linear LMS mix, the cubes, the linear-sRGB
    matrix, the piecewise sRGB transfer function and the clamp to [0,1]),
    and these channels are 0.9886, 0.0919 and 0.0605 up to 0.0001, hence
    well within the tolerance 0.01. *)
Theorem reference_red_channels :
  exists r g b : R,
    parseColorValue (N := realNum) (js "oklch(62.8% 0.25 29.23)") =
      Ok (Some (RGBA (Some r) (Some g) (Some b) (Some 1%R)))
    /\ (r, g, b) = Pipeline.convert (62.8 / 100) 0.25 29.23
    /\ (Rabs (r - 0.9886) <= 0.0001)%R
    /\ (Rabs (g - 0.0919) <= 0.0001)%R
    /\ (Rabs (b - 0.0605) <= 0.0001)%R.
Proof.
  pose proof ReferenceBounds.reference_bounds as HB.
  pose proof (RealFacts.oklchToRgba_pipeline (62.8 / 100) 0.25 29.23
                (Some 1%R)) as HP.
  destruct (Pipeline.convert (62.8 / 100) 0.25 29.23) as [[r g] b].
  exists r, g, b. destruct HB as (Hr & Hg & Hb).
  split.
  { etransitivity; [apply ReferenceParse.parse_reference |].
    exact (f_equal (fun c => Ok (Some c)) HP). }
  repeat split; apply Rabs_le; lra.
Qed.

(** The channels 0.9999, 0.2253 and 0.1253 are not the ones the code
    computes for the reference red: each of the three is further than
    0.01 from the channel that [parseColorValue] returns. *)
Lemma reference_red_counterexample :
  exists r g b : R,
    parseColorValue (N := realNum) (js "oklch(62.8% 0.25 29.23)") =
      Ok (Some (RGBA (Some r) (Some g) (Some b) (Some 1%R)))
    /\ (Rabs (r - 0.9999) > 0.01)%R
    /\ (Rabs (g - 0.2253) > 0.01)%R
    /\ (Rabs (b - 0.1253) > 0.01)%R.
Proof.
  pose proof ReferenceBounds.reference_bounds as HB.
  pose proof (RealFacts.oklchToRgba_pipeline (62.8 / 100) 0.25 29.23
                (Some 1%R)) as HP.
  destruct (Pipeline.convert (62.8 / 100) 0.25 29.23) as [[r g] b].
  exists r, g, b. destruct HB as (Hr & Hg & Hb).
  split.
  { etransitivity; [apply ReferenceParse.parse_reference |].
    exact (f_equal (fun c => Ok (Some c)) HP). }
  repeat split; rewrite Rabs_left by lra; lra.
Qed.

(* ===================================================================== *)
(** ** What a match captures *)
(* ===================================================================== *)

Module ReCaptures.
Import Re.

Lemma firstn_word (w t : str) (p q : nat) :
  q = p + length w -> firstn (q - p) (w ++ t) = w.
Proof. intros ->. apply CalcShape.firstn_exact. lia. Qed.

(** The matcher only succeeds through a run of the pattern. *)
Lemma rmatch_run {A} (r : regex) :
  forall (k : mstate -> option A) (st : mstate) (x : A),
    rmatch r k st = Some x ->
    exists w st',
      Run r (pos st) w (rest st') (caps st) (caps st')
      /\ rest st = w ++ rest st' /\ pos st' = pos st + length w
      /\ k st' = Some x.
Proof.
  induction r as [|p|r1 IH1 r2 IH2|r1 IH1 r2 IH2|g r1 IH1|i r1 IH1| |];
    intros k st x H; cbn [rmatch] in H.
  - exists [], st. ReFacts.here.
  - destruct (rest st) as [|c t] eqn:Hr; [discriminate|].
    destruct (p c) eqn:Hp; [|discriminate].
    exists [c], (advance st). cbn [advance rest pos caps]. rewrite Hr.
    split; [now constructor|ReFacts.here].
  - apply IH1 in H. destruct H as (w1 & st1 & L1 & R1 & P1 & H).
    apply IH2 in H. destruct H as (w2 & st2 & L2 & R2 & P2 & H).
    exists (w1 ++ w2), st2. repeat split.
    + apply RunCat with (c1 := caps st1).
      * now rewrite <- R2.
      * now rewrite <- P1.
    + now rewrite R1, R2, app_assoc.
    + rewrite length_app. lia.
    + exact H.
  - destruct (rmatch r1 k st) as [y|] eqn:E.
    + injection H as <-. apply IH1 in E.
      destruct E as (w & st' & L & R & P & K).
      exists w, st'. repeat split; try assumption. now apply RunOrL.
    + apply IH2 in H. destruct H as (w & st' & L & R & P & K).
      exists w, st'. repeat split; try assumption. now apply RunOrR.
  - revert H. generalize (length (rest st)) at 1. intro fuel.
    revert st x. induction fuel as [|fuel IHf]; intros st x H.
    + exists [], st. ReFacts.here.
    + assert (Hmore : forall y,
                 rmatch r1
                   (fun st' =>
                      if Nat.ltb (length (rest st')) (length (rest st))
                      then repeatLoop (rmatch r1) g k fuel st' else None) st
                 = Some y ->
                 exists w st',
                   Run (Rep g r1) (pos st) w (rest st') (caps st) (caps st')
                   /\ rest st = w ++ rest st'
                   /\ pos st' = pos st + length w /\ k st' = Some y).
      { intros y Hy. apply IH1 in Hy.
        destruct Hy as (w1 & st1 & L1 & R1 & P1 & Hy).
        destruct (Nat.ltb (length (rest st1)) (length (rest st)));
          [|discriminate].
        apply IHf in Hy. destruct Hy as (w2 & st2 & L2 & R2 & P2 & Hy).
        exists (w1 ++ w2), st2. repeat split.
        - apply RunRepCons with (c1 := caps st1).
          + now rewrite <- R2.
          + now rewrite <- P1.
        - now rewrite R1, R2, app_assoc.
        - rewrite length_app. lia.
        - exact Hy. }
      assert (Hstop : forall y,
                 k st = Some y ->
                 exists w st',
                   Run (Rep g r1) (pos st) w (rest st') (caps st) (caps st')
                   /\ rest st = w ++ rest st'
                   /\ pos st' = pos st + length w /\ k st' = Some y).
      { intros y Hy. exists [], st. ReFacts.here. }
      cbn [repeatLoop] in H. cbv zeta in H. destruct g.
      * match type of H with
        | match ?m with _ => _ end = _ => destruct m as [y|] eqn:E
        end.
        -- injection H as <-. now apply Hmore.
        -- now apply Hstop.
      * destruct (k st) as [y|] eqn:E.
        -- injection H as <-. now apply Hstop.
        -- now apply Hmore.
  - apply IH1 in H. destruct H as (w & st' & L & R & P & K).
    exists w, (capture i st st'). cbn [capture rest pos caps].
    repeat split; try assumption.
    rewrite R, (firstn_word w (rest st') (pos st) (pos st') P).
    now constructor.
  - destruct (Nat.eqb (pos st) 0) eqn:E; [|discriminate].
    apply Nat.eqb_eq in E.
    exists [], st. rewrite E. ReFacts.here.
  - destruct (rest st) eqn:Hr; [|discriminate].
    exists [], st. rewrite Hr. ReFacts.here.
Qed.

Lemma matchHere_run (r : regex) (st : mstate) (m : rmatched) :
  matchHere r st = Some m ->
  exists w t c',
    Run r (pos st) w t (caps st) c' /\ rest st = w ++ t
    /\ index m = pos st /\ stop m = pos st + length w
    /\ groups m = setNth 0 (Some w) None c'.
Proof.
  unfold matchHere. intro H. apply rmatch_run in H.
  destruct H as (w & st' & L & R & P & K). injection K as <-.
  exists w, (rest st'), (caps st'). cbn [index stop groups].
  repeat split; try assumption.
  now rewrite R, (firstn_word w (rest st') (pos st) (pos st') P).
Qed.

Lemma searchFrom_run (r : regex) (fuel : nat) :
  forall (st : mstate) (m : rmatched),
    caps st = [] ->
    searchFrom r fuel st = Some m ->
    exists pre w t c',
      rest st = pre ++ w ++ t
      /\ Run r (pos st + length pre) w t [] c'
      /\ index m = pos st + length pre
      /\ stop m = pos st + length pre + length w
      /\ groups m = setNth 0 (Some w) None c'.
Proof.
  assert (Hhere : forall st m,
             caps st = [] -> matchHere r st = Some m ->
             exists pre w t c',
               rest st = pre ++ w ++ t
               /\ Run r (pos st + length pre) w t [] c'
               /\ index m = pos st + length pre
               /\ stop m = pos st + length pre + length w
               /\ groups m = setNth 0 (Some w) None c').
  { intros st m Hc E. apply matchHere_run in E.
    destruct E as (w & t & c' & L & R & I & S & G).
    exists [], w, t, c'. cbn [length app]. rewrite Nat.add_0_r, <- Hc.
    repeat split; assumption. }
  induction fuel as [|fuel IH]; intros st m Hc H; cbn [searchFrom] in H.
  - destruct (matchHere r st) as [m'|] eqn:E.
    + injection H as <-. now apply Hhere.
    + destruct (rest st); discriminate.
  - destruct (matchHere r st) as [m'|] eqn:E.
    + injection H as <-. now apply Hhere.
    + destruct (rest st) as [|c t] eqn:Hr; [discriminate|].
      apply IH in H; [|reflexivity]. cbn [rest tl pos] in H.
      destruct H as (pre & w & post & c' & R & L & I & S & G).
      exists (c :: pre), w, post, c'. cbn [length app].
      rewrite R, <- !Nat.add_succ_comm. repeat split; assumption.
Qed.

Lemma exec_run (r : regex) (s : str) (m : rmatched) :
  exec r s = Some m ->
  exists pre w t c',
    s = pre ++ w ++ t
    /\ Run r (length pre) w t [] c'
    /\ index m = length pre
    /\ stop m = length pre + length w
    /\ groups m = setNth 0 (Some w) None c'.
Proof.
  unfold exec. intro H. apply searchFrom_run in H; [|reflexivity].
  exact H.
Qed.

Lemma execAt_run (r : regex) (from : nat) (s : str) (m : rmatched) :
  execAt r from s = Some m ->
  exists pre w t c',
    skipn from s = pre ++ w ++ t
    /\ Run r (from + length pre) w t [] c'
    /\ index m = from + length pre
    /\ stop m = from + length pre + length w
    /\ groups m = setNth 0 (Some w) None c'.
Proof.
  unfold execAt. intro H. apply searchFrom_run in H; [|reflexivity].
  exact H.
Qed.

(** Every match of a global scan is a run of the pattern somewhere in the
    subject. *)
Lemma execAll_run (r : regex) (s : str) (fuel : nat) :
  forall from,
    Forall (fun m =>
              exists pre w t c',
                Substring w s
                /\ Run r pre w t [] c'
                /\ groups m = setNth 0 (Some w) None c')
           (execAll r fuel from s).
Proof.
  induction fuel as [|fuel IH]; intro from; cbn [execAll]; [constructor|].
  destruct (execAt r from s) as [m|] eqn:E; [|constructor].
  assert (Hm : exists pre w t c',
             Substring w s /\ Run r pre w t [] c'
             /\ groups m = setNth 0 (Some w) None c').
  { apply execAt_run in E. destruct E as (pre & w & t & c' & R & L & _ & _ & G).
    exists (from + length pre), w, t, c'. repeat split; try assumption.
    exists (firstn from s ++ pre), t.
    rewrite <- (firstn_skipn from s) at 1. rewrite R.
    now rewrite <- app_assoc. }
  destruct (Nat.ltb (index m) (stop m)).
  - constructor; [exact Hm|apply IH].
  - constructor; [exact Hm|constructor].
Qed.

(** The run of a literal. *)
Lemma Run_lit (s : str) :
  forall p w t c c', Run (lit s) p w t c c' -> w = s /\ c' = c.
Proof.
  induction s as [|a s IH]; intros p w t c c' H; cbn [lit] in H.
  - inversion H; subst. now split.
  - inversion H as [| |r1 r2 p' w1 w2 t' c0 c1 c2 H1 H2| | | | | | |]; subst.
    inversion H1 as [|q p' a' t' c0 Ha| | | | | | | |]; subst.
    apply Ascii.eqb_eq in Ha. subst a'.
    apply IH in H2. destruct H2 as [-> ->]. now split.
Qed.

(** The run of a repetition of a class. *)
Lemma Run_rep_class (g : bool) (q : ascii -> bool) :
  forall p w t c c',
    Run (Rep g (Cls q)) p w t c c' -> forallb q w = true /\ c' = c.
Proof.
  intros p w t c c' H.
  remember (Rep g (Cls q)) as r eqn:Er.
  induction H as [| | | | | |g' r' p w1 w2 t c c1 c2 H1 _ H2 IH2| | |];
    try discriminate Er.
  - now split.
  - injection Er as -> ->.
    inversion H1 as [|q' p' a t' c0 Ha| | | | | | | |]; subst.
    destruct (IH2 eq_refl) as [Hw ->]. cbn. now rewrite Ha, Hw.
Qed.

Lemma Run_plus_class (q : ascii -> bool) p w t c c' :
  Run (plus (Cls q)) p w t c c' ->
  w <> [] /\ forallb q w = true /\ c' = c.
Proof.
  unfold plus. intro H.
  inversion H as [| |r1 r2 p' w1 w2 t' c0 c1 c2 H1 H2| | | | | | |]; subst.
  inversion H1 as [|q' p' a t' c0 Ha| | | | | | | |]; subst.
  apply Run_rep_class in H2. destruct H2 as [Hw ->].
  repeat split; [discriminate|]. cbn. now rewrite Ha, Hw.
Qed.

Lemma Run_Cat_inv r1 r2 p w t c c' :
  Run (Cat r1 r2) p w t c c' ->
  exists w1 w2 c1,
    w = w1 ++ w2 /\ Run r1 p w1 (w2 ++ t) c c1
    /\ Run r2 (p + length w1) w2 t c1 c'.
Proof.
  intro H.
  inversion H as [| |? ? ? w1 w2 ? ? c1 ? H1 H2| | | | | | |]; subst.
  now exists w1, w2, c1.
Qed.

Lemma Run_Grp_inv i r p w t c c' :
  Run (Grp i r) p w t c c' ->
  exists c1, Run r p w t c c1 /\ c' = setNth i (Some w) None c1.
Proof.
  intro H. inversion H as [| | | | | | |? ? ? ? ? ? c1 H1| |]; subst.
  now exists c1.
Qed.

Lemma Run_Or_inv r1 r2 p w t c c' :
  Run (Or r1 r2) p w t c c' -> Run r1 p w t c c' \/ Run r2 p w t c c'.
Proof.
  intro H. inversion H; subst; [now left|now right].
Qed.

Lemma Run_Cls_inv q p w t c c' :
  Run (Cls q) p w t c c' -> exists a, w = [a] /\ q a = true /\ c' = c.
Proof.
  intro H. inversion H as [|? ? a ? ? Ha| | | | | | | |]; subst.
  now exists a.
Qed.

Lemma Run_chr_inv a p w t c c' :
  Run (chr a) p w t c c' -> w = [a] /\ c' = c.
Proof.
  intro H. apply Run_Cls_inv in H. destruct H as (b & -> & Hb & ->).
  apply Ascii.eqb_eq in Hb. now subst b.
Qed.

Lemma Run_Eps_inv p w t c c' : Run Eps p w t c c' -> w = [] /\ c' = c.
Proof. intro H. inversion H; subst. now split. Qed.

Lemma Run_Bol_inv p w t c c' :
  Run Bol p w t c c' -> p = 0 /\ w = [] /\ c' = c.
Proof. intro H. inversion H; subst. now repeat split. Qed.

Lemma Run_Eol_inv p w t c c' :
  Run Eol p w t c c' -> w = [] /\ t = [] /\ c' = c.
Proof. intro H. inversion H; subst. now repeat split. Qed.

Lemma nth_setNth_eq {A} (i : nat) (x d : A) :
  forall l, nth i (setNth i x d l) d = x.
Proof.
  induction i as [|i IH]; intros [|y l]; cbn [setNth nth];
    first [reflexivity | apply IH].
Qed.

Lemma nth_setNth_neq {A} (i : nat) (x d : A) :
  forall j l, i <> j -> nth j (setNth i x d l) d = nth j l d.
Proof.
  induction i as [|i IH]; intros [|j] [|y l] Hij; cbn [setNth nth];
    try reflexivity; try contradiction.
  - now destruct j.
  - rewrite IH by lia. now destruct j.
  - apply IH. lia.
Qed.

End ReCaptures.

(* ===================================================================== *)
(** ** Where an exception can come from *)
(* ===================================================================== *)

Section Exceptions.

Lemma isUpper_lowerChar (c : ascii) : Str.isUpper (Str.lowerChar c) = false.
Proof. destruct c as [[] [] [] [] [] [] [] []]; reflexivity. Qed.

Lemma toLowerCase_lower (s : str) :
  forallb (fun c => negb (Str.isUpper c)) (Str.toLowerCase s) = true.
Proof.
  induction s as [|c s IH]; [reflexivity|].
  cbn [Str.toLowerCase map forallb]. rewrite isUpper_lowerChar.
  exact IH.
Qed.

(** The members of [Object.prototype] whose name a lower-case string can
    be. *)
Lemma inherited_lower (v u : str) :
  v = Str.toLowerCase u ->
  existsb (Str.eqb v) objectPrototypeKeys = true ->
  v = js "constructor" \/ v = js "__proto__".
Proof.
  intros Hv H. apply existsb_exists in H. destruct H as (key & Hin & E).
  apply Str_eqb_eq in E. subst key.
  pose proof (toLowerCase_lower u) as Hl. rewrite <- Hv in Hl.
  unfold objectPrototypeKeys in Hin. cbn [map In] in Hin.
  repeat (destruct Hin as [Hin|Hin];
          [first [ now left | now right
                 | (rewrite <- Hin in Hl; vm_compute in Hl; discriminate Hl) ]
          |]).
  contradiction.
Qed.

Lemma parseColorValue_thrown {num : Type} (N : JsNum num) (value : str)
    (e : error) :
  parseColorValue (N := N) value = Throw e ->
  Str.toLowerCase (Str.trim value) = js "constructor"
  \/ Str.toLowerCase (Str.trim value) = js "__proto__".
Proof.
  unfold parseColorValue.
  set (v := Str.toLowerCase (Str.trim value)).
  destruct (Re.exec Pattern.oklch v); [discriminate|].
  destruct (Re.exec Pattern.hsl v); [discriminate|].
  destruct (Str.startsWith (js "rgb") v); [discriminate|].
  destruct (Str.startsWith (js "#") v); [discriminate|].
  unfold getProperty.
  destruct (ownProperty named v); [discriminate|].
  destruct (existsb (Str.eqb v) objectPrototypeKeys) eqn:E; [|discriminate].
  intros _. now apply (inherited_lower v (Str.trim value)).
Qed.

Lemma parseColorValue_throws {num : Type} (N : JsNum num) (value : str) :
  Str.toLowerCase (Str.trim value) = js "constructor"
  \/ Str.toLowerCase (Str.trim value) = js "__proto__" ->
  parseColorValue (N := N) value = Throw TypeError.
Proof.
  unfold parseColorValue. intros [-> | ->]; vm_compute; reflexivity.
Qed.

Lemma trim_snoc (s : str) (c : ascii) :
  Str.isSpace c = false -> Str.trim (s ++ [c]) = Str.trimStart s ++ [c].
Proof.
  intro Hc. unfold Str.trim. rewrite StrFacts.trimStart_snoc by exact Hc.
  unfold Str.trimEnd. rewrite rev_app_distr. cbn [rev app Str.trimStart].
  rewrite Hc. cbn [rev]. now rewrite rev_involutive.
Qed.

(** A value that ends with a closing parenthesis never raises. *)
Lemma closing_paren_not_thrown {num : Type} (N : JsNum num) (s : str)
    (e : error) :
  parseColorValue (N := N) (s ++ js ")") <> Throw e.
Proof.
  intro H. apply parseColorValue_thrown in H.
  change (js ")") with [")"%char] in H.
  rewrite trim_snoc in H by reflexivity.
  unfold Str.toLowerCase in H. rewrite map_app in H. cbn [map js] in H.
  destruct H as [H|H].
  - change (js "constructor") with (js "constructo" ++ js "r") in H.
    apply app_inj_tail in H. destruct H as [_ H]. discriminate H.
  - change (js "__proto__") with (js "__proto_" ++ js "_") in H.
    apply app_inj_tail in H. destruct H as [_ H]. discriminate H.
Qed.

End Exceptions.

(** X1.  [parseColorValue(value)] raises exactly when the trimmed
    lower-case value is [constructor] or [__proto__], the two members of
    [Object.prototype] that [named[v]] can find; whatever the number model,
    every other value gives a colour or [null]. *)
Theorem parseColorValue_raises_iff {num : Type} (N : JsNum num)
    (value : str) :
  parseColorValue (N := N) value = Throw TypeError <->
  (Str.toLowerCase (Str.trim value) = js "constructor"
   \/ Str.toLowerCase (Str.trim value) = js "__proto__").
Proof.
  split.
  - apply parseColorValue_thrown.
  - apply parseColorValue_throws.
Qed.

Lemma parseColorValue_raises_iff_witness :
  parseColorValue (N := realNum) (js "  Constructor ") = Throw TypeError.
Proof.
  apply (proj2 (parseColorValue_raises_iff realNum (js "  Constructor "))).
  left. vm_compute. reflexivity.
Defined.

Section ShadowTotal.
Variables (cosf sinf : float -> float) (powf : float -> float -> float).
#[local] Existing Instance hostNum.

(** The colour token of a layer ends with a closing parenthesis. *)
Lemma shadowColorStr_closed (shadow : str) :
  exists u, shadowColorStr shadow = u ++ js ")".
Proof.
  unfold shadowColorStr.
  destruct (Re.exec ParserPattern.colorFn shadow) as [m|] eqn:E.
  - apply ReCaptures.exec_run in E.
    destruct E as (pre & w & t & c' & _ & R & _ & _ & G).
    unfold ParserPattern.colorFn in R.
    apply ReCaptures.Run_Grp_inv in R. destruct R as (c1 & R & ->).
    unfold Re.text, Re.group. rewrite G.
    rewrite ReCaptures.nth_setNth_neq by lia.
    rewrite ReCaptures.nth_setNth_eq.
    cbn [Re.seq] in R.
    apply ReCaptures.Run_Cat_inv in R. destruct R as (w1 & x1 & ? & -> & _ & R).
    apply ReCaptures.Run_Cat_inv in R. destruct R as (w2 & x2 & ? & -> & _ & R).
    apply ReCaptures.Run_Cat_inv in R. destruct R as (w3 & x3 & ? & -> & _ & R).
    apply ReCaptures.Run_Cat_inv in R. destruct R as (w4 & x4 & ? & -> & _ & R).
    apply ReCaptures.Run_chr_inv in R. destruct R as [-> _].
    exists (w1 ++ w2 ++ w3 ++ w4). now rewrite <- !app_assoc.
  - now exists (js "rgb(0 0 0 / 0.1").
Qed.

Lemma parseShadowLayer_total (part : str) :
  exists layer,
    parseShadowLayer cosf sinf powf part = Ok layer
    /\ (nonEmpty (Str.trim part) = true <-> layer <> None).
Proof.
  unfold parseShadowLayer.
  destruct (nonEmpty (Str.trim part)) eqn:Hne; cbn [negb].
  - destruct (shadowColorStr_closed (shadowBody (Str.trim part)))
      as (u & Hu).
    rewrite Hu. unfold bind.
    destruct (parseColorValue (u ++ js ")")) as [parsed|e] eqn:E.
    + eexists. split; [reflexivity|]. split; [discriminate|reflexivity].
    + exfalso. exact (closing_paren_not_thrown _ u e E).
  - exists None. split; [reflexivity|]. split; [discriminate|].
    intro H. now contradiction H.
Qed.

Lemma parseShadowParts_total (parts : list str) :
  forall layers,
    exists more,
      parseShadowParts cosf sinf powf parts layers = Ok (layers ++ more)
      /\ length more
         = length (List.filter (fun p => nonEmpty (Str.trim p)) parts).
Proof.
  induction parts as [|part parts IH]; intro layers;
    cbn [parseShadowParts List.filter].
  - exists []. now rewrite app_nil_r.
  - destruct (parseShadowLayer_total part) as (layer & -> & Hl).
    unfold bind. destruct layer as [l|].
    + destruct (IH (layers ++ [l])) as (more & -> & Hm).
      exists (l :: more). rewrite <- app_assoc. split; [reflexivity|].
      rewrite (proj2 Hl) by discriminate. cbn [length]. now rewrite Hm.
    + destruct (IH layers) as (more & -> & Hm).
      exists more. split; [reflexivity|].
      destruct (nonEmpty (Str.trim part)); [|exact Hm].
      now destruct (proj1 Hl eq_refl).
Qed.

Lemma filter_length_le {A} (f : A -> bool) (l : list A) :
  length (List.filter f l) <= length l.
Proof.
  induction l as [|x l IH]; cbn [List.filter length]; [lia|].
  destruct (f x); cbn [length]; lia.
Qed.

Lemma splitShadowParts_length (value : str) :
  length (splitShadowParts value) <= S (TopLevel.separators value).
Proof.
  rewrite TopLevelFacts.splitShadowParts_pieces.
  unfold TopLevel.dropBlankLast, TopLevel.pieces, TopLevel.separators.
  pose proof (TopLevelFacts.length_cut (TopLevel.depths 0 value)) as H.
  destruct (nonEmpty _); [lia|].
  rewrite removelast_firstn_len, length_firstn. lia.
Qed.

Lemma parseShadowValue_total (value : str) :
  exists layers,
    parseShadowValue cosf sinf powf value = Ok layers
    /\ length layers
       = length (List.filter (fun p => nonEmpty (Str.trim p))
                   (splitShadowParts value)).
Proof.
  unfold parseShadowValue.
  destruct (parseShadowParts_total (splitShadowParts value) [])
    as (more & H & Hm).
  exists more. now split.
Qed.

End ShadowTotal.

(** X2.  [parseShadowValue] never raises, whatever the value and the host
    functions: it returns one layer for each part of [splitShadowParts]
    that is not blank, hence at most one more layer than the value has
    top-level commas. *)
Theorem parseShadowValue_never_raises
    (cosf sinf : float -> float) (powf : float -> float -> float)
    (value : str) :
  exists layers,
    parseShadowValue cosf sinf powf value = Ok layers
    /\ length layers
       = length (List.filter (fun p => nonEmpty (Str.trim p))
                   (splitShadowParts value))
    /\ length layers <= S (TopLevel.separators value).
Proof.
  destruct (parseShadowValue_total cosf sinf powf value) as (layers & H & Hl).
  exists layers. split; [exact H|]. split; [exact Hl|].
  rewrite Hl.
  eapply Nat.le_trans; [apply filter_length_le|].
  apply splitShadowParts_length.
Qed.

Section CategorizeRaises.
Variables (cosf sinf : float -> float) (powf : float -> float -> float).
#[local] Existing Instance hostNum.

Lemma pushShadow_total (shadowName : str) (v : CSSVariable.t)
    (result : ParsedTokenSet) :
  exists r, pushShadow cosf sinf powf shadowName v result = Ok r.
Proof.
  unfold pushShadow.
  destruct (parseShadowValue_total cosf sinf powf (CSSVariable.rawValue v))
    as (layers & -> & _).
  unfold bind. destruct (Nat.ltb 0 (length layers)); eexists; reflexivity.
Qed.

(** The name a variable is classified by. *)
Lemma categorize_color (vars : list CSSVariable.t) (result : ParsedTokenSet)
    (h : Hoisted.t) (v : CSSVariable.t) :
  Str.startsWith (js "color-")
    (Re.replace ParserPattern.dashes [] (CSSVariable.name v)) = true ->
  categorize cosf sinf powf vars (result, h) v =
  match parseColorValue (N := hostNum cosf sinf powf)
          (CSSVariable.rawValue v) with
  | Ok (Some c) =>
      Ok (Push.colors
            (ParsedColor.make
               (Str.split "-"
                  (Str.replace (js "color-") []
                     (Re.replace ParserPattern.dashes []
                        (CSSVariable.name v))))
               c (CSSVariable.rawValue v)) result, h)
  | Ok None => Ok (result, h)
  | Throw e => Throw e
  end.
Proof.
  intro H. unfold categorize. rewrite H. unfold bind.
  now destruct (parseColorValue _) as [[c|]|e].
Qed.

Lemma categorize_other_total (vars : list CSSVariable.t)
    (state : ParsedTokenSet * Hoisted.t) (v : CSSVariable.t) :
  Str.startsWith (js "color-")
    (Re.replace ParserPattern.dashes [] (CSSVariable.name v)) = false ->
  exists r, categorize cosf sinf powf vars state v = Ok r.
Proof.
  intro H. destruct state as [result h]. unfold categorize. rewrite H.
  repeat match goal with
         | |- exists r, (if ?c then _ else _) = Ok r => destruct c
         | |- exists r, Ok _ = Ok r => eexists; reflexivity
         | |- exists r, bind (pushShadow _ _ _ ?n ?w ?res) _ = Ok r =>
             destruct (pushShadow_total n w res) as (? & ->); unfold bind
         | |- exists r, match ?c with _ => _ end = Ok r => destruct c
         | |- exists r, (let x := _ in _) = Ok r => cbv zeta
         end.
Qed.

Lemma categorize_raises (vars : list CSSVariable.t)
    (state : ParsedTokenSet * Hoisted.t) (v : CSSVariable.t) :
  categorize cosf sinf powf vars state v = Throw TypeError <->
  raisingColor v.
Proof.
  destruct state as [result h].
  unfold raisingColor.
  destruct (Str.startsWith (js "color-")
              (Re.replace ParserPattern.dashes [] (CSSVariable.name v)))
    eqn:Hc.
  - rewrite (categorize_color vars result h v Hc).
    destruct (parseColorValue _) as [[c|]|e] eqn:E.
    + split; [discriminate|]. intros [_ H].
      apply (parseColorValue_throws (hostNum cosf sinf powf)) in H.
      congruence.
    + split; [discriminate|]. intros [_ H].
      apply (parseColorValue_throws (hostNum cosf sinf powf)) in H.
      congruence.
    + split; [|now destruct e]. intros _. split; [reflexivity|].
      exact (parseColorValue_thrown _ _ _ E).
  - destruct (categorize_other_total vars (result, h) v Hc) as (r & ->).
    split; [discriminate|]. intros [H _]. discriminate H.
Qed.

Lemma categorizeAll_raises (vars vs : list CSSVariable.t) :
  forall result,
    categorizeAll cosf sinf powf vars vs result = Throw TypeError <->
    exists v, In v vs /\ raisingColor v.
Proof.
  induction vs as [|v vs IH]; intro result; cbn [categorizeAll].
  - split; [discriminate|]. now intros (v & [] & _).
  - unfold bind.
    destruct (categorize cosf sinf powf vars result v) as [r|e] eqn:E.
    + rewrite IH. split.
      * intros (w & Hin & Hw). exists w. split; [now right|exact Hw].
      * intros (w & [<-|Hin] & Hw).
        -- apply (categorize_raises vars result) in Hw. congruence.
        -- now exists w.
    + destruct e. split; [|reflexivity]. intros _.
      exists v. split; [now left|].
      now apply (categorize_raises vars result).
Qed.

Lemma categorizeTokens_raises (vars : list CSSVariable.t) :
  categorizeTokens cosf sinf powf vars = Throw TypeError <->
  exists v, In v vars /\ raisingColor v.
Proof.
  rewrite <- (categorizeAll_raises vars vars initial).
  unfold categorizeTokens, bind.
  destruct (categorizeAll cosf sinf powf vars vars initial)
    as [r|e]; [|split; intro H; destruct e; reflexivity].
  split; [|discriminate].
  destruct (spacing (fst r)) as [|b [|b' l]]; discriminate.
Qed.

End CategorizeRaises.

(** X3.  [categorizeTokens] raises exactly when the list has a variable
    [--color-...] whose trimmed lower-case value is [constructor] or
    [__proto__]; on every other list it returns a token set: no other rule
    of the loop, shadow parsing included, can raise. *)
Theorem categorizeTokens_raises_iff
    (cosf sinf : float -> float) (powf : float -> float -> float)
    (vars : list CSSVariable.t) :
  (categorizeTokens cosf sinf powf vars = Throw TypeError <->
   exists v, In v vars /\ raisingColor v)
  /\ ((forall v, In v vars -> ~ raisingColor v) ->
      exists ts, categorizeTokens cosf sinf powf vars = Ok ts).
Proof.
  split; [apply categorizeTokens_raises|].
  intro Hno.
  destruct (categorizeTokens cosf sinf powf vars) as [ts|e] eqn:E;
    [now exists ts|].
  destruct e. apply categorizeTokens_raises in E.
  destruct E as (v & Hin & Hv). now destruct (Hno v Hin).
Qed.

Lemma categorizeTokens_raises_iff_witness :
  categorizeTokens Sample.unary Sample.unary Sample.binary
    [Sample.var "--radius" "4px"; Sample.var "--color-x" " __PROTO__ "]
  = Throw TypeError
  /\ exists ts,
       categorizeTokens Sample.unary Sample.unary Sample.binary
         [Sample.var "--radius" "constructor";
          Sample.var "--shadow-x" "constructor"] = Ok ts.
Proof.
  split.
  - apply (proj2 (proj1 (categorizeTokens_raises_iff
                           Sample.unary Sample.unary Sample.binary
                           [Sample.var "--radius" "4px";
                            Sample.var "--color-x" " __PROTO__ "]))).
    exists (Sample.var "--color-x" " __PROTO__ ").
    split; [right; left; reflexivity|].
    split; [vm_compute; reflexivity|right; vm_compute; reflexivity].
  - apply (proj2 (categorizeTokens_raises_iff
                    Sample.unary Sample.unary Sample.binary
                    [Sample.var "--radius" "constructor";
                     Sample.var "--shadow-x" "constructor"])).
    intros v [<-|[<-|[]]] [H _]; vm_compute in H; discriminate H.
Defined.

(* ===================================================================== *)
(** ** Dimensions *)
(* ===================================================================== *)

Module DimensionShape.
Import Re.

Lemma digitDot_not_minus (c : ascii) :
  digitDot c = true -> Str.isChar "-" c = false.
Proof.
  destruct c as [[] [] [] [] [] [] [] []]; vm_compute; intro H;
    first [reflexivity | discriminate H].
Qed.

Lemma opt_sign_none {A} (k : mstate -> option A) (st : mstate)
    (c : ascii) (r : str) :
  rest st = c :: r -> digitDot c = true ->
  rmatch (opt (chr "-")) k st = k st.
Proof.
  intros Hr Hc. unfold opt, chr. cbn [rmatch]. rewrite Hr.
  now rewrite (digitDot_not_minus c Hc).
Qed.

Lemma opt_sign_some {A} (k : mstate -> option A) (st : mstate)
    (r : str) (x : A) :
  rest st = "-"%char :: r -> k (advance st) = Some x ->
  rmatch (opt (chr "-")) k st = Some x.
Proof.
  intros Hr Hk. unfold opt, chr. cbn [rmatch]. rewrite Hr.
  change (Str.isChar "-" "-") with true. cbv iota. now rewrite Hk.
Qed.

(** The optional unit and the end of the subject. *)
Lemma unit_none {A} (k : mstate -> option A) (p : nat)
    (c : list (option str)) :
  rmatch
    (Cat (opt (Grp 2 (Or (lit (js "rem"))
                         (Or (lit (js "px")) (lit (js "em"))))))
         Eol) k (MState p [] c)
  = k (MState p [] c).
Proof. reflexivity. Qed.

Lemma unit_some {A} (k : mstate -> option A) (p : nat)
    (c : list (option str)) (u : str) (x : A) :
  In u [js "rem"; js "px"; js "em"] ->
  k (MState (p + length u) [] (setNth 2 (Some u) None c)) = Some x ->
  rmatch
    (Cat (opt (Grp 2 (Or (lit (js "rem"))
                         (Or (lit (js "px")) (lit (js "em"))))))
         Eol) k (MState p u c)
  = Some x.
Proof.
  intros [<-|[<-|[<-|[]]]] H;
    cbn [rmatch opt lit chr js String.list_ascii_of_string rest advance
         tl pos caps capture length] in *;
    cbn [Str.isChar Ascii.eqb Bool.eqb] in *; cbv iota beta;
    unfold capture, advance; cbn [pos rest caps tl].
  - replace (S (S (S p)) - p) with 3 by lia.
    replace (p + 3) with (S (S (S p))) in H by lia.
    cbn [firstn].
    match goal with
    | |- context [k ?s] =>
        replace (k s) with (Some x) by (symmetry; exact H)
    end. reflexivity.
  - replace (S (S p) - p) with 2 by lia.
    replace (p + 2) with (S (S p)) in H by lia.
    cbn [firstn].
    match goal with
    | |- context [k ?s] =>
        replace (k s) with (Some x) by (symmetry; exact H)
    end. reflexivity.
  - replace (S (S p) - p) with 2 by lia.
    replace (p + 2) with (S (S p)) in H by lia.
    cbn [firstn].
    match goal with
    | |- context [k ?s] =>
        replace (k s) with (Some x) by (symmetry; exact H)
    end. reflexivity.
Qed.

Lemma rmatch_Bol {A} (k : mstate -> option A) (st : mstate) :
  pos st = 0 -> rmatch Bol k st = k st.
Proof. intro H. cbn [rmatch]. now rewrite H. Qed.

Lemma units_stop (u : str) :
  In u [[]; js "rem"; js "px"; js "em"] -> stopsClass digitDot u.
Proof. intros [<-|[<-|[<-|[<-|[]]]]]; reflexivity. Qed.

Lemma firstn_all_app (w : str) (n : nat) :
  n = length w -> firstn n w = w.
Proof. intros ->. apply firstn_all. Qed.

Lemma firstn_cons_exact (c : ascii) (w t : str) (n : nat) :
  n = S (length w) -> firstn n (c :: w ++ t) = c :: w.
Proof. intros ->. cbn [firstn]. f_equal. now apply CalcShape.firstn_exact. Qed.

(** Closes the goals about the text of the groups. *)
Ltac words :=
  repeat f_equal;
  first [ apply CalcShape.firstn_exact | apply firstn_cons_exact
        | apply firstn_all_app ];
  cbn [length]; rewrite ?length_app; cbn [length]; lia.

(** The pattern of [parseDimension] on a sign, digits and a unit. *)
Lemma dimension_run (sg ds u : str) :
  sg = [] \/ sg = js "-" -> ds <> [] -> forallb digitDot ds = true ->
  In u [[]; js "rem"; js "px"; js "em"] ->
  exists m,
    exec Pattern.dimension (sg ++ ds ++ u) = Some m
    /\ group 1 m = Some (sg ++ ds)
    /\ group 2 m = match u with [] => None | _ :: _ => Some u end.
Proof.
  intros Hsg Hne Hds Hu. pose proof (units_stop u Hu) as Hstop.
  assert (Hc : exists c ds', ds = c :: ds' /\ digitDot c = true).
  { destruct ds as [|c ds']; [contradiction|]. exists c, ds'.
    split; [reflexivity|]. cbn in Hds. now apply andb_prop in Hds. }
  destruct Hc as (c & ds' & Eds & Hc).
  assert (Hm : exists m,
             matchHere Pattern.dimension (MState 0 (sg ++ ds ++ u) [])
             = Some m
             /\ groups m
                = setNth 0 (Some (sg ++ ds ++ u)) None
                    (match u with
                     | [] => [None; Some (sg ++ ds)]
                     | _ :: _ => [None; Some (sg ++ ds); Some u]
                     end)).
  { unfold matchHere, Pattern.dimension. cbn [seq].
    rewrite CalcShape.rmatch_Cat, rmatch_Bol by reflexivity.
    rewrite CalcShape.rmatch_Cat, CalcShape.rmatch_Grp,
      CalcShape.rmatch_Cat.
    destruct Hsg as [-> | ->].
    - rewrite (opt_sign_none _ _ c (ds' ++ u))
        by (cbn [rest app]; rewrite ?Eds; auto).
      destruct Hu as [<-|Hu].
      + eexists. split.
        * apply (ReRun.run_plus_class digitDot ds []);
            [assumption|assumption|exact I|reflexivity|].
          unfold capture, after. cbn [pos rest caps].
          rewrite unit_none. reflexivity.
        * cbn [groups pos caps app setNth]. rewrite app_nil_r. words.
      + eexists. split.
        * apply (ReRun.run_plus_class digitDot ds u);
            [assumption|assumption|assumption|reflexivity|].
          unfold capture, after. cbn [pos rest caps].
          apply unit_some; [exact Hu|]. reflexivity.
        * destruct Hu as [<-|[<-|[<-|[]]]];
            cbn [groups pos caps app setNth js String.list_ascii_of_string
                 length]; words.
    - destruct Hu as [<-|Hu].
      + eexists. split.
        * apply (opt_sign_some _ _ (ds ++ [])); [reflexivity|].
          apply (ReRun.run_plus_class digitDot ds []);
            [assumption|assumption|exact I|reflexivity|].
          unfold capture, after, advance. cbn [pos rest caps tl].
          rewrite unit_none. reflexivity.
        * cbn [groups pos caps app setNth js String.list_ascii_of_string].
          rewrite app_nil_r. words.
      + eexists. split.
        * apply (opt_sign_some _ _ (ds ++ u)); [reflexivity|].
          apply (ReRun.run_plus_class digitDot ds u);
            [assumption|assumption|assumption|reflexivity|].
          unfold capture, after, advance. cbn [pos rest caps tl].
          apply unit_some; [exact Hu|]. reflexivity.
        * destruct Hu as [<-|[<-|[<-|[]]]];
            cbn [groups pos caps app setNth js String.list_ascii_of_string
                 length]; words. }
  destruct Hm as (m & Hm & Hg). exists m. split.
  - unfold exec. now apply CalcShape.searchFrom_here.
  - unfold group. rewrite Hg.
    destruct u; split; reflexivity.
Qed.

(** What the pattern of [parseDimension] matches. *)
Lemma dimension_shape (s : str) (m : rmatched) :
  exec Pattern.dimension s = Some m ->
  exists sg ds u,
    s = sg ++ ds ++ u /\ (sg = [] \/ sg = js "-") /\ ds <> []
    /\ forallb digitDot ds = true
    /\ In u [[]; js "rem"; js "px"; js "em"].
Proof.
  intro H. apply ReCaptures.exec_run in H.
  destruct H as (pre & w & t & c' & -> & R & _).
  unfold Pattern.dimension in R. cbn [seq] in R.
  apply ReCaptures.Run_Cat_inv in R. destruct R as (w0 & w' & c0 & -> & R0 & R).
  apply ReCaptures.Run_Bol_inv in R0. destruct R0 as (Hp & -> & ->).
  apply length_zero_iff_nil in Hp. subst pre.
  apply ReCaptures.Run_Cat_inv in R. destruct R as (w1 & w2 & c1 & -> & R1 & R).
  apply ReCaptures.Run_Grp_inv in R1. destruct R1 as (c2 & R1 & ->).
  apply ReCaptures.Run_Cat_inv in R1.
  destruct R1 as (sg & ds & c3 & -> & Rs & Rd).
  apply ReCaptures.Run_plus_class in Rd. destruct Rd as (Hne & Hds & ->).
  apply ReCaptures.Run_Cat_inv in R. destruct R as (u & e & c4 & -> & Ru & Re).
  apply ReCaptures.Run_Eol_inv in Re. destruct Re as (-> & -> & ->).
  exists sg, ds, u. cbn [app]. rewrite !app_nil_r, <- app_assoc.
  split; [reflexivity|]. split; [|split; [exact Hne|split; [exact Hds|]]].
  - apply ReCaptures.Run_Or_inv in Rs. destruct Rs as [Rs|Rs].
    + apply ReCaptures.Run_chr_inv in Rs. destruct Rs as [-> _]. now right.
    + apply ReCaptures.Run_Eps_inv in Rs. destruct Rs as [-> _]. now left.
  - apply ReCaptures.Run_Or_inv in Ru. destruct Ru as [Ru|Ru].
    + apply ReCaptures.Run_Grp_inv in Ru. destruct Ru as (c5 & Ru & _).
      apply ReCaptures.Run_Or_inv in Ru. destruct Ru as [Ru|Ru].
      * apply ReCaptures.Run_lit in Ru. destruct Ru as [-> _].
        right. now left.
      * apply ReCaptures.Run_Or_inv in Ru. destruct Ru as [Ru|Ru];
          apply ReCaptures.Run_lit in Ru; destruct Ru as [-> _].
        -- right. right. now left.
        -- right. right. right. now left.
    + apply ReCaptures.Run_Eps_inv in Ru. destruct Ru as [-> _]. now left.
Qed.

End DimensionShape.

Section DimensionFacts.
Context {num : Type} (N : JsNum num).

(** The value of a well-formed dimension. *)
Lemma parseDimension_eval (value sg ds u : str) :
  Str.trim value = sg ++ ds ++ u ->
  sg = [] \/ sg = js "-" -> ds <> [] -> forallb Re.digitDot ds = true ->
  In u [[]; js "rem"; js "px"; js "em"] ->
  parseDimension value =
  Some (if Str.eqb u (js "rem") || Str.eqb u (js "em")
        then remToPx (parseFloat (sg ++ ds))
        else parseFloat (sg ++ ds)).
Proof.
  intros Hv Hsg Hne Hds Hu. unfold parseDimension. rewrite Hv.
  destruct (DimensionShape.dimension_run sg ds u Hsg Hne Hds Hu)
    as (m & -> & G1 & G2).
  unfold Re.present, Re.text. rewrite G1, G2.
  destruct Hu as [<-|[<-|[<-|[<-|[]]]]]; reflexivity.
Qed.

Lemma parseDimension_shape (value : str) (x : num) :
  parseDimension value = Some x ->
  exists sg ds u,
    Str.trim value = sg ++ ds ++ u /\ (sg = [] \/ sg = js "-") /\ ds <> []
    /\ forallb Re.digitDot ds = true
    /\ In u [[]; js "rem"; js "px"; js "em"].
Proof.
  unfold parseDimension.
  destruct (Re.exec Pattern.dimension (Str.trim value)) as [m|] eqn:E;
    [|discriminate].
  intros _. now apply DimensionShape.dimension_shape in E.
Qed.

End DimensionFacts.

(** X4.  Whatever the number model, [parseDimension(value)] returns a
    number exactly when the trimmed value is an optional minus sign, then
    digits and dots, then nothing or one of the units [px], [rem] and [em];
    the number is [parseFloat] of the sign and digits, times 16 for [rem]
    and [em].  Every other value (a percentage, another unit, an inner
    space, an exponent) gives [null]. *)
Theorem parseDimension_iff {num : Type} (N : JsNum num) (value : str)
    (x : num) :
  parseDimension value = Some x <->
  exists sign digits unit,
    Str.trim value = sign ++ digits ++ unit
    /\ (sign = [] \/ sign = js "-")
    /\ digits <> [] /\ forallb Re.digitDot digits = true
    /\ ((unit = [] \/ unit = js "px")
          /\ x = parseFloat (sign ++ digits)
        \/ (unit = js "rem" \/ unit = js "em")
           /\ x = remToPx (parseFloat (sign ++ digits))).
Proof.
  split.
  - intro H. destruct (parseDimension_shape N value x H)
      as (sg & ds & u & Hv & Hsg & Hne & Hds & Hu).
    rewrite (parseDimension_eval N value sg ds u Hv Hsg Hne Hds Hu) in H.
    injection H as <-.
    exists sg, ds, u. repeat (split; [assumption|]).
    destruct Hu as [<-|[<-|[<-|[<-|[]]]]]; cbn [orb];
      [left|right|left|right]; split; auto.
  - intros (sg & ds & u & Hv & Hsg & Hne & Hds & Hx).
    assert (Hu : In u [[]; js "rem"; js "px"; js "em"]).
    { destruct Hx as [[[->| ->] _]|[[->| ->] _]]; cbn; auto. }
    rewrite (parseDimension_eval N value sg ds u Hv Hsg Hne Hds Hu).
    destruct Hx as [[[->| ->] ->]|[[->| ->] ->]]; reflexivity.
Qed.

Lemma parseDimension_iff_witness :
  parseDimension
    (N := floatNum Sample.unary Sample.unary Sample.binary)
    (js "  -1.5rem ") = Some (-24)%float.
Proof.
  apply (proj2 (parseDimension_iff
                  (floatNum Sample.unary Sample.unary Sample.binary)
                  (js "  -1.5rem ") (-24)%float)).
  exists (js "-"), (js "1.5"), (js "rem").
  split; [vm_compute; reflexivity|].
  split; [now right|]. split; [discriminate|]. split; [reflexivity|].
  right. split; [now left|]. vm_compute. reflexivity.
Defined.


(* ===================================================================== *)
(** ** Extracted declarations *)
(* ===================================================================== *)

Section Extraction.

Lemma wordDash_not_space (c : ascii) :
  Re.wordDash c = true -> Str.isSpace c = false.
Proof.
  destruct c as [[] [] [] [] [] [] [] []]; vm_compute; intro H;
    first [reflexivity | discriminate H].
Qed.

Lemma trimStart_none (s : str) :
  forallb (fun c => negb (Str.isSpace c)) s = true -> Str.trimStart s = s.
Proof.
  destruct s as [|c s]; [reflexivity|]. cbn [forallb Str.trimStart].
  intro H. apply andb_prop in H. destruct H as [H _].
  now destruct (Str.isSpace c).
Qed.

Lemma trim_none (s : str) :
  forallb (fun c => negb (Str.isSpace c)) s = true -> Str.trim s = s.
Proof.
  intro H. unfold Str.trim, Str.trimEnd. rewrite (trimStart_none s H).
  rewrite trimStart_none, rev_involutive; [reflexivity|].
  apply forallb_forall. intros c Hc. apply in_rev in Hc.
  now apply (proj1 (forallb_forall _ s) H).
Qed.

Lemma forallb_Substring (p : ascii -> bool) (a s : str) :
  Substring a s -> forallb p s = true -> forallb p a = true.
Proof.
  intros (pre & post & ->) H. rewrite !forallb_app in H.
  apply andb_prop in H. destruct H as [_ H].
  apply andb_prop in H. now destruct H.
Qed.

Lemma forallb_firstn (p : ascii -> bool) (n : nat) (s : str) :
  forallb p s = true -> forallb p (firstn n s) = true.
Proof.
  intro H. apply (forallb_Substring p (firstn n s) s); [|exact H].
  exists [], (skipn n s). cbn [app]. now rewrite firstn_skipn.
Qed.

Lemma forallb_skipn (p : ascii -> bool) (n : nat) (s : str) :
  forallb p s = true -> forallb p (skipn n s) = true.
Proof.
  intro H. apply (forallb_Substring p (skipn n s) s); [|exact H].
  exists (firstn n s), []. now rewrite app_nil_r, firstn_skipn.
Qed.

(** A global replacement only brings in the characters of the
    replacement. *)
Lemma replaceAllFrom_forallb (p : ascii -> bool) (r : Re.regex)
    (by_ s : str) :
  forallb p by_ = true -> forallb p s = true ->
  forall fuel from, forallb p (Re.replaceAllFrom r by_ fuel from s) = true.
Proof.
  intros Hby Hs. induction fuel as [|fuel IH]; intro from;
    cbn [Re.replaceAllFrom]; [now apply forallb_skipn|].
  destruct (Re.execAt r from s) as [m|]; [|now apply forallb_skipn].
  destruct (Nat.ltb (Re.index m) (Re.stop m));
    rewrite !forallb_app, Hby, IH, ?andb_true_r;
    rewrite !forallb_firstn by (now apply forallb_skipn); reflexivity.
Qed.

Lemma declaration_groups (m : Re.rmatched) (pre : nat) (w t : str)
    (c' : list (option str)) :
  Run ParserPattern.declaration pre w t [] c' ->
  Re.groups m = Re.setNth 0 (Some w) None c' ->
  exists nm val rest_,
    Re.text 1 m = js "--" ++ nm /\ nm <> []
    /\ forallb Re.wordDash nm = true
    /\ Re.text 2 m = val /\ val <> []
    /\ forallb (Re.noneOf ";") val = true
    /\ w = (js "--" ++ nm) ++ rest_.
Proof.
  intros R G. unfold ParserPattern.declaration in R. cbn [Re.seq] in R.
  apply ReCaptures.Run_Cat_inv in R.
  destruct R as (g1 & w1 & c1 & -> & R1 & R).
  apply ReCaptures.Run_Grp_inv in R1. destruct R1 as (c0 & R1 & ->).
  apply ReCaptures.Run_Cat_inv in R1.
  destruct R1 as (d & nm & c2 & -> & Rd & Rn).
  apply ReCaptures.Run_lit in Rd. destruct Rd as [-> ->].
  apply ReCaptures.Run_plus_class in Rn. destruct Rn as (Hne & Hnm & ->).
  apply ReCaptures.Run_Cat_inv in R.
  destruct R as (s1 & w2 & c3 & -> & Rs1 & R).
  apply ReCaptures.Run_rep_class in Rs1. destruct Rs1 as [_ ->].
  apply ReCaptures.Run_Cat_inv in R.
  destruct R as (col & w3 & c4 & -> & Rc & R).
  apply ReCaptures.Run_chr_inv in Rc. destruct Rc as [-> ->].
  apply ReCaptures.Run_Cat_inv in R.
  destruct R as (s2 & val & c5 & -> & Rs2 & R).
  apply ReCaptures.Run_rep_class in Rs2. destruct Rs2 as [_ ->].
  apply ReCaptures.Run_Grp_inv in R. destruct R as (c6 & R & ->).
  apply ReCaptures.Run_plus_class in R. destruct R as (Hv & Hval & ->).
  exists nm, val, (s1 ++ [":"%char] ++ s2 ++ val).
  unfold Re.text, Re.group. rewrite G. cbn [Re.setNth nth].
  repeat split; assumption.
Qed.

Lemma extractCSSVariables_forall (css : str) :
  Forall (fun v =>
            (exists nm,
                CSSVariable.name v = js "--" ++ nm /\ nm <> []
                /\ forallb Re.wordDash nm = true
                /\ Substring (CSSVariable.name v) css)
            /\ forallb (Re.noneOf ";") (CSSVariable.rawValue v) = true)
         (extractCSSVariables css).
Proof.
  unfold extractCSSVariables. apply Forall_map.
  eapply Forall_impl; [|apply ReCaptures.execAll_run].
  intros m (pre & w & t & c' & Hsub & R & G). cbn beta.
  destruct (declaration_groups m pre w t c' R G)
    as (nm & val & rest_ & T1 & Hne & Hnm & T2 & Hv & Hval & Hw).
  cbn [CSSVariable.name CSSVariable.rawValue]. rewrite T1, T2.
  assert (Hns : forallb (fun c => negb (Str.isSpace c)) (js "--" ++ nm)
                = true).
  { apply forallb_forall. intros c [<-|[<-|Hc]]; [reflexivity..|].
    rewrite (wordDash_not_space c); [reflexivity|].
    now apply (proj1 (forallb_forall _ nm) Hnm). }
  rewrite (trim_none _ Hns). split.
  - exists nm. repeat split; try assumption.
    eapply Substring_trans; [|exact Hsub].
    exists [], rest_. now rewrite Hw.
  - apply replaceAllFrom_forallb; [reflexivity|].
    apply (forallb_Substring _ _ val); [apply trim_Substring|exact Hval].
Qed.

End Extraction.

(** X5.  Every declaration that [extractCSSVariables] returns has a name
    made of [--] and at least one letter, digit, underscore or dash, a name
    that is read as such in the text; its value has no semicolon. *)
Theorem extractCSSVariables_wellformed (css : str) (v : CSSVariable.t) :
  In v (extractCSSVariables css) ->
  (exists nm,
      CSSVariable.name v = js "--" ++ nm /\ nm <> []
      /\ forallb Re.wordDash nm = true
      /\ Substring (CSSVariable.name v) css)
  /\ forallb (Re.noneOf ";") (CSSVariable.rawValue v) = true.
Proof.
  intro H.
  exact (proj1 (Forall_forall _ _) (extractCSSVariables_forall css) v H).
Qed.

Lemma extractCSSVariables_wellformed_witness :
  forallb (Re.noneOf ";")
    (CSSVariable.rawValue (Sample.var "--font-sans" "Inter, sans-serif"))
  = true.
Proof.
  apply (extractCSSVariables_wellformed
           (js ".a { --font-sans: Inter,
  sans-serif; --x: 1 }")
           (Sample.var "--font-sans" "Inter, sans-serif")).
  vm_compute. now left.
Defined.

(* ===================================================================== *)
(** ** Texts without a block or without a declaration *)
(* ===================================================================== *)

Section NoBlock.

(** A match of a pattern that starts with a literal has the literal in the
    subject. *)
Lemma exec_literal (p : str) (r : Re.regex) (s : str) (m : Re.rmatched) :
  Re.exec (Re.Cat (Re.lit p) r) s = Some m -> Str.includes p s = true.
Proof.
  intro H. apply ReFacts.exec_sound in H.
  destruct H as (pre & w & post & L & ->).
  inversion L as [| |r1 r2 w1 w2 L1 L2| | | | | | |]; subst.
  apply ReFacts.Lang_lit in L1. subst w1.
  apply includes_Substring. exists pre, (w2 ++ post).
  now rewrite <- app_assoc.
Qed.

Lemma exec_without (p : str) (r : Re.regex) (s : str) :
  Str.includes p s = false -> Re.exec (Re.Cat (Re.lit p) r) s = None.
Proof.
  intro H. destruct (Re.exec _ s) as [m|] eqn:E; [|reflexivity].
  apply exec_literal in E. congruence.
Qed.

Lemma extract_without (css : str) :
  Str.includes (js "--") css = false -> extractCSSVariables css = [].
Proof.
  intro H. unfold extractCSSVariables.
  pose proof (ReCaptures.execAll_run ParserPattern.declaration css
                (S (length css)) 0) as HF.
  destruct (Re.execAll ParserPattern.declaration (S (length css)) 0 css)
    as [|m ms]; [reflexivity|].
  exfalso. inversion HF as [|? ? (pre & w & t & c' & Hsub & R & G) _]; subst.
  destruct (declaration_groups m pre w t c' R G)
    as (nm & val & rest_ & _ & _ & _ & _ & _ & _ & Hw).
  assert (Hin : Str.includes (js "--") css = true).
  { apply includes_Substring.
    eapply Substring_trans; [|exact Hsub].
    exists [], (nm ++ rest_). rewrite Hw. cbn [app].
    now rewrite <- app_assoc. }
  congruence.
Qed.

End NoBlock.

(** X6.  Texts that lack what is looked for give empty results, never an
    error: without [@theme] in the text [parseThemeBlock] returns no
    declaration; without [:root] the light map of [parseRootAndDark] is
    empty and without [.dark] its dark map is empty; without [--]
    [extractCSSVariables] returns no declaration. *)
Theorem missing_blocks_give_nothing (css : str) :
  (Str.includes (js "@theme") css = false -> parseThemeBlock css = [])
  /\ (Str.includes (js ":root") css = false ->
      light (parseRootAndDark css) = ∅)
  /\ (Str.includes (js ".dark") css = false ->
      dark (parseRootAndDark css) = ∅)
  /\ (Str.includes (js "--") css = false -> extractCSSVariables css = []).
Proof.
  repeat split; intro H.
  - unfold parseThemeBlock, ParserPattern.theme. cbn [Re.seq].
    now rewrite (exec_without (js "@theme") _ css H).
  - unfold parseRootAndDark, ParserPattern.root. cbn [Re.seq light].
    now rewrite (exec_without (js ":root") _ css H).
  - unfold parseRootAndDark, ParserPattern.darkBlock. cbn [Re.seq dark].
    now rewrite (exec_without (js ".dark") _ css H).
  - now apply extract_without.
Qed.

Lemma missing_blocks_give_nothing_witness :
  parseThemeBlock (js ".a { color: red }") = []
  /\ light (parseRootAndDark (js ".dark { --bg: #000 }")) = ∅
  /\ dark (parseRootAndDark (js ":root { --bg: #fff }")) = ∅
  /\ extractCSSVariables (js ".a { color: red }") = [].
Proof.
  split; [|split; [|split]].
  - apply (proj1 (missing_blocks_give_nothing (js ".a { color: red }"))).
    reflexivity.
  - apply (proj1 (proj2 (missing_blocks_give_nothing
                           (js ".dark { --bg: #000 }")))).
    reflexivity.
  - apply (proj1 (proj2 (proj2 (missing_blocks_give_nothing
                                  (js ":root { --bg: #fff }"))))).
    reflexivity.
  - apply (proj2 (proj2 (proj2 (missing_blocks_give_nothing
                                  (js ".a { color: red }"))))).
    reflexivity.
Defined.

(* ===================================================================== *)
(** ** Variables that no rule takes *)
(* ===================================================================== *)

Section Ignored.
Variables (cosf sinf : float -> float) (powf : float -> float -> float).
#[local] Existing Instance hostNum.

Lemma startsWith_prefix (p q t : str) :
  Str.startsWith p q = true -> Str.startsWith p (q ++ t) = true.
Proof.
  intro H. destruct (startsWith_split p q H) as [u ->].
  rewrite <- app_assoc. apply startsWith_app.
Qed.

(** Two strings none of which starts with the other stay apart whatever
    follows. *)
Lemma startsWith_apart (p q : str) :
  Str.startsWith p q = false -> Str.startsWith q p = false ->
  forall t, Str.startsWith p (q ++ t) = false.
Proof.
  revert q. induction p as [|a p IH]; intros q Hpq Hqp t; [discriminate|].
  destruct q as [|b q]; [discriminate|].
  cbn [app Str.startsWith] in *.
  destruct (Ascii.eqb a b) eqn:E; [|reflexivity].
  rewrite Ascii.eqb_sym in Hqp. rewrite E in Hqp. cbn [andb] in *.
  now apply IH.
Qed.

Lemma categorizeAll_drop (vars pre post : list CSSVariable.t)
    (v : CSSVariable.t) :
  (forall state, categorize cosf sinf powf vars state v = Ok state) ->
  forall state,
    categorizeAll cosf sinf powf vars (pre ++ v :: post) state
    = categorizeAll cosf sinf powf vars (pre ++ post) state.
Proof.
  intro Hv. induction pre as [|w pre IH]; intro result.
  - cbn [app categorizeAll]. now rewrite Hv.
  - cbn [app categorizeAll]. unfold bind.
    destruct (categorize cosf sinf powf vars result w);
      [apply IH|reflexivity].
Qed.

Lemma categorizeAll_swap (vars pre post : list CSSVariable.t)
    (v1 v2 : CSSVariable.t) :
  (forall result,
      categorize cosf sinf powf vars result v1
      = categorize cosf sinf powf vars result v2) ->
  forall result,
    categorizeAll cosf sinf powf vars (pre ++ v1 :: post) result
    = categorizeAll cosf sinf powf vars (pre ++ v2 :: post) result.
Proof.
  intro Hv. induction pre as [|w pre IH]; intro result.
  - cbn [app categorizeAll]. now rewrite Hv.
  - cbn [app categorizeAll]. unfold bind.
    destruct (categorize cosf sinf powf vars result w);
      [apply IH|reflexivity].
Qed.

(** A variable whose bare name does not start with [text-] is the modifier
    of no text size. *)
Lemma not_text_not_sibling (v : CSSVariable.t) (name suffix : str) :
  Str.startsWith (js "text-")
    (Re.replace ParserPattern.dashes [] (CSSVariable.name v)) = false ->
  Str.startsWith (js "text-") name = true ->
  Str.eqb (CSSVariable.name v) (js "--" ++ name ++ suffix) = false.
Proof.
  intros Hc Ht. apply Str_eqb_neq. intro Heq.
  destruct (startsWith_split _ _ Ht) as [t ->].
  rewrite Heq in Hc. cbn [js String.list_ascii_of_string app] in Hc.
  rewrite strip_dashes in Hc. discriminate Hc.
Qed.

Lemma sibling_drop (pre post : list CSSVariable.t) (v : CSSVariable.t)
    (name suffix : str) :
  Str.startsWith (js "text-")
    (Re.replace ParserPattern.dashes [] (CSSVariable.name v)) = false ->
  Str.startsWith (js "text-") name = true ->
  sibling (pre ++ v :: post) name suffix = sibling (pre ++ post) name suffix.
Proof.
  intros Hc Ht. unfold sibling. rewrite !find_app. cbn [List.find].
  now rewrite (not_text_not_sibling v name suffix Hc Ht).
Qed.

Lemma sibling_swap (pre post : list CSSVariable.t) (v1 v2 : CSSVariable.t)
    (name suffix : str) :
  Str.startsWith (js "text-")
    (Re.replace ParserPattern.dashes [] (CSSVariable.name v1)) = false ->
  Str.startsWith (js "text-")
    (Re.replace ParserPattern.dashes [] (CSSVariable.name v2)) = false ->
  Str.startsWith (js "text-") name = true ->
  sibling (pre ++ v1 :: post) name suffix
  = sibling (pre ++ v2 :: post) name suffix.
Proof.
  intros H1 H2 Ht.
  now rewrite (sibling_drop pre post v1), (sibling_drop pre post v2).
Qed.

Lemma categorizeTokens_drop (pre post : list CSSVariable.t)
    (v : CSSVariable.t) :
  (forall vars state, categorize cosf sinf powf vars state v = Ok state) ->
  Str.startsWith (js "text-")
    (Re.replace ParserPattern.dashes [] (CSSVariable.name v)) = false ->
  categorizeTokens cosf sinf powf (pre ++ v :: post)
  = categorizeTokens cosf sinf powf (pre ++ post).
Proof.
  intros Hv Ht. unfold categorizeTokens.
  rewrite (categorizeAll_drop _ pre post v (Hv _)).
  rewrite (categorizeAll_ext cosf sinf powf (pre ++ v :: post) (pre ++ post));
    [reflexivity|].
  intros name suffix Hn. now apply sibling_drop.
Qed.

Lemma categorize_unknown (vars : list CSSVariable.t)
    (state : ParsedTokenSet * Hoisted.t) (v : CSSVariable.t) :
  existsb (fun p =>
             Str.startsWith p
               (Re.replace ParserPattern.dashes [] (CSSVariable.name v)))
          tokenPrefixes = false ->
  Re.replace ParserPattern.dashes [] (CSSVariable.name v) <> js "spacing" ->
  categorize cosf sinf powf vars state v = Ok state.
Proof.
  intros H Hs. destruct state as [result h]. apply Str_eqb_neq in Hs.
  unfold tokenPrefixes in H. cbn [map existsb] in H.
  repeat match type of H with
         | (_ || _)%bool = false =>
             let E := fresh "E" in
             apply orb_false_elim in H; destruct H as [E H]
         end.
  unfold categorize.
  repeat match goal with
         | E : ?c = false |- context [?c] => rewrite E
         end.
  reflexivity.
Qed.

Lemma categorize_shadow_inner (vars : list CSSVariable.t)
    (state : ParsedTokenSet * Hoisted.t) (v : CSSVariable.t) :
  Str.startsWith (js "shadow-inner")
    (Re.replace ParserPattern.dashes [] (CSSVariable.name v)) = true ->
  categorize cosf sinf powf vars state v = Ok state.
Proof.
  intro H. destruct state as [result h]. unfold categorize. rewrite H.
  destruct (startsWith_split _ _ H) as [t ->].
  assert (Hs : Str.eqb (js "shadow-inner" ++ t) (js "spacing") = false)
    by (apply Str_eqb_neq; discriminate).
  rewrite Hs.
  rewrite (startsWith_prefix (js "shadow-") (js "shadow-inner") t)
    by reflexivity.
  rewrite !(fun p Hp Hq => startsWith_apart p (js "shadow-inner") Hp Hq t)
    by reflexivity.
  reflexivity.
Qed.

End Ignored.

(** X7.  A variable whose name, past the leading [--], is not [spacing] and
    starts with none of the prefixes the rules test, and likewise a variable
    [--shadow-inner...], which the shadow rule leaves out and no later rule
    takes, goes through the loop of [categorizeTokens] without any effect:
    the turn of the loop returns the token set it was given, and the result
    for a list is the result for the list without the variable. *)
Theorem unclassified_variables_are_ignored
    (cosf sinf : float -> float) (powf : float -> float -> float)
    (v : CSSVariable.t) :
  (existsb (fun p =>
              Str.startsWith p
                (Re.replace ParserPattern.dashes [] (CSSVariable.name v)))
           tokenPrefixes = false
   /\ Re.replace ParserPattern.dashes [] (CSSVariable.name v)
      <> js "spacing")
  \/ Str.startsWith (js "shadow-inner")
       (Re.replace ParserPattern.dashes [] (CSSVariable.name v)) = true ->
  (forall vars state, categorize cosf sinf powf vars state v = Ok state)
  /\ (forall pre post,
         categorizeTokens cosf sinf powf (pre ++ v :: post)
         = categorizeTokens cosf sinf powf (pre ++ post)).
Proof.
  intro H.
  assert (Hv : forall vars state,
             categorize cosf sinf powf vars state v = Ok state).
  { intros vars state. destruct H as [[H Hs]|H].
    - now apply categorize_unknown.
    - now apply categorize_shadow_inner. }
  split; [exact Hv|]. intros pre post.
  apply categorizeTokens_drop; [exact Hv|].
  destruct H as [[H _]|H].
  - destruct (Str.startsWith (js "text-") _) eqn:E; [|reflexivity].
    assert (Hex : existsb
                    (fun p =>
                       Str.startsWith p
                         (Re.replace ParserPattern.dashes []
                            (CSSVariable.name v)))
                    tokenPrefixes = true).
    { apply existsb_exists. exists (js "text-"). split; [|exact E].
      unfold tokenPrefixes. cbn [map In]. tauto. }
    congruence.
  - destruct (startsWith_split _ _ H) as [t ->].
    now apply startsWith_apart.
Qed.

Lemma unclassified_variables_are_ignored_witness :
  categorizeTokens Sample.unary Sample.unary Sample.binary
    ([Sample.var "--radius-sm" "4px"]
     ++ Sample.var "--ease-in" "cubic-bezier(0.4, 0, 1, 1)"
     :: [Sample.var "--color-red-500" "#f00"])
  = categorizeTokens Sample.unary Sample.unary Sample.binary
      ([Sample.var "--radius-sm" "4px"]
       ++ [Sample.var "--color-red-500" "#f00"])
  /\ categorizeTokens Sample.unary Sample.unary Sample.binary
       ([] ++ Sample.var "--shadow-inner" "inset 0 2px 4px rgb(0 0 0 / 0.05)"
        :: [])
     = categorizeTokens Sample.unary Sample.unary Sample.binary ([] ++ []).
Proof.
  split.
  - apply (proj2 (unclassified_variables_are_ignored
                    Sample.unary Sample.unary Sample.binary
                    (Sample.var "--ease-in" "cubic-bezier(0.4, 0, 1, 1)")
                    ltac:(left; split; [reflexivity|discriminate]))).
  - apply (proj2 (unclassified_variables_are_ignored
                    Sample.unary Sample.unary Sample.binary
                    (Sample.var "--shadow-inner"
                       "inset 0 2px 4px rgb(0 0 0 / 0.05)")
                    ltac:(right; reflexivity))).
Defined.

Section ShadowNames.
Variables (cosf sinf : float -> float) (powf : float -> float -> float).
#[local] Existing Instance hostNum.

Lemma replace_prefix (p t : str) : Str.replace p [] (p ++ t) = t.
Proof.
  destruct p as [|a p]; [now destruct t|].
  change ((a :: p) ++ t) with (a :: (p ++ t)). cbn [Str.replace].
  change (a :: (p ++ t)) with ((a :: p) ++ t) at 1.
  rewrite startsWith_app. cbn [app length skipn].
  now rewrite skipn_app, skipn_all, Nat.sub_diag.
Qed.

Lemma categorize_shadow (vars : list CSSVariable.t)
    (result : ParsedTokenSet) (h : Hoisted.t) (x raw : str) :
  Str.startsWith (js "inner") x = false ->
  categorize cosf sinf powf vars (result, h)
    (CSSVariable.make (js "--shadow-" ++ x) raw)
  = try! result' :=
      pushShadow cosf sinf powf (js "drop-shadow/" ++ x)
        (CSSVariable.make (js "--shadow-" ++ x) raw) result in
    Ok (result', h).
Proof.
  intro Hx. unfold categorize. cbn [CSSVariable.name CSSVariable.rawValue].
  change (js "--shadow-" ++ x)
    with ("-"%char :: "-"%char :: js "shadow-" ++ x).
  rewrite strip_dashes.
  assert (Hs : Str.eqb (js "shadow-" ++ x) (js "spacing") = false)
    by (apply Str_eqb_neq; discriminate).
  rewrite Hs, startsWith_app.
  assert (Hi : Str.startsWith (js "shadow-inner") (js "shadow-" ++ x)
               = false) by exact Hx.
  rewrite Hi.
  rewrite !(fun p Hp Hq => startsWith_apart p (js "shadow-") Hp Hq x)
    by reflexivity.
  cbn [andb negb]. now rewrite replace_prefix.
Qed.

Lemma categorize_drop_shadow (vars : list CSSVariable.t)
    (result : ParsedTokenSet) (h : Hoisted.t) (x raw : str) :
  categorize cosf sinf powf vars (result, h)
    (CSSVariable.make (js "--drop-shadow-" ++ x) raw)
  = try! result' :=
      pushShadow cosf sinf powf (js "drop-shadow/" ++ x)
        (CSSVariable.make (js "--drop-shadow-" ++ x) raw) result in
    Ok (result', h).
Proof.
  unfold categorize. cbn [CSSVariable.name CSSVariable.rawValue].
  change (js "--drop-shadow-" ++ x)
    with ("-"%char :: "-"%char :: js "drop-shadow-" ++ x).
  rewrite strip_dashes.
  assert (Hs : Str.eqb (js "drop-shadow-" ++ x) (js "spacing") = false)
    by (apply Str_eqb_neq; discriminate).
  rewrite Hs, startsWith_app.
  rewrite !(fun p Hp Hq => startsWith_apart p (js "drop-shadow-") Hp Hq x)
    by reflexivity.
  cbn [andb negb orb]. now rewrite replace_prefix.
Qed.

End ShadowNames.

(** X8.  The rule of [--shadow-*] and the rule of [--drop-shadow-*] file
    their tokens under the same name [drop-shadow/<rest>]: for a rest that
    does not start with [inner], a variable [--shadow-<rest>] and a variable
    [--drop-shadow-<rest>] with the same value have the same effect on the
    token set, in one turn of the loop and in the whole result, and the
    token that is added, when the value has a layer, is named
    [drop-shadow/<rest>]. *)
Theorem shadow_rules_merge
    (cosf sinf : float -> float) (powf : float -> float -> float)
    (x raw : str) :
  Str.startsWith (js "inner") x = false ->
  (forall vars state,
      categorize cosf sinf powf vars state
        (CSSVariable.make (js "--shadow-" ++ x) raw)
      = categorize cosf sinf powf vars state
          (CSSVariable.make (js "--drop-shadow-" ++ x) raw))
  /\ (forall pre post,
         categorizeTokens cosf sinf powf
           (pre ++ CSSVariable.make (js "--shadow-" ++ x) raw :: post)
         = categorizeTokens cosf sinf powf
             (pre ++ CSSVariable.make (js "--drop-shadow-" ++ x) raw :: post))
  /\ (forall vars result hoisted,
         exists layers,
           parseShadowValue cosf sinf powf raw = Ok layers
           /\ categorize cosf sinf powf vars (result, hoisted)
                (CSSVariable.make (js "--shadow-" ++ x) raw)
              = Ok (match layers with
                    | [] => result
                    | _ :: _ =>
                        Push.shadows
                          (ParsedShadow.make (js "drop-shadow/" ++ x) layers
                             raw) result
                    end, hoisted)).
Proof.
  intro Hx.
  assert (Hsame : forall vars state,
             categorize cosf sinf powf vars state
               (CSSVariable.make (js "--shadow-" ++ x) raw)
             = categorize cosf sinf powf vars state
                 (CSSVariable.make (js "--drop-shadow-" ++ x) raw)).
  { intros vars [result h].
    now rewrite categorize_shadow, categorize_drop_shadow. }
  split; [exact Hsame|]. split.
  - intros pre post. unfold categorizeTokens.
    rewrite (categorizeAll_swap cosf sinf powf _ pre post _ _ (Hsame _)).
    rewrite (categorizeAll_ext cosf sinf powf
               (pre ++ CSSVariable.make (js "--shadow-" ++ x) raw :: post)
               (pre ++ CSSVariable.make (js "--drop-shadow-" ++ x) raw
                :: post)); [reflexivity|].
    intros name suffix Hn. apply sibling_swap; [| |exact Hn];
      cbn [CSSVariable.name].
    + change (js "--shadow-" ++ x)
        with ("-"%char :: "-"%char :: js "shadow-" ++ x).
      rewrite strip_dashes. now apply startsWith_apart.
    + change (js "--drop-shadow-" ++ x)
        with ("-"%char :: "-"%char :: js "drop-shadow-" ++ x).
      rewrite strip_dashes. now apply startsWith_apart.
  - intros vars result h. rewrite categorize_shadow by exact Hx.
    unfold pushShadow. cbn [CSSVariable.rawValue].
    destruct (parseShadowValue_total cosf sinf powf raw)
      as (layers & -> & _).
    exists layers. split; [reflexivity|]. unfold bind.
    now destruct layers.
Qed.

Lemma shadow_rules_merge_witness :
  categorizeTokens Sample.unary Sample.unary Sample.binary
    ([] ++ CSSVariable.make (js "--shadow-" ++ js "sm")
             (js "0 1px 2px rgb(0 0 0 / 0.05)") :: [])
  = categorizeTokens Sample.unary Sample.unary Sample.binary
      ([] ++ CSSVariable.make (js "--drop-shadow-" ++ js "sm")
               (js "0 1px 2px rgb(0 0 0 / 0.05)") :: []).
Proof.
  apply (proj1 (proj2 (shadow_rules_merge
                         Sample.unary Sample.unary Sample.binary
                         (js "sm") (js "0 1px 2px rgb(0 0 0 / 0.05)")
                         ltac:(reflexivity)))).
Defined.

(* ===================================================================== *)
(** ** The defaults of the Tailwind adapter *)
(* ===================================================================== *)

Module TailwindFacts.
Import Tailwind.

Section Injection.
Variable get : ParsedTokenSet -> list ParsedFloat.t.
Variable push : ParsedFloat.t -> ParsedTokenSet -> ParsedTokenSet.
Hypothesis get_push : forall x s, get (push x s) = get s ++ [x].

Lemma injectValue_grows (suffix : str) (s : ParsedTokenSet) (w : float) :
  exists more, get (injectValue get push suffix s w) = get s ++ more.
Proof.
  unfold injectValue. destruct (existsb _ (get s)).
  - exists []. now rewrite app_nil_r.
  - eexists. apply get_push.
Qed.

Lemma injectValue_has (suffix : str) (s : ParsedTokenSet) (w : float) :
  PrimFloat.eqb w w = true ->
  existsb (fun b => PrimFloat.eqb (ParsedFloat.value b) w)
    (get (injectValue get push suffix s w)) = true.
Proof.
  intro Hw. unfold injectValue.
  destruct (existsb _ (get s)) eqn:E; [exact E|].
  rewrite get_push, existsb_app. cbn. now rewrite Hw, orb_true_r.
Qed.

Lemma injectValues_grow (suffix : str) (ws : list float) :
  forall s,
    exists more,
      get (fold_left (injectValue get push suffix) ws s) = get s ++ more.
Proof.
  induction ws as [|w ws IH]; intro s; cbn [fold_left].
  - exists []. now rewrite app_nil_r.
  - destruct (IH (injectValue get push suffix s w)) as (m2 & ->).
    destruct (injectValue_grows suffix s w) as (m1 & ->).
    exists (m1 ++ m2). now rewrite app_assoc.
Qed.

Lemma injectValues_have (suffix : str) (ws : list float) :
  forall s w,
    In w ws -> PrimFloat.eqb w w = true ->
    existsb (fun b => PrimFloat.eqb (ParsedFloat.value b) w)
      (get (fold_left (injectValue get push suffix) ws s)) = true.
Proof.
  induction ws as [|w' ws IH]; intros s w Hin Hw; [contradiction|].
  cbn [fold_left]. destruct Hin as [->|Hin].
  - destruct (injectValues_grow suffix ws (injectValue get push suffix s w))
      as (more & ->).
    now rewrite existsb_app, injectValue_has.
  - now apply IH.
Qed.

Lemma injectNamed_grows (s : ParsedTokenSet) (entry : str * float) :
  exists more, get (injectNamed get push s entry) = get s ++ more.
Proof.
  unfold injectNamed. destruct entry as [key val].
  destruct (existsb _ (get s)).
  - exists []. now rewrite app_nil_r.
  - eexists. apply get_push.
Qed.

Lemma injectNamed_has (s : ParsedTokenSet) (key : str) (val : float) :
  existsb (fun t => headIs key (ParsedFloat.path t))
    (get (injectNamed get push s (key, val))) = true.
Proof.
  unfold injectNamed.
  destruct (existsb _ (get s)) eqn:E; [exact E|].
  rewrite get_push, existsb_app. cbn [existsb ParsedFloat.path headIs].
  assert (Hk : Str.eqb key key = true) by now apply Str_eqb_eq.
  now rewrite Hk, orb_true_r.
Qed.

Lemma injectAllNamed_grow (entries : list (str * float)) :
  forall s,
    exists more,
      get (fold_left (injectNamed get push) entries s) = get s ++ more.
Proof.
  induction entries as [|e entries IH]; intro s; cbn [fold_left].
  - exists []. now rewrite app_nil_r.
  - destruct (IH (injectNamed get push s e)) as (m2 & ->).
    destruct (injectNamed_grows s e) as (m1 & ->).
    exists (m1 ++ m2). now rewrite app_assoc.
Qed.

Lemma injectAllNamed_have (entries : list (str * float)) :
  forall s key val,
    In (key, val) entries ->
    existsb (fun t => headIs key (ParsedFloat.path t))
      (get (fold_left (injectNamed get push) entries s)) = true.
Proof.
  induction entries as [|e entries IH]; intros s key val Hin;
    [contradiction|].
  cbn [fold_left]. destruct Hin as [->|Hin].
  - destruct (injectAllNamed_grow entries (injectNamed get push s (key, val)))
      as (more & ->).
    now rewrite existsb_app, injectNamed_has.
  - now apply (IH _ key val).
Qed.

(** What the injections leave alone. *)
Variable A : Type.
Variable other : ParsedTokenSet -> A.
Hypothesis other_push : forall x s, other (push x s) = other s.

Lemma injectValues_frame (suffix : str) (ws : list float) :
  forall s, other (fold_left (injectValue get push suffix) ws s) = other s.
Proof.
  induction ws as [|w ws IH]; intro s; cbn [fold_left]; [reflexivity|].
  rewrite IH. unfold injectValue.
  destruct (existsb _ (get s)); [reflexivity|apply other_push].
Qed.

Lemma injectAllNamed_frame (entries : list (str * float)) :
  forall s, other (fold_left (injectNamed get push) entries s) = other s.
Proof.
  induction entries as [|[key val] entries IH]; intro s; cbn [fold_left];
    [reflexivity|].
  rewrite IH. unfold injectNamed.
  destruct (existsb _ (get s)); [reflexivity|apply other_push].
Qed.

End Injection.

(** Each step and the projections. *)
Ltac fields :=
  intros;
  repeat match goal with s : ParsedTokenSet |- _ => destruct s end;
  reflexivity.

Lemma injectOpacity_frame {A} (f : ParsedTokenSet -> A) (s : ParsedTokenSet) :
  (forall xs s, f (setOpacity xs s) = f s) -> f (injectOpacity s) = f s.
Proof.
  intro H. unfold injectOpacity. now destruct (Nat.ltb _ 101).
Qed.

Lemma mapZinc_frame {A} (f : ParsedTokenSet -> A) (s : ParsedTokenSet) :
  (forall xs s, f (setColors xs s) = f s) -> f (mapZincToNeutral s) = f s.
Proof.
  intro H. unfold mapZincToNeutral. now destruct (Nat.ltb 0 _).
Qed.

Lemma injectBase_frame {A} (f : ParsedTokenSet -> A) (s : ParsedTokenSet) :
  (forall x s, f (Push.colors x s) = f s) -> f (injectBaseColors s) = f s.
Proof.
  intro H. unfold injectBaseColors. destruct (existsb _ _); [reflexivity|].
  now rewrite !H.
Qed.

(** Peels off the steps that leave the projection [f] alone. *)
Ltac frame f :=
  unfold injectDefaults, injectTracking, injectFontWeights, injectSkews,
    injectBorders;
  repeat first
    [ rewrite (injectBase_frame f) by fields
    | rewrite (mapZinc_frame f) by fields
    | rewrite (injectOpacity_frame f) by fields
    | rewrite (injectAllNamed_frame tracking Push.tracking _ f) by fields
    | rewrite (injectAllNamed_frame fontWeights Push.fontWeights _ f)
        by fields
    | rewrite (injectValues_frame skew Push.skew _ f) by fields
    | rewrite (injectValues_frame borderWidth Push.borderWidth _ f)
        by fields ].

(** The families the adapter does not touch. *)
Lemma injectDefaults_untouched (s : ParsedTokenSet) :
  spacing (injectDefaults s) = spacing s
  /\ radius (injectDefaults s) = radius s
  /\ shadows (injectDefaults s) = shadows s
  /\ blur (injectDefaults s) = blur s
  /\ backdropBlur (injectDefaults s) = backdropBlur s
  /\ typography (injectDefaults s) = typography s
  /\ fonts (injectDefaults s) = fonts s
  /\ breakpoints (injectDefaults s) = breakpoints s
  /\ containers (injectDefaults s) = containers s
  /\ leading (injectDefaults s) = leading s
  /\ maxWidth (injectDefaults s) = maxWidth s.
Proof.
  repeat split;
    match goal with |- ?f (injectDefaults s) = _ => frame f end;
    reflexivity.
Qed.

Lemma injectDefaults_opacity (s : ParsedTokenSet) :
  opacity (injectDefaults s)
  = if Nat.ltb (length (opacity s)) 101 then opacityDefaults else opacity s.
Proof.
  frame opacity. unfold injectOpacity.
  destruct (Nat.ltb (length (opacity s)) 101); [|reflexivity].
  now destruct s.
Qed.

Lemma injectDefaults_borderWidth (s : ParsedTokenSet) :
  (exists more, borderWidth (injectDefaults s) = borderWidth s ++ more)
  /\ forall w, In w borders ->
       existsb (fun b => PrimFloat.eqb (ParsedFloat.value b) w)
         (borderWidth (injectDefaults s)) = true.
Proof.
  frame borderWidth. split.
  - destruct (injectValues_grow borderWidth Push.borderWidth
                ltac:(fields) (js "px") borders (injectOpacity s))
      as (more & ->).
    exists more. f_equal. frame borderWidth. reflexivity.
  - intros w Hw. apply injectValues_have; [fields|exact Hw|].
    repeat (destruct Hw as [<-|Hw]; [reflexivity|]). contradiction.
Qed.

Lemma injectDefaults_skew (s : ParsedTokenSet) :
  (exists more, skew (injectDefaults s) = skew s ++ more)
  /\ forall w, In w skews ->
       existsb (fun b => PrimFloat.eqb (ParsedFloat.value b) w)
         (skew (injectDefaults s)) = true.
Proof.
  frame skew. split.
  - destruct (injectValues_grow skew Push.skew ltac:(fields) [] skews
                (fold_left
                   (injectValue borderWidth Push.borderWidth (js "px"))
                   borders (injectOpacity s)))
      as (more & ->).
    exists more. f_equal. frame skew. reflexivity.
  - intros w Hw. apply injectValues_have; [fields|exact Hw|].
    repeat (destruct Hw as [<-|Hw]; [reflexivity|]). contradiction.
Qed.

Lemma injectDefaults_fontWeights (s : ParsedTokenSet) :
  (exists more, fontWeights (injectDefaults s) = fontWeights s ++ more)
  /\ forall key val, In (key, val) weightMap ->
       existsb (fun t => headIs key (ParsedFloat.path t))
         (fontWeights (injectDefaults s)) = true.
Proof.
  frame fontWeights. split.
  - match goal with
    | |- context [fold_left (injectNamed fontWeights Push.fontWeights)
                    weightMap ?x] =>
        destruct (injectAllNamed_grow fontWeights Push.fontWeights
                    ltac:(fields) weightMap x) as (more & ->);
        exists more; f_equal
    end.
    frame fontWeights. reflexivity.
  - intros key val Hin.
    now apply (injectAllNamed_have fontWeights Push.fontWeights
                 ltac:(fields) weightMap _ key val).
Qed.

Lemma injectDefaults_tracking (s : ParsedTokenSet) :
  (exists more, tracking (injectDefaults s) = tracking s ++ more)
  /\ forall key val, In (key, val) trackingMap ->
       existsb (fun t => headIs key (ParsedFloat.path t))
         (tracking (injectDefaults s)) = true.
Proof.
  frame tracking. split.
  - match goal with
    | |- context [fold_left (injectNamed tracking Push.tracking)
                    trackingMap ?x] =>
        destruct (injectAllNamed_grow tracking Push.tracking
                    ltac:(fields) trackingMap x) as (more & ->);
        exists more; f_equal
    end.
    frame tracking. reflexivity.
  - intros key val Hin.
    now apply (injectAllNamed_have tracking Push.tracking
                 ltac:(fields) trackingMap _ key val).
Qed.

Lemma injectDefaults_base (s : ParsedTokenSet) :
  existsb (fun c => headIs (js "base") (ParsedColor.path c))
    (colors (injectDefaults s)) = true.
Proof.
  unfold injectDefaults.
  generalize (injectTracking
                (mapZincToNeutral
                   (injectFontWeights
                      (injectSkews (injectBorders (injectOpacity s)))))).
  intro t. unfold injectBaseColors.
  destruct (existsb _ (colors t)) eqn:E; [exact E|].
  destruct t. cbn [Push.colors colors]. rewrite !existsb_app.
  cbn. now rewrite !orb_true_r.
Qed.

Lemma headIs_apart (a b : str) (path : list str) :
  a <> b -> headIs a path = true -> headIs b path = false.
Proof.
  intros Hab. destruct path as [|p0 path]; [discriminate|]. cbn [headIs].
  intro H. apply Str_eqb_eq in H. subst p0. now apply Str_eqb_neq.
Qed.

Lemma filter_none {A} (f : A -> bool) (l : list A) :
  (forall x, In x l -> f x = false) -> List.filter f l = [].
Proof.
  induction l as [|x l IH]; intro H; [reflexivity|].
  cbn [List.filter]. rewrite (H x) by now left.
  apply IH. intros y Hy. apply H. now right.
Qed.

Lemma filter_all {A} (f : A -> bool) (l : list A) :
  (forall x, In x l -> f x = true) -> List.filter f l = l.
Proof.
  induction l as [|x l IH]; intro H; [reflexivity|].
  cbn [List.filter]. rewrite (H x) by now left.
  f_equal. apply IH. intros y Hy. apply H. now right.
Qed.

Lemma filter_filter_implied {A} (f g : A -> bool) (l : list A) :
  (forall x, f x = true -> g x = true) ->
  List.filter f (List.filter g l) = List.filter f l.
Proof.
  intro H. induction l as [|x l IH]; [reflexivity|].
  cbn [List.filter]. destruct (g x) eqn:Eg; cbn [List.filter].
  - now rewrite IH.
  - destruct (f x) eqn:Ef; [|exact IH].
    apply H in Ef. congruence.
Qed.

(** The colours once the adapter is done. *)
Lemma injectDefaults_colors (s : ParsedTokenSet) :
  exists base,
    (base = []
     \/ base = [ParsedColor.make [js "base"; js "white"]
                  (RGBA 1 1 1 1)%float (js "#FFFFFF");
                ParsedColor.make [js "base"; js "black"]
                  (RGBA 0 0 0 1)%float (js "#000000")])
    /\ colors (injectDefaults s)
       = (if Nat.ltb 0
               (length
                  (List.filter
                     (fun c => headIs (js "neutral") (ParsedColor.path c))
                     (colors s)))
          then
            List.filter
              (fun c => negb (headIs (js "zinc") (ParsedColor.path c)))
              (colors s)
            ++ map asZinc
                 (List.filter
                    (fun c => headIs (js "neutral") (ParsedColor.path c))
                    (colors s))
          else colors s)
         ++ base.
Proof.
  unfold injectDefaults.
  set (v := injectFontWeights (injectSkews (injectBorders (injectOpacity s)))).
  assert (Hv : colors v = colors s) by (subst v; frame colors; reflexivity).
  assert (Ht : colors (injectTracking (mapZincToNeutral v))
               = colors (mapZincToNeutral v))
    by (frame colors; reflexivity).
  assert (Hz : colors (mapZincToNeutral v)
               = if Nat.ltb 0
                      (length
                         (List.filter
                            (fun c =>
                               headIs (js "neutral") (ParsedColor.path c))
                            (colors v)))
                 then
                   List.filter
                     (fun c =>
                        negb (headIs (js "zinc") (ParsedColor.path c)))
                     (colors v)
                   ++ map asZinc
                        (List.filter
                           (fun c =>
                              headIs (js "neutral") (ParsedColor.path c))
                           (colors v))
                 else colors v).
  { unfold mapZincToNeutral. destruct (Nat.ltb 0 _); [|reflexivity].
    now destruct v. }
  rewrite Hv in Hz. rewrite <- Hz, <- Ht.
  generalize (injectTracking (mapZincToNeutral v)). intro t.
  unfold injectBaseColors. destruct (existsb _ (colors t)).
  - exists []. split; [now left|]. now rewrite app_nil_r.
  - eexists. split; [now right|]. destruct t. cbn [Push.colors colors].
    now rewrite <- app_assoc.
Qed.

End TailwindFacts.

Section AdapterFacts.
Variables (cosf sinf : float -> float) (powf : float -> float -> float).

Lemma fetchAndParse_inv (css : str) (ts : ParsedTokenSet) :
  Tailwind.fetchAndParse cosf sinf powf css = Ok ts ->
  exists parsed,
    categorizeTokens cosf sinf powf
      (if Nat.eqb (length (parseThemeBlock css)) 0
       then extractCSSVariables css else parseThemeBlock css) = Ok parsed
    /\ ts = Tailwind.injectDefaults parsed.
Proof.
  unfold Tailwind.fetchAndParse, bind.
  destruct (categorizeTokens cosf sinf powf _) as [parsed|e];
    [|discriminate].
  intro H. injection H as <-. now exists parsed.
Qed.

Lemma zinc_of_result (cs base : list ParsedColor.t) :
  base = []
  \/ base = [ParsedColor.make [js "base"; js "white"]
               (RGBA 1 1 1 1)%float (js "#FFFFFF");
             ParsedColor.make [js "base"; js "black"]
               (RGBA 0 0 0 1)%float (js "#000000")] ->
  List.filter (fun c => Tailwind.headIs (js "zinc") (ParsedColor.path c))
    (List.filter
       (fun c => negb (Tailwind.headIs (js "zinc") (ParsedColor.path c))) cs
     ++ map Tailwind.asZinc
          (List.filter
             (fun c => Tailwind.headIs (js "neutral") (ParsedColor.path c))
             cs)
     ++ base)
  = map Tailwind.asZinc
      (List.filter
         (fun c => Tailwind.headIs (js "neutral") (ParsedColor.path c)) cs).
Proof.
  intro Hb. rewrite !filter_app.
  rewrite TailwindFacts.filter_none.
  - rewrite TailwindFacts.filter_all.
    + destruct Hb as [-> | ->]; cbn; now rewrite app_nil_r.
    + intros x Hx. apply in_map_iff in Hx. destruct Hx as (nt & <- & _).
      reflexivity.
  - intros x Hx. apply filter_In in Hx. destruct Hx as [_ Hx].
    now destruct (Tailwind.headIs (js "zinc") (ParsedColor.path x)).
Qed.

Lemma neutral_of_result (cs base : list ParsedColor.t) :
  base = []
  \/ base = [ParsedColor.make [js "base"; js "white"]
               (RGBA 1 1 1 1)%float (js "#FFFFFF");
             ParsedColor.make [js "base"; js "black"]
               (RGBA 0 0 0 1)%float (js "#000000")] ->
  List.filter (fun c => Tailwind.headIs (js "neutral") (ParsedColor.path c))
    (List.filter
       (fun c => negb (Tailwind.headIs (js "zinc") (ParsedColor.path c))) cs
     ++ map Tailwind.asZinc
          (List.filter
             (fun c => Tailwind.headIs (js "neutral") (ParsedColor.path c))
             cs)
     ++ base)
  = List.filter
      (fun c => Tailwind.headIs (js "neutral") (ParsedColor.path c)) cs.
Proof.
  intro Hb. rewrite !filter_app.
  rewrite TailwindFacts.filter_filter_implied.
  - rewrite (TailwindFacts.filter_none _ (map Tailwind.asZinc _)).
    + destruct Hb as [-> | ->]; cbn; now rewrite app_nil_r.
    + intros x Hx. apply in_map_iff in Hx. destruct Hx as (nt & <- & _).
      reflexivity.
  - intros x Hx.
    rewrite (TailwindFacts.headIs_apart (js "neutral") (js "zinc") _
               ltac:(discriminate) Hx).
    reflexivity.
Qed.

End AdapterFacts.

(** X9.  Whatever the theme text, a token set that the Tailwind adapter
    returns has its defaults: at least 101 opacity entries, a border width
    equal to each of 0, 1, 2, 4 and 8, a skew equal to each of 0, 1, 2, 3, 6
    and 12, a font weight whose path starts with each of the nine weight
    names, a tracking entry whose path starts with each of the six tracking
    names, and a colour whose path starts with [base]. *)
Theorem tailwind_defaults_present
    (cosf sinf : float -> float) (powf : float -> float -> float)
    (css : str) (ts : ParsedTokenSet) :
  Tailwind.fetchAndParse cosf sinf powf css = Ok ts ->
  101 <= length (opacity ts)
  /\ (forall w, In w Tailwind.borders ->
        existsb (fun b => PrimFloat.eqb (ParsedFloat.value b) w)
          (borderWidth ts) = true)
  /\ (forall w, In w Tailwind.skews ->
        existsb (fun b => PrimFloat.eqb (ParsedFloat.value b) w)
          (skew ts) = true)
  /\ (forall key val, In (key, val) Tailwind.weightMap ->
        existsb (fun t => Tailwind.headIs key (ParsedFloat.path t))
          (fontWeights ts) = true)
  /\ (forall key val, In (key, val) Tailwind.trackingMap ->
        existsb (fun t => Tailwind.headIs key (ParsedFloat.path t))
          (tracking ts) = true)
  /\ existsb (fun c => Tailwind.headIs (js "base") (ParsedColor.path c))
       (colors ts) = true.
Proof.
  intro H. apply fetchAndParse_inv in H. destruct H as (parsed & _ & ->).
  split.
  { rewrite TailwindFacts.injectDefaults_opacity.
    destruct (Nat.ltb (length (opacity parsed)) 101) eqn:E.
    - vm_compute. lia.
    - apply Nat.ltb_ge in E. exact E. }
  split; [apply TailwindFacts.injectDefaults_borderWidth|].
  split; [apply TailwindFacts.injectDefaults_skew|].
  split; [apply TailwindFacts.injectDefaults_fontWeights|].
  split; [apply TailwindFacts.injectDefaults_tracking|].
  apply TailwindFacts.injectDefaults_base.
Qed.

Lemma tailwind_defaults_present_witness :
  exists ts,
    Tailwind.fetchAndParse Sample.unary Sample.unary Sample.binary
      (js ":root { --border-width-2: 2px; --opacity-50: 0.5; }") = Ok ts
    /\ 101 <= length (opacity ts)
    /\ existsb (fun b => PrimFloat.eqb (ParsedFloat.value b) 8)
         (borderWidth ts) = true.
Proof.
  eexists. split; [vm_compute; reflexivity|].
  pose proof (tailwind_defaults_present
                Sample.unary Sample.unary Sample.binary
                (js ":root { --border-width-2: 2px; --opacity-50: 0.5; }")
                _ ltac:(vm_compute; reflexivity)) as (H1 & H2 & _).
  split; [exact H1|]. apply H2. vm_compute. tauto.
Defined.

(** X10.  The adapter returns a token set exactly when [categorizeTokens]
    does on the declarations of the [@theme] block (on all the declarations
    of the text when the block has none), and raises exactly when it
    raises: when [categorizeTokens] returns [parsed] the adapter returns
    [injectDefaults(parsed)], and every token set the adapter returns is
    one of these.  Eleven families are returned as
    they were categorized; border widths, skews, font weights and tracking
    keep every categorized token, in order, before the defaults that are
    added; the opacity family is kept only if it has at least 101 entries,
    and is otherwise replaced by the entries 0, 1, ..., 100. *)
Theorem tailwind_keeps_parsed_tokens
    (cosf sinf : float -> float) (powf : float -> float -> float)
    (css : str) :
  let vars :=
    if Nat.eqb (length (parseThemeBlock css)) 0
    then extractCSSVariables css else parseThemeBlock css in
  (forall parsed,
      categorizeTokens cosf sinf powf vars = Ok parsed ->
      Tailwind.fetchAndParse cosf sinf powf css
      = Ok (Tailwind.injectDefaults parsed))
  /\ (forall e,
         Tailwind.fetchAndParse cosf sinf powf css = Throw e
         <-> categorizeTokens cosf sinf powf vars = Throw e)
  /\ (forall ts,
         Tailwind.fetchAndParse cosf sinf powf css = Ok ts ->
         exists parsed,
           categorizeTokens cosf sinf powf vars = Ok parsed
           /\ ts = Tailwind.injectDefaults parsed
           /\ (spacing ts = spacing parsed /\ radius ts = radius parsed
               /\ shadows ts = shadows parsed /\ blur ts = blur parsed
               /\ backdropBlur ts = backdropBlur parsed
               /\ typography ts = typography parsed
               /\ fonts ts = fonts parsed
               /\ breakpoints ts = breakpoints parsed
               /\ containers ts = containers parsed
               /\ leading ts = leading parsed
               /\ maxWidth ts = maxWidth parsed)
           /\ (exists more, borderWidth ts = borderWidth parsed ++ more)
           /\ (exists more, skew ts = skew parsed ++ more)
           /\ (exists more, fontWeights ts = fontWeights parsed ++ more)
           /\ (exists more, tracking ts = tracking parsed ++ more)
           /\ opacity ts
              = (if Nat.ltb (length (opacity parsed)) 101
                 then Tailwind.opacityDefaults else opacity parsed)
           /\ map ParsedFloat.path Tailwind.opacityDefaults
              = map (fun i =>
                       [F64.toString
                          (F64.ofDecimal (Dec false (Z.of_nat i) 0))])
                  (List.seq 0 101)
           /\ map ParsedFloat.value Tailwind.opacityDefaults
              = map (fun i => F64.ofDecimal (Dec false (Z.of_nat i) 0))
                  (List.seq 0 101)).
Proof.
  cbv zeta. split; [|split].
  - intros parsed H. unfold Tailwind.fetchAndParse, bind. now rewrite H.
  - intro e. unfold Tailwind.fetchAndParse, bind.
    destruct (categorizeTokens cosf sinf powf _) as [parsed|e'].
    + split; discriminate.
    + split; intro H; injection H as ->; reflexivity.
  - intros ts H. apply fetchAndParse_inv in H.
    destruct H as (parsed & Hp & ->).
    exists parsed. split; [exact Hp|]. split; [reflexivity|].
    split; [apply TailwindFacts.injectDefaults_untouched|].
    split; [apply TailwindFacts.injectDefaults_borderWidth|].
    split; [apply TailwindFacts.injectDefaults_skew|].
    split; [apply TailwindFacts.injectDefaults_fontWeights|].
    split; [apply TailwindFacts.injectDefaults_tracking|].
    split; [apply TailwindFacts.injectDefaults_opacity|].
    unfold Tailwind.opacityDefaults. rewrite !map_map. split; reflexivity.
Qed.

Lemma tailwind_keeps_parsed_tokens_witness :
  exists ts parsed,
    Tailwind.fetchAndParse Sample.unary Sample.unary Sample.binary
      (js ":root { --border-width-2: 2px; --opacity-50: 0.5; }") = Ok ts
    /\ categorizeTokens Sample.unary Sample.unary Sample.binary
         [Sample.var "--border-width-2" "2px";
          Sample.var "--opacity-50" "0.5"]
       = Ok parsed
    /\ ts = Tailwind.injectDefaults parsed
    /\ (exists more, borderWidth ts = borderWidth parsed ++ more)
    /\ length (opacity parsed) = 1 /\ length (opacity ts) = 101.
Proof.
  destruct (categorizeTokens Sample.unary Sample.unary Sample.binary
              [Sample.var "--border-width-2" "2px";
               Sample.var "--opacity-50" "0.5"])
    as [parsed0|e] eqn:E0; [|vm_compute in E0; discriminate E0].
  pose proof (tailwind_keeps_parsed_tokens
                Sample.unary Sample.unary Sample.binary
                (js ":root { --border-width-2: 2px; --opacity-50: 0.5; }"))
    as (Hto & _ & Hfrom).
  cbv zeta in Hto, Hfrom.
  pose proof (Hto parsed0 E0) as E.
  destruct (Hfrom _ E)
    as (parsed & Hp & Hts & _ & Hb & _ & _ & _ & Ho & _).
  exists (Tailwind.injectDefaults parsed0), parsed.
  split; [exact E|]. split; [rewrite <- E0; exact Hp|].
  split; [exact Hts|].
  split; [exact Hb|]. rewrite Ho.
  vm_compute in Hp. injection Hp as <-. split; reflexivity.
Defined.

(** X11.  When the categorized colours have a [neutral] palette, the [zinc]
    palette the adapter returns is that palette renamed: the colours whose
    path starts with [zinc] are exactly the [neutral] colours, in order,
    with [zinc] in place of the first path component and the same colour
    value and raw value; no categorized [zinc] colour is left, and the
    [neutral] colours stay as they were. *)
Theorem tailwind_zinc_is_neutral
    (cosf sinf : float -> float) (powf : float -> float -> float)
    (css : str) (ts parsed : ParsedTokenSet) :
  Tailwind.fetchAndParse cosf sinf powf css = Ok ts ->
  categorizeTokens cosf sinf powf
    (if Nat.eqb (length (parseThemeBlock css)) 0
     then extractCSSVariables css else parseThemeBlock css) = Ok parsed ->
  List.filter (fun c => Tailwind.headIs (js "neutral") (ParsedColor.path c))
    (colors parsed) <> [] ->
  List.filter (fun c => Tailwind.headIs (js "zinc") (ParsedColor.path c))
    (colors ts)
  = map (fun nt =>
           ParsedColor.make (js "zinc" :: skipn 1 (ParsedColor.path nt))
             (ParsedColor.figmaColor nt) (ParsedColor.rawValue nt))
      (List.filter
         (fun c => Tailwind.headIs (js "neutral") (ParsedColor.path c))
         (colors parsed))
  /\ List.filter
       (fun c => Tailwind.headIs (js "neutral") (ParsedColor.path c))
       (colors ts)
     = List.filter
         (fun c => Tailwind.headIs (js "neutral") (ParsedColor.path c))
         (colors parsed).
Proof.
  intros H Hp Hn. apply fetchAndParse_inv in H.
  destruct H as (parsed' & Hp' & ->).
  rewrite Hp in Hp'. injection Hp' as <-.
  destruct (TailwindFacts.injectDefaults_colors parsed) as (base & Hb & ->).
  destruct (List.filter _ (colors parsed)) as [|n ns] eqn:E;
    [contradiction|].
  cbn [length Nat.ltb Nat.leb]. rewrite <- E, <- app_assoc. split.
  - now apply zinc_of_result.
  - now apply neutral_of_result.
Qed.

Lemma tailwind_zinc_is_neutral_witness :
  exists ts,
    Tailwind.fetchAndParse Sample.unary Sample.unary Sample.binary
      (js ":root { --color-zinc-50: #eee; --color-neutral-50: #fafafa; }")
    = Ok ts
    /\ map ParsedColor.rawValue
         (List.filter
            (fun c => Tailwind.headIs (js "zinc") (ParsedColor.path c))
            (colors ts))
       = [js "#fafafa"].
Proof.
  eexists. split; [vm_compute; reflexivity|].
  rewrite (proj1 (tailwind_zinc_is_neutral
                    Sample.unary Sample.unary Sample.binary
                    (js ":root { --color-zinc-50: #eee; --color-neutral-50: #fafafa; }")
                    _ _ ltac:(vm_compute; reflexivity)
                    ltac:(vm_compute; reflexivity)
                    ltac:(vm_compute; discriminate))).
  vm_compute. reflexivity.
Defined.

(* ===================================================================== *)
(** ** Comparing colours *)
(* ===================================================================== *)

Module MatchFacts.

(** The sign given to the rounding only shows in the sign of the
    result. *)
Lemma binary_round_aux_abs (prec emax : Z) (sx sy : bool) (mx ex : Z)
    (lx : location) :
  SFabs (binary_round_aux prec emax sx mx ex lx)
  = SFabs (binary_round_aux prec emax sy mx ex lx).
Proof.
  unfold binary_round_aux.
  destruct (shr_fexp prec emax mx ex lx) as [mrs e'].
  destruct (shr_fexp prec emax _ e' loc_Exact) as [mrs' e''].
  destruct (shr_m mrs'); try reflexivity.
  now destruct (Z.leb e'' (emax - prec)).
Qed.

Lemma binary_round_abs (prec emax : Z) (sx sy : bool) (m : positive)
    (e : Z) :
  SFabs (binary_round prec emax sx m e)
  = SFabs (binary_round prec emax sy m e).
Proof.
  unfold binary_round. destruct (shl_align m e _) as [mz ez].
  apply binary_round_aux_abs.
Qed.

Lemma binary_normalize_opp (prec emax : Z) (m e : Z) (szero : bool) :
  SFabs (binary_normalize prec emax (- m) e szero)
  = SFabs (binary_normalize prec emax m e szero).
Proof.
  destruct m as [|p|p]; cbn [Z.opp binary_normalize]; [reflexivity| |];
    apply binary_round_abs.
Qed.

(** The distance of two numbers is the same both ways. *)
Lemma SFsub_abs_sym (prec emax : Z) (a b : spec_float) :
  SFabs (SFsub prec emax a b) = SFabs (SFsub prec emax b a).
Proof.
  destruct a as [sa|sa| |sa ma ea], b as [sb|sb| |sb mb eb];
    cbn [SFsub]; try reflexivity;
    try (destruct sa, sb; reflexivity).
  cbv zeta. rewrite (Z.min_comm eb ea).
  rewrite <- binary_normalize_opp. f_equal. f_equal. lia.
Qed.

Lemma abs_sub_sym (a b : float) :
  PrimFloat.abs (a - b) = PrimFloat.abs (b - a).
Proof.
  apply Prim2SF_inj. rewrite !abs_spec, !sub_spec.
  apply SFsub_abs_sym.
Qed.

Lemma nan_spec (a : float) :
  PrimFloat.is_nan a = true -> Prim2SF a = S754_nan.
Proof.
  unfold PrimFloat.is_nan. rewrite eqb_spec. unfold SFeqb.
  destruct (Prim2SF a) as [s|s| |s m e]; cbn [SFcompare];
    try (destruct s); try discriminate; try reflexivity;
    rewrite Z.compare_refl, ?Pos.compare_cont_refl; discriminate.
Qed.

Lemma nan_far (a b tol : float) :
  PrimFloat.is_nan a = true \/ PrimFloat.is_nan b = true ->
  PrimFloat.ltb (PrimFloat.abs (a - b)) tol = false.
Proof.
  intro H. rewrite ltb_spec, abs_spec, sub_spec.
  destruct H as [H|H]; apply nan_spec in H; rewrite H.
  - reflexivity.
  - now destruct (Prim2SF a).
Qed.

Lemma finite_spec (a : float) :
  PrimFloat.is_finite a = true ->
  (exists s, Prim2SF a = S754_zero s)
  \/ (exists s m e, Prim2SF a = S754_finite s m e).
Proof.
  unfold PrimFloat.is_finite, PrimFloat.is_nan, PrimFloat.is_infinity.
  rewrite !eqb_spec, abs_spec.
  change (Prim2SF infinity) with (S754_infinity false).
  destruct (Prim2SF a) as [s|s| |s m e]; intro H.
  - left. now exists s.
  - now destruct s.
  - discriminate H.
  - right. now exists s, m, e.
Qed.

Lemma finite_near (a tol : float) :
  PrimFloat.is_finite a = true -> PrimFloat.ltb 0 tol = true ->
  PrimFloat.ltb (PrimFloat.abs (a - a)) tol = true.
Proof.
  intros Ha Ht. rewrite ltb_spec in *. rewrite abs_spec, sub_spec.
  change (Prim2SF 0) with (S754_zero false) in Ht.
  destruct (finite_spec a Ha) as [(s & ->)|(s & m & e & ->)].
  - now destruct s.
  - unfold SF64sub. cbn [SFsub]. cbv zeta. rewrite Z.sub_diag.
    exact Ht.
Qed.

End MatchFacts.

(** X12.  [colorsMatch] does not depend on the order of the two colours;
    a colour matches itself for every positive tolerance when its four
    channels are finite; and two colours never match when a channel of one
    of them is NaN. *)
Theorem colorsMatch_symmetric
    (cosf sinf : float -> float) (powf : float -> float -> float) :
  (forall (x y : FigmaColor float) (tolerance : float),
      colorsMatch (N := hostNum cosf sinf powf) x y tolerance
      = colorsMatch (N := hostNum cosf sinf powf) y x tolerance)
  /\ (forall (c : FigmaColor float) (tolerance : float),
         PrimFloat.is_finite (red c) = true ->
         PrimFloat.is_finite (green c) = true ->
         PrimFloat.is_finite (blue c) = true ->
         PrimFloat.is_finite (alpha c) = true ->
         PrimFloat.ltb 0 tolerance = true ->
         colorsMatch (N := hostNum cosf sinf powf) c c tolerance = true)
  /\ (forall (x y : FigmaColor float) (tolerance : float),
         PrimFloat.is_nan (red x) = true \/ PrimFloat.is_nan (green x) = true
         \/ PrimFloat.is_nan (blue x) = true
         \/ PrimFloat.is_nan (alpha x) = true ->
         colorsMatch (N := hostNum cosf sinf powf) x y tolerance = false
         /\ colorsMatch (N := hostNum cosf sinf powf) y x tolerance = false).
Proof.
  split; [|split].
  - intros x y tol. unfold colorsMatch.
    cbn [lt sub Math_abs hostNum floatNum].
    now rewrite (MatchFacts.abs_sub_sym (red x)),
      (MatchFacts.abs_sub_sym (green x)), (MatchFacts.abs_sub_sym (blue x)),
      (MatchFacts.abs_sub_sym (alpha x)).
  - intros c tol Hr Hg Hb Ha Ht. unfold colorsMatch.
    cbn [lt sub Math_abs hostNum floatNum].
    now rewrite !MatchFacts.finite_near.
  - intros x y tol H. unfold colorsMatch.
    cbn [lt sub Math_abs hostNum floatNum].
    destruct H as [H|[H|[H|H]]]; split;
      first [ rewrite (MatchFacts.nan_far _ _ tol (or_introl H))
            | rewrite (MatchFacts.nan_far _ _ tol (or_intror H)) ];
      rewrite ?andb_false_r; reflexivity.
Qed.

Lemma colorsMatch_symmetric_witness :
  colorsMatch (N := hostNum Sample.unary Sample.unary Sample.binary)
    (RGBA 1 0 0 1)%float (RGBA 1 0 0 1)%float (F64.ofDecimal 0.005) = true
  /\ colorsMatch (N := hostNum Sample.unary Sample.unary Sample.binary)
       (RGBA nan 0 0 1)%float (RGBA nan 0 0 1)%float (F64.ofDecimal 0.005)
     = false.
Proof.
  pose proof (colorsMatch_symmetric Sample.unary Sample.unary Sample.binary)
    as (_ & H2 & H3).
  split.
  - apply H2; reflexivity.
  - apply (H3 (RGBA nan 0 0 1)%float (RGBA nan 0 0 1)%float). now left.
Defined.

(* ===================================================================== *)
(** ** Hexadecimal colours read back *)
(* ===================================================================== *)

Section HexRoundTrip.
Context {num : Type} (N : JsNum num).

Lemma parseInt16_hexByte (n : nat) :
  n < 256 ->
  parseInt16 (N := N) (hexByte n) = lit (Dec false (Z.of_nat n) 0).
Proof.
  intro H.
  do 256 (destruct n as [|n]; [reflexivity|]).
  lia.
Qed.

End HexRoundTrip.

(** X13.  Hexadecimal colours are read back: for all bytes [r], [g], [b]
    and [a] (numbers below 256), [#rrggbb] written with two lower-case
    hexadecimal digits per byte gives the channels [r / 255], [g / 255],
    [b / 255] and alpha 1, and [#rrggbbaa] gives alpha [a / 255]; the
    short forms [#xyz] and [#xyzw] are read as [#xxyyzz] and [#xxyyzzww],
    whatever the characters.  This holds in every number model. *)
Theorem hexToRgba_round_trip {num : Type} (N : JsNum num) :
  (forall r g b : nat,
      r < 256 -> g < 256 -> b < 256 ->
      hexToRgba (N := N) (js "#" ++ hexByte r ++ hexByte g ++ hexByte b)
      = RGBA (div (lit (Dec false (Z.of_nat r) 0)) (lit 255))
             (div (lit (Dec false (Z.of_nat g) 0)) (lit 255))
             (div (lit (Dec false (Z.of_nat b) 0)) (lit 255))
             (lit 1))
  /\ (forall r g b a : nat,
         r < 256 -> g < 256 -> b < 256 -> a < 256 ->
         hexToRgba (N := N)
           (js "#" ++ hexByte r ++ hexByte g ++ hexByte b ++ hexByte a)
         = RGBA (div (lit (Dec false (Z.of_nat r) 0)) (lit 255))
                (div (lit (Dec false (Z.of_nat g) 0)) (lit 255))
                (div (lit (Dec false (Z.of_nat b) 0)) (lit 255))
                (div (lit (Dec false (Z.of_nat a) 0)) (lit 255)))
  /\ (forall x y z w : ascii,
         hexToRgba (N := N) ("#"%char :: [x; y; z])
         = hexToRgba (N := N) ("#"%char :: [x; x; y; y; z; z])
         /\ hexToRgba (N := N) ("#"%char :: [x; y; z; w])
            = hexToRgba (N := N) ("#"%char :: [x; x; y; y; z; z; w; w])).
Proof.
  split; [|split].
  - intros r g b Hr Hg Hb. unfold hexToRgba.
    change (Str.replace (js "#") []
              (js "#" ++ hexByte r ++ hexByte g ++ hexByte b))
      with (hexByte r ++ hexByte g ++ hexByte b).
    cbn [hexByte app length Nat.eqb Str.slice Nat.sub firstn skipn].
    fold (hexByte r). fold (hexByte g). fold (hexByte b).
    now rewrite !parseInt16_hexByte.
  - intros r g b a Hr Hg Hb Ha. unfold hexToRgba.
    change (Str.replace (js "#") []
              (js "#" ++ hexByte r ++ hexByte g ++ hexByte b ++ hexByte a))
      with (hexByte r ++ hexByte g ++ hexByte b ++ hexByte a).
    cbn [hexByte app length Nat.eqb Str.slice Nat.sub firstn skipn].
    fold (hexByte r). fold (hexByte g). fold (hexByte b). fold (hexByte a).
    now rewrite !parseInt16_hexByte.
  - intros x y z w. split; reflexivity.
Qed.

Lemma hexToRgba_round_trip_witness :
  hexToRgba (N := floatNum Sample.unary Sample.unary Sample.binary)
    (js "#ff8000")
  = (RGBA 1 (128 / 255) 0 1)%float.
Proof.
  exact (proj1 (hexToRgba_round_trip
                  (floatNum Sample.unary Sample.unary Sample.binary))
           255 128 0 ltac:(lia) ltac:(lia) ltac:(lia)).
Defined.

(* ===================================================================== *)
(** ** The conversions over the real numbers *)
(* ===================================================================== *)

Module RealColors.
Local Open Scope R_scope.
#[local] Existing Instance realNum.












End RealColors.





(* ===================================================================== *)
(** ** Alias resolution against the primitives *)
(* ===================================================================== *)

Module AliasFacts.

Lemma find_first {A : Type} (f : A -> bool) (l : list A) (x : A) :
  List.find f l = Some x ->
  f x = true
  /\ exists before after,
       l = before ++ x :: after
       /\ forall y, In y before -> f y = false.
Proof.
  induction l as [|a l IH]; cbn [List.find]; [discriminate|].
  destruct (f a) eqn:Fa.
  - intros [= ->]. split; [exact Fa|].
    exists [], l. split; [reflexivity|]. intros y [].
  - intros H. destruct (IH H) as (Hx & before & after & -> & Hb).
    split; [exact Hx|].
    exists (a :: before), after. split; [reflexivity|].
    intros y [<-|Hy]; [exact Fa|now apply Hb].
Qed.

Lemma find_some_of {A : Type} (f : A -> bool) (l : list A) (x : A) :
  In x l -> f x = true -> List.find f l <> None.
Proof.
  intros Hin Hx Hnone.
  pose proof (List.find_none f l Hnone x Hin) as H. congruence.
Qed.

Lemma find_none_of {A : Type} (f : A -> bool) (l : list A) :
  (forall x, f x = false) -> List.find f l = None.
Proof.
  intros H. induction l as [|a l IH]; cbn [List.find]; [reflexivity|].
  now rewrite H.
Qed.

Section Colors.
Variables (cosf sinf : float -> float) (powf : float -> float -> float).

Lemma colorsMatch_channels (x y : FigmaColor float) (tol : float) :
  colorsMatch (N := hostNum cosf sinf powf) x y tol = true ->
  PrimFloat.ltb (PrimFloat.abs (red x - red y)) tol = true
  /\ PrimFloat.ltb (PrimFloat.abs (green x - green y)) tol = true
  /\ PrimFloat.ltb (PrimFloat.abs (blue x - blue y)) tol = true
  /\ PrimFloat.ltb (PrimFloat.abs (alpha x - alpha y)) tol = true.
Proof.
  unfold colorsMatch. cbn.
  rewrite !Bool.andb_true_iff. tauto.
Qed.

Lemma colorsMatch_same (c : FigmaColor float) (tol : float) :
  PrimFloat.is_finite (red c) = true ->
  PrimFloat.is_finite (green c) = true ->
  PrimFloat.is_finite (blue c) = true ->
  PrimFloat.is_finite (alpha c) = true ->
  PrimFloat.ltb 0 tol = true ->
  colorsMatch (N := hostNum cosf sinf powf) c c tol = true.
Proof.
  intros Hr Hg Hb Ha Ht. unfold colorsMatch. cbn.
  now rewrite !MatchFacts.finite_near.
Qed.

Lemma colorsMatch_nan (x y : FigmaColor float) (tol : float) :
  PrimFloat.is_nan (red y) = true \/ PrimFloat.is_nan (green y) = true
  \/ PrimFloat.is_nan (blue y) = true \/ PrimFloat.is_nan (alpha y) = true
  \/ PrimFloat.is_nan (alpha x) = true ->
  colorsMatch (N := hostNum cosf sinf powf) x y tol = false.
Proof.
  intros H. unfold colorsMatch. cbn.
  rewrite !Bool.andb_false_iff.
  destruct H as [H|[H|[H|[H|H]]]].
  - left; left; left. apply MatchFacts.nan_far. now right.
  - left; left; right. apply MatchFacts.nan_far. now right.
  - left; right. apply MatchFacts.nan_far. now right.
  - right. apply MatchFacts.nan_far. now right.
  - right. apply MatchFacts.nan_far. now left.
Qed.

Lemma colorAliasOf_true (color : FigmaColor float) (modeId : str)
    (pv : Figma.FigmaVariable) :
  Figma.colorAliasOf cosf sinf powf color modeId pv = true ->
  Figma.resolvedType pv = Figma.COLOR
  /\ exists c,
       Figma.valuesByMode pv !! modeId = Some (Figma.VRgba c)
       /\ colorsMatch (N := hostNum cosf sinf powf) c color
            (F64.ofDecimal 0.005) = true.
Proof.
  unfold Figma.colorAliasOf.
  destruct (Figma.resolvedType pv); cbn [Figma.isColorType negb];
    try discriminate.
  destruct (Figma.valuesByMode pv !! modeId) as [[b|s|x|r g b|c|i]|];
    cbn [Figma.asFigmaColor]; try discriminate.
  - intros H. rewrite colorsMatch_nan in H; [discriminate|].
    do 4 right. reflexivity.
  - intros H. split; [reflexivity|]. now exists c.
Qed.

Lemma colorAliasOf_nan (color : FigmaColor float) (modeId : str)
    (pv : Figma.FigmaVariable) :
  PrimFloat.is_nan (red color) = true
  \/ PrimFloat.is_nan (green color) = true
  \/ PrimFloat.is_nan (blue color) = true
  \/ PrimFloat.is_nan (alpha color) = true ->
  Figma.colorAliasOf cosf sinf powf color modeId pv = false.
Proof.
  intros H. unfold Figma.colorAliasOf.
  destruct (negb _); [reflexivity|].
  destruct (Figma.asFigmaColor _); [|reflexivity].
  apply colorsMatch_nan. tauto.
Qed.

Lemma floatAliasOf_true (value : float) (modeId : str) (tol : float)
    (pv : Figma.FigmaVariable) :
  Figma.floatAliasOf value modeId tol pv = true ->
  Figma.resolvedType pv = Figma.FLOAT
  /\ exists val,
       Figma.valuesByMode pv !! modeId = Some (Figma.VNumber val)
       /\ PrimFloat.ltb (PrimFloat.abs (val - value)) tol = true.
Proof.
  unfold Figma.floatAliasOf.
  destruct (Figma.resolvedType pv); cbn [Figma.isFloatType negb];
    try discriminate.
  destruct (Figma.valuesByMode pv !! modeId) as [[b|s|x|r g b|c|i]|];
    try discriminate.
  intros H. split; [reflexivity|]. now exists x.
Qed.

Lemma ltb_nan_right (a tol : float) :
  PrimFloat.is_nan tol = true -> PrimFloat.ltb a tol = false.
Proof.
  intros H. rewrite ltb_spec. apply MatchFacts.nan_spec in H.
  rewrite H. now destruct (Prim2SF a).
Qed.

End Colors.

End AliasFacts.

(** X16 ([resolveColorAlias]).  A variable returned for a colour is the
    first one of the list that has type COLOR and whose value in the mode
    is an RGBA colour with all four channels within 0.005 of the colour
    looked for; a value without an alpha channel is never chosen.  A
    finite colour that is itself the value of a COLOR variable of the
    list is always resolved, and a colour with a NaN channel never is. *)
Theorem resolveColorAlias_first_match
    (cosf sinf : float -> float) (powf : float -> float -> float)
    (color : FigmaColor float) (primitiveVariables : list Figma.FigmaVariable)
    (primitiveModeId : str) :
  (forall pv,
      Figma.resolveColorAlias cosf sinf powf color primitiveVariables
        primitiveModeId = Some pv ->
      Figma.resolvedType pv = Figma.COLOR
      /\ (exists c,
            Figma.valuesByMode pv !! primitiveModeId = Some (Figma.VRgba c)
            /\ PrimFloat.ltb (PrimFloat.abs (red c - red color))
                 (F64.ofDecimal 0.005) = true
            /\ PrimFloat.ltb (PrimFloat.abs (green c - green color))
                 (F64.ofDecimal 0.005) = true
            /\ PrimFloat.ltb (PrimFloat.abs (blue c - blue color))
                 (F64.ofDecimal 0.005) = true
            /\ PrimFloat.ltb (PrimFloat.abs (alpha c - alpha color))
                 (F64.ofDecimal 0.005) = true)
      /\ exists before after,
           primitiveVariables = before ++ pv :: after
           /\ forall q, In q before ->
                Figma.colorAliasOf cosf sinf powf color primitiveModeId q
                = false)
  /\ (forall pv,
         In pv primitiveVariables ->
         Figma.resolvedType pv = Figma.COLOR ->
         Figma.valuesByMode pv !! primitiveModeId
         = Some (Figma.VRgba color) ->
         PrimFloat.is_finite (red color) = true ->
         PrimFloat.is_finite (green color) = true ->
         PrimFloat.is_finite (blue color) = true ->
         PrimFloat.is_finite (alpha color) = true ->
         Figma.resolveColorAlias cosf sinf powf color primitiveVariables
           primitiveModeId <> None)
  /\ (PrimFloat.is_nan (red color) = true
      \/ PrimFloat.is_nan (green color) = true
      \/ PrimFloat.is_nan (blue color) = true
      \/ PrimFloat.is_nan (alpha color) = true ->
      Figma.resolveColorAlias cosf sinf powf color primitiveVariables
        primitiveModeId = None).
Proof.
  unfold Figma.resolveColorAlias. split; [|split].
  - intros pv H.
    destruct (AliasFacts.find_first _ _ _ H) as (Hpv & Hfirst).
    destruct (AliasFacts.colorAliasOf_true _ _ _ _ _ _ Hpv)
      as (Ht & c & Hc & Hm).
    split; [exact Ht|]. split; [|exact Hfirst].
    exists c. split; [exact Hc|].
    exact (AliasFacts.colorsMatch_channels _ _ _ _ _ _ Hm).
  - intros pv Hin Ht Hv Hr Hg Hb Ha.
    apply (AliasFacts.find_some_of _ _ pv Hin).
    unfold Figma.colorAliasOf. rewrite Ht, Hv.
    cbn [Figma.isColorType negb Figma.asFigmaColor].
    now apply AliasFacts.colorsMatch_same.
  - intros H. apply AliasFacts.find_none_of. intros pv.
    now apply AliasFacts.colorAliasOf_nan.
Qed.

Lemma resolveColorAlias_first_match_witness :
  let white := (RGBA 1 1 1 1)%float in
  let black := (RGBA 0 0 0 1)%float in
  let mk n v :=
    Figma.MkVariable (js "id") n (js "c") Figma.COLOR
      (<[js "m" := v]> (∅ : gmap str Figma.VariableValue)) in
  let vars := [mk (js "black") (Figma.VRgba black);
               mk (js "flat") (Figma.VRgb 1 1 1);
               mk (js "white") (Figma.VRgba white)] in
  Figma.resolveColorAlias PrimFloat.sqrt PrimFloat.sqrt PrimFloat.add
    white vars (js "m")
  = Some (mk (js "white") (Figma.VRgba white))
  /\ Figma.resolveColorAlias PrimFloat.sqrt PrimFloat.sqrt PrimFloat.add
       white vars (js "m") <> None
  /\ Figma.resolveColorAlias PrimFloat.sqrt PrimFloat.sqrt PrimFloat.add
       (RGBA 1 1 1 nan)%float vars (js "m") = None.
Proof.
  cbv zeta. split; [vm_compute; reflexivity|]. split.
  - refine (proj1 (proj2 (resolveColorAlias_first_match
             PrimFloat.sqrt PrimFloat.sqrt PrimFloat.add _ _ _))
             _ _ _ _ _ _ _ _);
      [right; right; left; reflexivity
      |reflexivity|vm_compute; reflexivity
      |reflexivity|reflexivity|reflexivity|reflexivity].
  - apply (proj2 (proj2 (resolveColorAlias_first_match
             PrimFloat.sqrt PrimFloat.sqrt PrimFloat.add _ _ _))).
    do 3 right. reflexivity.
Defined.

(** X17 ([resolveFloatAlias]).  A variable returned for a number is the
    first one of the list that has type FLOAT and whose value in the mode
    is a number closer to it than the tolerance.  A finite number that is
    itself the value of a FLOAT variable of the list is resolved under
    every positive tolerance; nothing is resolved for NaN, nor under a
    tolerance that is NaN. *)
Theorem resolveFloatAlias_first_match
    (value : float) (primitiveVariables : list Figma.FigmaVariable)
    (primitiveModeId : str) (tolerance : float) :
  (forall pv,
      Figma.resolveFloatAlias value primitiveVariables primitiveModeId
        tolerance = Some pv ->
      Figma.resolvedType pv = Figma.FLOAT
      /\ (exists val,
            Figma.valuesByMode pv !! primitiveModeId
            = Some (Figma.VNumber val)
            /\ PrimFloat.ltb (PrimFloat.abs (val - value)) tolerance = true)
      /\ exists before after,
           primitiveVariables = before ++ pv :: after
           /\ forall q, In q before ->
                Figma.floatAliasOf value primitiveModeId tolerance q = false)
  /\ (forall pv,
         In pv primitiveVariables ->
         Figma.resolvedType pv = Figma.FLOAT ->
         Figma.valuesByMode pv !! primitiveModeId
         = Some (Figma.VNumber value) ->
         PrimFloat.is_finite value = true ->
         PrimFloat.ltb 0 tolerance = true ->
         Figma.resolveFloatAlias value primitiveVariables primitiveModeId
           tolerance <> None)
  /\ (PrimFloat.is_nan value = true \/ PrimFloat.is_nan tolerance = true ->
      Figma.resolveFloatAlias value primitiveVariables primitiveModeId
        tolerance = None).
Proof.
  unfold Figma.resolveFloatAlias. split; [|split].
  - intros pv H.
    destruct (AliasFacts.find_first _ _ _ H) as (Hpv & Hfirst).
    destruct (AliasFacts.floatAliasOf_true _ _ _ _ Hpv) as (Ht & Hv).
    split; [exact Ht|]. split; [exact Hv|exact Hfirst].
  - intros pv Hin Ht Hv Hf Htol.
    apply (AliasFacts.find_some_of _ _ pv Hin).
    unfold Figma.floatAliasOf. rewrite Ht, Hv.
    cbn [Figma.isFloatType negb].
    now apply MatchFacts.finite_near.
  - intros H. apply AliasFacts.find_none_of. intros pv.
    unfold Figma.floatAliasOf.
    destruct (negb _); [reflexivity|].
    destruct (Figma.valuesByMode pv !! primitiveModeId)
      as [[b|s|x|r g b|c|i]|]; try reflexivity.
    destruct H as [H|H].
    + apply MatchFacts.nan_far. now right.
    + now apply AliasFacts.ltb_nan_right.
Qed.

Lemma resolveFloatAlias_first_match_witness :
  let mk n v :=
    Figma.MkVariable (js "id") n (js "c") Figma.FLOAT
      (<[js "m" := v]> (∅ : gmap str Figma.VariableValue)) in
  let vars := [mk (js "text") (Figma.VString (js "16"));
               mk (js "four") (Figma.VNumber 4);
               mk (js "sixteen") (Figma.VNumber 16)] in
  Figma.resolveFloatAlias 16 vars (js "m") (F64.ofDecimal 0.01)
  = Some (mk (js "sixteen") (Figma.VNumber 16))
  /\ Figma.resolveFloatAlias 16 vars (js "m") (F64.ofDecimal 0.01) <> None
  /\ Figma.resolveFloatAlias nan vars (js "m") (F64.ofDecimal 0.01) = None.
Proof.
  cbv zeta. split; [vm_compute; reflexivity|]. split.
  - refine (proj1 (proj2 (resolveFloatAlias_first_match _ _ _ _))
             _ _ _ _ _ _);
      [right; right; left; reflexivity
      |reflexivity|vm_compute; reflexivity
      |reflexivity|vm_compute; reflexivity].
  - apply (proj2 (proj2 (resolveFloatAlias_first_match _ _ _ _))).
    left. reflexivity.
Defined.

(* ===================================================================== *)
(** ** [rgb(...)] read back *)
(* ===================================================================== *)

Module RgbShape.
Import Re.

Lemma digitDot_not_comma (c : ascii) :
  digitDot c = true -> Str.isChar "," c = false.
Proof.
  destruct c as [[] [] [] [] [] [] [] []]; vm_compute; intro H;
    first [reflexivity | discriminate H].
Qed.

Lemma space_not_digitDot (c : ascii) :
  Str.isSpace c = true -> digitDot c = false.
Proof.
  destruct c as [[] [] [] [] [] [] [] []]; vm_compute; intro H;
    first [reflexivity | discriminate H].
Qed.

Lemma after_after (st : mstate) (w1 w2 t1 t2 : str) :
  after (after st w1 t1) w2 t2 = after st (w1 ++ w2) t2.
Proof.
  unfold after. cbn [pos caps]. rewrite length_app. f_equal. lia.
Qed.

Lemma advance_after (st : mstate) (w : str) (c : ascii) (t : str) :
  advance (after st w (c :: t)) = after st (w ++ [c]) t.
Proof.
  unfold advance, after. cbn [pos rest caps tl]. rewrite length_app.
  cbn [length]. f_equal. lia.
Qed.

(** The optional [a] of [rgba]. *)
Lemma run_opt_a {A} (a t : str) (k : mstate -> option A) (st : mstate)
    (x : A) :
  a = [] \/ a = js "a" -> rest st = a ++ "("%char :: t ->
  k (after st a ("("%char :: t)) = Some x ->
  rmatch (opt (chr "a")) k st = Some x.
Proof.
  intros [-> | ->] Hr Hk; unfold opt, chr; cbn [rmatch]; rewrite Hr;
    cbn [app js String.list_ascii_of_string].
  - change (Str.isChar "a" "(") with false. cbv iota.
    cbn [app] in Hr. now rewrite <- Hr, ReRun.after_nil in Hk.
  - change (Str.isChar "a" "a") with true. cbv iota.
    replace (advance st) with (after st (js "a") ("("%char :: t)).
    + now rewrite Hk.
    + unfold advance, after. rewrite Hr.
      cbn [js String.list_ascii_of_string app tl length]. f_equal. lia.
Qed.

(** What stands between two channels. *)
Lemma run_blanks_comma {A} (sep : str) (c : ascii) (t : str)
    (k : mstate -> option A) (st : mstate) (x : A) :
  separator sep -> digitDot c = true -> rest st = sep ++ c :: t ->
  k (after st sep (c :: t)) = Some x ->
  rmatch (star ws) (rmatch (opt (chr ",")) (rmatch (star ws) k)) st
  = Some x.
Proof.
  intros [(s1 & s2 & -> & H1 & H2) | (Hne & Hs)] Hc Hr Hk.
  - rewrite <- app_assoc in Hr. cbn [app] in Hr.
    apply (ReRun.run_star_class Str.isSpace s1 (","%char :: s2 ++ c :: t));
      [exact H1|reflexivity|exact Hr|].
    unfold opt, chr. cbn [rmatch]. cbn [after rest].
    change (Str.isChar "," ",") with true. cbv iota.
    rewrite advance_after.
    rewrite (ReRun.run_star_class Str.isSpace s2 (c :: t) k _ x);
      [reflexivity|exact H2|now apply CalcShape.digitDot_not_space
      |reflexivity|].
    rewrite after_after, <- app_assoc. exact Hk.
  - apply (ReRun.run_star_class Str.isSpace sep (c :: t));
      [exact Hs|now apply CalcShape.digitDot_not_space|exact Hr|].
    unfold opt, chr. cbn [rmatch]. cbn [after rest].
    unfold Str.isChar at 1. fold (Str.isChar "," c).
    rewrite (digitDot_not_comma c Hc).
    apply (ReRun.run_star_class Str.isSpace [] (c :: t));
      [reflexivity|now apply CalcShape.digitDot_not_space|reflexivity|].
    rewrite after_after, app_nil_r. exact Hk.
Qed.

Lemma run_separator {A} (sep : str) (c : ascii) (t : str) (r : regex)
    (k : mstate -> option A) (st : mstate) (x : A) :
  separator sep -> digitDot c = true -> rest st = sep ++ c :: t ->
  rmatch r k (after st sep (c :: t)) = Some x ->
  rmatch (Cat (star ws) (Cat (opt (chr ",")) (Cat (star ws) r))) k st
  = Some x.
Proof.
  intros Hs Hc Hr Hk.
  change (rmatch (Cat (star ws) (Cat (opt (chr ",")) (Cat (star ws) r))) k st)
    with (rmatch (star ws)
            (rmatch (opt (chr ",")) (rmatch (star ws) (rmatch r k))) st).
  now apply (run_blanks_comma sep c t).
Qed.

(** An optional part that starts with a character which is not there. *)
Lemma run_opt_absent {A} (p : ascii -> bool) (r : regex)
    (k : mstate -> option A) (st : mstate) (c : ascii) (t : str) :
  rest st = c :: t -> p c = false ->
  rmatch (opt (Cat (Cls p) r)) k st = k st.
Proof.
  intros Hr Hp.
  change (rmatch (opt (Cat (Cls p) r)) k st)
    with (match rmatch (Cls p) (rmatch r k) st with
          | Some x => Some x
          | None => k st
          end).
  now rewrite ReRun.rmatch_Cls, Hr, Hp.
Qed.

Lemma separator_stops (sep t : str) :
  separator sep -> stopsClass digitDot (sep ++ t).
Proof.
  intros [(s1 & s2 & -> & H1 & _) | (Hne & Hs)].
  - destruct s1 as [|c s1]; [reflexivity|].
    cbn in *. apply andb_prop in H1. now apply space_not_digitDot.
  - destruct sep as [|c sep]; [contradiction|].
    cbn in *. apply andb_prop in Hs. now apply space_not_digitDot.
Qed.

Lemma closing_stops (w t : str) :
  forallb Str.isSpace w = true -> stopsClass digitDot (w ++ ")"%char :: t).
Proof.
  intro H. destruct w as [|c w]; [reflexivity|].
  cbn in *. apply andb_prop in H. now apply space_not_digitDot.
Qed.

Lemma head_digit (d t : str) :
  d <> [] -> forallb digitDot d = true ->
  exists c d', d ++ t = c :: d' /\ digitDot c = true.
Proof.
  intros Hne Hd. destruct d as [|c d]; [contradiction|].
  exists c, (d ++ t). split; [reflexivity|].
  cbn in Hd. now apply andb_prop in Hd.
Qed.

(** The pattern of [rgbStringToRgba] on three numbers without alpha. *)
Lemma rgb_run (a w0 d1 sep1 d2 sep2 d3 w1 : str) :
  a = [] \/ a = js "a" ->
  forallb Str.isSpace w0 = true -> forallb Str.isSpace w1 = true ->
  d1 <> [] -> forallb digitDot d1 = true ->
  d2 <> [] -> forallb digitDot d2 = true ->
  d3 <> [] -> forallb digitDot d3 = true ->
  separator sep1 -> separator sep2 ->
  exists m,
    exec Pattern.rgb
      (js "rgb" ++ a ++ js "(" ++ w0 ++ d1 ++ sep1 ++ d2 ++ sep2 ++ d3
         ++ w1 ++ js ")")
    = Some m
    /\ group 1 m = Some d1 /\ group 2 m = Some d2 /\ group 3 m = Some d3
    /\ group 4 m = None.
Proof.
  intros Ha H0 H1 N1 D1 N2 D2 N3 D3 S1 S2.
  destruct (head_digit d2 (sep2 ++ d3 ++ w1 ++ js ")") N2 D2)
    as (c2 & r2 & E2 & C2).
  destruct (head_digit d3 (w1 ++ js ")") N3 D3) as (c3 & r3 & E3 & C3).
  eexists. split.
  - unfold exec. apply CalcShape.searchFrom_here. unfold matchHere.
    unfold Pattern.rgb. cbn [seq].
    rewrite CalcShape.rmatch_Cat.
    rewrite (ReRun.run_lit (js "rgb")
               (a ++ js "(" ++ w0 ++ d1 ++ sep1 ++ d2 ++ sep2 ++ d3
                  ++ w1 ++ js ")")) by reflexivity.
    rewrite CalcShape.rmatch_Cat.
    apply (run_opt_a a (w0 ++ d1 ++ sep1 ++ d2 ++ sep2 ++ d3
                          ++ w1 ++ js ")"));
      [exact Ha|reflexivity|].
    rewrite CalcShape.rmatch_Cat. unfold chr at 1.
    rewrite ReRun.rmatch_Cls. cbn [after rest].
    change (Str.isChar "(" "(") with true. cbv iota.
    rewrite advance_after, RgbShape.after_after.
    rewrite CalcShape.rmatch_Cat.
    apply (ReRun.run_star_class Str.isSpace w0
             (d1 ++ sep1 ++ d2 ++ sep2 ++ d3 ++ w1 ++ js ")"));
      [exact H0|now apply CalcShape.stops_space|reflexivity|].
    rewrite after_after.
    rewrite CalcShape.rmatch_Cat, CalcShape.rmatch_Grp.
    apply (ReRun.run_plus_class digitDot d1
             (sep1 ++ d2 ++ sep2 ++ d3 ++ w1 ++ js ")"));
      [exact N1|exact D1|now apply separator_stops|reflexivity|].
    rewrite E2.
    apply (run_separator sep1 c2 r2); [exact S1|exact C2|reflexivity|].
    rewrite <- E2.
    rewrite CalcShape.rmatch_Cat, CalcShape.rmatch_Grp.
    apply (ReRun.run_plus_class digitDot d2
             (sep2 ++ d3 ++ w1 ++ js ")"));
      [exact N2|exact D2|now apply separator_stops|reflexivity|].
    rewrite E3.
    apply (run_separator sep2 c3 r3); [exact S2|exact C3|reflexivity|].
    rewrite <- E3.
    rewrite CalcShape.rmatch_Cat, CalcShape.rmatch_Grp.
    apply (ReRun.run_plus_class digitDot d3 (w1 ++ js ")"));
      [exact N3|exact D3|now apply closing_stops|reflexivity|].
    rewrite CalcShape.rmatch_Cat.
    apply (ReRun.run_star_class Str.isSpace w1 (js ")"));
      [exact H1|reflexivity|reflexivity|].
    rewrite CalcShape.rmatch_Cat.
    rewrite (run_opt_absent Pattern.commaOrSlash _ _ _ ")"%char [])
      by reflexivity.
    rewrite CalcShape.rmatch_Cat.
    apply (ReRun.run_star_class Str.isSpace [] (js ")"));
      [reflexivity|reflexivity|reflexivity|].
    unfold chr. rewrite ReRun.rmatch_Cls.
    cbn [after capture rest js String.list_ascii_of_string].
    change (Str.isChar ")" ")") with true. cbv iota.
    reflexivity.
  - unfold group.
    cbn [groups caps advance capture after setNth nth pos rest].
    repeat split.
    all: f_equal; apply CalcShape.firstn_exact;
      rewrite ?length_app; cbn [length js String.list_ascii_of_string];
      lia.
Qed.

End RgbShape.

Section RgbRoundTrip.
Context {num : Type} (N : JsNum num).

Lemma decByte_digits (n : nat) :
  n < 256 -> decByte n <> [] /\ forallb Re.digitDot (decByte n) = true.
Proof.
  intro H.
  assert (Hall : forallb (fun n => match decByte n with
                                   | [] => false
                                   | _ :: _ => forallb Re.digitDot (decByte n)
                                   end) (List.seq 0 256) = true)
    by (vm_compute; reflexivity).
  rewrite forallb_forall in Hall.
  specialize (Hall n ltac:(apply in_seq; lia)).
  destruct (decByte n); [discriminate|].
  split; [discriminate|exact Hall].
Qed.

Lemma parseFloat_decByte (n : nat) :
  n < 256 ->
  parseFloat (N := N) (decByte n) = lit (Dec false (Z.of_nat n) 0).
Proof.
  intro H.
  do 256 (destruct n as [|n]; [reflexivity|]).
  lia.
Qed.

(** [rgbStringToRgba] on three bytes, in every number model. *)
Lemma rgb_bytes (r g b : nat) (a w0 sep1 sep2 w1 : str) :
  r < 256 -> g < 256 -> b < 256 ->
  a = [] \/ a = js "a" ->
  forallb Str.isSpace w0 = true -> forallb Str.isSpace w1 = true ->
  separator sep1 -> separator sep2 ->
  rgbStringToRgba (N := N)
    (js "rgb" ++ a ++ js "(" ++ w0 ++ decByte r ++ sep1 ++ decByte g
       ++ sep2 ++ decByte b ++ w1 ++ js ")")
  = Some (RGBA (clamp01 (div (lit (Dec false (Z.of_nat r) 0)) (lit 255)))
               (clamp01 (div (lit (Dec false (Z.of_nat g) 0)) (lit 255)))
               (clamp01 (div (lit (Dec false (Z.of_nat b) 0)) (lit 255)))
               (clamp01 (lit 1))).
Proof.
  intros Hr Hg Hb Ha H0 H1 S1 S2.
  destruct (decByte_digits r Hr) as [Nr Dr].
  destruct (decByte_digits g Hg) as [Ng Dg].
  destruct (decByte_digits b Hb) as [Nb Db].
  destruct (RgbShape.rgb_run a w0 (decByte r) sep1 (decByte g) sep2
              (decByte b) w1 Ha H0 H1 Nr Dr Ng Dg Nb Db S1 S2)
    as (m & Hm & G1 & G2 & G3 & G4).
  unfold rgbStringToRgba. rewrite Hm.
  unfold alphaOf, Re.present, Re.text. rewrite G1, G2, G3, G4.
  now rewrite !parseFloat_decByte.
Qed.

End RgbRoundTrip.

Section RgbFloats.
Variables (cosf sinf : float -> float) (powf : float -> float -> float).

Lemma clamp01_byte (n : nat) :
  n < 256 ->
  clamp01 (N := hostNum cosf sinf powf)
    (F64.ofDecimal (Dec false (Z.of_nat n) 0) / 255)%float
  = (F64.ofDecimal (Dec false (Z.of_nat n) 0) / 255)%float.
Proof.
  intro H.
  do 256 (destruct n as [|n]; [vm_compute; reflexivity|]).
  lia.
Qed.

End RgbFloats.

Module RgbPlain.

Lemma plain_space (c : ascii) : Str.isSpace c = true -> plainChar c = true.
Proof.
  destruct c as [[] [] [] [] [] [] [] []]; vm_compute; intro H;
    first [reflexivity | discriminate H].
Qed.

Lemma plain_digitDot (c : ascii) : Re.digitDot c = true -> plainChar c = true.
Proof.
  destruct c as [[] [] [] [] [] [] [] []]; vm_compute; intro H;
    first [reflexivity | discriminate H].
Qed.

Lemma forallb_weaken {A} (p q : A -> bool) (l : list A) :
  (forall x, p x = true -> q x = true) ->
  forallb p l = true -> forallb q l = true.
Proof.
  intros Hpq H. apply forallb_forall. intros x Hx.
  apply Hpq. now apply (proj1 (forallb_forall p l) H).
Qed.

Lemma plain_separator (sep : str) :
  separator sep -> forallb plainChar sep = true.
Proof.
  intros [(s1 & s2 & -> & H1 & H2) | (_ & Hs)].
  - rewrite forallb_app. cbn [forallb].
    rewrite (forallb_weaken _ _ s1 plain_space H1).
    rewrite (forallb_weaken _ _ s2 plain_space H2). reflexivity.
  - exact (forallb_weaken _ _ sep plain_space Hs).
Qed.

Lemma plain_lower (s : str) :
  forallb plainChar s = true -> Str.toLowerCase s = s.
Proof.
  induction s as [|c s IH]; [reflexivity|].
  cbn [forallb Str.toLowerCase map]. intro H. apply andb_prop in H.
  destruct H as [Hc Hs]. fold (Str.toLowerCase s). rewrite (IH Hs).
  f_equal. unfold Str.lowerChar. unfold plainChar in Hc.
  now destruct (Str.isUpper c).
Qed.

Lemma plain_without (p : str) (x : ascii) (s : str) :
  In x p -> plainChar x = false -> forallb plainChar s = true ->
  Str.includes p s = false.
Proof.
  intros Hin Hx Hs. destruct (Str.includes p s) eqn:E; [|reflexivity].
  apply includes_Substring in E. destruct E as (pre & post & ->).
  rewrite !forallb_app in Hs.
  apply andb_prop in Hs. destruct Hs as [_ Hs].
  apply andb_prop in Hs. destruct Hs as [Hp _].
  rewrite forallb_forall in Hp. specialize (Hp x Hin). congruence.
Qed.

Section Dispatch.
Context {num : Type} (N : JsNum num).

(** A plain text that starts with [rgb] and ends with a parenthesis goes
    to [rgbStringToRgba]. *)
Lemma parseColorValue_rgb (body : str) :
  forallb plainChar body = true ->
  parseColorValue (N := N) (js "rgb" ++ body ++ js ")")
  = Ok (rgbStringToRgba (N := N) (js "rgb" ++ body ++ js ")")).
Proof.
  intro Hb.
  assert (Hp : forallb plainChar (js "rgb" ++ body ++ js ")") = true).
  { rewrite !forallb_app, Hb. reflexivity. }
  unfold parseColorValue.
  replace (Str.trim (js "rgb" ++ body ++ js ")"))
    with (js "rgb" ++ body ++ js ")").
  2:{ change (js ")") with [")"%char].
      rewrite app_assoc, trim_snoc by reflexivity. reflexivity. }
  rewrite (plain_lower _ Hp).
  unfold Pattern.oklch, Pattern.hsl.
  cbn [Re.seq].
  rewrite (exec_without (js "oklch(") _ _
             (plain_without (js "oklch(") "o"%char _
                ltac:(now left) eq_refl Hp)).
  rewrite (exec_without (js "hsl") _ _
             (plain_without (js "hsl") "h"%char _
                ltac:(now left) eq_refl Hp)).
  reflexivity.
Qed.

End Dispatch.

End RgbPlain.


(** X18.  Bytes written in decimal are read back from [rgb(...)]: for all
    numbers [r], [g], [b] below 256, [parseColorValue] gives for the text
    [rgb(r, g, b)] the channels [r / 255], [g / 255], [b / 255] and alpha
    1, with no loss to the clamp, and so does [rgbStringToRgba].  The same
    holds for [rgba(], for blanks after the opening and before the closing
    parenthesis, and whether the channels are separated by a comma with
    blanks around it or by blanks alone. *)
Theorem rgbStringToRgba_round_trip
    (cosf sinf : float -> float) (powf : float -> float -> float)
    (r g b : nat) (a w0 sep1 sep2 w1 : str) :
  r < 256 -> g < 256 -> b < 256 ->
  a = [] \/ a = js "a" ->
  forallb Str.isSpace w0 = true -> forallb Str.isSpace w1 = true ->
  separator sep1 -> separator sep2 ->
  let text :=
    js "rgb" ++ a ++ js "(" ++ w0 ++ decByte r ++ sep1 ++ decByte g
      ++ sep2 ++ decByte b ++ w1 ++ js ")" in
  let color :=
    (RGBA (F64.ofDecimal (Dec false (Z.of_nat r) 0) / 255)
          (F64.ofDecimal (Dec false (Z.of_nat g) 0) / 255)
          (F64.ofDecimal (Dec false (Z.of_nat b) 0) / 255)
          1)%float in
  rgbStringToRgba (N := hostNum cosf sinf powf) text = Some color
  /\ parseColorValue (N := hostNum cosf sinf powf) text = Ok (Some color).
Proof.
  intros Hr Hg Hb Ha H0 H1 S1 S2 text color.
  assert (Hrgb : rgbStringToRgba (N := hostNum cosf sinf powf) text
                 = Some color).
  { unfold text, color.
    rewrite (rgb_bytes (hostNum cosf sinf powf) r g b a w0 sep1 sep2 w1)
      by assumption.
    cbn [lit div hostNum floatNum].
    change (F64.ofDecimal 255) with 255%float.
    rewrite !clamp01_byte by assumption.
    reflexivity. }
  split; [exact Hrgb|].
  rewrite <- Hrgb. unfold text.
  replace (js "rgb" ++ a ++ js "(" ++ w0 ++ decByte r ++ sep1 ++ decByte g
             ++ sep2 ++ decByte b ++ w1 ++ js ")")
    with (js "rgb"
            ++ (a ++ js "(" ++ w0 ++ decByte r ++ sep1 ++ decByte g
                  ++ sep2 ++ decByte b ++ w1) ++ js ")")
    by (now rewrite <- !app_assoc).
  apply RgbPlain.parseColorValue_rgb.
  destruct (decByte_digits r Hr) as [_ Dr].
  destruct (decByte_digits g Hg) as [_ Dg].
  destruct (decByte_digits b Hb) as [_ Db].
  rewrite !forallb_app.
  rewrite (RgbPlain.forallb_weaken _ _ w0 RgbPlain.plain_space H0).
  rewrite (RgbPlain.forallb_weaken _ _ w1 RgbPlain.plain_space H1).
  rewrite (RgbPlain.forallb_weaken _ _ _ RgbPlain.plain_digitDot Dr).
  rewrite (RgbPlain.forallb_weaken _ _ _ RgbPlain.plain_digitDot Dg).
  rewrite (RgbPlain.forallb_weaken _ _ _ RgbPlain.plain_digitDot Db).
  rewrite (RgbPlain.plain_separator sep1 S1).
  rewrite (RgbPlain.plain_separator sep2 S2).
  destruct Ha as [-> | ->]; reflexivity.
Qed.

Lemma rgbStringToRgba_round_trip_witness :
  rgbStringToRgba (N := hostNum PrimFloat.sqrt PrimFloat.sqrt PrimFloat.add)
    (js "rgba( 255, 128 0 )")
  = Some (RGBA 1 (128 / 255) 0 1)%float
  /\ parseColorValue (N := hostNum PrimFloat.sqrt PrimFloat.sqrt PrimFloat.add)
       (js "rgba( 255, 128 0 )")
     = Ok (Some (RGBA 1 (128 / 255) 0 1)%float).
Proof.
  apply (rgbStringToRgba_round_trip
           PrimFloat.sqrt PrimFloat.sqrt PrimFloat.add
           255 128 0 (js "a") (js " ") (js ", ") (js " ") (js " "));
    try lia; try reflexivity.
  - right. reflexivity.
  - left. exists [], (js " "). repeat split.
  - right. split; [discriminate|reflexivity].
Defined.

(* ===================================================================== *)
(** ** The session cache of the fetcher *)
(* ===================================================================== *)

Module FetcherFacts.
Import Fetcher.

Lemma enter_hit (failure url : str) (cache : gmap str str) (t : str) :
  cache !! url = Some t -> enter failure url cache = Settled (Resolved t).
Proof. intro H. unfold enter. now rewrite H. Qed.

Lemma enter_miss (failure url : str) (cache : gmap str str) :
  cache !! url = None -> enter failure url cache = AwaitFetch failure url.
Proof. intro H. unfold enter. now rewrite H. Qed.

Lemma enter_pending (failure url other : str) (cache : gmap str str) :
  (exists t, cache !! url = Some t) \/ other <> url ->
  pending (enter failure other cache) <> Some url.
Proof.
  intro H. unfold enter. destruct (cache !! other) as [c|] eqn:E;
    [discriminate|].
  cbn. intros [= ->]. destruct H as [(t & H)|H]; [congruence|].
  now apply H.
Qed.

Lemma resumeFetch_pending (failure url : str) (answer : fetched) :
  pending (resumeFetch failure url answer) = None
  \/ pending (resumeFetch failure url answer) = Some url.
Proof.
  unfold resumeFetch. destruct answer as [response|reason]; [|now left].
  destruct (negb (ok response)); [now left|now right].
Qed.

(** An entry of the cache that no suspended call is about stays as it is
    until the cache is cleared. *)
Lemma step_sticky (url t : str) (s : session) (e : event) :
  cache s !! url = Some t -> quiet url s -> e <> CallClearCache ->
  cache (step s e) !! url = Some t /\ quiet url (step s e).
Proof.
  intros Hc Hq He. unfold quiet in *.
  destruct e as [owner repo path branch|u| |i answer|i body];
    cbn [step cache calls].
  - split; [exact Hc|]. apply Forall_app. split; [exact Hq|].
    constructor; [|constructor]. apply enter_pending. left. now exists t.
  - split; [exact Hc|]. apply Forall_app. split; [exact Hq|].
    constructor; [|constructor]. apply enter_pending. left. now exists t.
  - contradiction.
  - destruct (calls s !! i) as [[failure u|u|o]|] eqn:E;
      try (split; assumption).
    cbn [cache calls]. split; [exact Hc|].
    apply Forall_insert; [exact Hq|].
    pose proof (Forall_lookup_1 _ _ _ _ Hq E) as Hu. cbn in Hu.
    destruct (resumeFetch_pending failure u answer) as [-> | ->];
      [discriminate|exact Hu].
  - destruct (calls s !! i) as [[failure u|u|o]|] eqn:E;
      try (split; assumption).
    pose proof (Forall_lookup_1 _ _ _ _ Hq E) as Hu. cbn in Hu.
    destruct body as [text|reason]; cbn [resumeText cache calls].
    + split.
      * rewrite lookup_insert_ne; [exact Hc|]. intros ->. now apply Hu.
      * apply Forall_insert; [exact Hq|discriminate].
    + split; [exact Hc|]. apply Forall_insert; [exact Hq|discriminate].
Qed.

Lemma run_sticky (url t : str) (es : list event) :
  forall s,
    cache s !! url = Some t -> quiet url s -> ~ In CallClearCache es ->
    cache (run s es) !! url = Some t /\ quiet url (run s es).
Proof.
  induction es as [|e es IH]; intros s Hc Hq Hes; [now split|].
  cbn [run fold_left].
  destruct (step_sticky url t s e Hc Hq) as [Hc' Hq'].
  - intros ->. apply Hes. now left.
  - apply IH; [exact Hc'|exact Hq'|]. intro Hin. apply Hes. now right.
Qed.

(** What a step does to the cache. *)
Lemma step_cache (s : session) (e : event) :
  cache (step s e) = cache s
  \/ cache (step s e) = ∅ /\ e = CallClearCache
  \/ exists i url text,
       e = TextSettles i (Body text)
       /\ calls s !! i = Some (AwaitText url)
       /\ cache (step s e) = <[url := text]> (cache s).
Proof.
  destruct e as [owner repo path branch|u| |i answer|i body];
    cbn [step cache calls]; try (now left).
  - right. left. now split.
  - destruct (calls s !! i) as [[failure u|u|o]|]; now left.
  - destruct (calls s !! i) as [[failure u|u|o]|] eqn:E; try (now left).
    destruct body as [text|reason]; cbn [resumeText cache]; [|now left].
    right. right. now exists i, u, text.
Qed.

Lemma lookup_last (l : list call) (c : call) :
  (l ++ [c]) !! length l = Some c.
Proof. induction l as [|x l IH]; [reflexivity|exact IH]. Qed.

Lemma insert_last (l : list call) (c c' : call) :
  <[length l := c']> (l ++ [c]) = l ++ [c'].
Proof.
  induction l as [|x l IH]; [reflexivity|].
  cbn [length app]. change (<[S (length l) := c']> (x :: l ++ [c]))
    with (x :: <[length l := c']> (l ++ [c])).
  now rewrite IH.
Qed.

(** A call that runs from its start to its end with no other step in
    between. *)
Lemma run_alone (s : session) (url t : str) (response : Response) :
  cache s !! url = None -> ok response = true ->
  run s [CallRawUrl url;
         FetchSettles (length (calls s)) (Answered response);
         TextSettles (length (calls s)) (Body t)]
  = Session (<[url := t]> (cache s)) (calls s ++ [Settled (Resolved t)]).
Proof.
  intros Hc Hok. cbn [run fold_left].
  unfold step at 3. cbn [cache calls]. unfold fetchRawUrl.
  rewrite (enter_miss _ _ _ Hc).
  unfold step at 2. cbn [cache calls]. rewrite lookup_last, insert_last.
  unfold resumeFetch. rewrite Hok. cbn [negb].
  unfold step. cbn [cache calls]. rewrite lookup_last.
  cbn [resumeText]. now rewrite insert_last.
Qed.

End FetcherFacts.

(** X19.  The session cache of the fetcher.  A call of [fetchRawUrl] or
    [fetchRawFromGitHub] for an address that is in the cache settles at
    once with the cached text; for another address it is suspended until
    the network answers, and suspended again until the body is read; it
    stores the text when it resumes for the second time, whatever the
    cache holds by then.  So, when the cache holds a text for an address
    and no call for that address is suspended, the entry stays as it is,
    whatever is called and whatever the network answers, until
    [clearCache] is called: every later call for the address resolves with
    that text.  This is the state a call leaves when it runs from its
    start to its end with no other step in between.  The cache changes
    only when [clearCache] is called and when a suspended call gets its
    body: a call that is rejected leaves it unchanged.  Two calls for the
    same address that overlap both ask the network, and the one that gets
    its body last overwrites the entry of the other: a call made between
    the two and a call made after them resolve with different texts. *)
Theorem fetcher_cache_is_sticky (s : Fetcher.session) (url t : str) :
  (Fetcher.cache s !! url = Some t ->
   Fetcher.fetchRawUrl url (Fetcher.cache s)
   = Fetcher.Settled (Fetcher.Resolved t)
   /\ forall owner repo path branch,
        Fetcher.buildRawUrl owner repo path branch = url ->
        Fetcher.fetchRawFromGitHub owner repo path branch (Fetcher.cache s)
        = Fetcher.Settled (Fetcher.Resolved t))
  /\ (Fetcher.cache s !! url = None ->
      Fetcher.fetchRawUrl url (Fetcher.cache s)
      = Fetcher.AwaitFetch (js "Failed to fetch " ++ url) url)
  /\ (Fetcher.cache s !! url = Some t -> Fetcher.quiet url s ->
      forall es,
        ~ In Fetcher.CallClearCache es ->
        Fetcher.cache (Fetcher.run s es) !! url = Some t
        /\ Fetcher.quiet url (Fetcher.run s es)
        /\ Fetcher.calls
             (Fetcher.step (Fetcher.run s es) (Fetcher.CallRawUrl url))
           = Fetcher.calls (Fetcher.run s es)
             ++ [Fetcher.Settled (Fetcher.Resolved t)])
  /\ (Fetcher.cache s !! url = None -> Fetcher.quiet url s ->
      forall response,
        Fetcher.ok response = true ->
        let s' :=
          Fetcher.run s
            [Fetcher.CallRawUrl url;
             Fetcher.FetchSettles (length (Fetcher.calls s))
               (Fetcher.Answered response);
             Fetcher.TextSettles (length (Fetcher.calls s))
               (Fetcher.Body t)] in
        s' = Fetcher.Session (<[url := t]> (Fetcher.cache s))
               (Fetcher.calls s ++ [Fetcher.Settled (Fetcher.Resolved t)])
        /\ Fetcher.cache s' !! url = Some t /\ Fetcher.quiet url s')
  /\ (forall i,
         Fetcher.calls s !! i = Some (Fetcher.AwaitText url) ->
         Fetcher.step s (Fetcher.TextSettles i (Fetcher.Body t))
         = Fetcher.Session (<[url := t]> (Fetcher.cache s))
             (<[i := Fetcher.Settled (Fetcher.Resolved t)]>
                (Fetcher.calls s)))
  /\ (forall e,
         Fetcher.cache (Fetcher.step s e) = Fetcher.cache s
         \/ Fetcher.cache (Fetcher.step s e) = ∅
            /\ e = Fetcher.CallClearCache
         \/ exists i u text,
              e = Fetcher.TextSettles i (Fetcher.Body text)
              /\ Fetcher.calls s !! i = Some (Fetcher.AwaitText u)
              /\ Fetcher.cache (Fetcher.step s e)
                 = <[u := text]> (Fetcher.cache s))
  /\ (forall response : Fetcher.Response,
         Fetcher.ok response = true ->
         let u := js "u" in
         Fetcher.run (Fetcher.Session ∅ [])
           [Fetcher.CallRawUrl u; Fetcher.CallRawUrl u;
            Fetcher.FetchSettles 0 (Fetcher.Answered response);
            Fetcher.FetchSettles 1 (Fetcher.Answered response);
            Fetcher.TextSettles 0 (Fetcher.Body (js "first"));
            Fetcher.CallRawUrl u;
            Fetcher.TextSettles 1 (Fetcher.Body (js "second"));
            Fetcher.CallRawUrl u]
         = Fetcher.Session {[u := js "second"]}
             [Fetcher.Settled (Fetcher.Resolved (js "first"));
              Fetcher.Settled (Fetcher.Resolved (js "second"));
              Fetcher.Settled (Fetcher.Resolved (js "first"));
              Fetcher.Settled (Fetcher.Resolved (js "second"))]).
Proof.
  split; [|split; [|split; [|split; [|split; [|split]]]]].
  - intro Hc. split.
    + now apply FetcherFacts.enter_hit.
    + intros owner repo path branch Hu. unfold Fetcher.fetchRawFromGitHub.
      cbv zeta. rewrite Hu. now apply FetcherFacts.enter_hit.
  - intro Hc. now apply FetcherFacts.enter_miss.
  - intros Hc Hq es Hes.
    destruct (FetcherFacts.run_sticky url t es s Hc Hq Hes) as [Hc' Hq'].
    split; [exact Hc'|]. split; [exact Hq'|].
    cbn [Fetcher.step Fetcher.calls]. unfold Fetcher.fetchRawUrl.
    now rewrite (FetcherFacts.enter_hit _ _ _ _ Hc').
  - intros Hc Hq response Hok. cbv zeta.
    rewrite (FetcherFacts.run_alone s url t response Hc Hok).
    split; [reflexivity|]. cbn [Fetcher.cache Fetcher.calls].
    split; [apply lookup_insert_eq|].
    unfold Fetcher.quiet. cbn [Fetcher.calls].
    apply Forall_app. split; [exact Hq|].
    constructor; [discriminate|constructor].
  - intros i Hi. unfold Fetcher.step. now rewrite Hi.
  - apply FetcherFacts.step_cache.
  - intros response Hok. cbv zeta.
    cbn [Fetcher.run fold_left Fetcher.step Fetcher.cache Fetcher.calls app].
    unfold Fetcher.fetchRawUrl, Fetcher.enter. rewrite lookup_empty.
    cbn [Fetcher.step Fetcher.calls Fetcher.cache app lookup list_lookup
         insert list_insert Fetcher.resumeFetch].
    rewrite Hok. cbn [negb].
    vm_compute. reflexivity.
Qed.

Lemma fetcher_cache_is_sticky_witness :
  let gone :=
    Fetcher.Answered (Fetcher.MkResponse false 404 (js "Not Found")) in
  let s := Fetcher.Session {[js "u" := js "first"]} [] in
  let s' :=
    Fetcher.run s
      [Fetcher.CallRawUrl (js "v"); Fetcher.FetchSettles 0 gone;
       Fetcher.CallRawUrl (js "u")] in
  Fetcher.cache s' !! js "u" = Some (js "first")
  /\ Fetcher.calls s'
     = [Fetcher.Settled
          (Fetcher.Rejected (js "Failed to fetch v (404: Not Found)"));
        Fetcher.Settled (Fetcher.Resolved (js "first"))].
Proof.
  cbv zeta.
  pose proof (fetcher_cache_is_sticky
                (Fetcher.Session {[js "u" := js "first"]} [])
                (js "u") (js "first")) as (_ & _ & H & _).
  destruct (H ltac:(reflexivity) ltac:(constructor)
              [Fetcher.CallRawUrl (js "v");
               Fetcher.FetchSettles 0
                 (Fetcher.Answered
                    (Fetcher.MkResponse false 404 (js "Not Found")));
               Fetcher.CallRawUrl (js "u")])
    as (Hc & _ & _).
  - intros [E|[E|[E|[]]]]; discriminate E.
  - split; [exact Hc|]. vm_compute. reflexivity.
Defined.

(* ===================================================================== *)
(** ** The preview tree *)
(* ===================================================================== *)

Module PreviewFacts.
Import Preview.

Lemma keyEqb_eq (a b : option str) : keyEqb a b = true <-> a = b.
Proof.
  destruct a as [x|], b as [y|]; cbn [keyEqb];
    try (split; [discriminate|discriminate]); try tauto.
  rewrite Str_eqb_eq. split; congruence.
Qed.

Lemma keyEqb_neq (a b : option str) : keyEqb a b = false <-> a <> b.
Proof.
  rewrite <- keyEqb_eq. destruct (keyEqb a b); split; congruence.
Qed.

Lemma keyEqb_refl (a : option str) : keyEqb a a = true.
Proof. now apply keyEqb_eq. Qed.

Lemma mapGet_absent (k : option str) (m : list (option str * nat)) :
  ~ In k (map fst m) <-> mapGet k m = None.
Proof.
  induction m as [|[k' v] m IH]; cbn [map fst In mapGet]; [tauto|].
  destruct (keyEqb k' k) eqn:E.
  - apply keyEqb_eq in E. split; [tauto|discriminate].
  - apply keyEqb_neq in E. tauto.
Qed.

Lemma mapSet_keys (k : option str) (v : nat) (m : list (option str * nat)) :
  map fst (mapSet k v m)
  = match mapGet k m with
    | Some _ => map fst m
    | None => map fst m ++ [k]
    end.
Proof.
  induction m as [|[k' v'] m IH]; cbn [mapSet mapGet map fst app];
    [reflexivity|].
  destruct (keyEqb k' k); cbn [map fst]; [reflexivity|].
  rewrite IH. now destruct (mapGet k m).
Qed.

Lemma mapGet_set_same (k : option str) (v : nat)
    (m : list (option str * nat)) :
  mapGet k (mapSet k v m) = Some v.
Proof.
  induction m as [|[k' v'] m IH]; cbn [mapSet mapGet].
  - now rewrite keyEqb_refl.
  - destruct (keyEqb k' k) eqn:E; cbn [mapGet]; now rewrite E.
Qed.

Lemma mapGet_set_other (k k0 : option str) (v : nat)
    (m : list (option str * nat)) :
  k0 <> k -> mapGet k0 (mapSet k v m) = mapGet k0 m.
Proof.
  intro Hne. induction m as [|[k' v'] m IH]; cbn [mapSet mapGet].
  - apply not_eq_sym, keyEqb_neq in Hne. now rewrite Hne.
  - destruct (keyEqb k' k) eqn:E; cbn [mapGet].
    + apply keyEqb_eq in E. subst k'.
      apply not_eq_sym, keyEqb_neq in Hne. now rewrite Hne.
    + destruct (keyEqb k' k0); [reflexivity|exact IH].
Qed.

Lemma weight_set (k : option str) (v : nat) (m : list (option str * nat)) :
  weight (mapSet k v m) + held k m = weight m + v.
Proof.
  unfold held.
  induction m as [|[k' v'] m IH]; cbn [mapSet mapGet weight fold_right snd].
  - lia.
  - destruct (keyEqb k' k); cbn [weight fold_right snd].
    + fold (weight m). lia.
    + fold (weight m) (weight (mapSet k v m)). lia.
Qed.

(** What the loop over the colours keeps. *)
Lemma countGroups (cs : list ParsedColor.t) :
  forall m : list (option str * nat),
    NoDup (map fst m) ->
    let m' := fold_left countGroup cs m in
    NoDup (map fst m')
    /\ weight m' = weight m + length cs
    /\ forall k, held k m' = held k m + length (List.filter (inPalette k) cs).
Proof.
  induction cs as [|c cs IH]; intros m Hm; cbv zeta; cbn [fold_left].
  - cbn [length List.filter]. repeat split; [exact Hm|lia|intro; lia].
  - set (g := hd_error (ParsedColor.path c)).
    assert (Hstep : NoDup (map fst (countGroup m c))).
    { unfold countGroup. fold g. rewrite mapSet_keys.
      destruct (mapGet g m) eqn:E; [exact Hm|].
      apply NoDup_app.
      - exact Hm.
      - apply NoDup_cons; [intros []|apply NoDup_nil].
      - intros x Hx [<-|[]]. now apply mapGet_absent in E. }
    destruct (IH (countGroup m c) Hstep) as (Hn & Hw & Hh).
    split; [exact Hn|]. split.
    + cbv zeta in Hw. rewrite Hw. unfold countGroup. fold g.
      pose proof (weight_set g (held g m + 1) m) as W.
      unfold held in W at 1. unfold held.
      cbn [length]. unfold held in W. lia.
    + intro k. cbv zeta in Hh. rewrite Hh.
      cbn [List.filter]. unfold inPalette at 2. fold g.
      unfold held at 1, countGroup. fold g.
      destruct (keyEqb g k) eqn:E.
      * apply keyEqb_eq in E. subst k. rewrite mapGet_set_same.
        unfold held. cbn [length]. lia.
      * apply keyEqb_neq in E. rewrite mapGet_set_other by congruence.
        fold (held k m). lia.
Qed.

Lemma mapSet_in (k k0 : option str) (v n : nat)
    (m : list (option str * nat)) :
  In (k0, n) (mapSet k v m) -> n = v \/ In (k0, n) m.
Proof.
  induction m as [|[k' v'] m IH]; cbn [mapSet In].
  - intros [[= <- <-]|[]]. now left.
  - destruct (keyEqb k' k); cbn [In].
    + intros [[= <- <-]|H]; [now left|right; now right].
    + intros [H|H]; [right; now left|].
      destruct (IH H) as [->|H']; [now left|right; now right].
Qed.

Lemma countGroups_positive (cs : list ParsedColor.t) :
  forall (m : list (option str * nat)) (k : option str) (n : nat),
    (forall k n, In (k, n) m -> 0 < n) ->
    In (k, n) (fold_left countGroup cs m) -> 0 < n.
Proof.
  induction cs as [|c cs IH]; intros m k n Hm; cbn [fold_left];
    [apply Hm|].
  apply IH. intros k0 n0 Hin. unfold countGroup in Hin.
  apply mapSet_in in Hin. destruct Hin as [->|Hin]; [lia|].
  now apply (Hm k0).
Qed.

Lemma held_in (k : option str) (n : nat) (m : list (option str * nat)) :
  NoDup (map fst m) -> In (k, n) m -> held k m = n.
Proof.
  unfold held. induction m as [|[k' v] m IH]; cbn [map fst In mapGet];
    intros Hm Hin; [contradiction|].
  apply NoDup_cons_iff in Hm. destruct Hm as [Hk Hm].
  destruct Hin as [[= -> ->]|Hin].
  - now rewrite keyEqb_refl.
  - destruct (keyEqb k' k) eqn:E.
    + apply keyEqb_eq in E. subst k'. exfalso. apply Hk.
      now apply (in_map fst) in Hin.
    + now apply IH.
Qed.

Lemma total_entries (m : list (option str * nat)) :
  total (map (fun entry => Node (fst entry) (snd entry) None) m) = weight m.
Proof.
  induction m as [|e m IH]; [reflexivity|].
  cbn [map total fold_right count weight]. fold (weight m).
  fold (total (map (fun entry => Node (fst entry) (snd entry) None) m)).
  now rewrite IH.
Qed.

Lemma leaf_positive {A} (name : string) (family : list A)
    (n : PreviewNode) :
  In n (leaf name family) -> 0 < count n /\ children n = None.
Proof.
  unfold leaf. destruct (Nat.ltb 0 (length family)) eqn:E; [|intros []].
  intros [<-|[]]. cbn [count children]. apply Nat.ltb_lt in E. now split.
Qed.

Lemma leaf_labels {A} (name : string) (family : list A) :
  map label (leaf name family) = [Some (js name)]
  \/ map label (leaf name family) = [].
Proof. unfold leaf. destruct (Nat.ltb _ _); [now left|now right]. Qed.

End PreviewFacts.

(** X20 ([buildPreviewTree]).  When there are colours, the tree starts with
    the node [Colors], counted with all of them, whose children are the
    palettes (the first components of the paths), each one once, each with
    the number of the colours that are in it and so with at least one; the
    counts of the palettes add up to the count of [Colors].  Every other
    node of the tree is a family that is not empty, without children. *)
Theorem buildPreviewTree_groups_colors (tokens : ParsedTokenSet) :
  (colors tokens <> [] ->
   exists palettes rest,
     Preview.buildPreviewTree tokens
     = Preview.Node (Some (js "Colors")) (length (colors tokens))
         (Some palettes) :: rest
     /\ Preview.total palettes = length (colors tokens)
     /\ NoDup (map Preview.label palettes)
     /\ (forall p, In p palettes ->
           Preview.children p = None
           /\ 0 < Preview.count p
           /\ Preview.count p
              = length (List.filter (Preview.inPalette (Preview.label p))
                          (colors tokens)))
     /\ forall n, In n rest ->
          0 < Preview.count n /\ Preview.children n = None)
  /\ (colors tokens = [] ->
      forall n, In n (Preview.buildPreviewTree tokens) ->
        0 < Preview.count n /\ Preview.children n = None).
Proof.
  assert (Hrest : forall n,
             In n (Preview.leaf "Spacing" (spacing tokens)
                   ++ Preview.leaf "Radius" (radius tokens)
                   ++ Preview.leaf "Shadows" (shadows tokens)
                   ++ Preview.leaf "Blur" (blur tokens)
                   ++ Preview.leaf "Typography" (typography tokens)
                   ++ Preview.leaf "Opacity" (opacity tokens)
                   ++ Preview.leaf "Breakpoints" (breakpoints tokens)
                   ++ Preview.leaf "Containers" (containers tokens)
                   ++ Preview.leaf "Font Weights" (fontWeights tokens)
                   ++ Preview.leaf "Tracking" (tracking tokens)
                   ++ Preview.leaf "Leading" (leading tokens)
                   ++ Preview.leaf "Max Width" (maxWidth tokens)) ->
             0 < Preview.count n /\ Preview.children n = None).
  { intros n Hn.
    repeat (apply in_app_or in Hn; destruct Hn as [Hn|Hn];
            [now apply PreviewFacts.leaf_positive in Hn|]).
    now apply PreviewFacts.leaf_positive in Hn. }
  unfold Preview.buildPreviewTree. split.
  - intro Hne.
    destruct (colors tokens) as [|c cs] eqn:Ec; [contradiction|].
    cbn [length Nat.ltb Nat.leb]. cbn [app].
    destruct (PreviewFacts.countGroups (c :: cs) [] (NoDup_nil _))
      as (Hn & Hw & Hh).
    cbv zeta in Hn, Hw, Hh.
    eexists. eexists. split; [reflexivity|].
    split; [|split; [|split]].
    + rewrite PreviewFacts.total_entries, Hw. reflexivity.
    + rewrite map_map. cbn [Preview.label]. exact Hn.
    + intros p Hp. apply in_map_iff in Hp.
      destruct Hp as ([k n] & <- & Hin).
      cbn [fst snd Preview.children Preview.count Preview.label].
      pose proof (PreviewFacts.held_in k n _ Hn Hin) as Hk.
      rewrite Hh in Hk. cbn [Preview.held Preview.mapGet] in Hk.
      assert (Hpos : 0 < n).
      { apply (PreviewFacts.countGroups_positive (c :: cs) [] k n);
          [intros ? ? []|exact Hin]. }
      repeat split; [exact Hpos|]. rewrite <- Hk. lia.
    + exact Hrest.
  - intros Hnil. rewrite Hnil. cbn [length Nat.ltb Nat.leb app].
    exact Hrest.
Qed.

Lemma buildPreviewTree_groups_colors_witness :
  let color p :=
    ParsedColor.make p (RGBA 0 0 0 1)%float (js "#000") in
  let tokens :=
    Tailwind.setColors
      [color [js "red"; js "500"]; color [js "blue"; js "500"];
       color [js "red"; js "600"]]
      (Push.spacing (ParsedFloat.make [js "base"] 4%float (js "4px"))
         emptyTokenSet) in
  Preview.buildPreviewTree tokens
  = [Preview.Node (Some (js "Colors")) 3
       (Some [Preview.Node (Some (js "red")) 2 None;
              Preview.Node (Some (js "blue")) 1 None]);
     Preview.Node (Some (js "Spacing")) 1 None]
  /\ exists palettes rest,
       Preview.buildPreviewTree tokens
       = Preview.Node (Some (js "Colors")) (length (colors tokens))
           (Some palettes) :: rest
       /\ Preview.total palettes = length (colors tokens).
Proof.
  cbv zeta. split; [reflexivity|].
  destruct (proj1 (buildPreviewTree_groups_colors
                     (Tailwind.setColors
                        [ParsedColor.make [js "red"; js "500"]
                           (RGBA 0 0 0 1)%float (js "#000");
                         ParsedColor.make [js "blue"; js "500"]
                           (RGBA 0 0 0 1)%float (js "#000");
                         ParsedColor.make [js "red"; js "600"]
                           (RGBA 0 0 0 1)%float (js "#000")]
                        (Push.spacing
                           (ParsedFloat.make [js "base"] 4%float (js "4px"))
                           emptyTokenSet)))
              ltac:(discriminate))
    as (palettes & rest & H & Ht & _).
  exists palettes, rest. split; [exact H|exact Ht].
Defined.

(* ===================================================================== *)
(** ** The dimensions of the JSON token files *)
(* ===================================================================== *)

Module JsonShape.
Import Re.

Lemma unit_shape (u s : str) (m : rmatched) :
  exec (JsonPattern.unitPattern u) s = Some m ->
  exists ds,
    s = ds ++ u /\ ds <> [] /\ forallb digitDot ds = true /\ text 1 m = ds.
Proof.
  intro H. apply ReCaptures.exec_run in H.
  destruct H as (pre & w & t & c' & -> & R & _ & _ & G).
  unfold JsonPattern.unitPattern in R. cbn [seq] in R.
  apply ReCaptures.Run_Cat_inv in R.
  destruct R as (w0 & w' & c0 & -> & R0 & R).
  apply ReCaptures.Run_Bol_inv in R0. destruct R0 as (Hp & -> & ->).
  apply length_zero_iff_nil in Hp. subst pre.
  apply ReCaptures.Run_Cat_inv in R.
  destruct R as (ds & w2 & c1 & -> & R1 & R).
  apply ReCaptures.Run_Grp_inv in R1. destruct R1 as (c2 & R1 & ->).
  apply ReCaptures.Run_plus_class in R1. destruct R1 as (Hne & Hds & ->).
  apply ReCaptures.Run_Cat_inv in R.
  destruct R as (u' & e & c4 & -> & Ru & Re).
  apply ReCaptures.Run_lit in Ru. destruct Ru as [-> ->].
  apply ReCaptures.Run_Eol_inv in Re. destruct Re as (-> & -> & ->).
  exists ds. cbn [app]. rewrite !app_nil_r.
  repeat split; try assumption.
  unfold text, group. rewrite G.
  rewrite ReCaptures.nth_setNth_neq by lia.
  now rewrite ReCaptures.nth_setNth_eq.
Qed.

Lemma unit_run (u ds : str) :
  ds <> [] -> forallb digitDot ds = true -> stopsClass digitDot u ->
  exists m, exec (JsonPattern.unitPattern u) (ds ++ u) = Some m /\ text 1 m = ds.
Proof.
  intros Hne Hds Hu. eexists. split.
  - unfold exec. apply CalcShape.searchFrom_here. unfold matchHere.
    unfold JsonPattern.unitPattern. cbn [seq].
    rewrite CalcShape.rmatch_Cat, DimensionShape.rmatch_Bol by reflexivity.
    rewrite CalcShape.rmatch_Cat, CalcShape.rmatch_Grp.
    apply (ReRun.run_plus_class digitDot ds u);
      [exact Hne|exact Hds|exact Hu|reflexivity|].
    rewrite CalcShape.rmatch_Cat.
    rewrite (ReRun.run_lit u []) by
      (cbn [capture after rest]; now rewrite app_nil_r).
    cbn [rmatch after capture rest]. reflexivity.
  - unfold text, group.
    cbn [groups caps capture after setNth nth pos rest length].
    apply CalcShape.firstn_exact. lia.
Qed.

Lemma px_not_rem (ds ds' : str) : ds ++ js "rem" <> ds' ++ js "px".
Proof.
  intro H. apply (f_equal (@rev ascii)) in H.
  rewrite !rev_app_distr in H. discriminate H.
Qed.

End JsonShape.

Section JsonDimensions.
Context {num : Type} (N : JsNum num).

Lemma parseDimensionValue_px (ds : str) :
  ds <> [] -> forallb Re.digitDot ds = true ->
  JsonTokens.parseDimensionValue (N := N)
    (Some (JsonTokens.JString (ds ++ js "px")))
  = Some (parseFloat ds).
Proof.
  intros Hne Hds. unfold JsonTokens.parseDimensionValue.
  destruct ds as [|c ds]; [contradiction|]. cbn [app].
  change (c :: ds ++ js "px") with ((c :: ds) ++ js "px").
  destruct (JsonShape.unit_run (js "px") (c :: ds) Hne Hds eq_refl)
    as (m & Hm & Ht).
  change (JsonPattern.unitPattern (js "px")) with JsonPattern.px in Hm.
  now rewrite Hm, Ht.
Qed.

Lemma parseDimensionValue_rem (ds : str) :
  ds <> [] -> forallb Re.digitDot ds = true ->
  JsonTokens.parseDimensionValue (N := N)
    (Some (JsonTokens.JString (ds ++ js "rem")))
  = Some (mul (parseFloat ds) (lit 16)).
Proof.
  intros Hne Hds. unfold JsonTokens.parseDimensionValue.
  destruct ds as [|c ds]; [contradiction|]. cbn [app].
  change (c :: ds ++ js "rem") with ((c :: ds) ++ js "rem").
  destruct (Re.exec JsonPattern.px ((c :: ds) ++ js "rem")) as [m|] eqn:E.
  - apply (JsonShape.unit_shape (js "px")) in E.
    destruct E as (ds' & E & _). now apply JsonShape.px_not_rem in E.
  - destruct (JsonShape.unit_run (js "rem") (c :: ds) Hne Hds eq_refl)
      as (m & Hm & Ht).
    change (JsonPattern.unitPattern (js "rem")) with JsonPattern.rem in Hm.
    now rewrite Hm, Ht.
Qed.

Lemma parseDimensionValue_shape (value : option JsonTokens.Json) (x : num) :
  JsonTokens.parseDimensionValue (N := N) value = Some x ->
  exists ds,
    ds <> [] /\ forallb Re.digitDot ds = true
    /\ (value = Some (JsonTokens.JString (ds ++ js "px"))
          /\ x = parseFloat ds
        \/ value = Some (JsonTokens.JString (ds ++ js "rem"))
           /\ x = mul (parseFloat ds) (lit 16)).
Proof.
  unfold JsonTokens.parseDimensionValue.
  destruct value as [[| | |[|c s]| |]|]; try discriminate.
  destruct (Re.exec JsonPattern.px (c :: s)) as [m|] eqn:E.
  - intros [= <-]. apply (JsonShape.unit_shape (js "px")) in E.
    destruct E as (ds & E & Hne & Hds & ->).
    exists ds. rewrite E. repeat split; try assumption. left. now split.
  - destruct (Re.exec JsonPattern.rem (c :: s)) as [m|] eqn:E';
      [|discriminate].
    intros [= <-]. apply (JsonShape.unit_shape (js "rem")) in E'.
    destruct E' as (ds & E' & Hne & Hds & ->).
    exists ds. rewrite E'. repeat split; try assumption. right. now split.
Qed.

Lemma digits_unit_trim (ds u : str) :
  forallb Re.digitDot ds = true -> In u [js "px"; js "rem"] ->
  Str.trim (ds ++ u) = ds ++ u.
Proof.
  intros Hds Hu. apply trim_none. rewrite forallb_app.
  apply andb_true_intro. split.
  - apply forallb_forall. intros c Hc.
    rewrite forallb_forall in Hds.
    now rewrite (CalcShape.digitDot_not_space c (Hds c Hc)).
  - destruct Hu as [<-|[<-|[]]]; reflexivity.
Qed.

Lemma parseDimensionValue_string (value : option JsonTokens.Json) (x : num) :
  JsonTokens.parseDimensionValue (N := N) value = Some x ->
  exists s,
    value = Some (JsonTokens.JString s)
    /\ parseDimension (N := N) s = Some x.
Proof.
  intro H. apply parseDimensionValue_shape in H.
  destruct H as (ds & Hne & Hds & [[-> ->]|[-> ->]]).
  - exists (ds ++ js "px"). split; [reflexivity|].
    rewrite (parseDimension_eval N (ds ++ js "px") [] ds (js "px"));
      [reflexivity|..]; try assumption.
    + apply (digits_unit_trim ds (js "px")); [exact Hds|now left].
    + now left.
    + right. right. now left.
  - exists (ds ++ js "rem"). split; [reflexivity|].
    rewrite (parseDimension_eval N (ds ++ js "rem") [] ds (js "rem"));
      [reflexivity|..]; try assumption.
    + apply (digits_unit_trim ds (js "rem")); [exact Hds|right; now left].
    + now left.
    + right. now left.
Qed.

End JsonDimensions.

(** X21 ([parseDimensionValue] of the JSON token parser).  It returns a
    number exactly for the strings made of digits and dots followed by
    [px] or by [rem]; the number is [parseFloat] of the digits, times 16
    for [rem].  Whenever it returns a number for a string, [parseDimension]
    returns the same number for that string.  It returns [null] for
    everything else: a number of the file, a string without unit, with a
    sign or with the unit [em]. *)
Theorem parseDimensionValue_agrees {num : Type} (N : JsNum num)
    (value : option JsonTokens.Json) (x : num) :
  (JsonTokens.parseDimensionValue (N := N) value = Some x <->
   exists digits,
     digits <> [] /\ forallb Re.digitDot digits = true
     /\ (value = Some (JsonTokens.JString (digits ++ js "px"))
           /\ x = parseFloat digits
         \/ value = Some (JsonTokens.JString (digits ++ js "rem"))
            /\ x = mul (parseFloat digits) (lit 16)))
  /\ (JsonTokens.parseDimensionValue (N := N) value = Some x ->
      exists s,
        value = Some (JsonTokens.JString s)
        /\ parseDimension (N := N) s = Some x).
Proof.
  split; [split|].
  - apply parseDimensionValue_shape.
  - intros (ds & Hne & Hds & [[-> ->]|[-> ->]]).
    + now apply parseDimensionValue_px.
    + now apply parseDimensionValue_rem.
  - apply parseDimensionValue_string.
Qed.

Lemma parseDimensionValue_agrees_witness :
  JsonTokens.parseDimensionValue
    (N := floatNum Sample.unary Sample.unary Sample.binary)
    (Some (JsonTokens.JString (js "0.625rem")))
  = Some 10%float
  /\ exists s,
       Some (JsonTokens.JString (js "0.625rem"))
       = Some (JsonTokens.JString s)
       /\ parseDimension
            (N := floatNum Sample.unary Sample.unary Sample.binary) s
          = Some 10%float.
Proof.
  assert (H : JsonTokens.parseDimensionValue
                (N := floatNum Sample.unary Sample.unary Sample.binary)
                (Some (JsonTokens.JString (js "0.625rem")))
              = Some 10%float) by (vm_compute; reflexivity).
  split; [exact H|].
  exact (proj2 (parseDimensionValue_agrees
                  (floatNum Sample.unary Sample.unary Sample.binary)
                  _ _) H).
Defined.

Section JsonFloats.
Context {num : Type} (N : JsNum num).

(** The dimension strings of an entry: its value, or the values of its two
    modes. *)
Lemma parseJsonFloatToken_inv (categoryPrefix key : str)
    (value : JsonTokens.Json) (t : JsonTokens.JsonFloatToken) :
  In t (JsonTokens.parseJsonFloatToken (N := N) categoryPrefix (key, value)) ->
  JsonTokens.parseJsonFloatToken (N := N) categoryPrefix (key, value) = [t]
  /\ Str.startsWith categoryPrefix key = true
  /\ JsonTokens.name t = Str.replace (categoryPrefix ++ js "/") [] key
  /\ exists sl sd,
       parseDimension (N := N) sl = Some (JsonTokens.lightValue t)
       /\ parseDimension (N := N) sd = Some (JsonTokens.darkValue t)
       /\ forall s, s = sl \/ s = sd ->
            value = JsonTokens.JString s
            \/ JsonTokens.get "Light" value = Some (JsonTokens.JString s)
            \/ JsonTokens.get "Dark" value = Some (JsonTokens.JString s).
Proof.
  unfold JsonTokens.parseJsonFloatToken.
  destruct (Str.startsWith categoryPrefix key); cbn [negb]; [|intros []].
  destruct (JsonTokens.has "Light" value || JsonTokens.has "Dark" value).
  - destruct (JsonTokens.parseDimensionValue
                (JsonTokens.get "Light" value)) as [l|] eqn:El;
      destruct (JsonTokens.parseDimensionValue
                  (JsonTokens.get "Dark" value)) as [d|] eqn:Ed;
      try (intros H; contradiction H); intros [<-|[]];
      (split; [reflexivity|]); (split; [reflexivity|]);
      (split; [reflexivity|]);
      cbn [JsonTokens.lightValue JsonTokens.darkValue].
    + apply parseDimensionValue_string in El, Ed.
      destruct El as (sl & Gl & Pl). destruct Ed as (sd & Gd & Pd).
      exists sl, sd. repeat split; try assumption.
      intros s [-> | ->]; auto.
    + apply parseDimensionValue_string in El.
      destruct El as (sl & Gl & Pl).
      exists sl, sl. repeat split; try assumption.
      intros s [-> | ->]; auto.
    + apply parseDimensionValue_string in Ed.
      destruct Ed as (sd & Gd & Pd).
      exists sd, sd. repeat split; try assumption.
      intros s [-> | ->]; auto.
  - destruct value as [| | |s| |]; try (intros H; contradiction H).
    destruct (JsonTokens.parseDimensionValue
                (Some (JsonTokens.JString s))) as [x|] eqn:E;
      [|intros []].
    intros [<-|[]].
    (split; [reflexivity|]); (split; [reflexivity|]);
    (split; [reflexivity|]).
    cbn [JsonTokens.lightValue JsonTokens.darkValue].
    apply parseDimensionValue_string in E.
    destruct E as (s' & [= <-] & P).
    exists s, s. repeat split; try assumption.
    intros ? [-> | ->]; auto.
Qed.

Lemma parseJsonFloatToken_short (categoryPrefix : str)
    (entry : str * JsonTokens.Json) :
  length (JsonTokens.parseJsonFloatToken (N := N) categoryPrefix entry) <= 1.
Proof.
  destruct entry as [key value].
  destruct (JsonTokens.parseJsonFloatToken (N := N) categoryPrefix
              (key, value)) as [|t ts] eqn:E; [cbn; lia|].
  assert (Hin : In t (JsonTokens.parseJsonFloatToken (N := N)
                        categoryPrefix (key, value)))
    by (rewrite E; now left).
  apply parseJsonFloatToken_inv in Hin. destruct Hin as [Hs _].
  rewrite E in Hs. injection Hs as ->. cbn. lia.
Qed.

End JsonFloats.

(** X22 ([parseJsonFloatTokens]).  There is at most one token for each
    entry of the file.  Every token comes from an entry whose key starts
    with the prefix; its name is the key without the first [prefix/], so
    the rest of the key when the key is [prefix/rest]; its light and its
    dark value are both read by the rules of [parseDimension] from strings
    of the entry (its value, or the values of its modes), so the default 0
    of the source is never used.  An entry whose value is a number of the
    file gives no token. *)
Theorem parseJsonFloatTokens_from_strings {num : Type} (N : JsNum num)
    (data : list (str * JsonTokens.Json)) (categoryPrefix : str) :
  length (JsonTokens.parseJsonFloatTokens (N := N) data categoryPrefix)
  <= length data
  /\ (forall t,
        In t (JsonTokens.parseJsonFloatTokens (N := N) data categoryPrefix) ->
        exists key value,
          In (key, value) data
          /\ Str.startsWith categoryPrefix key = true
          /\ JsonTokens.name t
             = Str.replace (categoryPrefix ++ js "/") [] key
          /\ (forall rest,
                key = categoryPrefix ++ js "/" ++ rest ->
                JsonTokens.name t = rest)
          /\ exists sl sd,
               parseDimension (N := N) sl = Some (JsonTokens.lightValue t)
               /\ parseDimension (N := N) sd
                  = Some (JsonTokens.darkValue t)
               /\ forall s, s = sl \/ s = sd ->
                    value = JsonTokens.JString s
                    \/ JsonTokens.get "Light" value
                       = Some (JsonTokens.JString s)
                    \/ JsonTokens.get "Dark" value
                       = Some (JsonTokens.JString s))
  /\ (forall key x,
        JsonTokens.parseJsonFloatTokens (N := N)
          [(key, JsonTokens.JNumber x)] categoryPrefix = []).
Proof.
  unfold JsonTokens.parseJsonFloatTokens. split; [|split].
  - induction data as [|entry data IH]; [reflexivity|].
    cbn [flat_map length]. rewrite length_app.
    pose proof (parseJsonFloatToken_short N categoryPrefix entry). lia.
  - intros t Hin. apply in_flat_map in Hin.
    destruct Hin as ([key value] & Hd & Ht).
    apply parseJsonFloatToken_inv in Ht.
    destruct Ht as (_ & Hp & Hn & Hv).
    exists key, value. repeat (split; [assumption|]).
    split; [|exact Hv].
    intros rest ->. rewrite Hn.
    change (categoryPrefix ++ js "/" ++ rest)
      with (categoryPrefix ++ (js "/" ++ rest)).
    rewrite app_assoc. apply replace_prefix.
  - intros key x. cbn [flat_map]. rewrite app_nil_r.
    unfold JsonTokens.parseJsonFloatToken.
    destruct (negb _); reflexivity.
Qed.

Lemma parseJsonFloatTokens_from_strings_witness :
  let N := floatNum Sample.unary Sample.unary Sample.binary in
  let data :=
    [(js "radius/sm", JsonTokens.JString (js "4px"));
     (js "radius/md", JsonTokens.JNumber 8);
     (js "radius/lg",
      JsonTokens.JObject [(js "Dark", JsonTokens.JString (js "0.75rem"))]);
     (js "color/bg", JsonTokens.JString (js "1px"))] in
  JsonTokens.parseJsonFloatTokens (N := N) data (js "radius")
  = [JsonTokens.FloatToken (js "sm") 4%float 4%float;
     JsonTokens.FloatToken (js "lg") 12%float 12%float]
  /\ forall t,
       In t (JsonTokens.parseJsonFloatTokens (N := N) data (js "radius")) ->
       exists key value,
         In (key, value) data
         /\ Str.startsWith (js "radius") key = true.
Proof.
  cbv zeta. split; [vm_compute; reflexivity|].
  intros t Hin.
  destruct (proj1 (proj2 (parseJsonFloatTokens_from_strings
                            (floatNum Sample.unary Sample.unary
                               Sample.binary) _ _)) t Hin)
    as (key & value & Hd & Hp & _).
  now exists key, value.
Defined.

(* ===================================================================== *)
(** ** The order of the adapters *)
(* ===================================================================== *)

Module RegistryFacts.
Import Registry.

Section Facts.
Variable adapters : gmap str LibraryAdapter.

Lemma needs_trans (x y z : str) :
  needs adapters x y -> needs adapters y z -> needs adapters x z.
Proof.
  induction 1 as [x|x d y a Ha Hd _ IH]; intro H; [exact H|].
  exact (needs_step adapters x d z a Ha Hd (IH H)).
Qed.

Lemma needs_dependency (x d : str) (a : LibraryAdapter) :
  adapters !! x = Some a -> In d (dependencies a) -> needs adapters x d.
Proof.
  intros Ha Hd. exact (needs_step adapters x d d a Ha Hd (needs_refl _ d)).
Qed.

Lemma orderedFrom_snoc (l : list LibraryAdapter) (a : LibraryAdapter) :
  forall seen,
    orderedFrom adapters seen (l ++ [a]) <->
    orderedFrom adapters seen l
    /\ (forall d, In d (dependencies a) -> is_Some (adapters !! d) ->
                  In d (seen ++ map id l) \/ needs adapters d (id a)).
Proof.
  induction l as [|b l IH]; intro seen; cbn [app orderedFrom map].
  - rewrite app_nil_r. tauto.
  - rewrite IH. rewrite <- app_assoc. cbn [app]. tauto.
Qed.

Lemma orderedFrom_split (l1 l2 : list LibraryAdapter) (a : LibraryAdapter) :
  forall seen,
    orderedFrom adapters seen (l1 ++ a :: l2) ->
    forall d, In d (dependencies a) -> is_Some (adapters !! d) ->
              In d (seen ++ map id l1) \/ needs adapters d (id a).
Proof.
  induction l1 as [|b l1 IH]; intros seen H d Hd Hr; cbn [app orderedFrom map]
    in *.
  - rewrite app_nil_r. now apply (proj1 H).
  - destruct H as [_ H]. specialize (IH _ H d Hd Hr).
    rewrite <- app_assoc in IH. exact IH.
Qed.

Lemma Extends_refl (roots : list str) (st : state) :
  (forall r, In r roots -> r ∈ visited st) -> Extends adapters roots st st.
Proof.
  intro H. exists []. rewrite app_nil_r.
  split; [reflexivity|]. split; [intros b []|]. split; [set_solver|exact H].
Qed.

Lemma measure_mono (v v' : gset str) :
  v ⊆ v' -> size (dom adapters ∖ v') <= size (dom adapters ∖ v).
Proof. intro H. apply subseteq_size. set_solver. Qed.

Lemma measure_step (v : gset str) (k : str) :
  is_Some (adapters !! k) -> k ∉ v ->
  size (dom adapters ∖ ({[k]} ∪ v)) < size (dom adapters ∖ v).
Proof.
  intros Hk Hv. apply subset_size. apply elem_of_dom in Hk.
  set_solver.
Qed.

(** The calls for a list of identifiers, one after the other. *)
Lemma each_spec (f : str -> state -> option state) (fuel : nat)
    (grey : list str) :
  (forall adapterId st,
      size (dom adapters ∖ visited st) < fuel -> Inv adapters grey st ->
      (forall g, In g grey -> needs adapters g adapterId) ->
      exists st',
        f adapterId st = Some st'
        /\ Extends adapters [adapterId] st st' /\ Inv adapters grey st') ->
  forall (ids : list str) (st : state),
    size (dom adapters ∖ visited st) < fuel -> Inv adapters grey st ->
    (forall g d, In g grey -> In d ids -> needs adapters g d) ->
    exists st',
      fold_left
        (fun acc adapterId =>
           match acc with
           | Some s => f adapterId s
           | None => None
           end)
        ids (Some st) = Some st'
      /\ Extends adapters ids st st' /\ Inv adapters grey st'.
Proof.
  intros Hf ids. induction ids as [|x ids IH]; intros st Hm Hinv Hg;
    cbn [fold_left].
  - exists st. split; [reflexivity|]. split; [|exact Hinv].
    apply Extends_refl. intros r [].
  - destruct (Hf x st Hm Hinv) as (s1 & -> & E1 & I1).
    { intros g Hin. apply (Hg g x Hin). now left. }
    destruct E1 as (new1 & R1 & Hnew1 & V1 & X1).
    destruct (IH s1) as (s2 & -> & E2 & I2).
    { eapply Nat.le_lt_trans; [apply measure_mono, V1|exact Hm]. }
    { exact I1. }
    { intros g d Hin Hd. apply (Hg g d Hin). now right. }
    destruct E2 as (new2 & R2 & Hnew2 & V2 & X2).
    exists s2. split; [reflexivity|]. split; [|exact I2].
    exists (new1 ++ new2). split; [now rewrite R2, R1, app_assoc|].
    split; [|split].
    + intros b Hb. apply in_app_or in Hb. destruct Hb as [Hb|Hb].
      * destruct (Hnew1 b Hb) as ((r & [<-|[]] & Hr) & Hv).
        split; [|exact Hv]. exists x. split; [now left|exact Hr].
      * destruct (Hnew2 b Hb) as ((r & Hin & Hr) & Hv).
        split; [|set_solver]. exists r. split; [now right|exact Hr].
    + set_solver.
    + intros r [<-|Hr]; [|now apply X2]. apply V2, X1. now left.
Qed.

(** One call of [resolve]. *)
Lemma resolve_spec (Hkeyed : keyed adapters) (fuel : nat) :
  forall (grey : list str) (adapterId : str) (st : state),
    size (dom adapters ∖ visited st) < fuel -> Inv adapters grey st ->
    (forall g, In g grey -> needs adapters g adapterId) ->
    exists st',
      resolve adapters fuel adapterId st = Some st'
      /\ Extends adapters [adapterId] st st' /\ Inv adapters grey st'.
Proof.
  induction fuel as [|fuel IH]; intros grey x st Hm Hinv Hg; [lia|].
  cbn [resolve]. case_bool_decide as Hv.
  - exists st. split; [reflexivity|]. split; [|exact Hinv].
    apply Extends_refl. now intros r [<-|[]].
  - destruct Hinv as [Ires Inod Ireg Ivis Iclo Iord].
    destruct (adapters !! x) as [a|] eqn:Ea.
    + assert (Hid : id a = x) by now apply Hkeyed.
      set (st1 := State (result st) ({[x]} ∪ visited st)).
      assert (I1 : Inv adapters (x :: grey) st1).
      { split; cbn [result visited st1].
        - intros b Hb. specialize (Ires b Hb). set_solver.
        - exact Inod.
        - exact Ireg.
        - intros k Hk Hr. apply elem_of_union in Hk.
          destruct Hk as [Hk|Hk].
          + apply elem_of_singleton in Hk. subst k. right. now left.
          + destruct (Ivis k Hk Hr) as [H|H]; [now left|right; now right].
        - intros b d Hb Hd. specialize (Iclo b d Hb Hd). set_solver.
        - exact Iord. }
      destruct (each_spec (resolve adapters fuel) fuel (x :: grey)
                  (IH (x :: grey)) (dependencies a) st1)
        as (s2 & -> & E2 & I2).
      { cbn [visited st1].
        assert (size (dom adapters ∖ ({[x]} ∪ visited st))
                < size (dom adapters ∖ visited st))
          by (apply measure_step; [now rewrite Ea|exact Hv]).
        lia. }
      { exact I1. }
      { intros g d [<-|Hin] Hd.
        - now apply (needs_dependency x d a).
        - apply (needs_trans g x d); [now apply Hg|].
          now apply (needs_dependency x d a). }
      destruct E2 as (new & R2 & Hnew2 & V2 & X2).
      cbn [result visited st1] in R2, Hnew2, V2.
      destruct I2 as [Jres Jnod Jreg Jvis Jclo Jord].
      eexists. split; [reflexivity|].
      assert (Hx2 : x ∈ visited s2) by set_solver.
      assert (Hfresh : ~ In x (map id (result s2))).
      { rewrite R2, map_app. intro Hin. apply in_app_or in Hin.
        destruct Hin as [Hin|Hin]; apply in_map_iff in Hin;
          destruct Hin as (b & Hb & Hin).
        - apply Hv. rewrite <- Hb. now apply Ires.
        - destruct (Hnew2 b Hin) as [_ Hnv]. apply Hnv. rewrite Hb.
          set_solver. }
      split.
      * exists (new ++ [a]). cbn [result visited].
        split; [now rewrite R2, app_assoc|]. split; [|split].
        -- intros b Hb. apply in_app_or in Hb. destruct Hb as [Hb|[<-|[]]].
           ++ destruct (Hnew2 b Hb) as ((d & Hd & Hn) & Hnv).
              split; [|set_solver]. exists x. split; [now left|].
              apply (needs_trans x d (id b)); [|exact Hn].
              now apply (needs_dependency x d a).
           ++ split; [|now rewrite Hid]. exists x. split; [now left|].
              rewrite Hid. apply needs_refl.
        -- set_solver.
        -- now intros r [<-|[]].
      * split; cbn [result visited].
        -- intros b Hb. apply in_app_or in Hb. destruct Hb as [Hb|[<-|[]]].
           ++ now apply Jres.
           ++ now rewrite Hid.
        -- rewrite map_app. cbn [map]. rewrite Hid.
           apply NoDup_app; [exact Jnod| |].
           ++ apply NoDup_cons; [intros []|apply NoDup_nil].
           ++ intros k Hk [<-|[]]. now apply Hfresh.
        -- intros b Hb. apply in_app_or in Hb. destruct Hb as [Hb|[<-|[]]].
           ++ now apply Jreg.
           ++ now rewrite Hid.
        -- intros k Hk Hr. rewrite map_app. cbn [map]. rewrite Hid.
           destruct (Jvis k Hk Hr) as [H|[<-|H]].
           ++ left. apply in_or_app. now left.
           ++ left. apply in_or_app. right. now left.
           ++ now right.
        -- intros b d Hb Hd. apply in_app_or in Hb.
           destruct Hb as [Hb|[<-|[]]].
           ++ now apply (Jclo b d).
           ++ now apply X2.
        -- apply orderedFrom_snoc. split; [exact Jord|].
           intros d Hd Hr. cbn [app]. rewrite Hid.
           destruct (Jvis d (X2 d Hd) Hr) as [H|[<-|H]].
           ++ now left.
           ++ right. apply needs_refl.
           ++ right. now apply Hg.
    + eexists. split; [reflexivity|]. split.
      * exists []. cbn [result visited]. rewrite app_nil_r.
        split; [reflexivity|]. split; [intros b []|].
        split; [set_solver|]. intros r [<-|[]]. set_solver.
      * split; cbn [result visited].
        -- intros b Hb. specialize (Ires b Hb). set_solver.
        -- exact Inod.
        -- exact Ireg.
        -- intros k Hk Hr. apply elem_of_union in Hk.
           destruct Hk as [Hk|Hk]; [|now apply Ivis].
           apply elem_of_singleton in Hk. subst k.
           rewrite Ea in Hr. now destruct Hr.
        -- intros b d Hb Hd. specialize (Iclo b d Hb Hd). set_solver.
        -- exact Iord.
Qed.

Lemma Inv_start : Inv adapters [] (State [] ∅).
Proof.
  split; cbn [result visited map orderedFrom]; try (intros; contradiction);
    try exact I; try apply NoDup_nil.
  - intros k Hk. set_solver.
Qed.

Lemma measure_start :
  size (dom adapters ∖ visited (State [] ∅)) < depth adapters.
Proof.
  unfold depth. cbn [visited].
  assert (size (dom adapters ∖ (∅ : gset str)) <= size (dom adapters))
    by (apply subseteq_size; set_solver).
  lia.
Qed.

(** Everything that a visited identifier needs is in the result once no
    call is pending. *)
Lemma needed_in_result (st : state) (x k : str) :
  Inv adapters [] st -> needs adapters x k -> x ∈ visited st ->
  is_Some (adapters !! k) -> In k (map id (result st)).
Proof.
  intros [Ires Inod Ireg Ivis Iclo Iord] Hn.
  induction Hn as [x|x d z a Ha Hd _ IH]; intros Hx Hk.
  - destruct (Ivis x Hx Hk) as [H|[]]. exact H.
  - apply IH; [|exact Hk].
    destruct (Ivis x Hx ltac:(now rewrite Ha)) as [H|[]].
    apply in_map_iff in H. destruct H as (b & Hb & Hin).
    assert (b = a).
    { pose proof (Ireg b Hin) as Hr. rewrite Hb, Ha in Hr. congruence. }
    subst b. now apply (Iclo a d).
Qed.

(** More fuel changes nothing. *)
Lemma fold_none {A B} (f : A -> B -> option B) (l : list A) :
  fold_left (fun acc x => match acc with Some s => f x s | None => None end)
    l None = None.
Proof. induction l as [|x l IH]; [reflexivity|exact IH]. Qed.

Lemma fold_more {A B} (f g : A -> B -> option B) (l : list A) :
  (forall x s s', f x s = Some s' -> g x s = Some s') ->
  forall s s',
    fold_left (fun acc x => match acc with Some s => f x s | None => None end)
      l (Some s) = Some s' ->
    fold_left (fun acc x => match acc with Some s => g x s | None => None end)
      l (Some s) = Some s'.
Proof.
  intro Hfg. induction l as [|x l IH]; intros s s'; cbn [fold_left];
    [auto|].
  destruct (f x s) as [s1|] eqn:E.
  - rewrite (Hfg x s s1 E). apply IH.
  - now rewrite fold_none.
Qed.

Lemma resolve_more (fuel : nat) :
  forall fuel' adapterId st st',
    fuel <= fuel' ->
    resolve adapters fuel adapterId st = Some st' ->
    resolve adapters fuel' adapterId st = Some st'.
Proof.
  induction fuel as [|fuel IH]; intros fuel' x st st' Hle; [discriminate|].
  destruct fuel' as [|fuel']; [lia|]. cbn [resolve].
  case_bool_decide; [auto|].
  destruct (adapters !! x) as [a|]; [|auto].
  destruct (fold_left _ (dependencies a) _) as [s2|] eqn:E; [|discriminate].
  intros [= <-].
  rewrite (fold_more (resolve adapters fuel) (resolve adapters fuel')
             (dependencies a)
             (fun y s s' => IH fuel' y s s' ltac:(lia)) _ _ E).
  reflexivity.
Qed.

End Facts.

End RegistryFacts.

(** X23 ([resolveAdapters], [getAdapterWithDeps]).  In a registry that
    holds every adapter under its [id], [resolveAdapters] returns (the
    recursion ends within the depth allowed, and more depth changes
    nothing) a list without repetition, made of exactly the registered
    adapters that the requested identifiers need: the requested ones and,
    step by step, their dependencies.  In this list every adapter comes
    after each of its registered dependencies, except a dependency that
    needs the adapter itself (a cycle).  [getAdapterWithDeps] is
    [resolveAdapters] for one identifier. *)
Theorem resolveAdapters_dependencies_first
    (adapters : gmap str Registry.LibraryAdapter) (ids : list str) :
  Registry.keyed adapters ->
  exists res,
    Registry.resolveAdapters adapters ids = Some res
    /\ (forall fuel,
          Registry.depth adapters <= fuel ->
          exists st,
            Registry.resolveEach adapters fuel ids (Registry.State [] ∅)
            = Some st
            /\ Registry.result st = res)
    /\ NoDup (map Registry.id res)
    /\ (forall a,
          In a res <->
          adapters !! Registry.id a = Some a
          /\ exists r, In r ids /\ Registry.needs adapters r (Registry.id a))
    /\ (forall l1 a l2,
          res = l1 ++ a :: l2 ->
          forall d,
            In d (Registry.dependencies a) -> is_Some (adapters !! d) ->
            In d (map Registry.id l1)
            \/ Registry.needs adapters d (Registry.id a))
    /\ (forall adapterId,
          Registry.getAdapterWithDeps adapters adapterId
          = Registry.resolveAdapters adapters [adapterId]).
Proof.
  intro Hkeyed.
  destruct (RegistryFacts.each_spec adapters
              (Registry.resolve adapters (Registry.depth adapters))
              (Registry.depth adapters) []
              (RegistryFacts.resolve_spec adapters Hkeyed
                 (Registry.depth adapters) [])
              ids (Registry.State [] ∅)
              (RegistryFacts.measure_start adapters)
              (RegistryFacts.Inv_start adapters))
    as (st & Hst & (new & Hres & Hnew & _ & Hroots) & Hinv).
  { intros g d []. }
  cbn [Registry.result app] in Hres.
  exists (Registry.result st).
  split; [unfold Registry.resolveAdapters, Registry.resolveEach;
          now rewrite Hst|].
  split; [|split; [|split; [|split]]].
  - intros fuel Hle. exists st. split; [|reflexivity].
    unfold Registry.resolveEach.
    apply (RegistryFacts.fold_more
             (Registry.resolve adapters (Registry.depth adapters))
             (Registry.resolve adapters fuel)); [|exact Hst].
    intros x s s'. now apply RegistryFacts.resolve_more.
  - apply (Registry.inv_nodup adapters [] st Hinv).
  - intro a. split.
    + intro Hin. split; [now apply (Registry.inv_registered adapters [] st)|].
      rewrite Hres in Hin. now destruct (Hnew a Hin).
    + intros (Ha & r & Hr & Hn).
      assert (Hk : In (Registry.id a) (map Registry.id (Registry.result st))).
      { apply (RegistryFacts.needed_in_result adapters st r);
          [exact Hinv|exact Hn|now apply Hroots|now rewrite Ha]. }
      apply in_map_iff in Hk. destruct Hk as (b & Hb & Hin).
      pose proof (Registry.inv_registered adapters [] st Hinv b Hin) as Hreg.
      rewrite Hb, Ha in Hreg. now injection Hreg as ->.
  - intros l1 a l2 E d Hd Hr.
    pose proof (Registry.inv_ordered adapters [] st Hinv) as Hord.
    rewrite E in Hord.
    exact (RegistryFacts.orderedFrom_split adapters l1 l2 a [] Hord d Hd Hr).
  - intro x. unfold Registry.getAdapterWithDeps, Registry.resolveAdapters,
      Registry.resolveEach. cbn [fold_left].
    destruct (adapters !! x) as [a|] eqn:Ea; [reflexivity|].
    unfold Registry.depth. cbn [Registry.resolve Registry.visited].
    rewrite bool_decide_eq_false_2 by set_solver.
    now rewrite Ea.
Qed.

Lemma resolveAdapters_dependencies_first_witness :
  let adapter k deps :=
    Registry.MkAdapter (js k) (js k) Registry.theme (map js deps) (js k) in
  let tailwind := adapter "tailwindcss" [] in
  let shadcn := adapter "shadcn" ["tailwindcss"] in
  let coss := adapter "coss" ["shadcn"; "tailwindcss"] in
  let adapters : gmap str Registry.LibraryAdapter :=
    <[js "tailwindcss" := tailwind]>
      (<[js "shadcn" := shadcn]> (<[js "coss" := coss]> ∅)) in
  Registry.resolveAdapters adapters [js "coss"; js "shadcn"; js "none"]
  = Some [tailwind; shadcn; coss]
  /\ exists res,
       Registry.resolveAdapters adapters [js "coss"; js "shadcn"; js "none"]
       = Some res
       /\ NoDup (map Registry.id res).
Proof.
  cbv zeta. split; [vm_compute; reflexivity|].
  destruct (resolveAdapters_dependencies_first
              (<[js "tailwindcss" :=
                   Registry.MkAdapter (js "tailwindcss") (js "tailwindcss")
                     Registry.theme [] (js "tailwindcss")]>
                 (<[js "shadcn" :=
                      Registry.MkAdapter (js "shadcn") (js "shadcn")
                        Registry.theme [js "tailwindcss"] (js "shadcn")]>
                    (<[js "coss" :=
                         Registry.MkAdapter (js "coss") (js "coss")
                           Registry.theme [js "shadcn"; js "tailwindcss"]
                           (js "coss")]> ∅)))
              [js "coss"; js "shadcn"; js "none"])
    as (res & Hres & _ & Hnodup & _).
  - intros k a H.
    apply lookup_insert_Some in H. destruct H as [[<- <-]|[_ H]];
      [reflexivity|].
    apply lookup_insert_Some in H. destruct H as [[<- <-]|[_ H]];
      [reflexivity|].
    apply lookup_insert_Some in H. destruct H as [[<- <-]|[_ H]];
      [reflexivity|].
    rewrite lookup_empty in H. discriminate H.
  - exists res. split; [exact Hres|exact Hnodup].
Defined.

(* ===================================================================== *)
(** ** The loop of [categorizeTokens] only appends *)
(* ===================================================================== *)

Section Appending.
Variables (cosf sinf : float -> float) (powf : float -> float -> float).
#[local] Existing Instance hostNum.

Lemma appendSets_empty_l (s : ParsedTokenSet) :
  appendSets emptyTokenSet s = s.
Proof. now destruct s. Qed.

Lemma appendSets_empty_r (s : ParsedTokenSet) :
  appendSets s emptyTokenSet = s.
Proof.
  destruct s. unfold appendSets, emptyTokenSet.
  cbn [colors spacing radius shadows blur backdropBlur typography opacity
       fonts breakpoints containers fontWeights tracking leading borderWidth
       maxWidth skew].
  now rewrite !app_nil_r.
Qed.

Lemma appendSets_assoc (s t u : ParsedTokenSet) :
  appendSets (appendSets s t) u = appendSets s (appendSets t u).
Proof.
  unfold appendSets.
  cbn [colors spacing radius shadows blur backdropBlur typography opacity
       fonts breakpoints containers fontWeights tracking leading borderWidth
       maxWidth skew].
  now rewrite <- !app_assoc.
Qed.

Lemma tokenCount_append (s t : ParsedTokenSet) :
  tokenCount (appendSets s t) = tokenCount s + tokenCount t.
Proof.
  unfold tokenCount, appendSets.
  cbn [colors spacing radius shadows blur backdropBlur typography opacity
       fonts breakpoints containers fontWeights tracking leading borderWidth
       maxWidth skew].
  rewrite !length_app. lia.
Qed.

(** A turn of the loop appends what the variable brings. *)
Lemma categorize_appends (vars : list CSSVariable.t)
    (result : ParsedTokenSet) (h : Hoisted.t) (v : CSSVariable.t) :
  categorize cosf sinf powf vars (result, h) v
  = match categorize cosf sinf powf vars (emptyTokenSet, h) v with
    | Ok (c, h') => Ok (appendSets result c, h')
    | Throw e => Throw e
    end.
Proof.
  destruct result. unfold categorize.
  repeat match goal with
         | |- context [if ?c then _ else _] =>
             lazymatch c with
             | context [if _ then _ else _] => fail
             | _ => destruct c
             end
         end;
    unfold pushShadow, pushDimension, pushNumber, bind;
    repeat match goal with
           | |- context [match ?c with _ => _ end] =>
               lazymatch c with
               | context [match _ with _ => _ end] => fail
               | _ => destruct c
               end
           end;
    unfold appendSets, emptyTokenSet;
    cbn [colors spacing radius shadows blur backdropBlur typography opacity
         fonts breakpoints containers fontWeights tracking leading
         borderWidth maxWidth skew Push.colors Push.spacing Push.radius
         Push.shadows Push.blur Push.backdropBlur Push.typography
         Push.opacity Push.fonts Push.breakpoints Push.containers
         Push.fontWeights Push.tracking Push.leading Push.borderWidth
         Push.maxWidth Push.skew app];
    rewrite ?app_nil_r; reflexivity.
Qed.

Lemma opacity_apart (name : str) :
  Str.startsWith (js "opacity-") name = true ->
  Str.startsWith (js "border-width-") name = false
  /\ Str.startsWith (js "skew-") name = false.
Proof.
  intro H. apply startsWith_split in H. destruct H as [t ->].
  split; reflexivity.
Qed.

(** A variable brings at most one token. *)
Lemma contribution_small (vars : list CSSVariable.t) (h : Hoisted.t)
    (v : CSSVariable.t) :
  tokenCount (fst (contribution cosf sinf powf vars h v)) <= 1.
Proof.
  unfold contribution.
  destruct (categorize cosf sinf powf vars (emptyTokenSet, h) v)
    as [[c h']|e] eqn:H; [|cbn; lia].
  unfold emptyTokenSet in H.
  categorize_cases H; unfold tokenCount;
    cbn [colors spacing radius shadows blur backdropBlur typography opacity
         fonts breakpoints containers fontWeights tracking leading
         borderWidth maxWidth skew Push.colors Push.spacing Push.radius
         Push.shadows Push.blur Push.backdropBlur Push.typography
         Push.opacity Push.fonts Push.breakpoints Push.containers
         Push.fontWeights Push.tracking Push.leading Push.borderWidth
         Push.maxWidth Push.skew app length fst];
    try lia;
    match goal with
    | Ho : Str.startsWith (js "opacity-") ?n = true |- _ =>
        destruct (opacity_apart n Ho); congruence
    end.
Qed.

(** Only a text size looks at the hoisted variables, and only a text size
    changes them. *)
Lemma contribution_hoisted (vars : list CSSVariable.t) (v : CSSVariable.t) :
  (exists c, forall h, contribution cosf sinf powf vars h v = (c, h))
  \/ (exists name dim,
        forall h,
          contribution cosf sinf powf vars h v
          = (Push.typography
               (typographyOf
                  (assignModifiers cosf sinf powf vars name h) name v dim)
               emptyTokenSet,
             assignModifiers cosf sinf powf vars name h)).
Proof.
  unfold contribution, categorize.
  repeat match goal with
         | |- context [if ?c then _ else _] =>
             lazymatch c with
             | context [if _ then _ else _] => fail
             | _ => destruct c
             end
         end;
    unfold pushShadow, pushDimension, pushNumber, bind;
    repeat match goal with
           | |- context [match ?c with _ => _ end] =>
               lazymatch c with
               | context [match _ with _ => _ end] => fail
               | _ => destruct c
               end
           end;
    first [ left; eexists; intro h; reflexivity
          | right; eexists; eexists; intro h; reflexivity ].
Qed.

Lemma contribution_colors (vars : list CSSVariable.t) (h : Hoisted.t)
    (v : CSSVariable.t) :
  colors (fst (contribution cosf sinf powf vars h v))
  = colors (fst (contribution cosf sinf powf vars Hoisted.undefined v)).
Proof.
  destruct (contribution_hoisted vars v) as [(c & Hc)|(name & dim & Hc)];
    now rewrite !Hc.
Qed.

Lemma categorizeAll_collects (vars vs : list CSSVariable.t) :
  forall result h out h',
    categorizeAll cosf sinf powf vars vs (result, h) = Ok (out, h') ->
    out = appendSets result (collected cosf sinf powf vars vs h).
Proof.
  induction vs as [|v vs IH]; intros result h out h';
    cbn [categorizeAll collected].
  - intros [= <- <-]. now rewrite appendSets_empty_r.
  - unfold bind. rewrite categorize_appends. unfold contribution.
    destruct (categorize cosf sinf powf vars (emptyTokenSet, h) v)
      as [[c h1]|e]; [|discriminate].
    intro H. apply IH in H. now rewrite H, appendSets_assoc.
Qed.

Lemma collected_count (vars vs : list CSSVariable.t) :
  forall h, tokenCount (collected cosf sinf powf vars vs h) <= length vs.
Proof.
  induction vs as [|v vs IH]; intro h; cbn [collected length]; [cbn; lia|].
  pose proof (contribution_small vars h v) as Hs.
  destruct (contribution cosf sinf powf vars h v) as [c h1].
  rewrite tokenCount_append. cbn [fst] in Hs. specialize (IH h1). lia.
Qed.

Lemma collected_colors (vars vs : list CSSVariable.t) :
  forall h,
    colors (collected cosf sinf powf vars vs h)
    = flat_map
        (fun v =>
           colors (fst (contribution cosf sinf powf vars Hoisted.undefined v)))
        vs.
Proof.
  induction vs as [|v vs IH]; intro h; [reflexivity|].
  cbn [collected flat_map]. rewrite <- (contribution_colors vars h v).
  destruct (contribution cosf sinf powf vars h v) as [c h1].
  unfold appendSets at 1. cbn [colors fst]. now rewrite IH.
Qed.

Lemma colors_setSpacing (xs : list ParsedFloat.t) (ts : ParsedTokenSet) :
  colors (setSpacing xs ts) = colors ts.
Proof. now destruct ts. Qed.

End Appending.

(** X24.  Each turn of the loop of [categorizeTokens] only appends to the
    token set, at most one token, and what it appends does not depend on
    the tokens collected before.  It depends on the earlier turns in one
    way: a text size pushes a typography entry whose three modifiers are
    read from the variables [lineHeight], [letterSpacing] and [fontWeight]
    of the loop, which a turn assigns only from a sibling variable (for the
    last two, one that parses) and which otherwise keep what the previous
    text size left; every other variable brings the same token whatever
    the three variables hold, and leaves them as they are.  So the result
    is the contributions of the variables put together in the order of the
    variables, with the spacing family replaced by the scale when it has
    one entry: the colours are those of the variables, one after the
    other, and before the scale is generated there are no more tokens than
    variables.  The lists [--text-sm: 14px],
    [--text-sm--line-height: calc(1.25 / 0.875)], [--text-lg: 18px] give
    two entries with the same lineHeight. *)
Theorem categorizeTokens_in_source_order
    (cosf sinf : float -> float) (powf : float -> float -> float)
    (vars : list CSSVariable.t) :
  (forall result hoisted v,
      categorize cosf sinf powf vars (result, hoisted) v
      = match categorize cosf sinf powf vars (emptyTokenSet, hoisted) v with
        | Ok (c, hoisted') => Ok (appendSets result c, hoisted')
        | Throw e => Throw e
        end)
  /\ (forall hoisted v,
         tokenCount (fst (contribution cosf sinf powf vars hoisted v)) <= 1)
  /\ (forall v,
         (exists c,
             forall hoisted,
               contribution cosf sinf powf vars hoisted v = (c, hoisted))
         \/ (exists name dim,
               forall hoisted,
                 contribution cosf sinf powf vars hoisted v
                 = (Push.typography
                      (typographyOf
                         (assignModifiers cosf sinf powf vars name hoisted)
                         name v dim)
                      emptyTokenSet,
                    assignModifiers cosf sinf powf vars name hoisted)))
  /\ tokenCount (collected cosf sinf powf vars vars Hoisted.undefined)
     <= length vars
  /\ (forall ts,
        categorizeTokens cosf sinf powf vars = Ok ts ->
        ts = match spacing
                     (collected cosf sinf powf vars vars Hoisted.undefined)
             with
             | [base] =>
                 setSpacing
                   (generateSpacingScale cosf sinf powf
                      (ParsedFloat.value base))
                   (collected cosf sinf powf vars vars Hoisted.undefined)
             | _ => collected cosf sinf powf vars vars Hoisted.undefined
             end
        /\ colors ts
           = flat_map
               (fun v =>
                  colors
                    (fst (contribution cosf sinf powf vars
                            Hoisted.undefined v)))
               vars)
  /\ (exists ts lh,
         categorizeTokens cosf sinf powf
           [Sample.var "--text-sm" "14px";
            Sample.var "--text-sm--line-height" "calc(1.25 / 0.875)";
            Sample.var "--text-lg" "18px"]
         = Ok ts
         /\ typography ts
            = [ParsedTypography.make (js "sm") 14%float (Some lh) None None
                 (js "14px");
               ParsedTypography.make (js "lg") 18%float (Some lh) None None
                 (js "18px")]
         /\ lh = PrimFloat.div (F64.ofDecimal 1.25) (F64.ofDecimal 0.875)).
Proof.
  split; [intros; apply categorize_appends|].
  split; [apply contribution_small|].
  split; [apply contribution_hoisted|].
  split; [apply collected_count|].
  split.
  - intros ts H. unfold categorizeTokens, bind in H.
    destruct (categorizeAll cosf sinf powf vars vars initial)
      as [[result h]|e] eqn:E; [|discriminate].
    apply categorizeAll_collects in E. rewrite appendSets_empty_l in E.
    subst result. cbn [fst] in H.
    set (all := collected cosf sinf powf vars vars Hoisted.undefined) in *.
    assert (Hts : ts = match spacing all with
                       | [base] =>
                           setSpacing
                             (generateSpacingScale cosf sinf powf
                                (ParsedFloat.value base)) all
                       | _ => all
                       end).
    { destruct (spacing all) as [|base [|]]; now injection H as <-. }
    split; [exact Hts|].
    rewrite Hts.
    assert (Hc : colors all
                 = flat_map
                     (fun v =>
                        colors
                          (fst (contribution cosf sinf powf vars
                                  Hoisted.undefined v)))
                     vars) by apply collected_colors.
    destruct (spacing all) as [|base [|]];
      rewrite ?colors_setSpacing; exact Hc.
  - eexists. eexists. split; [vm_compute; reflexivity|].
    split; reflexivity.
Qed.

Lemma categorizeTokens_in_source_order_witness :
  let vars :=
    [CSSVariable.make (js "--color-red-500") (js "#ff0000");
     CSSVariable.make (js "--text-sm") (js "14px");
     CSSVariable.make (js "--text-sm--line-height")
       (js "calc(1.25 / 0.875)");
     CSSVariable.make (js "--color-blue-500") (js "#0000ff");
     CSSVariable.make (js "--text-lg") (js "18px")] in
  exists ts,
    categorizeTokens Sample.unary Sample.unary Sample.binary vars = Ok ts
    /\ map ParsedColor.path (colors ts)
       = [[js "red"; js "500"]; [js "blue"; js "500"]]
    /\ map ParsedTypography.lineHeight (typography ts)
       = [Some (PrimFloat.div (F64.ofDecimal 1.25) (F64.ofDecimal 0.875));
          Some (PrimFloat.div (F64.ofDecimal 1.25) (F64.ofDecimal 0.875))]
    /\ colors ts
       = flat_map
           (fun v =>
              colors
                (fst (contribution Sample.unary Sample.unary Sample.binary
                        vars Hoisted.undefined v)))
           vars.
Proof.
  cbv zeta.
  destruct (categorizeTokens Sample.unary Sample.unary Sample.binary
              [CSSVariable.make (js "--color-red-500") (js "#ff0000");
               CSSVariable.make (js "--text-sm") (js "14px");
               CSSVariable.make (js "--text-sm--line-height")
                 (js "calc(1.25 / 0.875)");
               CSSVariable.make (js "--color-blue-500") (js "#0000ff");
               CSSVariable.make (js "--text-lg") (js "18px")])
    as [ts|e] eqn:E; [|vm_compute in E; discriminate E].
  exists ts. split; [reflexivity|]. split; [|split].
  - vm_compute in E. injection E as <-. reflexivity.
  - vm_compute in E. injection E as <-. reflexivity.
  - exact (proj2 (proj1 (proj2 (proj2 (proj2 (proj2
             (categorizeTokens_in_source_order
                Sample.unary Sample.unary Sample.binary _))))) ts E)).
Defined.

(* ===================================================================== *)
(** ** Declarations written out are read back *)
(* ===================================================================== *)

Module RenderFacts.
Import Re.

(** No match starts at a character other than a dash, nor at the end. *)
Lemma miss (p : nat) (t : str) :
  stopsClass (Str.isChar "-") t ->
  matchHere ParserPattern.declaration (MState p t []) = None.
Proof.
  intro H. unfold matchHere, ParserPattern.declaration. cbn [seq].
  rewrite CalcShape.rmatch_Cat, CalcShape.rmatch_Grp, CalcShape.rmatch_Cat.
  cbn [lit js String.list_ascii_of_string].
  rewrite CalcShape.rmatch_Cat. unfold chr at 1.
  rewrite ReRun.rmatch_Cls. cbn [rest].
  destruct t as [|c t]; [reflexivity|].
  change (Str.isChar "-" c = false) in H. now rewrite H.
Qed.

Lemma skip_gap (gap : str) :
  forall (fuel p : nat) (t : str),
    forallb (noneOf "-") gap = true -> length gap <= fuel ->
    searchFrom ParserPattern.declaration fuel (MState p (gap ++ t) [])
    = searchFrom ParserPattern.declaration (fuel - length gap)
        (MState (p + length gap) t []).
Proof.
  induction gap as [|c gap IH]; intros fuel p t Hg Hf.
  - cbn [app length]. now rewrite Nat.sub_0_r, Nat.add_0_r.
  - cbn [forallb] in Hg. apply andb_prop in Hg. destruct Hg as [Hc Hg].
    cbn [length] in Hf. destruct fuel as [|fuel]; [lia|].
    cbn [app searchFrom]. rewrite miss.
    + cbn [rest pos tl length Nat.sub].
      rewrite (IH fuel (S p) t Hg) by lia.
      now replace (S p + length gap) with (p + S (length gap)) by lia.
    + change (Str.isChar "-" c = false).
      unfold noneOf in Hc. now destruct (Str.isChar "-" c).
Qed.

Lemma nothing_left (gap : str) (fuel p : nat) :
  forallb (noneOf "-") gap = true ->
  searchFrom ParserPattern.declaration fuel (MState p gap []) = None.
Proof.
  revert fuel p. induction gap as [|c gap IH]; intros fuel p Hg.
  - destruct fuel; cbn [searchFrom]; now rewrite miss.
  - cbn [forallb] in Hg. apply andb_prop in Hg. destruct Hg as [Hc Hg].
    destruct fuel as [|fuel]; cbn [searchFrom]; rewrite miss;
      try (change (Str.isChar "-" c = false);
           unfold noneOf in Hc; now destruct (Str.isChar "-" c)).
    + reflexivity.
    + cbn [rest pos tl]. now apply IH.
Qed.

(** The match of a declaration that is written out. *)
Lemma declaration_here (p : nat) (w value t : str) :
  w <> [] -> forallb wordDash w = true ->
  value <> [] -> forallb (noneOf ";") value = true ->
  stopsClass Str.isSpace value ->
  matchHere ParserPattern.declaration
    (MState p ((js "--" ++ w) ++ js ": " ++ value ++ js ";" ++ t) [])
  = Some (Matched p
            (p + length ((js "--" ++ w) ++ js ": " ++ value))
            [Some ((js "--" ++ w) ++ js ": " ++ value);
             Some (js "--" ++ w); Some value]).
Proof.
  intros Hw Dw Hv Dv Sv.
  assert (Sv' : stopsClass Str.isSpace (value ++ js ";" ++ t)).
  { destruct value as [|c value]; [contradiction|exact Sv]. }
  unfold matchHere, ParserPattern.declaration. cbn [seq].
  rewrite CalcShape.rmatch_Cat, CalcShape.rmatch_Grp, CalcShape.rmatch_Cat.
  rewrite <- app_assoc.
  rewrite (ReRun.run_lit (js "--")
             (w ++ js ": " ++ value ++ js ";" ++ t)) by reflexivity.
  erewrite (ReRun.run_plus_class wordDash w
              (js ": " ++ value ++ js ";" ++ t));
    [reflexivity|exact Hw|exact Dw|reflexivity|reflexivity|].
  rewrite CalcShape.rmatch_Cat.
  erewrite (ReRun.run_star_class Str.isSpace []
              (js ": " ++ value ++ js ";" ++ t));
    [reflexivity|reflexivity|reflexivity|reflexivity|].
  rewrite CalcShape.rmatch_Cat. unfold chr at 1. rewrite ReRun.rmatch_Cls.
  cbn [rest capture after js String.list_ascii_of_string app].
  change (Str.isChar ":" ":") with true. cbv iota.
  rewrite CalcShape.rmatch_Cat.
  erewrite (ReRun.run_star_class Str.isSpace (js " ")
              (value ++ js ";" ++ t));
    [reflexivity|reflexivity|exact Sv'|reflexivity|].
  rewrite CalcShape.rmatch_Grp.
  erewrite (ReRun.run_plus_class (noneOf ";") value (js ";" ++ t));
    [reflexivity|exact Hv|exact Dv|reflexivity|reflexivity|].
  cbn [capture after advance pos rest caps setNth length app tl js
       String.list_ascii_of_string].
  f_equal. f_equal.
  - rewrite !length_app. cbn [length]. lia.
  - f_equal; [|f_equal; [|f_equal]]; f_equal.
    + replace ("-"%char :: "-"%char :: w ++ ":"%char :: " "%char
                 :: value ++ ";"%char :: t)
        with (("-"%char :: "-"%char :: w ++ ":"%char :: " "%char :: value)
                ++ ";"%char :: t)
        by (cbn [app]; rewrite <- !app_assoc; reflexivity).
      apply CalcShape.firstn_exact.
      cbn [length]. rewrite !length_app. cbn [length]. lia.
    + replace ("-"%char :: "-"%char :: w ++ ":"%char :: " "%char
                 :: value ++ ";"%char :: t)
        with (("-"%char :: "-"%char :: w)
                ++ ":"%char :: " "%char :: value ++ ";"%char :: t)
        by reflexivity.
      apply CalcShape.firstn_exact. cbn [length]. lia.
    + apply CalcShape.firstn_exact. lia.
Qed.

Lemma skipn_prefix (pre x : str) : skipn (length pre) (pre ++ x) = x.
Proof.
  rewrite skipn_app, skipn_all, Nat.sub_diag. reflexivity.
Qed.

Lemma execAt_declaration (pre gap w value t : str) :
  forallb (noneOf "-") gap = true ->
  w <> [] -> forallb wordDash w = true ->
  value <> [] -> forallb (noneOf ";") value = true ->
  stopsClass Str.isSpace value ->
  execAt ParserPattern.declaration (length pre)
    (pre ++ gap ++ (js "--" ++ w) ++ js ": " ++ value ++ js ";" ++ t)
  = Some (Matched (length pre + length gap)
            (length pre + length gap
             + length ((js "--" ++ w) ++ js ": " ++ value))
            [Some ((js "--" ++ w) ++ js ": " ++ value);
             Some (js "--" ++ w); Some value]).
Proof.
  intros Hg Hw Dw Hv Dv Sv. unfold execAt.
  rewrite skipn_prefix, length_app.
  replace (length pre + length
             (gap ++ (js "--" ++ w) ++ js ": " ++ value ++ js ";" ++ t)
           - length pre)
    with (length (gap ++ (js "--" ++ w) ++ js ": " ++ value
                    ++ js ";" ++ t)) by lia.
  rewrite skip_gap; [|exact Hg|rewrite length_app; lia].
  apply CalcShape.searchFrom_here.
  now apply declaration_here.
Qed.

Lemma execAt_nothing (pre x : str) :
  forallb (noneOf "-") x = true ->
  execAt ParserPattern.declaration (length pre) (pre ++ x) = None.
Proof.
  intro H. unfold execAt. rewrite skipn_prefix. now apply nothing_left.
Qed.

Lemma name_trimmed (w : str) :
  forallb wordDash w = true -> Str.trim (js "--" ++ w) = js "--" ++ w.
Proof.
  intro H. apply trim_none. cbn [js String.list_ascii_of_string app forallb].
  change (negb (Str.isSpace "-")) with true. cbn [andb].
  apply forallb_forall. intros c Hc. rewrite forallb_forall in H.
  now rewrite (wordDash_not_space c (H c Hc)).
Qed.

Lemma render_length (gap : str) (ds : list CSSVariable.t) :
  length ds <= length (renderDeclarations gap ds).
Proof.
  induction ds as [|d ds IH]; [cbn; lia|].
  unfold renderDeclarations in *. cbn [map concat length].
  unfold renderDeclaration at 1. rewrite !length_app. cbn [length js
    String.list_ascii_of_string]. lia.
Qed.

(** The loop of [extractCSSVariables] over the declarations written out. *)
Lemma extract_loop (gap tail : str) (ds : list CSSVariable.t) :
  forallb (noneOf "-") gap = true -> forallb (noneOf "-") tail = true ->
  Forall declared ds ->
  forall (pre lead : str) (fuel : nat),
    forallb (noneOf "-") lead = true -> length ds < fuel ->
    map (fun m =>
           CSSVariable.make
             (Str.trim (text 1 m))
             (replaceAll ParserPattern.spaces (js " ")
                (Str.trim (text 2 m))))
        (execAll ParserPattern.declaration fuel (length pre)
           (pre ++ lead ++ renderDeclarations gap ds ++ tail))
    = ds.
Proof.
  intros Hgap Htail Hds. induction Hds as [|d ds Hd _ IH];
    intros pre lead fuel Hlead Hfuel.
  - destruct fuel as [|fuel]; [reflexivity|].
    cbn [execAll renderDeclarations map concat app].
    rewrite execAt_nothing; [reflexivity|].
    rewrite forallb_app, Hlead, Htail. reflexivity.
  - destruct fuel as [|fuel]; [cbn in Hfuel; lia|].
    destruct d as [name value].
    destruct Hd as ((w & Hname & Hw & Dw) & Hv & Dv & Sv & Hnorm).
    cbn [CSSVariable.name CSSVariable.rawValue] in *. subst name.
    unfold renderDeclarations. cbn [map concat].
    fold (renderDeclarations gap ds).
    unfold renderDeclaration at 1.
    cbn [CSSVariable.name CSSVariable.rawValue].
    replace (pre ++ lead
               ++ ((gap ++ (js "--" ++ w) ++ js ": " ++ value ++ js ";")
                     ++ renderDeclarations gap ds) ++ tail)
      with (pre ++ (lead ++ gap) ++ (js "--" ++ w) ++ js ": " ++ value
              ++ js ";" ++ (renderDeclarations gap ds ++ tail))
      by (now rewrite <- !app_assoc).
    cbn [execAll].
    rewrite execAt_declaration; try assumption;
      [|rewrite forallb_app, Hlead, Hgap; reflexivity].
    cbn [index stop].
    replace (length pre + length (lead ++ gap)
             <? length pre + length (lead ++ gap)
                + length ((js "--" ++ w) ++ js ": " ++ value))
      with true
      by (symmetry; apply Nat.ltb_lt; rewrite !length_app;
          cbn [length js String.list_ascii_of_string]; lia).
    cbn [map]. f_equal.
    + unfold text, group. cbn [groups nth].
      now rewrite (name_trimmed w Dw), Hnorm.
    + replace (pre ++ (lead ++ gap) ++ (js "--" ++ w) ++ js ": " ++ value
                 ++ js ";" ++ renderDeclarations gap ds ++ tail)
        with ((pre ++ (lead ++ gap) ++ (js "--" ++ w) ++ js ": " ++ value)
                ++ js ";" ++ renderDeclarations gap ds ++ tail)
        by (now rewrite <- !app_assoc).
      replace (length pre + length (lead ++ gap)
               + length ((js "--" ++ w) ++ js ": " ++ value))
        with (length (pre ++ (lead ++ gap) ++ (js "--" ++ w)
                        ++ js ": " ++ value))
        by (rewrite !length_app; lia).
      apply IH; [reflexivity|]. cbn [length] in Hfuel. lia.
Qed.

End RenderFacts.

(** X25.  Declarations written out are read back.  Take declarations as
    [extractCSSVariables] returns them: a name made of [--] and letters,
    digits, underscores or dashes, and a value without semicolon whose
    blanks are single spaces inside it.  Write each one as [name: value;]
    after a gap, and end with a tail, the gap and the tail being any texts
    without a dash (blanks, line ends, braces).  Then
    [extractCSSVariables] returns exactly these declarations, in order. *)
Theorem extractCSSVariables_round_trip (gap tail : str)
    (ds : list CSSVariable.t) :
  forallb (Re.noneOf "-") gap = true ->
  forallb (Re.noneOf "-") tail = true ->
  Forall declared ds ->
  extractCSSVariables (renderDeclarations gap ds ++ tail) = ds.
Proof.
  intros Hgap Htail Hds. unfold extractCSSVariables.
  assert (Hlen : length ds
                 < S (length (renderDeclarations gap ds ++ tail))).
  { rewrite length_app. pose proof (RenderFacts.render_length gap ds). lia. }
  exact (RenderFacts.extract_loop gap tail ds Hgap Htail Hds [] []
           (S (length (renderDeclarations gap ds ++ tail))) eq_refl Hlen).
Qed.

Lemma extractCSSVariables_round_trip_witness :
  let ds :=
    [Sample.var "--color-red-500" "oklch(63.7% 0.237 25.331)";
     Sample.var "--shadow-sm" "0 1px 3px 0 rgb(0 0 0 / 0.1), 0 1px 2px rgb(0 0 0 / 0.1)"] in
  renderDeclarations (js " ") ds ++ js " }"
  = js " --color-red-500: oklch(63.7% 0.237 25.331); --shadow-sm: 0 1px 3px 0 rgb(0 0 0 / 0.1), 0 1px 2px rgb(0 0 0 / 0.1); }"
  /\ extractCSSVariables (renderDeclarations (js " ") ds ++ js " }") = ds.
Proof.
  cbv zeta. split; [reflexivity|].
  apply extractCSSVariables_round_trip; [reflexivity|reflexivity|].
  apply Forall_cons; [|apply Forall_cons; [|apply Forall_nil]].
  - split; [exists (js "color-red-500"); repeat split; discriminate|].
    repeat split; discriminate.
  - split; [exists (js "shadow-sm"); repeat split; discriminate|].
    repeat split; discriminate.
Defined.

(* ===================================================================== *)
(** ** Where the blocks are *)
(* ===================================================================== *)

Module BlockFacts.
Import Re.

(** A literal is not read where the text does not start with it. *)
Lemma lit_fails {A} (p : str) :
  forall (k : mstate -> option A) (st : mstate),
    Str.startsWith p (rest st) = false -> rmatch (lit p) k st = None.
Proof.
  induction p as [|c p IH]; intros k st H; [discriminate H|].
  cbn [lit]. rewrite CalcShape.rmatch_Cat. unfold chr.
  rewrite ReRun.rmatch_Cls.
  destruct (rest st) as [|a t] eqn:E; [reflexivity|].
  cbn [Str.startsWith] in H. unfold Str.isChar.
  destruct (Ascii.eqb c a); [|reflexivity].
  apply IH. cbn [advance rest]. now rewrite E.
Qed.

Lemma startsWith_includes (p s : str) :
  Str.startsWith p s = true -> Str.includes p s = true.
Proof. intro H. destruct s; cbn [Str.includes]; now rewrite H. Qed.

(** A literal whose first character does not come back in it is not read
    before its first occurrence. *)
Lemma border_free (c : ascii) (p' w t : str) :
  forallb (noneOf c) p' = true -> Str.includes (c :: p') w = false ->
  w <> [] ->
  Str.startsWith (c :: p') (w ++ (c :: p') ++ t) = false.
Proof.
  intros Hp Hw Hne.
  destruct (Str.startsWith (c :: p') (w ++ (c :: p') ++ t)) eqn:E;
    [|reflexivity].
  exfalso. apply startsWith_split in E. destruct E as [x E].
  apply app_eq_app in E. destruct E as (l & [[E1 E2]|[E1 E2]]).
  - rewrite E1 in Hw.
    rewrite (startsWith_includes _ _ (startsWith_app (c :: p') l)) in Hw.
    discriminate Hw.
  - destruct w as [|a w]; [contradiction|].
    cbn [app] in E1. injection E1 as <- E1.
    destruct l as [|b l].
    + rewrite app_nil_r in E1. subst p'.
      pose proof (startsWith_app (c :: w) []) as S.
      rewrite app_nil_r in S.
      rewrite (startsWith_includes _ _ S) in Hw. discriminate Hw.
    + cbn [app] in E2. injection E2 as <- E2.
      rewrite E1, forallb_app in Hp. cbn [forallb] in Hp.
      unfold noneOf at 2 in Hp. unfold Str.isChar in Hp.
      rewrite Ascii.eqb_refl in Hp. cbn [negb andb] in Hp.
      now rewrite andb_false_r in Hp.
Qed.

Lemma suffix_includes (p w1 w2 : str) :
  Str.includes p (w1 ++ w2) = false -> Str.includes p w2 = false.
Proof.
  apply includes_false_mono. exists w1, []. now rewrite app_nil_r.
Qed.

(** The search goes past a text that does not hold the literal with which
    the pattern starts. *)
Lemma search_skip (c : ascii) (p' : str) (r : regex) (t : str) :
  forallb (noneOf c) p' = true ->
  forall (pre : str) (fuel p : nat),
    Str.includes (c :: p') pre = false -> length pre <= fuel ->
    searchFrom (Cat (lit (c :: p')) r) fuel
      (MState p (pre ++ (c :: p') ++ t) [])
    = searchFrom (Cat (lit (c :: p')) r) (fuel - length pre)
        (MState (p + length pre) ((c :: p') ++ t) []).
Proof.
  intro Hp. induction pre as [|a pre IH]; intros fuel p Hpre Hf.
  - cbn [app length]. now rewrite Nat.sub_0_r, Nat.add_0_r.
  - cbn [length] in Hf. destruct fuel as [|fuel]; [lia|].
    cbn [searchFrom]. unfold matchHere at 1.
    rewrite CalcShape.rmatch_Cat, lit_fails.
    + change ((a :: pre) ++ (c :: p') ++ t)
        with (a :: (pre ++ (c :: p') ++ t)).
      cbn [rest pos tl length Nat.sub].
      rewrite (IH fuel (S p)); [|now apply (suffix_includes _ [a])|lia].
      now replace (S p + length pre) with (p + S (length pre)) by lia.
    + cbn [rest]. apply border_free; [exact Hp|exact Hpre|discriminate].
Qed.

Lemma repeatLoop_lazy {A}
    (step : (mstate -> option A) -> mstate -> option A)
    (k : mstate -> option A) (fuel : nat) (st : mstate) :
  repeatLoop step false k (S fuel) st =
  match k st with
  | Some x => Some x
  | None =>
      step (fun st' =>
              if Nat.ltb (length (rest st')) (length (rest st))
              then repeatLoop step false k fuel st' else None) st
  end.
Proof. reflexivity. Qed.

(** A lazy repetition reads up to the first place where what follows
    matches. *)
Lemma lazy_until {A} (w : str) :
  forall (t : str) (k : mstate -> option A) (fuel : nat) (st : mstate)
         (x : A),
    (forall w1 w2, w = w1 ++ w2 -> w2 <> [] ->
                   k (after st w1 (w2 ++ t)) = None) ->
    rest st = w ++ t -> length (rest st) <= fuel ->
    k (after st w t) = Some x ->
    repeatLoop (rmatch (Cls any)) false k fuel st = Some x.
Proof.
  induction w as [|c w IH]; intros t k fuel st x Hnone Hr Hf Hk.
  - cbn [app] in Hr. rewrite <- Hr, ReRun.after_nil in Hk.
    destruct fuel as [|fuel]; [exact Hk|].
    now rewrite repeatLoop_lazy, Hk.
  - cbn [app] in Hr.
    destruct fuel as [|fuel]; [rewrite Hr in Hf; cbn in Hf; lia|].
    rewrite repeatLoop_lazy.
    assert (H0 : k st = None).
    { specialize (Hnone [] (c :: w) eq_refl ltac:(discriminate)).
      cbn [app] in Hnone. now rewrite <- Hr, ReRun.after_nil in Hnone. }
    rewrite H0, ReRun.rmatch_Cls, Hr. cbn [any].
    assert (Hlt : Nat.ltb (length (rest (advance st))) (length (c :: w ++ t))
                  = true).
    { cbn [advance rest]. rewrite Hr. cbn [tl length].
      apply Nat.ltb_lt. lia. }
    rewrite Hlt.
    apply (IH t k fuel (advance st) x).
    + intros w1 w2 E Hne.
      rewrite (ReRun.after_advance st c w1 (w2 ++ t))
        by (rewrite Hr, E, <- app_assoc; reflexivity).
      apply (Hnone (c :: w1) w2); [now rewrite E|exact Hne].
    + cbn [advance rest]. now rewrite Hr.
    + cbn [advance rest]. rewrite Hr in *. cbn [tl length] in *. lia.
    + now rewrite (ReRun.after_advance st c w t Hr).
Qed.

(** The body of a block: the first group reads up to the first closing
    literal. *)
Lemma body_run {A} (c : ascii) (q' body post : str)
    (k : mstate -> option A) (st : mstate) (x : A) :
  forallb (noneOf c) q' = true ->
  Str.includes (c :: q') body = false ->
  rest st = body ++ (c :: q') ++ post ->
  k (MState (pos st + length body + length (c :: q')) post
       (setNth 1 (Some body) None (caps st))) = Some x ->
  rmatch (Grp 1 (lazy (Cls any))) (rmatch (lit (c :: q')) k) st = Some x.
Proof.
  intros Hq Hb Hr Hk. rewrite CalcShape.rmatch_Grp. unfold lazy.
  change (rmatch (Rep false (Cls any))
            (fun st' => rmatch (lit (c :: q')) k (capture 1 st st')) st)
    with (repeatLoop (rmatch (Cls any)) false
            (fun st' => rmatch (lit (c :: q')) k (capture 1 st st'))
            (length (rest st)) st).
  apply (lazy_until body ((c :: q') ++ post)); [|exact Hr|lia|].
  - intros w1 w2 E Hne. apply lit_fails.
    cbn [capture after rest].
    apply border_free; [exact Hq| |exact Hne].
    rewrite E in Hb. now apply suffix_includes in Hb.
  - rewrite (ReRun.run_lit (c :: q') post)
      by (cbn [capture after rest]; reflexivity).
    unfold capture, after. cbn [pos rest caps].
    replace (pos st + length body - pos st) with (length body) by lia.
    rewrite Hr, CalcShape.firstn_exact by reflexivity.
    rewrite <- Hk. f_equal.
Qed.

(** The three patterns on a text that has the block. *)
Lemma root_run (selector pre blanks body post : str) (c : ascii)
    (p' : str) :
  selector = c :: p' -> forallb (noneOf c) p' = true ->
  Str.includes selector pre = false ->
  forallb Str.isSpace blanks = true ->
  Str.includes (js "}") body = false ->
  exists m,
    exec (seq [lit selector; star ws; chr "{"; Grp 1 (lazy (Cls any));
               chr "}"])
      (pre ++ selector ++ blanks ++ js "{" ++ body ++ js "}" ++ post)
    = Some m
    /\ text 1 m = body.
Proof.
  intros -> Hp Hpre Hbl Hbody. eexists. split.
  - unfold exec. cbn [seq].
    rewrite (search_skip c p' _
               (blanks ++ js "{" ++ body ++ js "}" ++ post) Hp pre)
      by (exact Hpre || (rewrite !length_app; lia)).
    apply CalcShape.searchFrom_here. unfold matchHere.
    rewrite CalcShape.rmatch_Cat.
    rewrite (ReRun.run_lit (c :: p')
               (blanks ++ js "{" ++ body ++ js "}" ++ post))
      by reflexivity.
    rewrite CalcShape.rmatch_Cat.
    apply (ReRun.run_star_class Str.isSpace blanks
             (js "{" ++ body ++ js "}" ++ post));
      [exact Hbl|reflexivity|reflexivity|].
    rewrite CalcShape.rmatch_Cat. unfold chr at 1.
    rewrite ReRun.rmatch_Cls. cbn [after rest js
      String.list_ascii_of_string app].
    change (Str.isChar "{" "{") with true. cbv iota.
    rewrite CalcShape.rmatch_Cat.
    match goal with
    | |- rmatch (Grp 1 ?l) (rmatch (chr "}") ?k) ?st = ?rhs =>
        change (rmatch (Grp 1 l) (rmatch (lit (js "}")) k) st = rhs)
    end.
    apply (body_run "}"%char [] body post);
      [reflexivity|exact Hbody|reflexivity|].
    reflexivity.
  - unfold text, group.
    cbn [groups caps setNth nth]. reflexivity.
Qed.

Lemma theme_run (pre blanks params body post : str) :
  Str.includes (js "@theme") pre = false ->
  blanks <> [] -> forallb Str.isSpace blanks = true ->
  forallb (noneOf "{") params = true -> stopsClass Str.isSpace params ->
  Str.includes (["010"%char; "}"%char]) body = false ->
  exists m,
    exec ParserPattern.theme
      (pre ++ js "@theme" ++ blanks ++ params ++ js "{" ++ body
         ++ ["010"%char; "}"%char] ++ post)
    = Some m
    /\ text 1 m = body.
Proof.
  intros Hpre Hne Hbl Hpar Hstop Hbody. eexists. split.
  - unfold exec, ParserPattern.theme. cbn [seq].
    rewrite (search_skip "@"%char (js "theme") _
               (blanks ++ params ++ js "{" ++ body ++ ["010"%char; "}"%char] ++ post)
               eq_refl pre)
      by (exact Hpre || (rewrite !length_app; lia)).
    apply CalcShape.searchFrom_here. unfold matchHere.
    rewrite CalcShape.rmatch_Cat.
    rewrite (ReRun.run_lit (js "@theme")
               (blanks ++ params ++ js "{" ++ body ++ ["010"%char; "}"%char] ++ post))
      by reflexivity.
    rewrite CalcShape.rmatch_Cat.
    apply (ReRun.run_plus_class Str.isSpace blanks
             (params ++ js "{" ++ body ++ ["010"%char; "}"%char] ++ post));
      [exact Hne|exact Hbl| |reflexivity|].
    { destruct params as [|a params]; [reflexivity|exact Hstop]. }
    rewrite CalcShape.rmatch_Cat.
    apply (ReRun.run_star_class (noneOf "{") params
             (js "{" ++ body ++ ["010"%char; "}"%char] ++ post));
      [exact Hpar|reflexivity|reflexivity|].
    rewrite CalcShape.rmatch_Cat. unfold chr at 1.
    rewrite ReRun.rmatch_Cls. cbn [after rest js
      String.list_ascii_of_string app].
    change (Str.isChar "{" "{") with true. cbv iota.
    rewrite CalcShape.rmatch_Cat.
    match goal with
    | |- rmatch (Grp 1 ?l) (rmatch (Cat (chr "010") (chr "}")) ?k) ?st
         = ?rhs =>
        change (rmatch (Grp 1 l) (rmatch (lit (["010"%char; "}"%char])) k) st = rhs)
    end.
    apply (body_run "010"%char ["}"%char] body post);
      [reflexivity|exact Hbody|reflexivity|].
    reflexivity.
  - unfold text, group.
    cbn [groups caps setNth nth]. reflexivity.
Qed.

(** A theme block ends with a line that starts with the closing brace. *)
Lemma theme_closing (css : str) (m : rmatched) :
  exec ParserPattern.theme css = Some m ->
  Str.includes (["010"%char; "}"%char]) css = true.
Proof.
  intro H. apply ReCaptures.exec_run in H.
  destruct H as (pre & w & t & c' & -> & R & _).
  unfold ParserPattern.theme in R. cbn [seq] in R.
  apply ReCaptures.Run_Cat_inv in R. destruct R as (w1 & x1 & ? & -> & _ & R).
  apply ReCaptures.Run_Cat_inv in R. destruct R as (w2 & x2 & ? & -> & _ & R).
  apply ReCaptures.Run_Cat_inv in R. destruct R as (w3 & x3 & ? & -> & _ & R).
  apply ReCaptures.Run_Cat_inv in R. destruct R as (w4 & x4 & ? & -> & _ & R).
  apply ReCaptures.Run_Cat_inv in R. destruct R as (w5 & x5 & ? & -> & _ & R).
  apply ReCaptures.Run_Cat_inv in R.
  destruct R as (w6 & x6 & ? & -> & R6 & R7).
  apply ReCaptures.Run_chr_inv in R6. destruct R6 as [-> _].
  apply ReCaptures.Run_chr_inv in R7. destruct R7 as [-> _].
  apply includes_Substring.
  exists (pre ++ w1 ++ w2 ++ w3 ++ w4 ++ w5), t.
  rewrite <- !app_assoc. reflexivity.
Qed.

End BlockFacts.

(** X26.  Where the blocks are.  [parseThemeBlock] reads the declarations
    between the first opening brace that follows the first [@theme] and the
    first closing brace at the start of a line after it; a text in which no
    line starts with a closing brace has no theme block, even if it has
    [@theme { ... }] on one line.  [parseRootAndDark] reads the
    declarations between the first [:root {] (respectively [.dark {]) and
    the first closing brace after it, so a nested block ends it. *)
Theorem blocks_are_located :
  (forall pre blanks params body post : str,
      Str.includes (js "@theme") pre = false ->
      blanks <> [] -> forallb Str.isSpace blanks = true ->
      forallb (Re.noneOf "{") params = true ->
      stopsClass Str.isSpace params ->
      Str.includes (["010"%char; "}"%char]) body = false ->
      parseThemeBlock
        (pre ++ js "@theme" ++ blanks ++ params ++ js "{" ++ body
           ++ ["010"%char; "}"%char] ++ post)
      = extractCSSVariables body)
  /\ (forall css : str,
        Str.includes (["010"%char; "}"%char]) css = false -> parseThemeBlock css = [])
  /\ (forall pre blanks body post : str,
        Str.includes (js ":root") pre = false ->
        forallb Str.isSpace blanks = true ->
        Str.includes (js "}") body = false ->
        light (parseRootAndDark
                 (pre ++ js ":root" ++ blanks ++ js "{" ++ body ++ js "}"
                    ++ post))
        = assignAll (extractCSSVariables body) ∅)
  /\ (forall pre blanks body post : str,
        Str.includes (js ".dark") pre = false ->
        forallb Str.isSpace blanks = true ->
        Str.includes (js "}") body = false ->
        dark (parseRootAndDark
                (pre ++ js ".dark" ++ blanks ++ js "{" ++ body ++ js "}"
                   ++ post))
        = assignAll (extractCSSVariables body) ∅).
Proof.
  split; [|split; [|split]].
  - intros pre blanks params body post Hpre Hne Hbl Hpar Hstop Hbody.
    destruct (BlockFacts.theme_run pre blanks params body post
                Hpre Hne Hbl Hpar Hstop Hbody) as (m & Hm & Ht).
    unfold parseThemeBlock. now rewrite Hm, Ht.
  - intros css H. unfold parseThemeBlock.
    destruct (Re.exec ParserPattern.theme css) as [m|] eqn:E;
      [|reflexivity].
    apply BlockFacts.theme_closing in E. congruence.
  - intros pre blanks body post Hpre Hbl Hbody.
    destruct (BlockFacts.root_run (js ":root") pre blanks body post
                ":"%char (js "root") eq_refl eq_refl Hpre Hbl Hbody)
      as (m & Hm & Ht).
    unfold parseRootAndDark. cbn [light].
    change ParserPattern.root
      with (Re.seq [Re.lit (js ":root"); Re.star Re.ws; Re.chr "{";
                    Re.Grp 1 (Re.lazy (Re.Cls Re.any)); Re.chr "}"]).
    now rewrite Hm, Ht.
  - intros pre blanks body post Hpre Hbl Hbody.
    destruct (BlockFacts.root_run (js ".dark") pre blanks body post
                "."%char (js "dark") eq_refl eq_refl Hpre Hbl Hbody)
      as (m & Hm & Ht).
    unfold parseRootAndDark. cbn [dark].
    change ParserPattern.darkBlock
      with (Re.seq [Re.lit (js ".dark"); Re.star Re.ws; Re.chr "{";
                    Re.Grp 1 (Re.lazy (Re.Cls Re.any)); Re.chr "}"]).
    now rewrite Hm, Ht.
Qed.

Lemma blocks_are_located_witness :
  parseThemeBlock
    (js "@import 'x';
@theme default {
  --radius-md: 6px;
}
")
  = [Sample.var "--radius-md" "6px"]
  /\ parseThemeBlock (js "@theme { --radius-md: 6px; }") = []
  /\ dark (parseRootAndDark
             (js ":root { --bg: #fff; } .dark { --bg: #000; }"))
     = assignAll (extractCSSVariables (js " --bg: #000; ")) ∅.
Proof.
  split; [|split].
  - exact (proj1 blocks_are_located
             (js "@import 'x';
") (js " ") (js "default ")
             (js "
  --radius-md: 6px;") (js "
")
             eq_refl ltac:(discriminate) eq_refl eq_refl eq_refl eq_refl).
  - exact (proj1 (proj2 blocks_are_located)
             (js "@theme { --radius-md: 6px; }") eq_refl).
  - exact (proj2 (proj2 (proj2 blocks_are_located))
             (js ":root { --bg: #fff; } ") (js " ") (js " --bg: #000; ")
             [] eq_refl eq_refl eq_refl).
Defined.

(* ===================================================================== *)
(** ** The theme tokens of the JSON token files *)
(* ===================================================================== *)

Module JsonThemeFacts.
Import JsonTokens.

Lemma assign_lookup (name k : str) (v w : Json) (o : gmap str Json) :
  assign name v o !! k = Some w ->
  (k = name /\ w = v /\ name <> js "__proto__") \/ o !! k = Some w.
Proof.
  unfold assign. destruct (Str.eqb name (js "__proto__")) eqn:E;
    [now right|].
  apply Str_eqb_neq in E. intro H.
  apply lookup_insert_Some in H. destruct H as [[<- <-]|[_ H]];
    [now left|now right].
Qed.

Lemma step_sound (stripCategoryPrefix : bool) (data : list (str * Json))
    (acc : JsonThemeTokens) (entry : str * Json) :
  In entry data ->
  (forall n v, light acc !! n = Some v ->
               fromMode "Light" stripCategoryPrefix data n v) ->
  (forall n v, dark acc !! n = Some v ->
               fromMode "Dark" stripCategoryPrefix data n v) ->
  (forall n v,
      light (parseJsonToken stripCategoryPrefix acc entry) !! n = Some v ->
      fromMode "Light" stripCategoryPrefix data n v)
  /\ (forall n v,
        dark (parseJsonToken stripCategoryPrefix acc entry) !! n = Some v ->
        fromMode "Dark" stripCategoryPrefix data n v).
Proof.
  intros Hin Hl Hd. destruct entry as [key value].
  unfold parseJsonToken.
  destruct value as [| | |s| |]; try (split; assumption);
    (destruct (has "size" _) eqn:Hsize; [split; assumption|]);
    (destruct (has "Light" _ || has "Dark" _); [|split; assumption]);
    cbn [light dark]; split; intros n v H.
  all: match goal with
       | H : match get ?mode ?value with _ => _ end !! _ = Some _ |- _ =>
           destruct (get mode value) as [w|] eqn:G; [|auto];
           destruct (truthy (Some w)) eqn:T; [|auto];
           apply assign_lookup in H;
           destruct H as [(-> & -> & Hn)|H]; [|auto];
           exists key, value; repeat split; assumption
       end.
Qed.

Lemma fold_sound (stripCategoryPrefix : bool) (data : list (str * Json)) :
  forall (l : list (str * Json)) (acc : JsonThemeTokens),
    incl l data ->
    (forall n v, light acc !! n = Some v ->
                 fromMode "Light" stripCategoryPrefix data n v) ->
    (forall n v, dark acc !! n = Some v ->
                 fromMode "Dark" stripCategoryPrefix data n v) ->
    (forall n v,
        light (fold_left (parseJsonToken stripCategoryPrefix) l acc) !! n
        = Some v ->
        fromMode "Light" stripCategoryPrefix data n v)
    /\ (forall n v,
          dark (fold_left (parseJsonToken stripCategoryPrefix) l acc) !! n
          = Some v ->
          fromMode "Dark" stripCategoryPrefix data n v).
Proof.
  induction l as [|entry l IH]; intros acc Hincl Hl Hd; cbn [fold_left].
  - now split.
  - destruct (step_sound stripCategoryPrefix data acc entry
                (Hincl entry (or_introl eq_refl)) Hl Hd) as [Hl' Hd'].
    apply IH; [|exact Hl'|exact Hd'].
    intros e He. apply Hincl. now right.
Qed.

Lemma indexOf_none (c : ascii) (key : str) :
  indexOf c key = None <-> forallb (Re.noneOf c) key = true.
Proof.
  induction key as [|a key IH]; cbn [indexOf forallb]; [tauto|].
  unfold Re.noneOf at 1. unfold Str.isChar.
  destruct (Ascii.eqb c a); cbn [negb andb].
  - split; discriminate.
  - rewrite <- IH. destruct (indexOf c key); split; congruence.
Qed.

Lemma indexOf_first (c : ascii) (category rest : str) :
  indexOf c category = None ->
  indexOf c (category ++ c :: rest) = Some (length category).
Proof.
  induction category as [|a category IH]; cbn [indexOf app length].
  - now rewrite Ascii.eqb_refl.
  - destruct (Ascii.eqb c a); [discriminate|].
    destruct (indexOf c category) eqn:E; [discriminate|].
    intros _. now rewrite IH.
Qed.

End JsonThemeFacts.

(** X27 ([parseJsonTokens]).  Every token of the light (dark) map comes
    from the file: it is the value of the [Light] ([Dark]) key of the
    object of an entry, a value that is not falsy; the object has no [size]
    key; the token is named by the key of the entry, or by what follows the
    first slash of the key when prefixes are stripped, and is never named
    [__proto__].  Stripping gives [rest] for a key [category/rest] whose
    category has no slash, and leaves a key without slash as it is. *)
Theorem parseJsonTokens_from_modes
    (data : list (str * JsonTokens.Json)) (stripCategoryPrefix : bool) :
  (forall tokenName v,
      JsonTokens.light (JsonTokens.parseJsonTokens data stripCategoryPrefix)
        !! tokenName = Some v ->
      JsonTokens.fromMode "Light" stripCategoryPrefix data tokenName v)
  /\ (forall tokenName v,
        JsonTokens.dark (JsonTokens.parseJsonTokens data stripCategoryPrefix)
          !! tokenName = Some v ->
        JsonTokens.fromMode "Dark" stripCategoryPrefix data tokenName v)
  /\ (forall category rest,
        forallb (Re.noneOf "/") category = true ->
        JsonTokens.stripPrefix (category ++ js "/" ++ rest) = rest)
  /\ (forall key,
        forallb (Re.noneOf "/") key = true ->
        JsonTokens.stripPrefix key = key).
Proof.
  destruct (JsonThemeFacts.fold_sound stripCategoryPrefix data data
              (JsonTokens.ThemeTokens ∅ ∅) (incl_refl data))
    as [Hl Hd];
    try (intros n v H; cbn [JsonTokens.light JsonTokens.dark] in H;
         rewrite lookup_empty in H; discriminate H).
  split; [exact Hl|]. split; [exact Hd|]. split.
  - intros category rest H. apply JsonThemeFacts.indexOf_none in H.
    unfold JsonTokens.stripPrefix.
    change (category ++ js "/" ++ rest) with (category ++ "/"%char :: rest).
    rewrite (JsonThemeFacts.indexOf_first "/" category rest H).
    replace (skipn (length category + 1) (category ++ "/"%char :: rest))
      with (skipn 1 (skipn (length category)
                       (category ++ "/"%char :: rest)))
      by (rewrite skipn_skipn; f_equal; lia).
    now rewrite skipn_app, skipn_all, Nat.sub_diag.
  - intros key H. apply JsonThemeFacts.indexOf_none in H.
    unfold JsonTokens.stripPrefix. now rewrite H.
Qed.

Lemma parseJsonTokens_from_modes_witness :
  let data :=
    [(js "colors/background",
      JsonTokens.JObject
        [(js "Light", JsonTokens.JString (js "#ffffff"));
         (js "Dark", JsonTokens.JString (js "#000000"))]);
     (js "font/sans", JsonTokens.JString (js "Inter"))] in
  JsonTokens.light (JsonTokens.parseJsonTokens data true) !! js "background"
  = Some (JsonTokens.JString (js "#ffffff"))
  /\ JsonTokens.fromMode "Light" true data (js "background")
       (JsonTokens.JString (js "#ffffff")).
Proof.
  cbv zeta.
  assert (H : JsonTokens.light
                (JsonTokens.parseJsonTokens
                   [(js "colors/background",
                     JsonTokens.JObject
                       [(js "Light", JsonTokens.JString (js "#ffffff"));
                        (js "Dark", JsonTokens.JString (js "#000000"))]);
                    (js "font/sans", JsonTokens.JString (js "Inter"))]
                   true) !! js "background"
              = Some (JsonTokens.JString (js "#ffffff")))
    by (vm_compute; reflexivity).
  split; [exact H|].
  exact (proj1 (parseJsonTokens_from_modes _ true) _ _ H).
Defined.

(* ===================================================================== *)
(** ** The percent sign of [oklch] *)
(* ===================================================================== *)

Module OklchShape.
Import Re.

Lemma digitDot_not_percent (c : ascii) :
  digitDot c = true -> Str.isChar "%" c = false.
Proof.
  destruct c as [[] [] [] [] [] [] [] []]; vm_compute; intro H;
    first [reflexivity | discriminate H].
Qed.

Lemma space_not_percent (c : ascii) :
  Str.isSpace c = true -> Str.isChar "%" c = false.
Proof.
  destruct c as [[] [] [] [] [] [] [] []]; vm_compute; intro H;
    first [reflexivity | discriminate H].
Qed.

Lemma space_not_upper (c : ascii) :
  Str.isSpace c = true -> Str.isUpper c = false.
Proof.
  destruct c as [[] [] [] [] [] [] [] []]; vm_compute; intro H;
    first [reflexivity | discriminate H].
Qed.

Lemma digitDot_not_upper (c : ascii) :
  digitDot c = true -> Str.isUpper c = false.
Proof.
  destruct c as [[] [] [] [] [] [] [] []]; vm_compute; intro H;
    first [reflexivity | discriminate H].
Qed.

Lemma blanks_stop (b t : str) :
  b <> [] -> forallb Str.isSpace b = true -> stopsClass digitDot (b ++ t).
Proof.
  intros Hne Hb. destruct b as [|a b]; [contradiction|].
  cbn in *. apply andb_prop in Hb. now apply RgbShape.space_not_digitDot.
Qed.

(** The optional percent sign, there or not. *)
Lemma run_pct {A} (sign t : str) (k : mstate -> option A) (st : mstate)
    (x : A) :
  sign = [] \/ sign = js "%" -> stopsClass (Str.isChar "%") t ->
  rest st = sign ++ t ->
  k (after st sign t) = Some x ->
  rmatch Pattern.pct k st = Some x.
Proof.
  intros [-> | ->] Ht Hr Hk; unfold Pattern.pct, opt, chr; cbn [rmatch];
    rewrite Hr; cbn [app js String.list_ascii_of_string].
  - cbn [app] in Hr. rewrite <- Hr, ReRun.after_nil in Hk.
    destruct t as [|a t]; [exact Hk|].
    change (Str.isChar "%" a = false) in Ht. now rewrite Ht.
  - change (Str.isChar "%" "%") with true. cbv iota.
    replace (advance st) with (after st (js "%") t).
    + now rewrite Hk.
    + unfold advance, after. rewrite Hr.
      cbn [js String.list_ascii_of_string app tl length]. f_equal. lia.
Qed.

(** The pattern of [oklch] on three numbers without alpha. *)
Lemma oklch_run (l sign b1 c b2 h : str) :
  sign = [] \/ sign = js "%" ->
  l <> [] -> forallb digitDot l = true ->
  c <> [] -> forallb digitDot c = true ->
  h <> [] -> forallb digitDot h = true ->
  b1 <> [] -> forallb Str.isSpace b1 = true ->
  b2 <> [] -> forallb Str.isSpace b2 = true ->
  exists m,
    exec Pattern.oklch
      (js "oklch(" ++ l ++ sign ++ b1 ++ c ++ b2 ++ h ++ js ")")
    = Some m
    /\ group 1 m = Some l /\ group 2 m = Some c /\ group 3 m = Some h
    /\ group 4 m = None.
Proof.
  intros Hs Nl Dl Nc Dc Nh Dh N1 D1 N2 D2.
  assert (Sb1 : stopsClass (Str.isChar "%") (b1 ++ c ++ b2 ++ h ++ js ")")).
  { destruct b1 as [|a b1]; [contradiction|]. cbn in *.
    apply andb_prop in D1. now apply space_not_percent. }
  eexists. split.
  - unfold exec. apply CalcShape.searchFrom_here. unfold matchHere.
    unfold Pattern.oklch. cbn [seq].
    rewrite CalcShape.rmatch_Cat.
    rewrite (ReRun.run_lit (js "oklch(")
               (l ++ sign ++ b1 ++ c ++ b2 ++ h ++ js ")")) by reflexivity.
    rewrite CalcShape.rmatch_Cat.
    apply (ReRun.run_star_class Str.isSpace []
             (l ++ sign ++ b1 ++ c ++ b2 ++ h ++ js ")"));
      [reflexivity|now apply CalcShape.stops_space|reflexivity|].
    rewrite CalcShape.rmatch_Cat, CalcShape.rmatch_Grp.
    apply (ReRun.run_plus_class digitDot l
             (sign ++ b1 ++ c ++ b2 ++ h ++ js ")"));
      [exact Nl|exact Dl| |reflexivity|].
    { destruct Hs as [-> | ->];
        [cbn [app]; now apply (blanks_stop b1)|reflexivity]. }
    rewrite CalcShape.rmatch_Cat.
    apply (run_pct sign (b1 ++ c ++ b2 ++ h ++ js ")"));
      [exact Hs|exact Sb1|reflexivity|].
    rewrite CalcShape.rmatch_Cat.
    apply (ReRun.run_plus_class Str.isSpace b1 (c ++ b2 ++ h ++ js ")"));
      [exact N1|exact D1|now apply CalcShape.stops_space|reflexivity|].
    rewrite CalcShape.rmatch_Cat, CalcShape.rmatch_Grp.
    apply (ReRun.run_plus_class digitDot c (b2 ++ h ++ js ")"));
      [exact Nc|exact Dc|now apply blanks_stop|reflexivity|].
    rewrite CalcShape.rmatch_Cat.
    apply (ReRun.run_plus_class Str.isSpace b2 (h ++ js ")"));
      [exact N2|exact D2|now apply CalcShape.stops_space|reflexivity|].
    rewrite CalcShape.rmatch_Cat, CalcShape.rmatch_Grp.
    apply (ReRun.run_plus_class digitDot h (js ")"));
      [exact Nh|exact Dh|reflexivity|reflexivity|].
    rewrite CalcShape.rmatch_Cat.
    apply (ReRun.run_star_class Str.isSpace [] (js ")"));
      [reflexivity|reflexivity|reflexivity|].
    rewrite CalcShape.rmatch_Cat.
    rewrite (RgbShape.run_opt_absent (Str.isChar "/") _ _ _ ")"%char [])
      by reflexivity.
    rewrite CalcShape.rmatch_Cat.
    apply (ReRun.run_star_class Str.isSpace [] (js ")"));
      [reflexivity|reflexivity|reflexivity|].
    unfold chr. rewrite ReRun.rmatch_Cls.
    cbn [after capture rest js String.list_ascii_of_string].
    change (Str.isChar ")" ")") with true. cbv iota.
    reflexivity.
  - unfold group.
    cbn [groups caps advance capture after setNth nth pos rest].
    repeat split.
    all: f_equal; apply CalcShape.firstn_exact;
      rewrite ?length_app; cbn [length js String.list_ascii_of_string];
      lia.
Qed.

End OklchShape.

Section OklchPercent.
Context {num : Type} (N : JsNum num).

Lemma lower_fixed (s : str) :
  forallb (fun c => negb (Str.isUpper c)) s = true -> Str.toLowerCase s = s.
Proof.
  induction s as [|c s IH]; [reflexivity|].
  cbn [forallb Str.toLowerCase map]. intro H. apply andb_prop in H.
  destruct H as [Hc Hs]. fold (Str.toLowerCase s). rewrite (IH Hs).
  f_equal. unfold Str.lowerChar. now destruct (Str.isUpper c).
Qed.

Lemma lower_digits (s : str) :
  forallb Re.digitDot s = true ->
  forallb (fun c => negb (Str.isUpper c)) s = true.
Proof.
  apply RgbPlain.forallb_weaken. intros c Hc.
  now rewrite (OklchShape.digitDot_not_upper c Hc).
Qed.

Lemma lower_blanks (s : str) :
  forallb Str.isSpace s = true ->
  forallb (fun c => negb (Str.isUpper c)) s = true.
Proof.
  apply RgbPlain.forallb_weaken. intros c Hc.
  now rewrite (OklchShape.space_not_upper c Hc).
Qed.

(** [parseColorValue] on three numbers in [oklch(...)], with or without
    the percent sign. *)
Lemma parseColorValue_oklch (l sign b1 c b2 h : str) :
  sign = [] \/ sign = js "%" ->
  l <> [] -> forallb Re.digitDot l = true ->
  c <> [] -> forallb Re.digitDot c = true ->
  h <> [] -> forallb Re.digitDot h = true ->
  b1 <> [] -> forallb Str.isSpace b1 = true ->
  b2 <> [] -> forallb Str.isSpace b2 = true ->
  parseColorValue (N := N)
    (js "oklch(" ++ l ++ sign ++ b1 ++ c ++ b2 ++ h ++ js ")")
  = Ok (Some (oklchToRgba
                (if lt (lit 1) (parseFloat l)
                 then div (parseFloat l) (lit 100) else parseFloat l)
                (parseFloat c) (parseFloat h) (lit 1))).
Proof.
  intros Hs Nl Dl Nc Dc Nh Dh N1 D1 N2 D2.
  destruct (OklchShape.oklch_run l sign b1 c b2 h
              Hs Nl Dl Nc Dc Nh Dh N1 D1 N2 D2)
    as (m & Hm & G1 & G2 & G3 & G4).
  unfold parseColorValue.
  replace (Str.trim (js "oklch(" ++ l ++ sign ++ b1 ++ c ++ b2 ++ h
                       ++ js ")"))
    with (js "oklch(" ++ l ++ sign ++ b1 ++ c ++ b2 ++ h ++ js ")").
  2:{ change (js ")") with [")"%char].
      replace (js "oklch(" ++ l ++ sign ++ b1 ++ c ++ b2 ++ h ++ [")"%char])
        with ((js "oklch(" ++ l ++ sign ++ b1 ++ c ++ b2 ++ h)
                ++ [")"%char])
        by (now rewrite <- !app_assoc).
      rewrite trim_snoc by reflexivity. reflexivity. }
  rewrite lower_fixed.
  2:{ rewrite !forallb_app, (lower_digits l Dl), (lower_digits c Dc),
        (lower_digits h Dh), (lower_blanks b1 D1), (lower_blanks b2 D2).
      destruct Hs as [-> | ->]; reflexivity. }
  rewrite Hm. unfold alphaOf, Re.present, Re.text.
  now rewrite G1, G2, G3, G4.
Qed.

End OklchPercent.

(** X28.  The percent sign after the lightness of [oklch(...)] changes
    nothing: with or without it, [parseColorValue] divides the lightness by
    100 exactly when the number is greater than 1, and passes it on as it
    is otherwise, so [0.5%] is read as the lightness 0.5.  This holds in
    every number model, for numbers made of digits and dots that are
    separated by blanks. *)
Theorem oklch_percent_sign_is_ignored {num : Type} (N : JsNum num)
    (l b1 c b2 h : str) :
  l <> [] -> forallb Re.digitDot l = true ->
  c <> [] -> forallb Re.digitDot c = true ->
  h <> [] -> forallb Re.digitDot h = true ->
  b1 <> [] -> forallb Str.isSpace b1 = true ->
  b2 <> [] -> forallb Str.isSpace b2 = true ->
  parseColorValue (N := N)
    (js "oklch(" ++ l ++ js "%" ++ b1 ++ c ++ b2 ++ h ++ js ")")
  = parseColorValue (N := N)
      (js "oklch(" ++ l ++ b1 ++ c ++ b2 ++ h ++ js ")")
  /\ parseColorValue (N := N)
       (js "oklch(" ++ l ++ b1 ++ c ++ b2 ++ h ++ js ")")
     = Ok (Some (oklchToRgba
                   (if lt (lit 1) (parseFloat l)
                    then div (parseFloat l) (lit 100) else parseFloat l)
                   (parseFloat c) (parseFloat h) (lit 1))).
Proof.
  intros Nl Dl Nc Dc Nh Dh N1 D1 N2 D2.
  pose proof (parseColorValue_oklch N l (js "%") b1 c b2 h
                (or_intror eq_refl) Nl Dl Nc Dc Nh Dh N1 D1 N2 D2) as Hp.
  pose proof (parseColorValue_oklch N l [] b1 c b2 h
                (or_introl eq_refl) Nl Dl Nc Dc Nh Dh N1 D1 N2 D2) as Hn.
  cbn [app] in Hn. split; [|exact Hn]. now rewrite Hp, Hn.
Qed.

Lemma oklch_percent_sign_is_ignored_witness :
  parseColorValue (N := realNum) (js "oklch(0.5% 0 0)")
  = parseColorValue (N := realNum) (js "oklch(0.5 0 0)").
Proof.
  apply (proj1 (oklch_percent_sign_is_ignored realNum
                  (js "0.5") (js " ") (js "0") (js " ") (js "0")
                  ltac:(discriminate) eq_refl ltac:(discriminate) eq_refl
                  ltac:(discriminate) eq_refl ltac:(discriminate) eq_refl
                  ltac:(discriminate) eq_refl)).
Defined.

(* ===================================================================== *)
(** ** Shadow layers of a known shape *)
(* ===================================================================== *)

Module WordFacts.
Import LayerText.

Lemma words_blank (l : str) :
  forallb Str.isSpace l = true -> forall s, words (l ++ s) = words s.
Proof.
  induction l as [|c l IH]; intros H s; [reflexivity|].
  cbn [forallb] in H. apply andb_prop in H. destruct H as [Hc Hl].
  cbn [app words]. rewrite Hc. now apply IH.
Qed.

Lemma words_all_blank (l : str) :
  forallb Str.isSpace l = true -> words l = [].
Proof.
  intro H. rewrite <- (app_nil_r l). now rewrite words_blank.
Qed.

(** A field read at the head of a text. *)
Lemma words_field (w : str) :
  w <> [] -> forallb notSpace w = true ->
  forall s, stopsClass notSpace s -> words (w ++ s) = w :: words s.
Proof.
  induction w as [|c w IH]; intros Hne Hw s Hs; [contradiction|].
  cbn [forallb] in Hw. apply andb_prop in Hw. destruct Hw as [Hc Hw].
  unfold notSpace in Hc. apply negb_true_iff in Hc.
  destruct w as [|d w].
  - cbn [app words]. rewrite Hc. destruct s as [|e s]; [reflexivity|].
    cbn in Hs. unfold notSpace in Hs. apply negb_false_iff in Hs.
    now rewrite Hs.
  - change ((c :: d :: w) ++ s) with (c :: (d :: w) ++ s).
    cbn [words]. rewrite Hc.
    change ((d :: w) ++ s) with (d :: w ++ s) at 1.
    pose proof Hw as Hd. cbn [forallb] in Hd. apply andb_prop in Hd.
    destruct Hd as [Hd _]. unfold notSpace in Hd.
    apply negb_true_iff in Hd. rewrite Hd.
    now rewrite (IH ltac:(discriminate) Hw s Hs).
Qed.

Lemma Spaced_words (ws : list str) (s : str) :
  Spaced ws s -> words s = ws.
Proof.
  induction 1 as [|w Hne Hw|w sp ws s Hne Hw Hsp Hb Hws HS IH].
  - reflexivity.
  - rewrite <- (app_nil_r w) at 1. now rewrite words_field.
  - rewrite words_field; try assumption.
    + now rewrite words_blank, IH.
    + destruct sp as [|c sp]; [contradiction|]. cbn in *.
      apply andb_prop in Hb. destruct Hb as [Hc _].
      unfold notSpace. now rewrite Hc.
Qed.

Lemma Spaced_starts (ws : list str) (s : str) :
  Spaced ws s -> stopsClass Str.isSpace s.
Proof.
  destruct 1 as [|w Hne Hw|w sp ws s Hne Hw _ _ _ _]; [exact I| |];
    (destruct w as [|c w]; [contradiction|]);
    cbn in *; apply andb_prop in Hw; destruct Hw as [Hc _];
    unfold notSpace in Hc; now apply negb_true_iff in Hc.
Qed.

Lemma Spaced_ends (ws : list str) (s : str) :
  Spaced ws s -> stopsClass Str.isSpace (rev s).
Proof.
  induction 1 as [|w Hne Hw|w sp ws s Hne Hw Hsp Hb Hws HS IH].
  - exact I.
  - destruct (rev w) as [|c r] eqn:E; [exact I|]. cbn.
    assert (Hin : In c w) by (apply in_rev; rewrite E; now left).
    pose proof (proj1 (forallb_forall _ _) Hw c Hin) as Hc.
    unfold notSpace in Hc. now apply negb_true_iff in Hc.
  - rewrite !rev_app_distr.
    destruct HS as [|w' Hne' Hw'|w' sp' ws' s' Hne' Hw' ? ? ? ?];
      [contradiction| |].
    + destruct (rev w') as [|c r] eqn:E.
      * apply (f_equal (@rev _)) in E. rewrite rev_involutive in E.
        now subst w'.
      * exact IH.
    + destruct (rev (w' ++ sp' ++ s')) as [|c r] eqn:E.
      * apply (f_equal (@rev _)) in E. rewrite rev_involutive in E.
        destruct w'; [contradiction|discriminate].
      * exact IH.
Qed.

Lemma Spaced_empty (ws : list str) (s : str) :
  Spaced ws s -> (ws = [] <-> s = []).
Proof.
  destruct 1 as [|w Hne Hw|w sp ws s Hne Hw _ _ _ _].
  - tauto.
  - split; [discriminate|]. intros ->. contradiction.
  - split; [discriminate|]. destruct w; [contradiction|discriminate].
Qed.

(** Every text is fields with white space around them. *)
Lemma spaced_decomposition (s : str) :
  exists l ws core r,
    s = l ++ core ++ r
    /\ forallb Str.isSpace l = true /\ forallb Str.isSpace r = true
    /\ Spaced ws core.
Proof.
  induction s as [|c t (l & ws & core & r & -> & Hl & Hr & HS)].
  - exists [], [], [], []. repeat split. constructor.
  - destruct (Str.isSpace c) eqn:Hc.
    + exists (c :: l), ws, core, r. repeat split; try assumption.
      cbn. now rewrite Hc.
    + assert (Hn : forallb notSpace [c] = true)
        by (cbn; unfold notSpace; now rewrite Hc).
      destruct l as [|d l].
      * destruct HS as [|w Hne Hw|w sp ws s Hne Hw Hsp Hb Hws HS].
        -- exists [], [[c]], [c], r. repeat split; try assumption.
           now constructor.
        -- exists [], [c :: w], (c :: w), r. repeat split; try assumption.
           constructor; [discriminate|]. cbn. unfold notSpace at 1.
           now rewrite Hc.
        -- exists [], ((c :: w) :: ws), ((c :: w) ++ sp ++ s), r.
           repeat split; try assumption.
           constructor; try assumption; [discriminate|].
           cbn. unfold notSpace at 1. now rewrite Hc.
      * destruct ws as [|w ws].
        -- apply Spaced_empty in HS. destruct HS as [HS _].
           rewrite (HS eq_refl). exists [], [[c]], [c], ((d :: l) ++ r).
           repeat split.
           ++ rewrite forallb_app. now rewrite Hl, Hr.
           ++ now constructor.
        -- exists [], ([c] :: w :: ws), ([c] ++ (d :: l) ++ core), r.
           repeat split; try assumption.
           ++ cbn. now rewrite <- !app_assoc.
           ++ constructor; try assumption; discriminate.
Qed.

Lemma trimStart_blank (l s : str) :
  forallb Str.isSpace l = true -> Str.trimStart (l ++ s) = Str.trimStart s.
Proof.
  induction l as [|c l IH]; intro H; [reflexivity|].
  cbn [forallb] in H. apply andb_prop in H. destruct H as [Hc Hl].
  cbn [app Str.trimStart]. rewrite Hc. now apply IH.
Qed.

Lemma trimStart_stops (s : str) :
  stopsClass Str.isSpace s -> Str.trimStart s = s.
Proof.
  destruct s as [|c s]; [reflexivity|]. cbn. now intros ->.
Qed.

Lemma trim_core (l core r : str) :
  forallb Str.isSpace l = true -> forallb Str.isSpace r = true ->
  stopsClass Str.isSpace core -> stopsClass Str.isSpace (rev core) ->
  Str.trim (l ++ core ++ r) = core.
Proof.
  intros Hl Hr Hs He. unfold Str.trim, Str.trimEnd.
  rewrite trimStart_blank by exact Hl.
  destruct core as [|c core].
  - cbn [app]. rewrite <- (app_nil_r r) at 1.
    rewrite trimStart_blank by exact Hr. reflexivity.
  - rewrite (trimStart_stops ((c :: core) ++ r)) by exact Hs.
    rewrite rev_app_distr, trimStart_blank
      by (rewrite forallb_forall in *; intros x Hx; apply Hr;
          now apply in_rev).
    rewrite trimStart_stops by exact He. apply rev_involutive.
Qed.

(** The trimmed text is the fields with white space between them. *)
Lemma trim_spaced (s : str) : Spaced (words s) (Str.trim s).
Proof.
  destruct (spaced_decomposition s) as (l & ws & core & r & -> & Hl & Hr & HS).
  rewrite trim_core; try assumption.
  - rewrite words_blank by exact Hl.
    assert (Hw : words (core ++ r) = ws).
    { destruct ws as [|w ws].
      - apply Spaced_empty in HS. rewrite (proj1 HS eq_refl).
        now apply words_all_blank.
      - clear Hl. revert Hr. 
        induction HS as [|w' Hne Hw|w' sp ws' s Hne Hw Hsp Hb Hws HS IH];
          intro Hr.
        + now apply words_all_blank.
        + rewrite words_field; try assumption.
          * now rewrite words_all_blank.
          * destruct r as [|c r]; [exact I|]. cbn in *.
            apply andb_prop in Hr. destruct Hr as [Hc _].
            unfold notSpace. now rewrite Hc.
        + rewrite <- !app_assoc. rewrite words_field; try assumption.
          * rewrite words_blank by exact Hb. now rewrite IH.
          * destruct sp as [|c sp]; [contradiction|]. cbn in *.
            apply andb_prop in Hb. destruct Hb as [Hc _].
            unfold notSpace. now rewrite Hc. }
    now rewrite Hw.
  - eapply Spaced_starts; eassumption.
  - eapply Spaced_ends; eassumption.
Qed.

End WordFacts.

Module SplitFacts.
Import Re LayerText.

Lemma spaces_miss (q : nat) (c : ascii) (t : str) (caps : list (option str)) :
  Str.isSpace c = false ->
  matchHere ParserPattern.spaces (MState q (c :: t) caps) = None.
Proof.
  intro H. unfold matchHere, ParserPattern.spaces, plus, ws.
  rewrite CalcShape.rmatch_Cat, ReRun.rmatch_Cls. cbn [rest].
  now rewrite H.
Qed.

Lemma spaces_here (q : nat) (sp t : str) :
  sp <> [] -> forallb Str.isSpace sp = true -> stopsClass Str.isSpace t ->
  exists m,
    matchHere ParserPattern.spaces (MState q (sp ++ t) []) = Some m
    /\ stop m = q + length sp.
Proof.
  intros Hne Hsp Ht. eexists. split.
  - unfold matchHere, ParserPattern.spaces, ws.
    apply (ReRun.run_plus_class Str.isSpace sp t); try assumption;
      reflexivity.
  - reflexivity.
Qed.

(** The scan goes over a field one character at a time. *)
Lemma scan_field (w : str) :
  forall (a post : str) (p fuel : nat),
    forallb notSpace w = true ->
    splitFrom ParserPattern.spaces (length w + fuel) p (length a)
      (a ++ w ++ post)
    = splitFrom ParserPattern.spaces fuel p (length a + length w)
        (a ++ w ++ post).
Proof.
  induction w as [|c w IH]; intros a post p fuel Hw.
  - cbn [length app]. now rewrite Nat.add_0_r.
  - cbn [forallb] in Hw. apply andb_prop in Hw. destruct Hw as [Hc Hw].
    unfold notSpace in Hc. apply negb_true_iff in Hc.
    cbn [length Nat.add splitFrom].
    assert (Hlen : Nat.leb (length (a ++ (c :: w) ++ post)) (length a)
                   = false).
    { apply Nat.leb_gt. rewrite !length_app. cbn [length]. lia. }
    rewrite Hlen.
    assert (Hskip : skipn (length a) (a ++ (c :: w) ++ post)
                    = c :: w ++ post).
    { rewrite skipn_app, skipn_all, Nat.sub_diag. reflexivity. }
    rewrite Hskip, spaces_miss by exact Hc.
    replace (a ++ (c :: w) ++ post) with ((a ++ [c]) ++ w ++ post)
      by now rewrite <- app_assoc.
    replace (S (length a)) with (length (a ++ [c]))
      by (rewrite length_app; cbn; lia).
    rewrite (IH (a ++ [c]) post p fuel Hw).
    f_equal. rewrite length_app. cbn [length]. lia.
Qed.

Lemma splitFrom_spaced (ws : list str) (core : str) :
  Spaced ws core -> ws <> [] ->
  forall (a : str) (fuel : nat),
    length core < fuel ->
    splitFrom ParserPattern.spaces fuel (length a) (length a) (a ++ core)
    = ws.
Proof.
  induction 1 as [|w Hne Hw|w sp ws s Hne Hw Hsp Hb Hws HS IH];
    intros Hnil a fuel Hf.
  - contradiction.
  - replace fuel with (length w + S (fuel - length w - 1)) by lia.
    replace (a ++ w) with (a ++ w ++ []) by now rewrite app_nil_r.
    rewrite (scan_field w a [] (length a) _ Hw).
    cbn [splitFrom].
    assert (Hlen : Nat.leb (length (a ++ w ++ [])) (length a + length w)
                   = true).
    { apply Nat.leb_le. rewrite !length_app. cbn [length]. lia. }
    rewrite Hlen, skipn_app, skipn_all, Nat.sub_diag. cbn [skipn app].
    now rewrite app_nil_r.
  - rewrite !length_app in Hf.
    assert (Hlw : 0 < length w) by (destruct w; [contradiction|cbn; lia]).
    assert (Hls : 0 < length sp) by (destruct sp; [contradiction|cbn; lia]).
    replace fuel with (length w + S (fuel - length w - 1)) by lia.
    rewrite (scan_field w a (sp ++ s) (length a) _ Hw).
    cbn [splitFrom].
    assert (Hlen : Nat.leb (length (a ++ w ++ sp ++ s))
                     (length a + length w) = false).
    { apply Nat.leb_gt. rewrite !length_app. lia. }
    rewrite Hlen.
    assert (Hskip : skipn (length a + length w) (a ++ w ++ sp ++ s)
                    = sp ++ s).
    { rewrite app_assoc, skipn_app.
      rewrite <- length_app, skipn_all, Nat.sub_diag. reflexivity. }
    rewrite Hskip.
    destruct (spaces_here (length a + length w) sp s Hsp Hb
                (WordFacts.Spaced_starts _ _ HS)) as (m & -> & Hstop).
    cbv zeta. rewrite Hstop.
    assert (Hmin : Nat.min (length a + length w + length sp)
                     (length (a ++ w ++ sp ++ s))
                   = length a + length w + length sp).
    { rewrite !length_app. lia. }
    rewrite Hmin.
    assert (Hne' : Nat.eqb (length a + length w + length sp) (length a)
                   = false) by (apply Nat.eqb_neq; lia).
    rewrite Hne'. f_equal.
    + replace (length a + length w - length a) with (length w) by lia.
      rewrite skipn_app, skipn_all, Nat.sub_diag. cbn [skipn app].
      apply CalcShape.firstn_exact. reflexivity.
    + replace (a ++ w ++ sp ++ s) with ((a ++ w ++ sp) ++ s)
        by now rewrite <- !app_assoc.
      replace (length a + length w + length sp) with (length (a ++ w ++ sp))
        by (rewrite !length_app; lia).
      apply IH; [exact Hws|lia].
Qed.

(** [withoutColor.split(/\s+/)] on a trimmed text: its fields, and one
    empty field when it has none. *)
Lemma split_trim (s : str) :
  Re.split ParserPattern.spaces (Str.trim s)
  = match words s with
    | [] => [[]]
    | w :: ws => w :: ws
    end.
Proof.
  pose proof (WordFacts.trim_spaced s) as HS.
  destruct (words s) as [|w ws] eqn:E.
  - apply WordFacts.Spaced_empty in HS. rewrite (proj1 HS eq_refl).
    reflexivity.
  - destruct (Str.trim s) as [|c t] eqn:Et.
    + apply WordFacts.Spaced_empty in HS. destruct HS as [_ HS].
      discriminate (HS eq_refl).
    + unfold Re.split.
      apply (splitFrom_spaced _ _ HS ltac:(discriminate) []). lia.
Qed.

End SplitFacts.

Module LayerShape.
Import Re LayerText.

(** No match of the colour pattern starts where no name starts. *)
Lemma colorFn_miss (p : nat) (s : str) (caps : list (option str)) :
  startsColor s = false ->
  matchHere ParserPattern.colorFn (MState p s caps) = None.
Proof.
  intro H.
  destruct (matchHere ParserPattern.colorFn (MState p s caps)) as [m|] eqn:E;
    [|reflexivity].
  exfalso. apply ReFacts.matchHere_sound in E.
  destruct E as (w & t & L & R & _). cbn [rest] in R. subst s.
  inversion L as [| | | | | | |i r w' L'|  |]; subst.
  cbn [Re.seq] in L'.
  inversion L' as [| |r1 r2 w1 w2 L1 L2| | | | | | |]; subst.
  assert (Hw1 : w1 = js "rgb" \/ w1 = js "oklch" \/ w1 = js "hsl").
  { inversion L1 as [| | |r1 r2 w La|r1 r2 w Lb| | | | |]; subst.
    - left. now apply ReFacts.Lang_lit.
    - right. inversion Lb as [| | |r1 r2 w La|r1 r2 w Lc| | | | |]; subst.
      + left. now apply ReFacts.Lang_lit.
      + right. now apply ReFacts.Lang_lit. }
  unfold startsColor in H. rewrite <- !app_assoc in H.
  destruct Hw1 as [->|[->| ->]]; rewrite startsWith_app in H;
    rewrite ?orb_true_r in H; discriminate H.
Qed.

Lemma field_not_name (c : ascii) :
  fieldOrSpace c = true ->
  Ascii.eqb "g" c = false /\ Ascii.eqb "o" c = false
  /\ Ascii.eqb "h" c = false /\ Ascii.eqb "i" c = false.
Proof.
  destruct c as [[] [] [] [] [] [] [] []]; vm_compute; intro H;
    first [discriminate H | repeat split].
Qed.

Lemma colorFunction_name (color : str) :
  colorFunction color ->
  exists n a args,
    color = n ++ a ++ "("%char :: args ++ js ")"
    /\ (n = js "rgb" \/ n = js "oklch" \/ n = js "hsl")
    /\ (a = [] \/ a = js "a")
    /\ args <> [] /\ forallb (noneOf ")") args = true.
Proof.
  intros (fn & args & -> & Hfn & Hne & Hargs).
  unfold colorNames in Hfn. cbn [map In] in Hfn.
  destruct Hfn as [<-|[<-|[<-|[<-|[<-|[<-|[]]]]]]].
  - exists (js "rgb"), [], args. repeat split; auto.
  - exists (js "rgb"), (js "a"), args. repeat split; auto.
  - exists (js "oklch"), [], args. repeat split; auto.
  - exists (js "oklch"), (js "a"), args. repeat split; auto.
  - exists (js "hsl"), [], args. repeat split; auto.
  - exists (js "hsl"), (js "a"), args. repeat split; auto.
Qed.

Lemma colorFunction_starts (color t : str) :
  colorFunction color ->
  startsColor (color ++ t) = true
  /\ exists c u, color = c :: u /\ Ascii.eqb "g" c = false
                 /\ Ascii.eqb "i" c = false.
Proof.
  intro H. apply colorFunction_name in H.
  destruct H as (n & a & args & -> & [->|[->| ->]] & _); split;
    try reflexivity; eexists; eexists; repeat split.
Qed.

(** No name of a colour function starts among the fields. *)
Lemma fields_clear (before color t : str) :
  forallb fieldOrSpace before = true -> colorFunction color ->
  forall b1 c b2,
    before = b1 ++ c :: b2 -> startsColor (c :: b2 ++ color ++ t) = false.
Proof.
  intros Hb Hc b1 c b2 ->.
  rewrite forallb_app in Hb. apply andb_prop in Hb. destruct Hb as [_ Hb].
  cbn [forallb] in Hb. apply andb_prop in Hb. destruct Hb as [Hc1 Hb2].
  destruct (field_not_name c Hc1) as (_ & Ho & Hh & _).
  unfold startsColor. cbn [js String.list_ascii_of_string Str.startsWith].
  rewrite Ho, Hh. cbn [andb orb]. rewrite !orb_false_r.
  destruct (Ascii.eqb "r" c); [|reflexivity]. cbn [andb].
  destruct b2 as [|d b2].
  - destruct (colorFunction_starts color t Hc) as (_ & e & u & -> & Hg & _).
    cbn [app]. now rewrite Hg.
  - cbn [forallb] in Hb2. apply andb_prop in Hb2. destruct Hb2 as [Hd _].
    destruct (field_not_name d Hd) as (Hg & _). cbn [app]. now rewrite Hg.
Qed.

(** The search for the colour goes over the fields before it. *)
Lemma search_color (before : str) :
  forall (color t : str) (p fuel : nat),
    (forall b1 c b2,
        before = b1 ++ c :: b2 ->
        startsColor (c :: b2 ++ color ++ t) = false) ->
    length before <= fuel ->
    searchFrom ParserPattern.colorFn fuel
      (MState p (before ++ color ++ t) [])
    = searchFrom ParserPattern.colorFn (fuel - length before)
        (MState (p + length before) (color ++ t) []).
Proof.
  induction before as [|c before IH]; intros color t p fuel Hclear Hf.
  - cbn [app length]. now rewrite Nat.sub_0_r, Nat.add_0_r.
  - cbn [length] in Hf. destruct fuel as [|fuel]; [lia|].
    cbn [app searchFrom].
    rewrite colorFn_miss by (apply (Hclear [] c before); reflexivity).
    cbn [rest pos tl length Nat.sub].
    rewrite (IH color t (S p) fuel).
    + now replace (S p + length before) with (p + S (length before)) by lia.
    + intros b1 d b2 ->. apply (Hclear (c :: b1) d b2). reflexivity.
    + lia.
Qed.

Lemma run_names {A} (n t : str) (k : mstate -> option A) (st : mstate)
    (x : A) :
  n = js "rgb" \/ n = js "oklch" \/ n = js "hsl" ->
  rest st = n ++ t -> k (after st n t) = Some x ->
  rmatch (Or (lit (js "rgb")) (Or (lit (js "oklch")) (lit (js "hsl")))) k st
  = Some x.
Proof.
  intros Hn Hr Hk.
  change (rmatch (Or (lit (js "rgb"))
                    (Or (lit (js "oklch")) (lit (js "hsl")))) k st)
    with (match rmatch (lit (js "rgb")) k st with
          | Some y => Some y
          | None =>
              match rmatch (lit (js "oklch")) k st with
              | Some y => Some y
              | None => rmatch (lit (js "hsl")) k st
              end
          end).
  destruct Hn as [->|[->| ->]].
  - now rewrite (ReRun.run_lit (js "rgb") t k st Hr), Hk.
  - rewrite (BlockFacts.lit_fails (js "rgb")) by (now rewrite Hr).
    now rewrite (ReRun.run_lit (js "oklch") t k st Hr), Hk.
  - rewrite (BlockFacts.lit_fails (js "rgb")) by (now rewrite Hr).
    rewrite (BlockFacts.lit_fails (js "oklch")) by (now rewrite Hr).
    now rewrite (ReRun.run_lit (js "hsl") t k st Hr), Hk.
Qed.

(** The colour pattern reads a colour function. *)
Lemma colorFn_here (color t : str) (p : nat) :
  colorFunction color ->
  exists m,
    matchHere ParserPattern.colorFn (MState p (color ++ t) []) = Some m
    /\ text 1 m = color.
Proof.
  intro H. apply colorFunction_name in H.
  destruct H as (n & a & args & -> & Hn & Ha & Hne & Hargs).
  eexists. split.
  - unfold matchHere, ParserPattern.colorFn. cbn [seq].
    rewrite CalcShape.rmatch_Grp, CalcShape.rmatch_Cat.
    apply (run_names n ((a ++ "("%char :: args ++ js ")") ++ t));
      [exact Hn|cbn [rest]; now rewrite <- app_assoc|].
    rewrite CalcShape.rmatch_Cat.
    apply (RgbShape.run_opt_a a ((args ++ js ")") ++ t)); [exact Ha| |].
    { cbn [after rest]. rewrite <- app_assoc. reflexivity. }
    rewrite CalcShape.rmatch_Cat. unfold chr at 1.
    rewrite ReRun.rmatch_Cls. cbn [after rest].
    change (Str.isChar "(" "(") with true. cbv iota.
    rewrite CalcShape.rmatch_Cat.
    apply (ReRun.run_plus_class (noneOf ")") args (js ")" ++ t));
      [exact Hne|exact Hargs|reflexivity
      |cbn [advance after rest tl]; rewrite <- app_assoc; reflexivity|].
    unfold chr. rewrite ReRun.rmatch_Cls. cbn [after advance rest app js
      String.list_ascii_of_string].
    change (Str.isChar ")" ")") with true. cbv iota.
    reflexivity.
  - unfold text, group.
    cbn [groups caps advance capture after setNth nth pos rest length tl
         app].
    apply CalcShape.firstn_exact.
    cbn [js String.list_ascii_of_string].
    rewrite !length_app. cbn [length]. rewrite !length_app. cbn [length].
    lia.
Qed.

End LayerShape.

Module LayerFields.
Import Re LayerText.

Lemma startsWith_color (color s : str) :
  colorFunction color -> Str.startsWith color s = true ->
  startsColor s = true.
Proof.
  intros Hc Hs. apply startsWith_split in Hs. destruct Hs as [u ->].
  now destruct (LayerShape.colorFunction_starts color u Hc).
Qed.

(** [shadow.replace(colorStr, '')] takes the colour function out. *)
Lemma replace_color (before color after : str) :
  colorFunction color -> forallb fieldOrSpace before = true ->
  Str.replace color [] (before ++ color ++ after) = before ++ after.
Proof.
  intros Hc. induction before as [|c before IH]; intro Hb.
  - cbn [app]. apply replace_prefix.
  - cbn [app Str.replace].
    destruct (Str.startsWith color (c :: before ++ color ++ after)) eqn:E.
    + apply (startsWith_color _ _ Hc) in E.
      rewrite (LayerShape.fields_clear (c :: before) color after Hb Hc
                 [] c before eq_refl) in E.
      discriminate E.
    + cbn [forallb] in Hb. apply andb_prop in Hb. destruct Hb as [_ Hb].
      now rewrite IH.
Qed.

Lemma rmatch_at_start {A} (k : mstate -> option A) (st : mstate) :
  rmatch Bol k st = if Nat.eqb (pos st) 0 then k st else None.
Proof. reflexivity. Qed.

(** [trimmed.replace(/^inset\s+/, '')] *)
Lemma inset_absent (c : ascii) (t : str) :
  Ascii.eqb "i" c = false -> shadowBody (c :: t) = c :: t.
Proof.
  intro H. unfold shadowBody, Re.replace, exec.
  cbn [length searchFrom].
  assert (Hm : matchHere ParserPattern.inset (MState 0 (c :: t) [])
               = None).
  { unfold matchHere, ParserPattern.inset. cbn [seq].
    rewrite CalcShape.rmatch_Cat, rmatch_at_start. cbn [pos Nat.eqb].
    rewrite CalcShape.rmatch_Cat.
    apply BlockFacts.lit_fails. cbn [rest js String.list_ascii_of_string
      Str.startsWith]. now rewrite H. }
  rewrite Hm. cbn [rest pos tl].
  unfold ParserPattern.inset. cbn [seq].
  now rewrite ReFacts.searchFrom_anchored by (cbn; lia).
Qed.

Lemma inset_present (sp body : str) :
  sp <> [] -> forallb Str.isSpace sp = true ->
  stopsClass Str.isSpace body ->
  shadowBody (js "inset" ++ sp ++ body) = body.
Proof.
  intros Hne Hsp Hb. unfold shadowBody, Re.replace.
  assert (Hm : exists m,
             exec ParserPattern.inset (js "inset" ++ sp ++ body) = Some m
             /\ index m = 0 /\ stop m = 5 + length sp).
  { eexists. split.
    - unfold exec. apply CalcShape.searchFrom_here.
      unfold matchHere, ParserPattern.inset. cbn [seq].
      rewrite CalcShape.rmatch_Cat, rmatch_at_start. cbn [pos Nat.eqb].
      rewrite CalcShape.rmatch_Cat.
      rewrite (ReRun.run_lit (js "inset") (sp ++ body)) by reflexivity.
      unfold ws.
      apply (ReRun.run_plus_class Str.isSpace sp body); try assumption;
        reflexivity.
    - split; reflexivity. }
  destruct Hm as (m & -> & -> & ->).
  cbn [firstn app]. rewrite app_assoc.
  replace (5 + length sp) with (length (js "inset" ++ sp))
    by (rewrite length_app; reflexivity).
  now rewrite skipn_app, skipn_all, Nat.sub_diag.
Qed.

Lemma body_of_layer (lead before color after : str) :
  leadingInset lead (before ++ color ++ after) ->
  colorFunction color -> forallb fieldOrSpace before = true ->
  shadowBody (lead ++ before ++ color ++ after)
  = before ++ color ++ after.
Proof.
  intros [->|(sp & -> & Hne & Hsp & Hstop)] Hc Hb.
  - cbn [app]. destruct before as [|c before].
    + destruct (LayerShape.colorFunction_starts color after Hc)
        as (_ & e & u & -> & _ & Hi).
      now apply inset_absent.
    + cbn [forallb] in Hb. apply andb_prop in Hb. destruct Hb as [Hc1 _].
      destruct (LayerShape.field_not_name c Hc1) as (_ & _ & _ & Hi).
      now apply inset_absent.
  - rewrite <- app_assoc. now apply inset_present.
Qed.

Lemma color_of_layer (before color after : str) :
  colorFunction color -> forallb fieldOrSpace before = true ->
  shadowColorStr (before ++ color ++ after) = color.
Proof.
  intros Hc Hb. unfold shadowColorStr, exec.
  rewrite LayerShape.search_color.
  - destruct (LayerShape.colorFn_here color after (0 + length before) Hc)
      as (m & Hm & Ht).
    now rewrite (CalcShape.searchFrom_here _ _ _ _ Hm).
  - now apply LayerShape.fields_clear.
  - rewrite length_app. lia.
Qed.

Lemma fields_of_layer (before color after : str) :
  colorFunction color -> forallb fieldOrSpace before = true ->
  shadowFields (before ++ color ++ after)
  = match words (before ++ after) with
    | [] => [[]]
    | w :: ws => w :: ws
    end.
Proof.
  intros Hc Hb. unfold shadowFields. cbv zeta.
  rewrite (color_of_layer _ _ _ Hc Hb), (replace_color _ _ _ Hc Hb).
  apply SplitFacts.split_trim.
Qed.

End LayerFields.

Section LayerDefaults.
Variables (cosf sinf : float -> float) (powf : float -> float -> float).
#[local] Existing Instance hostNum.
Import LayerText.

Lemma no_field :
  map (dimensionOrZero cosf sinf powf) [[]] = [0%float].
Proof. vm_compute. reflexivity. Qed.

Lemma numAt_fields (i : nat) (fields : list str) :
  numAt cosf sinf powf i
    (map (dimensionOrZero cosf sinf powf)
       match fields with
       | [] => [[]]
       | w :: ws => w :: ws
       end)
  = numAt cosf sinf powf i (map (dimensionOrZero cosf sinf powf) fields).
Proof.
  destruct fields as [|w ws]; [|reflexivity].
  rewrite no_field. destruct i as [|[|i]]; vm_compute; reflexivity.
Qed.

Lemma layer_of_shape (part lead before color after : str) :
  Str.trim part = lead ++ before ++ color ++ after ->
  leadingInset lead (before ++ color ++ after) ->
  colorFunction color ->
  forallb fieldOrSpace before = true ->
  exists layer,
    parseShadowLayer cosf sinf powf part = Ok (Some layer)
    /\ forall i,
         numAt cosf sinf powf i
           (map (dimensionOrZero cosf sinf powf)
              (shadowFields (shadowBody (Str.trim part))))
         = numAt cosf sinf powf i
             (map (dimensionOrZero cosf sinf powf)
                (words (before ++ after))).
Proof.
  intros Htrim Hlead Hc Hb.
  destruct (parseShadowLayer_total cosf sinf powf part)
    as (layer & Hl & Hsome).
  assert (Hne : nonEmpty (Str.trim part) = true).
  { rewrite Htrim.
    destruct (LayerShape.colorFunction_starts color after Hc)
      as (_ & e & u & -> & _).
    destruct lead, before; reflexivity. }
  destruct layer as [layer|]; [|now destruct (proj1 Hsome Hne)].
  exists layer. split; [exact Hl|]. intro i.
  rewrite Htrim, (LayerFields.body_of_layer _ _ _ _ Hlead Hc Hb),
    (LayerFields.fields_of_layer _ _ _ Hc Hb).
  apply numAt_fields.
Qed.

End LayerDefaults.

(** C7, as amended.  Take a layer whose text, once trimmed and with an
    [inset] keyword and the white space behind it taken off its front, is a
    colour function [rgb(...)], [rgba(...)], [oklch(...)], [hsl(...)] or
    [hsla(...)] whose arguments have no closing parenthesis among them,
    with numeric dimension fields and white space before it and any text
    behind it.  If the text around the colour function has at most two
    fields, the layer is returned with blur 0 and spread 0, and its x and y
    are what [parseDimension(...) || 0] gives on the first and on the
    second field (0 for a field that is missing).  A layer that is not
    blank and contains none of [rgb], [oklch] and [hsl] gets the colour
    black with alpha 0.1.  The layer ["2px 4px oklch(0 0 0)"] has the two
    fields [2px] and [4px] and gives x = 2, y = 4, blur = 0 and
    spread = 0. *)
Theorem shadow_layer_defaults
    (cosf sinf : float -> float) (powf : float -> float -> float) :
  (forall (part lead before color after : str),
      Str.trim part = lead ++ before ++ color ++ after ->
      LayerText.leadingInset lead (before ++ color ++ after) ->
      LayerText.colorFunction color ->
      forallb LayerText.fieldOrSpace before = true ->
      length (LayerText.words (before ++ after)) <= 2 ->
      exists layer,
        parseShadowLayer cosf sinf powf part = Ok (Some layer)
        /\ ShadowLayer.x layer
           = numAt cosf sinf powf 0
               (map (dimensionOrZero cosf sinf powf)
                  (LayerText.words (before ++ after)))
        /\ ShadowLayer.y layer
           = numAt cosf sinf powf 1
               (map (dimensionOrZero cosf sinf powf)
                  (LayerText.words (before ++ after)))
        /\ ShadowLayer.blur layer = 0%float
        /\ ShadowLayer.spread layer = 0%float)
  /\ (forall part : str,
         nonEmpty (Str.trim part) = true ->
         Str.includes (js "rgb") part = false ->
         Str.includes (js "oklch") part = false ->
         Str.includes (js "hsl") part = false ->
         exists layer,
           parseShadowLayer cosf sinf powf part = Ok (Some layer)
           /\ ShadowLayer.color layer
              = RGBA 0%float 0%float 0%float (F64.ofDecimal 0.1))
  /\ shadowFields (shadowBody (Str.trim (js "2px 4px oklch(0 0 0)")))
     = [js "2px"; js "4px"]
  /\ layerGeometry
       (parseShadowLayer cosf sinf powf (js "2px 4px oklch(0 0 0)"))
     = Some (2, 4, 0, 0)%float.
Proof.
  split; [|split; [|split; vm_compute; reflexivity]].
  - intros part lead before color after Htrim Hlead Hc Hb Hlen.
    destruct (layer_of_shape cosf sinf powf part lead before color after
                Htrim Hlead Hc Hb) as (layer & Hl & Hnum).
    exists layer. split; [exact Hl|].
    unfold parseShadowLayer in Hl.
    destruct (negb (nonEmpty (Str.trim part))); [discriminate|].
    unfold bind in Hl.
    destruct (parseColorValue _) as [parsed|e]; [|discriminate].
    injection Hl as <-.
    cbn [ShadowLayer.x ShadowLayer.y ShadowLayer.blur ShadowLayer.spread].
    rewrite !Hnum.
    split; [reflexivity|]. split; [reflexivity|].
    split; apply numAt_beyond; rewrite length_map; lia.
  - intros part Hne Hrgb Hoklch Hhsl.
    now apply default_color_of_layer.
Qed.

Lemma shadow_layer_defaults_witness :
  (exists layer,
      parseShadowLayer Sample.unary Sample.unary Sample.binary
        (js " inset 2px 4px rgba(0, 0, 0, 0.5) ") = Ok (Some layer)
      /\ ShadowLayer.blur layer = 0%float
      /\ ShadowLayer.spread layer = 0%float)
  /\ (exists layer,
         parseShadowLayer Sample.unary Sample.unary Sample.binary
           (js "inset 2px 4px") = Ok (Some layer)
         /\ ShadowLayer.color layer
            = RGBA 0%float 0%float 0%float (F64.ofDecimal 0.1)).
Proof.
  pose proof (shadow_layer_defaults
                Sample.unary Sample.unary Sample.binary) as (H1 & H2 & _).
  split.
  - destruct (H1 (js " inset 2px 4px rgba(0, 0, 0, 0.5) ")
                (js "inset ") (js "2px 4px ") (js "rgba(0, 0, 0, 0.5)") [])
      as (layer & Hl & _ & _ & Hb & Hs).
    + vm_compute. reflexivity.
    + right. exists (js " "). repeat split; try reflexivity. discriminate.
    + exists (js "rgba"), (js "0, 0, 0, 0.5").
      repeat split; try reflexivity; [|discriminate].
      unfold LayerText.colorNames. cbn [map In]. tauto.
    + vm_compute. reflexivity.
    + vm_compute. lia.
    + exists layer. repeat split; assumption.
  - destruct (H2 (js "inset 2px 4px")) as (layer & Hl & Hc);
      try (vm_compute; reflexivity).
    exists layer. split; assumption.
Defined.

(** C7 as stated fails.  The layer [2px 4px rgb(var(--r) 10 20)] has two
    dimension fields besides its colour function; the colour pattern stops
    at the first closing parenthesis, [10] and [20)] are left among the
    fields, and the blur is 10.  The layer [#000 2px 4px] has two dimension
    fields besides its colour, which is not a function; the colour is left
    among the fields, and the blur is 4. *)
Lemma shadow_layer_counterexample :
  js "2px 4px rgb(var(--r) 10 20)"
  = js "2px 4px " ++ js "rgb(var(--r) 10 20)"
  /\ LayerText.words (js "2px 4px ") = [js "2px"; js "4px"]
  /\ shadowColorStr (js "2px 4px rgb(var(--r) 10 20)") = js "rgb(var(--r)"
  /\ layerGeometry
       (parseShadowLayer Sample.unary Sample.unary Sample.binary
          (js "2px 4px rgb(var(--r) 10 20)"))
     = Some (2, 4, 10, 0)%float
  /\ layerGeometry
       (parseShadowLayer Sample.unary Sample.unary Sample.binary
          (js "#000 2px 4px"))
     = Some (0, 2, 4, 0)%float.
Proof. repeat split; vm_compute; reflexivity. Qed.

(* ===================================================================== *)
(** ** Names without an empty piece *)
(* ===================================================================== *)

Module PieceFacts.
Import Naming.

Lemma split_sep (sep : ascii) (a b : str) :
  Str.split sep (a ++ sep :: b) = Str.split sep a ++ Str.split sep b.
Proof.
  induction a as [|c a IH]; cbn [app Str.split].
  - now rewrite Ascii.eqb_refl.
  - rewrite IH. destruct (Ascii.eqb sep c); [reflexivity|].
    destruct (Str.split sep a) as [|w ws] eqn:E; [|reflexivity].
    now destruct (split_nonempty sep a).
Qed.

Lemma split_app (sep : ascii) (a b : str) :
  Str.split sep (a ++ b)
  = removelast (Str.split sep a)
    ++ (last (Str.split sep a) [] ++ hd [] (Str.split sep b))
       :: tl (Str.split sep b).
Proof.
  induction a as [|c a IH].
  - cbn [app Str.split removelast last].
    destruct (Str.split sep b) as [|w ws] eqn:E; [|reflexivity].
    now destruct (split_nonempty sep b).
  - cbn [app Str.split]. rewrite IH.
    destruct (Str.split sep a) as [|w1 ws1] eqn:E;
      [now destruct (split_nonempty sep a)|].
    destruct (Ascii.eqb sep c).
    + reflexivity.
    + destruct ws1 as [|w2 ws1]; reflexivity.
Qed.

Lemma gapped_whole (name : str) :
  Naming.gapped name = false ->
  whole (Re.replace ParserPattern.dashes [] name).
Proof.
  unfold Naming.gapped, whole. intros H Hin.
  assert (Ht : existsb (Str.eqb [])
                 (Str.split "-" (Re.replace ParserPattern.dashes [] name))
               = true).
  { apply existsb_exists. exists []. split; [exact Hin|reflexivity]. }
  congruence.
Qed.

Lemma whole_full (s : str) : whole s -> Naming.fullPath (Str.split "-" s).
Proof. intro H. split; [apply split_nonempty|exact H]. Qed.

Lemma whole_nonempty (s : str) : whole s -> s <> [].
Proof. intros H ->. apply H. now left. Qed.

(** What follows a prefix that ends with a dash. *)
Lemma whole_rest (p rest : str) :
  whole (p ++ "-"%char :: rest) -> whole rest.
Proof.
  unfold whole. rewrite split_sep. intros H Hin. apply H.
  apply in_or_app. now right.
Qed.

Lemma replace_spec (p s : str) :
  Str.replace p [] s = s
  \/ exists a b, s = a ++ p ++ b /\ Str.replace p [] s = a ++ b.
Proof.
  induction s as [|c s IH].
  - cbn [Str.replace]. destruct (Str.startsWith p []) eqn:E.
    + right. apply startsWith_split in E. destruct E as [t E].
      exists [], t. split; [exact E|].
      destruct p; [|discriminate E]. cbn in *. now subst t.
    + now left.
  - cbn [Str.replace]. destruct (Str.startsWith p (c :: s)) eqn:E.
    + right. apply startsWith_split in E. destruct E as [t E].
      exists [], t. split; [exact E|]. rewrite E. cbn [app].
      now rewrite skipn_app, skipn_all, Nat.sub_diag.
    + destruct IH as [->|(a & b & -> & ->)]; [now left|].
      right. now exists (c :: a), b.
Qed.

(** Taking one occurrence of a word and the dash behind it out of a text
    without an empty piece leaves no empty piece. *)
Lemma whole_without (a q b : str) :
  whole (a ++ (q ++ js "-") ++ b) -> whole (a ++ b).
Proof.
  unfold whole. intros H Hin.
  replace (a ++ (q ++ js "-") ++ b) with ((a ++ q) ++ "-"%char :: b) in H
    by (rewrite <- !app_assoc; reflexivity).
  rewrite split_sep in H.
  assert (Ha : ~ In [] (Str.split "-" (a ++ q)))
    by (intro Hx; apply H; apply in_or_app; now left).
  assert (Hb : ~ In [] (Str.split "-" b))
    by (intro Hx; apply H; apply in_or_app; now right).
  rewrite split_app in Ha, Hin.
  apply in_app_or in Hin. destruct Hin as [Hin|[Hin|Hin]].
  - apply Ha. apply in_or_app. now left.
  - destruct (Str.split "-" b) as [|w ws] eqn:E;
      [now destruct (split_nonempty "-" b)|].
    apply Hb. left. cbn [hd] in Hin.
    apply app_eq_nil in Hin. now destruct Hin.
  - apply Hb. destruct (Str.split "-" b); [contradiction|]. now right.
Qed.

Lemma whole_replace (q s : str) :
  whole s -> whole (Str.replace (q ++ js "-") [] s).
Proof.
  intro H. destruct (replace_spec (q ++ js "-") s) as [->|(a & b & -> & ->)];
    [exact H|].
  eapply whole_without. exact H.
Qed.

Lemma full_setNth (x : str) (parts : list str) :
  x <> [] -> Naming.fullPath parts ->
  Naming.fullPath (Re.setNth 0 x [] parts).
Proof.
  intros Hx [Hne Hin]. destruct parts as [|w ws]; [contradiction|].
  cbn [Re.setNth]. split; [discriminate|].
  intros [E|E]; [now apply Hx|]. apply Hin. now right.
Qed.

Lemma partsOrDefault_full (bare name : str) :
  whole name -> Naming.fullPath (partsOrDefault bare name).
Proof.
  intro H. unfold partsOrDefault.
  pose proof (whole_full _ (whole_replace bare name H)) as Hf.
  destruct (Str.eqb name bare); [|exact Hf].
  apply full_setNth; [discriminate|exact Hf].
Qed.

(** What is left of a name once its prefix is taken off. *)
Lemma rest_whole (p name : str) :
  Str.startsWith (p ++ js "-") name = true -> whole name ->
  whole (Str.replace (p ++ js "-") [] name).
Proof. intros _. apply whole_replace. Qed.

Lemma maxW_short (rest : str) :
  Re.replace ParserPattern.maxW [] (js "max-w-" ++ rest) = rest.
Proof. reflexivity. Qed.

Lemma maxW_long (rest : str) :
  Re.replace ParserPattern.maxW [] (js "max-width-" ++ rest) = rest.
Proof. reflexivity. Qed.

Lemma maxW_whole (name : str) :
  Str.startsWith (js "max-w-") name
  || Str.startsWith (js "max-width-") name = true ->
  whole name -> whole (Re.replace ParserPattern.maxW [] name).
Proof.
  intros H Hw. apply orb_prop in H.
  destruct H as [H|H]; apply startsWith_split in H; destruct H as [t ->].
  - rewrite maxW_short.
    apply (whole_rest (js "max-w") t). exact Hw.
  - rewrite maxW_long.
    apply (whole_rest (js "max-width") t). exact Hw.
Qed.

End PieceFacts.
Section NamingTurns.
Variables (cosf sinf : float -> float) (powf : float -> float -> float).
#[local] Existing Instance hostNum.
Import Naming.

Lemma Named_append (a b : ParsedTokenSet) :
  Named a -> Named b -> Named (appendSets a b).
Proof.
  intros (Ha1 & Ha2 & Ha3) (Hb1 & Hb2 & Hb3).
  destruct a, b. unfold Named, floatFamilies, appendSets in *.
  cbn [colors spacing radius shadows blur backdropBlur typography opacity
       fonts breakpoints containers fontWeights tracking leading borderWidth
       maxWidth skew] in *.
  repeat match goal with
         | H : Forall _ (_ :: _) |- _ => inversion_clear H
         end.
  repeat split; repeat (apply Forall_cons); try apply Forall_nil;
    apply Forall_app; split; assumption.
Qed.

Lemma FullyNamed_append (a b : ParsedTokenSet) :
  FullyNamed a -> FullyNamed b -> FullyNamed (appendSets a b).
Proof.
  intros (Ha1 & Ha2 & Ha3 & Ha4 & Ha5) (Hb1 & Hb2 & Hb3 & Hb4 & Hb5).
  destruct a, b. unfold FullyNamed, floatFamilies, appendSets in *.
  cbn [colors spacing radius shadows blur backdropBlur typography opacity
       fonts breakpoints containers fontWeights tracking leading borderWidth
       maxWidth skew] in *.
  repeat match goal with
         | H : Forall _ (_ :: _) |- _ => inversion_clear H
         end.
  split; [|split; [|split; [|split]]];
    repeat (apply Forall_cons); try apply Forall_nil;
    apply Forall_app; split; assumption.
Qed.

Lemma FullyNamed_empty : FullyNamed emptyTokenSet.
Proof.
  unfold FullyNamed, floatFamilies, emptyTokenSet.
  cbn [colors spacing radius shadows blur backdropBlur typography opacity
       fonts breakpoints containers fontWeights tracking leading borderWidth
       maxWidth skew].
  split; [|split; [|split; [|split]]]; repeat constructor.
Qed.

Lemma full_single (s : str) : whole s -> fullPath [s].
Proof.
  intro H. split; [discriminate|]. intros [E|[]].
  now apply (PieceFacts.whole_nonempty s H).
Qed.

Lemma full_base : fullPath [js "base"].
Proof. split; [discriminate|]. intros [E|[]]. discriminate E. Qed.

(** The names a turn of the loop gives, for a name without an empty
    piece. *)
Ltac whole_name Hw :=
  first
    [ exact full_base
    | apply PieceFacts.partsOrDefault_full; exact Hw
    | apply full_single;
      first [ apply PieceFacts.maxW_whole; assumption
            | apply (PieceFacts.whole_replace (js "breakpoint"));
              exact Hw
            | apply (PieceFacts.whole_replace (js "container")); exact Hw
            | apply (PieceFacts.whole_replace (js "font-weight"));
              exact Hw
            | apply (PieceFacts.whole_replace (js "tracking")); exact Hw
            | apply (PieceFacts.whole_replace (js "leading")); exact Hw ]
    | apply PieceFacts.whole_full;
      first [ apply (PieceFacts.whole_replace (js "color")); exact Hw
            | apply (PieceFacts.whole_replace (js "opacity")); exact Hw
            | apply (PieceFacts.whole_replace (js "border-width"));
              exact Hw
            | apply (PieceFacts.whole_replace (js "skew")); exact Hw ]
    | apply PieceFacts.whole_nonempty;
      first [ apply (PieceFacts.whole_replace (js "text")); exact Hw
            | apply (PieceFacts.whole_replace (js "font")); exact Hw ]
    | discriminate ].

Lemma contribution_named (vars : list CSSVariable.t) (h h' : Hoisted.t)
    (v : CSSVariable.t) (c : ParsedTokenSet) :
  categorize cosf sinf powf vars (emptyTokenSet, h) v = Ok (c, h') ->
  Named c /\ (gapped (CSSVariable.name v) = false -> FullyNamed c).
Proof.
  intro H. split.
  { eapply categorize_named; [exact H|apply emptyTokenSet_named]. }
  intro Hg. apply PieceFacts.gapped_whole in Hg.
  unfold emptyTokenSet in H.
  categorize_cases H;
    unfold FullyNamed, floatFamilies;
    cbn [colors spacing radius shadows blur backdropBlur typography opacity
         fonts breakpoints containers fontWeights tracking leading
         borderWidth maxWidth skew Push.colors Push.spacing Push.radius
         Push.shadows Push.blur Push.backdropBlur Push.typography
         Push.opacity Push.fonts Push.breakpoints Push.containers
         Push.fontWeights Push.tracking Push.leading Push.borderWidth
         Push.maxWidth Push.skew app];
    (split; [|split; [|split; [|split]]]);
    repeat (first [apply Forall_nil | apply Forall_cons]);
    cbn [ParsedFloat.path ParsedColor.path ParsedShadow.name
         ParsedTypography.name ParsedFont.name typographyOf];
    whole_name Hg.
Qed.

Lemma SinglyNamed_append (a b : ParsedTokenSet) :
  SinglyNamed a -> SinglyNamed b -> SinglyNamed (appendSets a b).
Proof.
  intros (Ha1 & Ha2 & Ha3) (Hb1 & Hb2 & Hb3).
  destruct a, b. unfold SinglyNamed, singleFamilies, appendSets in *.
  cbn [colors spacing radius shadows blur backdropBlur typography opacity
       fonts breakpoints containers fontWeights tracking leading borderWidth
       maxWidth skew] in *.
  repeat match goal with
         | H : Forall _ (_ :: _) |- _ => inversion_clear H
         end.
  split; [|split];
    repeat (apply Forall_cons); try apply Forall_nil;
    apply Forall_app; split; assumption.
Qed.

Lemma SinglyNamed_empty : SinglyNamed emptyTokenSet.
Proof.
  unfold SinglyNamed, singleFamilies, emptyTokenSet.
  cbn [typography fonts breakpoints containers fontWeights tracking leading
       maxWidth].
  split; [|split]; repeat constructor.
Qed.

(** What follows the prefix of a name that does not end with a dash. *)
Lemma rest_nonempty (p name : str) :
  Str.endsWith (js "-") p = true ->
  Str.startsWith p name = true ->
  Str.endsWith (js "-") name = false ->
  Str.replace p [] name <> [].
Proof.
  intros Hp Hs He. apply startsWith_split in Hs. destruct Hs as [t ->].
  rewrite replace_prefix. intros ->. rewrite app_nil_r in He. congruence.
Qed.

Lemma maxW_nonempty (name : str) :
  Str.startsWith (js "max-w-") name
  || Str.startsWith (js "max-width-") name = true ->
  Str.endsWith (js "-") name = false ->
  Re.replace ParserPattern.maxW [] name <> [].
Proof.
  intros H He. apply orb_prop in H.
  destruct H as [H|H]; apply startsWith_split in H; destruct H as [t ->].
  - rewrite PieceFacts.maxW_short. intros ->. discriminate He.
  - rewrite PieceFacts.maxW_long. intros ->. discriminate He.
Qed.

Lemma full_one (s : str) : s <> [] -> fullPath [s].
Proof.
  intro H. split; [discriminate|]. intros [E|[]]. now apply H.
Qed.

Lemma contribution_single (vars : list CSSVariable.t) (h h' : Hoisted.t)
    (v : CSSVariable.t) (c : ParsedTokenSet) :
  categorize cosf sinf powf vars (emptyTokenSet, h) v = Ok (c, h') ->
  dangling (CSSVariable.name v) = false -> SinglyNamed c.
Proof.
  intros H Hd. unfold dangling in Hd.
  unfold emptyTokenSet in H.
  categorize_cases H;
    unfold SinglyNamed, singleFamilies;
    cbn [colors spacing radius shadows blur backdropBlur typography opacity
         fonts breakpoints containers fontWeights tracking leading
         borderWidth maxWidth skew Push.colors Push.spacing Push.radius
         Push.shadows Push.blur Push.backdropBlur Push.typography
         Push.opacity Push.fonts Push.breakpoints Push.containers
         Push.fontWeights Push.tracking Push.leading Push.borderWidth
         Push.maxWidth Push.skew app];
    (split; [|split]);
    repeat (first [apply Forall_nil | apply Forall_cons]);
    cbn [ParsedFloat.path ParsedTypography.name ParsedFont.name
         typographyOf];
    first [ apply full_one;
            first [ now apply maxW_nonempty
                  | apply rest_nonempty;
                    [reflexivity|assumption|assumption] ]
          | apply rest_nonempty; [reflexivity| |assumption];
            match goal with
            | E : (Str.startsWith ?p ?n && _)%bool = true
              |- Str.startsWith ?p ?n = true =>
                apply andb_prop in E; now destruct E
            end ].
Qed.

Lemma categorize_adds (vars : list CSSVariable.t)
    (result result' : ParsedTokenSet) (h h' : Hoisted.t)
    (v : CSSVariable.t) :
  categorize cosf sinf powf vars (result, h) v = Ok (result', h') ->
  exists added,
    result' = appendSets result added
    /\ Named added
    /\ (gapped (CSSVariable.name v) = false -> FullyNamed added)
    /\ (dangling (CSSVariable.name v) = false -> SinglyNamed added).
Proof.
  rewrite categorize_appends.
  destruct (categorize cosf sinf powf vars (emptyTokenSet, h) v)
    as [[c h1]|e] eqn:E; [|discriminate].
  intros [= <- <-]. exists c. split; [reflexivity|].
  destruct (contribution_named vars h h1 v c E) as [Hn Hf].
  split; [exact Hn|]. split; [exact Hf|].
  now apply (contribution_single vars h h1 v c).
Qed.

Lemma categorizeAll_fully (vars vs : list CSSVariable.t) :
  forall result result' h h',
    categorizeAll cosf sinf powf vars vs (result, h) = Ok (result', h') ->
    Forall (fun v => gapped (CSSVariable.name v) = false) vs ->
    FullyNamed result -> FullyNamed result'.
Proof.
  induction vs as [|v vs IH]; intros result result' h h' H Hvs Hn.
  - cbn in H. now injection H as <- <-.
  - cbn [categorizeAll] in H. unfold bind in H.
    destruct (categorize cosf sinf powf vars (result, h) v) as [[r1 h1]|e]
      eqn:E; [|discriminate].
    inversion_clear Hvs as [|? ? Hv Hvs'].
    eapply IH; [exact H|exact Hvs'|].
    apply categorize_adds in E. destruct E as (added & -> & _ & Hf & _).
    apply FullyNamed_append; [exact Hn|now apply Hf].
Qed.

Lemma categorizeAll_singly (vars vs : list CSSVariable.t) :
  forall result result' h h',
    categorizeAll cosf sinf powf vars vs (result, h) = Ok (result', h') ->
    Forall (fun v => dangling (CSSVariable.name v) = false) vs ->
    SinglyNamed result -> SinglyNamed result'.
Proof.
  induction vs as [|v vs IH]; intros result result' h h' H Hvs Hn.
  - cbn in H. now injection H as <- <-.
  - cbn [categorizeAll] in H. unfold bind in H.
    destruct (categorize cosf sinf powf vars (result, h) v) as [[r1 h1]|e]
      eqn:E; [|discriminate].
    inversion_clear Hvs as [|? ? Hv Hvs'].
    eapply IH; [exact H|exact Hvs'|].
    apply categorize_adds in E. destruct E as (added & -> & _ & _ & Hs).
    apply SinglyNamed_append; [exact Hn|now apply Hs].
Qed.

Lemma setSpacing_singly (xs : list ParsedFloat.t) (ts : ParsedTokenSet) :
  SinglyNamed ts -> SinglyNamed (setSpacing xs ts).
Proof. now destruct ts. Qed.

Lemma scale_full (basePx : float) :
  Forall (fun f => fullPath (ParsedFloat.path f))
    (generateSpacingScale cosf sinf powf basePx).
Proof.
  apply Forall_forall. intros f Hf.
  apply (in_map ParsedFloat.path) in Hf.
  unfold generateSpacingScale in Hf. rewrite map_map in Hf.
  cbn [ParsedFloat.path] in Hf.
  assert (Hall : Forall fullPath
                   (map (fun step =>
                           [Re.replaceAll ParserPattern.dot (js "_")
                              (F64.toString step)])
                      (steps cosf sinf powf))).
  { vm_compute.
    repeat (apply Forall_cons;
            [split; [discriminate|intros [E|[]]; discriminate E]|]).
    apply Forall_nil. }
  exact (proj1 (Forall_forall _ _) Hall _ Hf).
Qed.

Lemma bases_full (vs : list CSSVariable.t) :
  Forall (fun f => fullPath (ParsedFloat.path f))
    (spacingBases cosf sinf powf vs).
Proof.
  apply Forall_forall. intros f Hf. unfold spacingBases in Hf.
  apply in_flat_map in Hf. destruct Hf as (v & _ & Hf).
  unfold spacingBase in Hf.
  destruct (Str.eqb _ _); [|contradiction].
  destruct (parseDimension _); [|contradiction].
  destruct Hf as [<-|[]]. exact full_base.
Qed.

Lemma setSpacing_fully (xs : list ParsedFloat.t) (ts : ParsedTokenSet) :
  Forall (fun f => fullPath (ParsedFloat.path f)) xs ->
  FullyNamed ts -> FullyNamed (setSpacing xs ts).
Proof.
  intros Hxs (H1 & H2 & H3 & H4 & H5). destruct ts.
  unfold FullyNamed, floatFamilies in *.
  cbn [colors spacing radius shadows blur backdropBlur typography opacity
       fonts breakpoints containers fontWeights tracking leading borderWidth
       maxWidth skew setSpacing] in *.
  split; [exact H1|]. split; [|now repeat split].
  inversion_clear H2. now constructor.
Qed.

Lemma spacing_setSpacing (xs : list ParsedFloat.t) (ts : ParsedTokenSet) :
  spacing (setSpacing xs ts) = xs.
Proof. now destruct ts. Qed.

Lemma categorizeTokens_spacing_full (vars : list CSSVariable.t)
    (ts : ParsedTokenSet) :
  categorizeTokens cosf sinf powf vars = Ok ts ->
  Forall (fun f => fullPath (ParsedFloat.path f)) (spacing ts).
Proof.
  unfold categorizeTokens, bind. intro H.
  destruct (categorizeAll cosf sinf powf vars vars initial)
    as [[result h]|e] eqn:Hall; [|discriminate].
  apply categorizeAll_spacing in Hall. cbn [fst] in H.
  cbn [spacing emptyTokenSet app] in Hall.
  pose proof (bases_full vars) as Hb. rewrite <- Hall in Hb.
  destruct (spacing result) as [|base [|]] eqn:Es; injection H as <-;
    try (rewrite Es; exact Hb).
  rewrite spacing_setSpacing. apply scale_full.
Qed.

Lemma categorizeTokens_fully (vars : list CSSVariable.t)
    (ts : ParsedTokenSet) :
  categorizeTokens cosf sinf powf vars = Ok ts ->
  Forall (fun v => gapped (CSSVariable.name v) = false) vars ->
  FullyNamed ts.
Proof.
  unfold categorizeTokens, bind. intros H Hvars.
  destruct (categorizeAll cosf sinf powf vars vars initial)
    as [[result h]|e] eqn:Hall; [|discriminate].
  assert (Hn : FullyNamed result)
    by (eapply categorizeAll_fully;
        [exact Hall|exact Hvars|apply FullyNamed_empty]).
  cbn [fst] in H.
  destruct (spacing result) as [|base [|]]; injection H as <-;
    try exact Hn.
  apply setSpacing_fully; [apply scale_full|exact Hn].
Qed.

Lemma categorizeTokens_singly (vars : list CSSVariable.t)
    (ts : ParsedTokenSet) :
  categorizeTokens cosf sinf powf vars = Ok ts ->
  Forall (fun v => dangling (CSSVariable.name v) = false) vars ->
  SinglyNamed ts.
Proof.
  unfold categorizeTokens, bind. intros H Hvars.
  destruct (categorizeAll cosf sinf powf vars vars initial)
    as [[result h]|e] eqn:Hall; [|discriminate].
  assert (Hn : SinglyNamed result)
    by (eapply categorizeAll_singly;
        [exact Hall|exact Hvars|apply SinglyNamed_empty]).
  cbn [fst] in H.
  destruct (spacing result) as [|base [|]]; injection H as <-;
    try exact Hn.
  now apply setSpacing_singly.
Qed.

End NamingTurns.

(** C9, as amended.  For every list of variables on which
    [categorizeTokens] returns a token set: the path of every colour token
    and of every float token of every family is a non-empty array, the name
    of every shadow token is a non-empty string, and no path of the spacing
    family has an empty component.  When no variable of the list has a name
    with an empty piece between dashes (past the leading [--], the name is
    not empty, neither starts nor ends with a dash and has no two dashes in
    a row), the invariant holds in full: no path has an empty component,
    and the names of the typography and font tokens are not empty.  When no
    name ends with a dash, the tokens that are named by all that follows
    the prefix have a name: the paths of the breakpoint, container, font
    weight, tracking, leading and max-width families have no empty
    component, and the names of the typography and font tokens are not
    empty.  This holds turn by turn: whatever the other variables, a turn
    of the loop only appends, what it appends is named as in the first
    sentence, and what a variable appends is named in full when its name
    has no empty piece, and has a name in the families of the third
    sentence when its name does not end with a dash. *)
Theorem categorizeTokens_paths_nonempty
    (cosf sinf : float -> float) (powf : float -> float -> float) :
  (forall (vars : list CSSVariable.t) (ts : ParsedTokenSet),
      categorizeTokens cosf sinf powf vars = Ok ts ->
      Naming.Named ts
      /\ Forall (fun f => Naming.fullPath (ParsedFloat.path f)) (spacing ts))
  /\ (forall (vars : list CSSVariable.t) (ts : ParsedTokenSet),
         categorizeTokens cosf sinf powf vars = Ok ts ->
         Forall (fun v => Naming.gapped (CSSVariable.name v) = false) vars ->
         Naming.FullyNamed ts)
  /\ (forall (vars : list CSSVariable.t) (ts : ParsedTokenSet),
         categorizeTokens cosf sinf powf vars = Ok ts ->
         Forall (fun v => Naming.dangling (CSSVariable.name v) = false)
           vars ->
         Naming.SinglyNamed ts)
  /\ (forall (vars : list CSSVariable.t) (result result' : ParsedTokenSet)
             (hoisted hoisted' : Hoisted.t) (v : CSSVariable.t),
         categorize cosf sinf powf vars (result, hoisted) v
         = Ok (result', hoisted') ->
         exists added,
           result' = appendSets result added
           /\ Naming.Named added
           /\ (Naming.gapped (CSSVariable.name v) = false ->
               Naming.FullyNamed added)
           /\ (Naming.dangling (CSSVariable.name v) = false ->
               Naming.SinglyNamed added)).
Proof.
  split; [|split; [|split]].
  - intros vars ts H. split.
    + now apply (categorizeTokens_named cosf sinf powf vars).
    + now apply (categorizeTokens_spacing_full cosf sinf powf vars).
  - apply categorizeTokens_fully.
  - apply categorizeTokens_singly.
  - apply categorize_adds.
Qed.

Lemma categorizeTokens_paths_nonempty_witness :
  exists ts,
    categorizeTokens Sample.unary Sample.unary Sample.binary
      [Sample.var "--color-red-500" "#f00"; Sample.var "--radius" "4px";
       Sample.var "--shadow-sm" "0 1px 2px #000";
       Sample.var "--text-sm" "14px"; Sample.var "--font-sans" "Inter"]
    = Ok ts
    /\ Naming.Named ts /\ Naming.FullyNamed ts.
Proof.
  eexists. split; [vm_compute; reflexivity|].
  pose proof (categorizeTokens_paths_nonempty
                Sample.unary Sample.unary Sample.binary) as (H1 & H2 & _).
  split.
  - apply (H1 [Sample.var "--color-red-500" "#f00";
               Sample.var "--radius" "4px";
               Sample.var "--shadow-sm" "0 1px 2px #000";
               Sample.var "--text-sm" "14px";
               Sample.var "--font-sans" "Inter"]).
    vm_compute. reflexivity.
  - apply (H2 [Sample.var "--color-red-500" "#f00";
               Sample.var "--radius" "4px";
               Sample.var "--shadow-sm" "0 1px 2px #000";
               Sample.var "--text-sm" "14px";
               Sample.var "--font-sans" "Inter"]).
    + vm_compute. reflexivity.
    + repeat constructor.
Defined.

(** C9 as stated fails: the variables [--color-], [--text-] and [--font-],
    whose names end with a dash, give a colour whose path is [[""]], a
    typography token and a font token whose names are empty. *)
Lemma empty_names_counterexample :
  exists ts,
    categorizeTokens Sample.unary Sample.unary Sample.binary
      [Sample.var "--color-" "#fff"; Sample.var "--text-" "14px";
       Sample.var "--font-" "Inter"] = Ok ts
    /\ map ParsedColor.path (colors ts) = [[js ""]]
    /\ map ParsedTypography.name (typography ts) = [js ""]
    /\ map ParsedFont.name (fonts ts) = [js ""]
    /\ map (fun v => Naming.gapped (CSSVariable.name v))
         [Sample.var "--color-" "#fff"; Sample.var "--text-" "14px";
          Sample.var "--font-" "Inter"] = [true; true; true]
    /\ ~ Naming.FullyNamed ts.
Proof.
  eexists. split; [vm_compute; reflexivity|].
  split; [vm_compute; reflexivity|].
  split; [vm_compute; reflexivity|].
  split; [vm_compute; reflexivity|].
  split; [vm_compute; reflexivity|].
  intros (Hc & _). cbn [colors] in Hc.
  inversion_clear Hc as [|? ? (_ & Hin) _].
  apply Hin. now left.
Qed.
